(** * Q_FEA numerical pipeline: Hamiltonian padding, Pauli decomposition,
      Trotter synthesis with its mock fallback, and the amplitude estimator.

    The Python sources are embedded as executable Rocq definitions.

    - Python exceptions are the left summand of ExtLib's error monad
      [sum PyError]; [try ... except] is [catch].
    - Python [int] is unbounded, so counts are [nat] or [Z].
    - numpy floats are idealised as exact rationals [Q]; complex entries are
      pairs of rationals.  [int(np.ceil(np.log2 n))] is the exact integer
      ceiling of the binary logarithm (the float computation agrees with it
      on every matrix side that fits in memory).
    - a 2-D [ndarray] is the list of its rows. *)

From Stdlib Require Import String Ascii.
From Stdlib Require Import List Arith ZArith QArith Qabs Qround Bool Lia Lqa.
From Stdlib Require Import Permutation Sorted DecimalString.
From ExtLib Require Import Structures.Monad Structures.MonadExc.
From ExtLib Require Import Data.Monads.EitherMonad.
Import ListNotations.
Import MonadNotation.
Local Open Scope monad_scope.
Local Open Scope nat_scope.

(* ===================================================================== *)
(** ** Python exceptions and the error monad                              *)
(* ===================================================================== *)

Inductive PyError : Type :=
| AttributeError (obj attr : string)
| TypeError (what : string)
| KeyError (key : string)
| IndexError
| OverflowError
| ZeroDivisionError
| LinAlgError
| ValueError (what : string)
| CapacityError (qubit_count max_qubits : Z)
| BackendError (what : string).

Definition py (A : Type) : Type := sum PyError A.

#[global] Instance Monad_py : Monad py := Monad_either PyError.
#[global] Instance MonadExc_py : MonadExc PyError py :=
  Exception_either PyError.

(** [f"{z}"] for an integer *)
Definition dec (z : Z) : string := NilZero.string_of_int (Z.to_int z).

(** [seq[:m]] for a Python integer [m], negative [m] counting from the end. *)
Definition py_take {A : Type} (m : Z) (l : list A) : list A :=
  if (m <? 0)%Z then firstn (length l - Z.to_nat (- m)) l
  else firstn (Z.to_nat m) l.

(** [int(np.ceil(np.log2(n)))]: [np.log2 0 = -inf] and [int(-inf)] raises. *)
Definition ceil_log2 (n : nat) : py nat :=
  match n with
  | O => raise OverflowError
  | _ => ret (Z.to_nat (Z.log2_up (Z.of_nat n)))
  end.

(* ===================================================================== *)
(** ** Complex numbers and matrices                                       *)
(* ===================================================================== *)

Record complex : Type := Cx { re : Q; im : Q }.

Definition c0 : complex := Cx 0 0.

Definition cadd (a b : complex) : complex :=
  Cx (re a + re b) (im a + im b).

(** complex / int *)
Definition cdiv_nat (a : complex) (n : nat) : complex :=
  Cx (re a / inject_Z (Z.of_nat n)) (im a / inject_Z (Z.of_nat n)).

(** squared modulus; [np.abs z] is its square root *)
Definition norm2 (a : complex) : Q := re a * re a + im a * im a.

Definition Qltb (a b : Q) : bool := negb (Qle_bool b a).

(** [np.abs(z) > t] decided without the square root. *)
Definition cabs_gt (z : complex) (t : Q) : bool :=
  Qltb t 0 || Qltb (t * t) (norm2 z).

(** [np.abs(x) > t] for a real [x]. *)
Definition abs_gt (x : Q) (t : Q) : bool := Qltb t (Qabs x).

Definition matrix (A : Type) : Type := list (list A).

(** [H[i, j]] *)
Definition getitem {A : Type} (H : matrix A) (i j : nat) : py A :=
  match nth_error H i with
  | Some row =>
      match nth_error row j with
      | Some c => ret c
      | None => raise IndexError
      end
  | None => raise IndexError
  end.

Definition is_square {A : Type} (H : matrix A) : bool :=
  forallb (fun row => length row =? length H) H.

(** [np.trace(H)]: the sum along the main diagonal. *)
Fixpoint trace_from (k : nat) (H : matrix complex) : complex :=
  match H with
  | [] => c0
  | row :: rest => cadd (nth k row c0) (trace_from (S k) rest)
  end.

Definition np_trace (H : matrix complex) : complex := trace_from 0 H.

(* ===================================================================== *)
(** ** Python strings                                                     *)
(* ===================================================================== *)

(** ['c' * n] *)
Fixpoint str_repeat (c : ascii) (n : nat) : string :=
  match n with
  | O => EmptyString
  | S k => String c (str_repeat c k)
  end.

(** [l[i] = c] on a list of characters *)
Fixpoint setitem (l : list ascii) (i : nat) (c : ascii) : py (list ascii) :=
  match l, i with
  | [], _ => raise IndexError
  | _ :: tl, O => ret (c :: tl)
  | x :: tl, S k => tl' <- setitem tl k c ;; ret (x :: tl')
  end.

(* ===================================================================== *)
(** ** Sorting by a descending key                                        *)
(* ===================================================================== *)

(** Stable insertion sort, largest key first: the order Python's
    [list.sort(key=..., reverse=True)] produces. *)
Fixpoint insert_desc {A : Type} (key : A -> Q) (x : A) (l : list A) : list A :=
  match l with
  | [] => [x]
  | y :: tl =>
      if Qltb (key x) (key y) then y :: insert_desc key x tl else x :: y :: tl
  end.

Fixpoint sort_desc {A : Type} (key : A -> Q) (l : list A) : list A :=
  match l with
  | [] => []
  | x :: tl => insert_desc key x (sort_desc key tl)
  end.

Fixpoint Qsum (l : list Q) : Q :=
  match l with
  | [] => 0
  | x :: tl => x + Qsum tl
  end.

Definition chI : ascii := "I"%char.
Definition chX : ascii := "X"%char.
Definition chY : ascii := "Y"%char.
Definition chZ : ascii := "Z"%char.

(* ===================================================================== *)
(** ** compute_pauli_coeffs_batch_parallel.compute_pauli_coefficients     *)
(* ===================================================================== *)

Module PauliCoeffs.

(** The two parallel lists [pauli_terms] and [pauli_coeffs] are always
    appended to together; they are kept as one list of pairs. *)
Definition candidate : Type := (string * complex)%type.

Definition real_coeff (x : Q) : complex := Cx x 0.

(** ['I' * i + 'Z' + 'I' * (num_qubits - i - 1)] *)
Definition z_string (num_qubits i : nat) : string :=
  (str_repeat chI i ++ String chZ EmptyString
     ++ str_repeat chI (num_qubits - i - 1))%string.

(** [s = list('I' * num_qubits); s[i] = c; s[j] = c; ''.join(s)] *)
Definition pair_string (num_qubits i j : nat) (c : ascii) : py string :=
  s1 <- setitem (list_ascii_of_string (str_repeat chI num_qubits)) i c ;;
  s2 <- setitem s1 j c ;;
  ret (string_of_list_ascii s2).

Definition reached (max_terms : Z) (acc : list candidate) : bool :=
  (max_terms <=? Z.of_nat (length acc))%Z.

(** Step 2, the loop over [i] with its [break]. *)
Fixpoint z_terms (H : matrix complex) (n num_qubits : nat) (threshold : Q)
    (max_terms : Z) (idxs : list nat) (acc : list candidate)
  : py (list candidate) :=
  match idxs with
  | [] => ret acc
  | i :: rest =>
      if i <? n then
        d <- getitem H i i ;;
        if cabs_gt d threshold then
          let acc' := acc ++ [(z_string num_qubits i, real_coeff (re d))] in
          if reached max_terms acc' then ret acc'
          else z_terms H n num_qubits threshold max_terms rest acc'
        else z_terms H n num_qubits threshold max_terms rest acc
      else z_terms H n num_qubits threshold max_terms rest acc
  end.

(** Body of the inner loop of step 3 up to its first [break] test; the
    boolean is that test. *)
Definition pair_body (H : matrix complex) (n num_qubits : nat) (threshold : Q)
    (max_terms : Z) (i j : nat) (acc : list candidate)
  : py (list candidate * bool) :=
  if (i <? n) && (j <? n) then
    coeff <- getitem H i j ;;
    if cabs_gt coeff threshold then
      acc1 <- (if abs_gt (re coeff) threshold then
                 s <- pair_string num_qubits i j chX ;;
                 ret (acc ++ [(s, real_coeff (re coeff))])
               else ret acc) ;;
      acc2 <- (if abs_gt (im coeff) threshold then
                 s <- pair_string num_qubits i j chY ;;
                 ret (acc1 ++ [(s, real_coeff (im coeff))])
               else ret acc1) ;;
      ret (acc2, reached max_terms acc2)
    else ret (acc, false)
  else ret (acc, false).

(** The loop over [j]; both [break]s leave this loop only. *)
Fixpoint pair_inner (H : matrix complex) (n num_qubits : nat) (threshold : Q)
    (max_terms : Z) (i : nat) (js : list nat) (acc : list candidate)
  : py (list candidate) :=
  match js with
  | [] => ret acc
  | j :: rest =>
      r <- pair_body H n num_qubits threshold max_terms i j acc ;;
      let '(acc', brk) := r in
      if brk then ret acc'
      else if reached max_terms acc' then ret acc'
      else pair_inner H n num_qubits threshold max_terms i rest acc'
  end.

(** The loop over [i]; it has no [break] of its own. *)
Fixpoint pair_outer (H : matrix complex) (n num_qubits : nat) (threshold : Q)
    (max_terms : Z) (idxs : list nat) (acc : list candidate)
  : py (list candidate) :=
  match idxs with
  | [] => ret acc
  | i :: rest =>
      acc' <- pair_inner H n num_qubits threshold max_terms i
                (seq (i + 1) (Nat.min num_qubits n - (i + 1))) acc ;;
      pair_outer H n num_qubits threshold max_terms rest acc'
  end.

(** Step 1: the all-identity term. *)
Definition identity_term (H : matrix complex) (n num_qubits : nat)
    (threshold : Q) : list candidate :=
  let trace := np_trace H in
  if cabs_gt trace threshold
  then [(str_repeat chI num_qubits, cdiv_nat trace n)]
  else [].

(** Steps 1 to 3: the candidates held when sorting starts. *)
Definition accumulate (H : matrix complex) (n num_qubits : nat)
    (max_terms : Z) (threshold : Q) : py (list candidate) :=
  let acc0 := identity_term H n num_qubits threshold in
  acc1 <- z_terms H n num_qubits threshold max_terms
            (seq 0 (Nat.min num_qubits n)) acc0 ;;
  if (Z.of_nat (length acc1) <? max_terms)%Z then
    pair_outer H n num_qubits threshold max_terms
      (seq 0 (Nat.min num_qubits (n - 1))) acc1
  else ret acc1.

(** [np.argsort(-np.abs(coeffs))]: larger modulus first.  Equal moduli keep
    their generation order here; numpy leaves their order unspecified. *)
Definition argsort_desc (l : list candidate) : list candidate :=
  sort_desc (fun c => norm2 (snd c)) l.

Record PauliData : Type := MkPauliData {
  pauli_terms : list string;
  pauli_coefficients : list Q;
  num_qubits : nat;
  num_terms : nat
}.

Definition compute_pauli_coefficients (H : matrix complex) (max_terms : Z)
    (threshold : Q) : py PauliData :=
  let n := length H in
  num_qubits <- ceil_log2 n ;;
  cands <- accumulate H n num_qubits max_terms threshold ;;
  let kept := py_take max_terms (argsort_desc cands) in
  ret {| pauli_terms := map fst kept;
         (* [float(c)] keeps the real part *)
         pauli_coefficients := map (fun c => re (snd c)) kept;
         num_qubits := num_qubits;
         num_terms := length kept |}.

(** *** The full candidate set, in the specification's words

    The identity candidate, every per-qubit Z candidate and every [i < j]
    XX / YY candidate that clears the threshold, with no early stop. *)

Definition entry (H : matrix complex) (i j : nat) : complex :=
  nth j (nth i H []) c0.

(** ['I'*i + c + 'I'*(j-i-1) + c + 'I'*(num_qubits-j-1)] *)
Definition pair_label (num_qubits i j : nat) (c : ascii) : string :=
  (str_repeat chI i ++ String c (str_repeat chI (j - i - 1))
     ++ String c (str_repeat chI (num_qubits - j - 1)))%string.

Definition z_candidates (H : matrix complex) (n num_qubits : nat)
    (threshold : Q) (i : nat) : list candidate :=
  if (i <? n) && cabs_gt (entry H i i) threshold
  then [(z_string num_qubits i, real_coeff (re (entry H i i)))]
  else [].

Definition pair_candidates (H : matrix complex) (n num_qubits : nat)
    (threshold : Q) (i j : nat) : list candidate :=
  if (i <? n) && (j <? n) && cabs_gt (entry H i j) threshold then
    (if abs_gt (re (entry H i j)) threshold
     then [(pair_label num_qubits i j chX, real_coeff (re (entry H i j)))]
     else [])
    ++ (if abs_gt (im (entry H i j)) threshold
        then [(pair_label num_qubits i j chY, real_coeff (im (entry H i j)))]
        else [])
  else [].

Definition full_candidates (H : matrix complex) (threshold : Q)
  : list candidate :=
  let n := length H in
  let nq := Z.to_nat (Z.log2_up (Z.of_nat n)) in
  identity_term H n nq threshold
  ++ flat_map (z_candidates H n nq threshold) (seq 0 (Nat.min nq n))
  ++ flat_map
       (fun i => flat_map (pair_candidates H n nq threshold i)
                   (seq (i + 1) (Nat.min nq n - (i + 1))))
       (seq 0 (Nat.min nq (n - 1))).

End PauliCoeffs.

(* ===================================================================== *)
(** ** hamiltonian_prep.compute_H                                         *)
(* ===================================================================== *)

Module HamiltonianPrep.

(** A stiffness or mass matrix: scipy sparse or numpy dense. *)
Record array2 : Type := MkArray { issparse : bool; data : matrix Q }.

Definition shape0 (a : array2) : nat := length (data a).

(** The numerical routines [compute_H] calls, each of which may raise, with
    the shapes their documentation promises on success. *)
Record LinAlg : Type := MkLinAlg {
  eigsh : matrix Q -> Z -> matrix Q -> py (list Q * matrix Q);
  inv : matrix Q -> py (matrix Q);
  solve : matrix Q -> matrix Q -> py (matrix Q);
  matmul : matrix Q -> matrix Q -> py (matrix Q);
  eigh : matrix Q -> py (list Q * matrix Q);
  norm : matrix Q -> Q;
  eigsh_len : forall K k M vals vecs,
      eigsh K k M = inr (vals, vecs) -> Z.of_nat (length vals) = k;
  inv_len : forall M Mi, inv M = inr Mi -> length Mi = length M;
  solve_len : forall A B X, solve A B = inr X -> length X = length B;
  matmul_len : forall A B C, matmul A B = inr C -> length C = length A;
  eigh_len : forall A vals vecs,
      eigh A = inr (vals, vecs) -> length vals = length A
}.

(** [A[:r, :r]] *)
Definition leading_block {A : Type} (r : nat) (a : matrix A) : matrix A :=
  map (firstn r) (firstn r a).

(** [np.diag(v)] *)
Definition np_diag (v : list Q) : matrix Q :=
  map (fun i => map (fun j => if i =? j then nth i v 0%Q else 0%Q)
                  (seq 0 (length v)))
      (seq 0 (length v)).

Fixpoint Qmin_list (d : Q) (l : list Q) : Q :=
  match l with
  | [] => d
  | x :: tl => Qmin_list (if Qle_bool x d then x else d) tl
  end.

Fixpoint Qmax_list (d : Q) (l : list Q) : Q :=
  match l with
  | [] => d
  | x :: tl => Qmax_list (if Qle_bool d x then x else d) tl
  end.

Record HResult : Type := MkHResult {
  H : array2;
  eigenvalues : list Q;
  eigenvectors : matrix Q;
  num_dofs : nat;
  num_modes : nat
}.

(** [eigenvalues[:k]], [eigenvectors[:, :k]] *)
Definition keep_modes (k : Z) (ev : list Q * matrix Q) : list Q * matrix Q :=
  (py_take k (fst ev), map (py_take k) (snd ev)).

(** The dense fallback on the leading [r x r] block (sparse branch). *)
Definition reduced_solve (la : LinAlg) (r : nat) (K M : matrix Q) (k : Z)
  : py (list Q * matrix Q) :=
  X <- solve la (leading_block r M) (leading_block r K) ;;
  ev <- eigh la X ;;
  ret (keep_modes k ev).

(** [eigh(inv(M) @ K)] (dense branch). *)
Definition dense_solve (la : LinAlg) (K M : matrix Q) (k : Z)
  : py (list Q * matrix Q) :=
  M_inv <- inv la M ;;
  A <- matmul la M_inv K ;;
  ev <- eigh la A ;;
  ret (keep_modes k ev).

(** Lines 49 to 88: the eigenpairs, by the sparse solver with its dense
    fallback, or by the dense solver on the whole or the reduced problem. *)
Definition solve_modes (la : LinAlg) (K M : array2) (num_modes : Z)
  : py (list Q * matrix Q) :=
  let n := shape0 K in
  if issparse K && issparse M then
    catch (eigsh la (data K) num_modes (data M))
          (fun _ => reduced_solve la (Nat.min 20 n) (data K) (data M)
                      num_modes)
  else if n <=? 1000 then dense_solve la (data K) (data M) num_modes
  else dense_solve la (leading_block (Nat.min 100 n) (data K))
                      (leading_block (Nat.min 100 n) (data M))
                      num_modes.

Definition compute_H (la : LinAlg) (K M : array2) (num_modes : Z)
    (method : string) : py HResult :=
  let n := shape0 K in
  let num_modes := Z.min num_modes (Z.of_nat n - 2) in
  ev <- solve_modes la K M num_modes ;;
  let '(eigenvalues, eigenvectors) := ev in
  (* the log line reads [eigenvalues[0]] and [eigenvalues[-1]] *)
  _ <- match eigenvalues with [] => raise IndexError | _ => ret tt end ;;
  h <- (if String.eqb method "standard" then ret (np_diag eigenvalues)
        else if String.eqb method "normalized" then
          let eig_min := Qmin_list (hd 0%Q eigenvalues) eigenvalues in
          let eig_max := Qmax_list (hd 0%Q eigenvalues) eigenvalues in
          if Qltb (1 # 10000000000) (eig_max - eig_min) then
            ret (np_diag (map (fun e => (e - eig_min) / (eig_max - eig_min))%Q
                              eigenvalues))
          else ret (np_diag eigenvalues)
        else raise (ValueError ("Unknown method: " ++ method))) ;;
  ret {| H := MkArray (50 <? length h) h;
         eigenvalues := eigenvalues;
         eigenvectors := eigenvectors;
         num_dofs := n;
         num_modes := length eigenvalues |}.

End HamiltonianPrep.

(* ===================================================================== *)
(** ** trotter_circuit_synthesis                                          *)
(* ===================================================================== *)

Module Trotter.

(** [range(z)] *)
Definition range (z : Z) : list Z := map Z.of_nat (seq 0 (Z.to_nat z)).

Definition nl : string := String (ascii_of_nat 10) EmptyString.
Definition dquote : string := String (ascii_of_nat 34) EmptyString.

(** The circuit backend (Qiskit), present only when its import succeeded.
    [C] is the circuit object; the builder methods mutate it in place and are
    rendered as functions returning the updated circuit.  Any of them may
    raise. *)
Record Qiskit (C : Type) : Type := MkQiskit {
  operator : Type;
  gate : Type;
  QuantumCircuit : Z -> py C;
  qc_h : C -> Z -> py C;
  SparsePauliOp : list string -> list Q -> py operator;
  PauliEvolutionGate : operator -> Q -> py gate;
  qc_append : C -> gate -> list Z -> py C;
  qc_measure_all : C -> py C;
  qc_num_qubits : C -> Z;
  qc_data_len : C -> Z;
  qc_depth : C -> py Z;
  qc_qasm : C -> py string
}.

Arguments operator {C}.
Arguments gate {C}.
Arguments QuantumCircuit {C}.
Arguments qc_h {C}.
Arguments SparsePauliOp {C}.
Arguments PauliEvolutionGate {C}.
Arguments qc_append {C}.
Arguments qc_measure_all {C}.
Arguments qc_num_qubits {C}.
Arguments qc_data_len {C}.
Arguments qc_depth {C}.
Arguments qc_qasm {C}.

(** The [pauli_data] dictionary; [None] is an absent key. *)
Record PauliDict : Type := MkPauliDict {
  pauli_terms : option (list string);
  pauli_coefficients : option (list Q);
  num_qubits : option Z
}.

(** [d[key]] *)
Definition subscript {A : Type} (key : string) (v : option A) : py A :=
  match v with
  | Some x => ret x
  | None => raise (KeyError key)
  end.

(** [d.get(key, default)] *)
Definition get_default {A : Type} (v : option A) (default : A) : A :=
  match v with
  | Some x => x
  | None => default
  end.

Record CircuitInfo : Type := MkCircuitInfo {
  info_num_qubits : Z;
  num_gates : Z;
  depth : Z;
  num_pauli_terms : Z
}.

(** The returned dictionary; an [option] field is a key that may be absent. *)
Record SimResult (C : Type) : Type := MkSimResult {
  circuit : option C;
  circuit_info : CircuitInfo;
  qasm : string;
  success : bool;
  trotter_steps : Z;
  evolution_time : option Q;
  mock : option bool
}.

Arguments MkSimResult {C}.
Arguments circuit {C}.
Arguments circuit_info {C}.
Arguments qasm {C}.
Arguments success {C}.
Arguments trotter_steps {C}.
Arguments evolution_time {C}.
Arguments mock {C}.

Definition mock_qasm (num_qubits num_pauli_terms trotter_steps : Z) : string :=
  ("OPENQASM 2.0;" ++ nl
   ++ "include " ++ dquote ++ "qelib1.inc" ++ dquote ++ ";" ++ nl
   ++ "qreg q[" ++ dec num_qubits ++ "];" ++ nl
   ++ "creg c[" ++ dec num_qubits ++ "];" ++ nl
   ++ nl
   ++ "// Mock Trotter circuit with " ++ dec trotter_steps ++ " steps" ++ nl
   ++ "// Simulating " ++ dec num_pauli_terms ++ " Pauli terms" ++ nl
   ++ String.concat ""
        (map (fun i => "h q[" ++ dec i ++ "];" ++ nl) (range num_qubits))
   ++ nl ++ "// Trotter evolution (mock)" ++ nl
   ++ String.concat ""
        (map (fun step =>
                "// Step " ++ dec (step + 1) ++ nl
                ++ String.concat ""
                     (map (fun i =>
                             "cx q[" ++ dec i ++ "],q[" ++ dec (i + 1) ++ "];"
                             ++ nl
                             ++ "rz(0.1) q[" ++ dec (i + 1) ++ "];" ++ nl
                             ++ "cx q[" ++ dec i ++ "],q[" ++ dec (i + 1)
                             ++ "];" ++ nl)
                          (range (num_qubits - 1))))
             (range (Z.min trotter_steps 3)))
   ++ nl ++ "// Measurement" ++ nl
   ++ String.concat ""
        (map (fun i =>
                "measure q[" ++ dec i ++ "] -> c[" ++ dec i ++ "];" ++ nl)
             (range num_qubits)))%string.

Definition _create_mock_circuit_result {C : Type}
    (num_qubits num_pauli_terms trotter_steps : Z) : SimResult C :=
  let gates_per_term := 3%Z in
  let gates_per_step := (num_pauli_terms * gates_per_term)%Z in
  let total_gates := (gates_per_step * trotter_steps + num_qubits)%Z in
  {| circuit := None;
     circuit_info :=
       {| info_num_qubits := num_qubits;
          num_gates := total_gates;
          depth := (trotter_steps * num_pauli_terms)%Z;
          num_pauli_terms := num_pauli_terms |};
     qasm := mock_qasm num_qubits num_pauli_terms trotter_steps;
     success := true;
     trotter_steps := trotter_steps;
     evolution_time := None;
     mock := Some true |}.

(** [time / trotter_steps] on Python numbers *)
Definition py_div (a : Q) (b : Z) : py Q :=
  if (b =? 0)%Z then raise ZeroDivisionError else ret (a / inject_Z b)%Q.

(** [for i in range(num_qubits): circuit.h(i)] *)
Fixpoint hadamard_layer {C : Type} (qk : Qiskit C) (c : C) (qs : list Z)
  : py C :=
  match qs with
  | [] => ret c
  | q :: rest => c' <- qc_h qk c q ;; hadamard_layer qk c' rest
  end.

(** [for term, coeff in zip(...): if len(term) == num_qubits: ...] *)
Fixpoint valid_terms (num_qubits : Z) (terms : list string) (coeffs : list Q)
  : list string * list Q :=
  match terms, coeffs with
  | term :: ts, coeff :: cs =>
      let '(pl, cl) := valid_terms num_qubits ts cs in
      if (Z.of_nat (String.length term) =? num_qubits)%Z
      then (term :: pl, coeff :: cl) else (pl, cl)
  | _, _ => ([], [])
  end.

(** The Trotter loop inside the inner [try]: the circuit keeps the gates
    appended before an exception, and the exception is only logged. *)
Fixpoint append_steps {C : Type} (qk : Qiskit C) (c : C) (op : operator qk)
    (dt : Q) (num_qubits : Z) (steps : nat) : C :=
  match steps with
  | O => c
  | S k =>
      match PauliEvolutionGate qk op dt with
      | inl _ => c
      | inr g =>
          match qc_append qk c g (range num_qubits) with
          | inl _ => c
          | inr c' => append_steps qk c' op dt num_qubits k
          end
      end
  end.

(** Lines 64 to 90: the guarded construction of the evolution. *)
Definition evolution_block {C : Type} (qk : Qiskit C) (c : C)
    (terms : list string) (coeffs : list Q) (num_qubits : Z) (dt : Q)
    (trotter_steps : Z) : C :=
  if (0 <? length terms) && (0 <? length coeffs) then
    let '(pauli_list, coeff_list) := valid_terms num_qubits terms coeffs in
    if 0 <? length pauli_list then
      match SparsePauliOp qk pauli_list coeff_list with
      | inl _ => c
      | inr op => append_steps qk c op dt num_qubits (Z.to_nat trotter_steps)
      end
    else c
  else c.

Definition simulate_hamiltonian {C : Type} (backend : option (Qiskit C))
    (pauli_data : PauliDict) (time : Q) (trotter_steps : Z)
  : py (SimResult C) :=
  catch
    (terms <- subscript "pauli_terms" (pauli_terms pauli_data) ;;
     coeffs <- subscript "pauli_coefficients" (pauli_coefficients pauli_data) ;;
     nq <- subscript "num_qubits" (num_qubits pauli_data) ;;
     match backend with
     | None =>
         ret (_create_mock_circuit_result nq (Z.of_nat (length terms))
                trotter_steps)
     | Some qk =>
         c0 <- QuantumCircuit qk nq ;;
         c1 <- hadamard_layer qk c0 (range nq) ;;
         dt <- py_div time trotter_steps ;;
         let c2 := evolution_block qk c1 terms coeffs nq dt trotter_steps in
         c3 <- qc_measure_all qk c2 ;;
         d <- qc_depth qk c3 ;;
         let info := {| info_num_qubits := qc_num_qubits qk c3;
                        num_gates := qc_data_len qk c3;
                        depth := d;
                        num_pauli_terms := Z.of_nat (length terms) |} in
         qasm_str <- catch (qc_qasm qk c3)
                       (fun _ => ret "// QASM export not available"%string) ;;
         ret {| circuit := Some c3;
                circuit_info := info;
                qasm := qasm_str;
                success := true;
                trotter_steps := trotter_steps;
                evolution_time := Some time;
                mock := None |}
     end)
    (fun _ =>
       ret (_create_mock_circuit_result
              (get_default (num_qubits pauli_data) 4%Z)
              (Z.of_nat (length (get_default (pauli_terms pauli_data) [])))
              trotter_steps)).

End Trotter.

(* ===================================================================== *)
(** ** quantum_simulator.QuantumSimulator                                 *)
(* ===================================================================== *)

Module QuantumSimulator.

(** [self.max_qubits] *)
Definition max_qubits : Z := 20.

(** *** Lines 45 to 54 of [compute_hamiltonian]: padding *)

Record Padded (A : Type) : Type := MkPadded {
  pad_H : matrix A;            (* [H] after the padding block *)
  pad_original_size : nat;     (* [original_size] *)
  pad_size : nat;              (* [H.shape[0]] after the padding block *)
  pad_qubit_count : nat        (* [qubit_count] *)
}.

Arguments MkPadded {A}.
Arguments pad_H {A}.
Arguments pad_original_size {A}.
Arguments pad_size {A}.
Arguments pad_qubit_count {A}.

(** [H_padded = np.zeros((p, p)); H_padded[:n, :n] = H] for an array [H] of
    [n] rows: a square [H] fills the leading block, an [(n, 1)] array is
    broadcast along the columns, and any other shape is refused. *)
Definition zero_pad {A : Type} (zero : A) (n p : nat) (H : matrix A)
  : py (matrix A) :=
  if is_square H then
    ret (map (fun row => row ++ repeat zero (p - n)) H
           ++ repeat (repeat zero p) (p - n))
  else if forallb (fun row => length row =? 1) H then
    ret (map (fun row => repeat (hd zero row) n ++ repeat zero (p - n)) H
           ++ repeat (repeat zero p) (p - n))
  else raise (ValueError "could not broadcast input array").

Definition pad_hamiltonian {A : Type} (zero : A) (H : matrix A)
  : py (Padded A) :=
  let original_size := length H in
  k <- ceil_log2 original_size ;;
  let padded_size := 2 ^ k in
  H' <- (if negb (original_size =? padded_size)
         then zero_pad zero original_size padded_size H
         else ret H) ;;
  ret {| pad_H := H';
         pad_original_size := original_size;
         pad_size := length H';
         pad_qubit_count := Nat.log2 (length H') |}.

(** *** Lines 56 to 58: the safety check *)

Definition capacity_message (qubit_count : nat) : string :=
  ("System requires " ++ dec (Z.of_nat qubit_count)
   ++ " qubits, maximum allowed is " ++ dec max_qubits)%string.

Definition capacity_check (qubit_count : nat) : py unit :=
  if (max_qubits <? Z.of_nat qubit_count)%Z
  then raise (ValueError (capacity_message qubit_count))
  else ret tt.

(** *** The whole of [compute_hamiltonian] *)

(** The two kinds of object the variable [H] can hold. *)
Inductive pyobj : Type :=
| PyDict (d : HamiltonianPrep.HResult)
| PyArray (a : matrix Q).

(** [H.shape], [H.dtype] and the array operations that follow need an
    [ndarray]; a [dict] has no such attribute. *)
Definition ndarray_of (o : pyobj) : py (matrix Q) :=
  match o with
  | PyArray a => ret a
  | PyDict _ => raise (AttributeError "dict" "shape")
  end.

(** Parameter names of [compute_pauli_coefficients]. *)
Definition pauli_parameters : list string :=
  ["H"; "max_terms"; "threshold"; "n_jobs"]%string.

Definition keyword (name : string) (default : Z) (kwargs : list (string * Z))
  : Z :=
  match find (fun kv => String.eqb (fst kv) name) kwargs with
  | Some kv => snd kv
  | None => default
  end.

(** A call [compute_pauli_coefficients(H, **kwargs)]: Python binds the
    keywords to parameter names before the body runs. *)
Definition call_compute_pauli_coefficients (H : matrix complex)
    (kwargs : list (string * Z)) : py PauliCoeffs.PauliData :=
  match find (fun kv => negb (existsb (String.eqb (fst kv)) pauli_parameters))
             kwargs with
  | Some kv =>
      raise (TypeError ("compute_pauli_coefficients() got an unexpected "
                          ++ "keyword argument '" ++ fst kv ++ "'"))
  | None =>
      PauliCoeffs.compute_pauli_coefficients H
        (keyword "max_terms" 100 kwargs) (1 # 1000000)
  end.

(** [{... float(coeff) for op, coeff in pauli_coeffs.items()}]: the first
    value of the returned dictionary is the list under ['pauli_terms']. *)
Definition items_as_floats (d : PauliCoeffs.PauliData)
  : py (list (string * Q)) :=
  raise (TypeError ("float() argument must be a string or a real number, "
                      ++ "not 'list'")).

Record MatricesResult : Type := MkMatricesResult {
  stiffness_matrix : HamiltonianPrep.array2;
  mass_matrix : HamiltonianPrep.array2
}.

Record HamiltonianResult : Type := MkHamiltonianResult {
  hamiltonian_matrix : matrix Q;
  original_dimension : nat;
  padded_dimension : nat;
  qubit_count : nat;
  pauli_decomposition : list (string * Q);
  norm : Q;
  trace : Q
}.

Definition as_complex (H : matrix Q) : matrix complex :=
  map (map (fun x => Cx x 0)) H.

Definition compute_hamiltonian (la : HamiltonianPrep.LinAlg)
    (matrices_result : MatricesResult) (max_pauli_terms : Z)
  : py HamiltonianResult :=
  let K := stiffness_matrix matrices_result in
  let M := mass_matrix matrices_result in
  d <- HamiltonianPrep.compute_H la M K 10 "standard" ;;
  let H := PyDict d in
  a <- ndarray_of H ;;
  p <- pad_hamiltonian 0%Q a ;;
  _ <- capacity_check (pad_qubit_count p) ;;
  pauli_coeffs <-
    call_compute_pauli_coefficients (as_complex (pad_H p))
      [("max_pauli_terms"%string,
        Z.min max_pauli_terms (4 ^ Z.of_nat (pad_qubit_count p)));
       ("batch_size"%string, Z.min 16 (max_pauli_terms / 4))] ;;
  pauli_decomposition <- items_as_floats pauli_coeffs ;;
  ret {| hamiltonian_matrix := pad_H p;
         original_dimension := pad_original_size p;
         padded_dimension := pad_size p;
         qubit_count := pad_qubit_count p;
         pauli_decomposition := pauli_decomposition;
         norm := HamiltonianPrep.norm la (pad_H p);
         trace := re (np_trace (as_complex (pad_H p))) |}.

(** *** [_calculate_final_amplitudes] *)

(** The random source: [np.random.exponential(1.0, k)] returns [k] positive
    masses; [uniform i] is the [i]-th draw of [np.random.uniform(0, 2*pi)]. *)
Record Random : Type := MkRandom {
  exponential : nat -> list Q;
  uniform : nat -> Q;
  exponential_len : forall k, length (exponential k) = k;
  exponential_pos : forall k, Forall (fun x => 0 < x)%Q (exponential k)
}.

Record Amplitude : Type := MkAmplitude {
  state : string;
  amplitude_real : Q;
  amplitude_imag : Q;
  probability : Q
}.

Fixpoint bin_pos (p : positive) : string :=
  match p with
  | xH => "1"
  | xO p' => bin_pos p' ++ "0"
  | xI p' => bin_pos p' ++ "1"
  end%string.

(** [format(i, 'b')] *)
Definition bin (i : nat) : string :=
  match N.of_nat i with
  | N0 => "0"%string
  | Npos p => bin_pos p
  end.

(** [format(i, f'0{width}b')] *)
Definition format_bin (width i : nat) : string :=
  (str_repeat "0"%char (width - String.length (bin i)) ++ bin i)%string.

(** [probs[i]] *)
Definition index (l : list Q) (i : nat) : py Q :=
  match nth_error l i with
  | Some x => ret x
  | None => raise IndexError
  end.

Fixpoint amplitude_loop (rng : Random) (polar : Q -> Q -> complex)
    (qubit_count : nat) (probs : list Q) (idxs : list nat)
  : py (list Amplitude) :=
  match idxs with
  | [] => ret []
  | i :: rest =>
      p <- index probs i ;;
      let amplitude := polar p (uniform rng i) in
      tl <- amplitude_loop rng polar qubit_count probs rest ;;
      ret ({| state := format_bin qubit_count i;
              amplitude_real := re amplitude;
              amplitude_imag := im amplitude;
              probability := p |} :: tl)
  end.

(** [polar p phi] stands for [np.sqrt(p) * np.exp(1j * phi)]. *)
Definition _calculate_final_amplitudes (rng : Random)
    (polar : Q -> Q -> complex) (qubit_count : nat) : py (list Amplitude) :=
  catch
    (let num_states := Nat.min (2 ^ qubit_count) 16 in
     let probs := exponential rng num_states in
     let total := Qsum probs in
     let probs := map (fun p => p / total)%Q probs in
     amplitudes <- amplitude_loop rng polar qubit_count probs
                     (seq 0 num_states) ;;
     ret (firstn 10 (sort_desc probability amplitudes)))
    (fun _ => ret []).

(** *** The circuit metrics of [_mock_simulation] *)

Definition _mock_simulation_metrics (qubit_count : Z) (num_terms : nat)
    (trotter_steps : Z) : Z * Z :=
  let circuit_depth := (trotter_steps * Z.of_nat num_terms * 3)%Z in
  let gate_count := (circuit_depth * qubit_count)%Z in
  (circuit_depth, gate_count).

End QuantumSimulator.

(* ===================================================================== *)
(** ** Vocabulary of the properties                                       *)
(* ===================================================================== *)

(** Descending order of a key. *)
Definition desc {A : Type} (key : A -> Q) (a b : A) : Prop :=
  (key b <= key a)%Q.

(** The characters of a string. *)
Definition chars (s : string) : list ascii := list_ascii_of_string s.

(** The operator alphabet. *)
Definition pauli_char (c : ascii) : Prop :=
  c = chI \/ c = chX \/ c = chY \/ c = chZ.

(** A well-formed operator string on [nq] qubits. *)
Definition operator_string (nq : nat) (s : string) : Prop :=
  String.length s = nq /\ Forall pauli_char (chars s).

(** [ceil(log2 n)] for the side [n] of [H]. *)
Definition qubits_for (H : matrix complex) : nat :=
  Z.to_nat (Z.log2_up (Z.of_nat (length H))).

(** [H] equals its conjugate transpose. *)
Definition is_hermitian (H : matrix complex) : bool :=
  forallb
    (fun i =>
       forallb
         (fun j =>
            Qeq_bool (re (PauliCoeffs.entry H i j))
                     (re (PauliCoeffs.entry H j i))
            && Qeq_bool (im (PauliCoeffs.entry H i j))
                        (- im (PauliCoeffs.entry H j i)))
         (seq 0 (length H)))
    (seq 0 (length H)).

(** What a candidate loop adds to [acc]: members of the candidates [full]
    of its range, and all of them when they fit under [max_terms]. *)
Definition extends (max_terms : Z)
    (acc full result : list PauliCoeffs.candidate) : Prop :=
  exists ext,
    result = acc ++ ext
    /\ incl ext full
    /\ ((Z.of_nat (length acc + length full) <= max_terms)%Z -> ext = full).

(** What a loop that tests [len(pauli_terms) >= max_terms] after each of
    its iterations takes from the candidates [blocks] of those iterations,
    [count] candidates being held when it starts: each block in turn, up to
    and including the first one after which at least [max_terms] are held. *)
Fixpoint taken (max_terms : Z) (count : nat)
    (blocks : list (list PauliCoeffs.candidate))
  : list PauliCoeffs.candidate :=
  match blocks with
  | [] => []
  | b :: rest =>
      b ++ (if (max_terms <=? Z.of_nat (count + length b))%Z then []
            else taken max_terms (count + length b) rest)
  end.

(** The candidates held after step 2: the identity candidate, and the Z
    candidates in qubit order up to and including the one that brings the
    number held to [max_terms].  The test follows an append, so the first Z
    candidate is taken whatever [max_terms] is. *)
Definition held_after_z (H : matrix complex) (max_terms : Z) (threshold : Q)
  : list PauliCoeffs.candidate :=
  let n := length H in
  let nq := qubits_for H in
  let identity := PauliCoeffs.identity_term H n nq threshold in
  identity
  ++ firstn (Z.to_nat (Z.max 1 (max_terms - Z.of_nat (length identity))))
       (flat_map (PauliCoeffs.z_candidates H n nq threshold)
          (seq 0 (Nat.min nq n))).

(** The XX / YY candidates of row [i] of step 3, pair by pair. *)
Definition pair_row (H : matrix complex) (threshold : Q) (i : nat)
  : list (list PauliCoeffs.candidate) :=
  let n := length H in
  let nq := qubits_for H in
  map (PauliCoeffs.pair_candidates H n nq threshold i)
    (seq (i + 1) (Nat.min nq n - (i + 1))).

(** The candidates held when the sort starts.  Step 3 is entered only with
    fewer than [max_terms] candidates held; its loop over the rows has no
    [break], so every row is visited and gives at least its first pair. *)
Definition held (H : matrix complex) (max_terms : Z) (threshold : Q)
  : list PauliCoeffs.candidate :=
  let n := length H in
  let nq := qubits_for H in
  let start := held_after_z H max_terms threshold in
  if (Z.of_nat (length start) <? max_terms)%Z
  then fold_left
         (fun acc i =>
            acc ++ taken max_terms (length acc) (pair_row H threshold i))
         (seq 0 (Nat.min nq (n - 1))) start
  else start.

(** The normalised masses of the amplitude estimator. *)
Definition normalised (rng : QuantumSimulator.Random) (q : nat) : list Q :=
  let probs := QuantumSimulator.exponential rng (Nat.min (2 ^ q) 16) in
  map (fun p => p / Qsum probs)%Q probs.

(** The mock result the [except] handler of [simulate_hamiltonian] builds
    from [pauli_data]. *)
Definition fallback {C : Type} (pauli_data : Trotter.PauliDict)
    (trotter_steps : Z) : Trotter.SimResult C :=
  Trotter._create_mock_circuit_result
    (Trotter.get_default (Trotter.num_qubits pauli_data) 4%Z)
    (Z.of_nat
       (length (Trotter.get_default (Trotter.pauli_terms pauli_data) [])))
    trotter_steps.

(** The steps outside the guarded evolution block all succeed: the keys are
    present, the circuit is created, the Hadamard layer is applied, the time
    step is computed, and the measurement and the depth query go through.
    Nothing is asked of [SparsePauliOp], [PauliEvolutionGate] or [append]. *)
Definition real_run {C : Type} (qk : Trotter.Qiskit C)
    (pd : Trotter.PauliDict) (time : Q) (steps : Z) (c3 : C) : Prop :=
  exists terms coeffs nq c0 c1 dt d,
    pd = Trotter.MkPauliDict (Some terms) (Some coeffs) (Some nq)
    /\ Trotter.QuantumCircuit qk nq = inr c0
    /\ Trotter.hadamard_layer qk c0 (Trotter.range nq) = inr c1
    /\ Trotter.py_div time steps = inr dt
    /\ Trotter.qc_measure_all qk
         (Trotter.evolution_block qk c1 terms coeffs nq dt steps) = inr c3
    /\ Trotter.qc_depth qk c3 = inr d.

Definition no_real_run {C : Type} (backend : option (Trotter.Qiskit C))
    (pd : Trotter.PauliDict) (time : Q) (steps : Z) : Prop :=
  forall qk c3, backend = Some qk -> ~ real_run qk pd time steps c3.

(* ===================================================================== *)
(** ** Sample inputs                                                      *)
(* ===================================================================== *)

(** A random source in which every mass is 1 and every phase is 0. *)
Definition unit_masses : QuantumSimulator.Random :=
  QuantumSimulator.MkRandom (fun k => repeat 1%Q k) (fun _ => 0%Q)
    (fun k => repeat_length 1%Q k)
    (fun k => ltac:(apply Forall_forall; intros x Hx;
                    apply repeat_spec in Hx; subst x; reflexivity)).

Definition polar_real (p phi : Q) : complex := Cx p 0.

(** A backend that records the instructions it is given; [op_ok] says
    whether [SparsePauliOp] accepts its labels. *)
Definition listing_backend (op_ok : bool) : Trotter.Qiskit (list string) :=
  {| Trotter.operator := unit;
     Trotter.gate := unit;
     Trotter.QuantumCircuit := fun _ => inr [];
     Trotter.qc_h := fun c q => inr (c ++ [("h " ++ dec q)%string]);
     Trotter.SparsePauliOp := fun _ _ =>
       if op_ok then inr tt else inl (BackendError "invalid Pauli label");
     Trotter.PauliEvolutionGate := fun _ _ => inr tt;
     Trotter.qc_append := fun c _ _ => inr (c ++ ["evolution"%string]);
     Trotter.qc_measure_all := fun c =>
       inr (c ++ ["barrier"%string; "measure"%string]);
     Trotter.qc_num_qubits := fun _ => 1%Z;
     Trotter.qc_data_len := fun c => Z.of_nat (length c);
     Trotter.qc_depth := fun c => inr (Z.of_nat (length c));
     Trotter.qc_qasm := fun _ => inl (BackendError "no qasm exporter") |}.

Definition one_qubit_data (label : string) : Trotter.PauliDict :=
  Trotter.MkPauliDict (Some [label]) (Some [1%Q]) (Some 1%Z).

(** A toy solver, exact on identity mass matrices and diagonal stiffness:
    no sparse solver, [inv] and [solve] return their argument, [matmul] its
    right factor, [eigh] the diagonal. *)
Definition diagonal_of (A : matrix Q) : list Q :=
  map (fun i => nth i (nth i A []) 0%Q) (seq 0 (length A)).

Definition toy_matmul (A B : matrix Q) : py (matrix Q) :=
  if length A =? length B then inr B
  else inl (ValueError "shapes not aligned").

Definition toy_solver : HamiltonianPrep.LinAlg :=
  HamiltonianPrep.MkLinAlg
    (fun _ _ _ => inl LinAlgError)
    (fun M => inr M)
    (fun _ B => inr B)
    toy_matmul
    (fun A => inr (diagonal_of A, A))
    (fun _ => 0%Q)
    (fun K k M vals vecs E => ltac:(discriminate E))
    (fun M Mi E => ltac:(injection E as <-; reflexivity))
    (fun A B X E => ltac:(injection E as <-; reflexivity))
    (fun A B C =>
       ltac:(unfold toy_matmul;
             destruct (Nat.eqb_spec (length A) (length B)) as [E |];
             [intros Hc; injection Hc as <-; symmetry; exact E
             | discriminate]))
    (fun A vals vecs E =>
       ltac:(injection E as <- _; unfold diagonal_of;
             rewrite length_map; apply length_seq)).

(** The 4 x 4 identity as a dense array. *)
Definition identity4 : HamiltonianPrep.array2 :=
  HamiltonianPrep.MkArray false
    [[1; 0; 0; 0]; [0; 1; 0; 0]; [0; 0; 1; 0]; [0; 0; 0; 1]]%Q.

(** The 2 x 2 identity as a dense array. *)
Definition identity2 : HamiltonianPrep.array2 :=
  HamiltonianPrep.MkArray false [[1; 0]; [0; 1]]%Q.

(** A Hermitian matrix of side 4 (two qubits) with a complex coupling
    between the first two basis states. *)
Definition coupled4 : matrix complex :=
  [[Cx 1 0; Cx 2 3; c0; c0];
   [Cx 2 (-3); Cx 5 0; c0; c0];
   [c0; c0; Cx (-6) 0; c0];
   [c0; c0; c0; c0]].

(** The matrix of Scenario B: diagonal 5, -3, 0, 0. *)
Definition scenario_b : matrix complex :=
  [[Cx 5 0; c0; c0; c0];
   [c0; Cx (-3) 0; c0; c0];
   [c0; c0; c0; c0];
   [c0; c0; c0; c0]].

(** A real symmetric matrix of side 8 (three qubits) with a zero diagonal
    and the couplings 1, 5 and 3 between the first three basis states. *)
Definition chained8 : matrix complex :=
  [[c0; Cx 1 0; Cx 5 0; c0; c0; c0; c0; c0];
   [Cx 1 0; c0; Cx 3 0; c0; c0; c0; c0; c0];
   [Cx 5 0; Cx 3 0; c0; c0; c0; c0; c0; c0];
   [c0; c0; c0; c0; c0; c0; c0; c0];
   [c0; c0; c0; c0; c0; c0; c0; c0];
   [c0; c0; c0; c0; c0; c0; c0; c0];
   [c0; c0; c0; c0; c0; c0; c0; c0];
   [c0; c0; c0; c0; c0; c0; c0; c0]].

(** Diagonal 1, 5, -6, 0: the largest entry is not the first. *)
Definition skewed4 : matrix complex :=
  [[Cx 1 0; c0; c0; c0];
   [c0; Cx 5 0; c0; c0];
   [c0; c0; Cx (-6) 0; c0];
   [c0; c0; c0; c0]].

(* ===================================================================== *)
(** ** hamiltonian_prep.hamiltonian_to_pauli_basis                        *)
(* ===================================================================== *)

Module PauliBasis.

(** [s[:i]] *)
Fixpoint str_take (i : nat) (s : string) : string :=
  match i, s with
  | S k, String c tl => String c (str_take k tl)
  | _, _ => EmptyString
  end.

(** [s[i:]] *)
Fixpoint str_drop (i : nat) (s : string) : string :=
  match i, s with
  | S k, String _ tl => str_drop k tl
  | _, _ => s
  end.

Record PauliBasisData : Type := MkPauliBasisData {
  pauli_terms : list string;
  pauli_coefficients : list complex;
  num_qubits : Z;
  num_terms : nat
}.

(** The inclusion test of the loop, [1e-10]. *)
Definition diagonal_threshold : Q := 1 # 10000000000.

(** [range(min(n, 2**num_qubits))]: with a negative exponent the power is a
    float, which [min] returns unless [n] is 0, and [range] rejects it. *)
Definition loop_bound (n : nat) (num_qubits : Z) : py nat :=
  if (num_qubits <? 0)%Z then
    match n with
    | O => ret O
    | _ =>
        raise (TypeError
                 "'float' object cannot be interpreted as an integer")
    end
  else ret (Nat.min n (2 ^ Z.to_nat num_qubits)).

(** The string built for index [i]. *)
Definition basis_string (num_qubits : Z) (i : nat) : string :=
  let pauli_str := str_repeat chI (Z.to_nat num_qubits) in
  if (Z.of_nat i <? num_qubits)%Z
  then (str_take i pauli_str ++ String chZ EmptyString
          ++ str_drop (i + 1) pauli_str)%string
  else pauli_str.

(** The loop over the diagonal; the two result lists are one list of pairs. *)
Fixpoint diagonal_terms (H : matrix complex) (num_qubits : Z)
    (idxs : list nat) (acc : list (string * complex))
  : py (list (string * complex)) :=
  match idxs with
  | [] => ret acc
  | i :: rest =>
      d <- getitem H i i ;;
      if cabs_gt d diagonal_threshold
      then diagonal_terms H num_qubits rest
             (acc ++ [(basis_string num_qubits i, d)])
      else diagonal_terms H num_qubits rest acc
  end.

Definition hamiltonian_to_pauli_basis (H : matrix complex)
    (num_qubits : option Z) : py PauliBasisData :=
  let n := length H in
  nq <- match num_qubits with
        | None => k <- ceil_log2 n ;; ret (Z.of_nat k)
        | Some q => ret q
        end ;;
  bound <- loop_bound n nq ;;
  terms <- diagonal_terms H nq (seq 0 bound) [] ;;
  ret {| pauli_terms := map fst terms;
         pauli_coefficients := map snd terms;
         num_qubits := nq;
         num_terms := length terms |}.

End PauliBasis.

(* ===================================================================== *)
(** ** trotter_circuit_synthesis.synthesize_pauli_rotation                *)
(* ===================================================================== *)

Module Rotation.

(** The gate methods the function calls on its circuit. *)
Inductive instruction : Type :=
| RX (theta : Q) (qubit : nat)
| RY (theta : Q) (qubit : nat)
| RZ (theta : Q) (qubit : nat)
| CX (control target : nat).

(** A [QuantumCircuit]: its width, its global phase and the instructions
    appended so far. *)
Record circuit : Type := MkCircuit {
  num_qubits : Z;
  global_phase : Q;
  data : list instruction
}.

(** [QuantumCircuit(n)]; a negative width is refused. *)
Definition QuantumCircuit (n : Z) : py circuit :=
  if (n <? 0)%Z then raise (BackendError "CircuitError: negative width")
  else ret {| num_qubits := n; global_phase := 0; data := [] |}.

(** A gate method refuses a qubit index outside the circuit. *)
Definition check_qubit (c : circuit) (q : nat) : py unit :=
  if (Z.of_nat q <? num_qubits c)%Z then ret tt
  else raise (BackendError "CircuitError: index out of range").

Definition append (c : circuit) (g : instruction) : circuit :=
  {| num_qubits := num_qubits c;
     global_phase := global_phase c;
     data := data c ++ [g] |}.

(** [2 * np.pi], the double 884279719003555 / 2^47. *)
Definition two_pi : Q := 884279719003555 # 140737488355328.

(** [x % m] on floats for a positive [m]: the remainder lies in [[0, m)]. *)
Definition py_mod (x m : Q) : Q := (x - m * inject_Z (Qfloor (x / m)))%Q.

(** The setter of [global_phase]: a zero angle is stored as 0, any other
    angle as [angle % (2 * np.pi)], so the stored phase lies in
    [[0, 2 pi)]. *)
Definition set_global_phase (c : circuit) (angle : Q) : circuit :=
  {| num_qubits := num_qubits c;
     global_phase := if Qeq_bool angle 0 then 0 else py_mod angle two_pi;
     data := data c |}.

Definition rotate (gate : Q -> nat -> instruction) (c : circuit) (theta : Q)
    (q : nat) : py circuit :=
  _ <- check_qubit c q ;;
  ret (append c (gate theta q)).

(** [circuit.cx(a, b)]; the two qubits must differ. *)
Definition cx (c : circuit) (a b : nat) : py circuit :=
  _ <- check_qubit c a ;;
  _ <- check_qubit c b ;;
  if a =? b then raise (BackendError "CircuitError: duplicate qubit arguments")
  else ret (append c (CX a b)).

(** [[i for i, p in enumerate(pauli_string) if p != 'I']], counting from
    [i]. *)
Fixpoint active_from (i : nat) (s : string) : list nat :=
  match s with
  | EmptyString => []
  | String p tl =>
      if Ascii.eqb p chI then active_from (S i) tl
      else i :: active_from (S i) tl
  end.

Definition active_qubits (pauli_string : string) : list nat :=
  active_from 0 pauli_string.

(** [for q in qs: circuit.cx(q, target)] *)
Fixpoint cx_chain (c : circuit) (qs : list nat) (target : nat) : py circuit :=
  match qs with
  | [] => ret c
  | q :: rest => c' <- cx c q target ;; cx_chain c' rest target
  end.

(** [pauli_string[q]] *)
Definition char_at (s : string) (q : nat) : py ascii :=
  match String.get q s with
  | Some ch => ret ch
  | None => raise IndexError
  end.

Definition synthesize_pauli_rotation (qiskit_available : bool)
    (pauli_string : string) (coefficient : Q) (num_qubits : Z)
  : py (option circuit) :=
  if negb qiskit_available then ret None
  else
    circuit <- QuantumCircuit num_qubits ;;
    let active := active_qubits pauli_string in
    match active with
    | [] =>
        (* [circuit.global_phase += coefficient]: the getter, then the
           setter *)
        ret (Some (set_global_phase circuit
                     (global_phase circuit + coefficient)))
    | [q] =>
        pauli_op <- char_at pauli_string q ;;
        if Ascii.eqb pauli_op chX
        then c <- rotate RX circuit (2 * coefficient) q ;; ret (Some c)
        else if Ascii.eqb pauli_op chY
        then c <- rotate RY circuit (2 * coefficient) q ;; ret (Some c)
        else if Ascii.eqb pauli_op chZ
        then c <- rotate RZ circuit (2 * coefficient) q ;; ret (Some c)
        else ret (Some circuit)
    | _ =>
        let target := last active 0 in
        c1 <- cx_chain circuit (removelast active) target ;;
        c2 <- rotate RZ c1 (2 * coefficient) target ;;
        c3 <- cx_chain c2 (rev (removelast active)) target ;;
        ret (Some c3)
    end.

End Rotation.

(* ===================================================================== *)
(** ** quantum_simulator.QuantumSimulator: simulation and analysis        *)
(* ===================================================================== *)

Module SimulatorService.

(** The floating-point routines of the energy curves, and the text Python
    prints for a float. *)
Record FloatOps : Type := MkFloatOps {
  np_exp : Q -> Q;
  np_cos : Q -> Q;
  np_sin : Q -> Q;
  np_std : list Q -> Q;
  np_pi : Q;
  float_str : Q -> string
}.

(** *** [_simulate_energy_evolution] *)

(** [np.linspace(0, stop, num)]: [num] evenly spaced samples whose last one
    is [stop] itself; a negative [num] is refused. *)
Definition linspace (stop : Q) (num : Z) : py (list Q) :=
  if (num <? 0)%Z
  then raise (ValueError "Number of samples must be non-negative")
  else
    match Z.to_nat num with
    | O => ret []
    | S O => ret [0%Q]
    | S m =>
        let step := (stop / inject_Z (Z.of_nat m))%Q in
        ret (map (fun i => inject_Z (Z.of_nat i) * step)%Q (seq 0 m) ++ [stop])
    end.

Record EnergyPoint : Type := MkEnergyPoint {
  time : Q;
  total_energy : Q;
  kinetic_energy : Q;
  potential_energy : Q
}.

Definition energy_point (f : FloatOps) (energy_scale sim_time t : Q)
  : EnergyPoint :=
  let phase := (2 * np_pi f * t / sim_time * 3)%Q in
  let energy :=
    (energy_scale * np_exp f (- (1 # 100) * t) * np_cos f phase)%Q in
  let kinetic := Qabs (energy_scale * np_sin f phase * (1 # 2))%Q in
  let potential := Qabs (energy - kinetic)%Q in
  {| time := t;
     total_energy := energy;
     kinetic_energy := kinetic;
     potential_energy := potential |}.

Definition _simulate_energy_evolution (f : FloatOps)
    (hamiltonian_result : QuantumSimulator.HamiltonianResult) (sim_time : Q)
    (trotter_steps : Z) : py (list EnergyPoint) :=
  catch
    (time_points <- linspace sim_time (Z.min 100 (trotter_steps * 10)) ;;
     let pauli_coeffs :=
       map snd (QuantumSimulator.pauli_decomposition hamiltonian_result) in
     let energy_scale :=
       match pauli_coeffs with
       | [] => 1%Q
       | _ => np_std f pauli_coeffs
       end in
     ret (map (energy_point f energy_scale sim_time) time_points))
    (fun _ => ret []).

(** *** [_mock_simulation] *)

(** [f"{z:wd}"]: right-aligned in [w] columns. *)
Definition fmt_d (w : nat) (z : Z) : string :=
  (str_repeat " "%char (w - String.length (dec z)) ++ dec z)%string.

(** [simulation_params]; [None] is an absent key. *)
Record SimulationParams : Type := MkSimulationParams {
  param_time : option Q;
  param_trotter_steps : option Z
}.

Record SimulationResult : Type := MkSimulationResult {
  circuit_depth : Z;
  gate_count : Z;
  circuit_qasm : string;
  circuit_string : string;
  energy_evolution : list EnergyPoint;
  final_amplitudes : list QuantumSimulator.Amplitude;
  execution_time : Q;
  simulation_parameters : SimulationParams;
  timestamp : string;
  mock_simulation : bool
}.

Definition mock_circuit_string (f : FloatOps) (qubit_count circuit_depth
    gate_count trotter_steps : Z) (sim_time : Q) (num_terms : nat) : string :=
  (Trotter.nl
   ++ "╭─ Mock Quantum Circuit ─╮" ++ Trotter.nl
   ++ "│ Qubits: " ++ fmt_d 2 qubit_count ++ "              │" ++ Trotter.nl
   ++ "│ Depth:  " ++ fmt_d 4 circuit_depth ++ "            │" ++ Trotter.nl
   ++ "│ Gates:  " ++ fmt_d 4 gate_count ++ "            │" ++ Trotter.nl
   ++ "╰────────────────────────╯" ++ Trotter.nl
   ++ Trotter.nl
   ++ "Trotter Steps: " ++ dec trotter_steps ++ Trotter.nl
   ++ "Simulation Time: " ++ float_str f sim_time ++ Trotter.nl
   ++ "Pauli Terms: " ++ dec (Z.of_nat num_terms) ++ Trotter.nl
   ++ Trotter.nl
   ++ "Note: This is a mock simulation." ++ Trotter.nl
   ++ "Install Qiskit for real quantum circuits." ++ Trotter.nl)%string.

Definition mock_simulation_qasm (qubit_count gate_count : Z) : string :=
  ("// Mock QASM Circuit" ++ Trotter.nl
   ++ "OPENQASM 2.0;" ++ Trotter.nl
   ++ "include " ++ Trotter.dquote ++ "qelib1.inc" ++ Trotter.dquote ++ ";"
   ++ Trotter.nl
   ++ "qreg q[" ++ dec qubit_count ++ "];" ++ Trotter.nl
   ++ "creg c[" ++ dec qubit_count ++ "];" ++ Trotter.nl
   ++ "// " ++ dec gate_count ++ " gates would be here" ++ Trotter.nl)%string.

(** [now] is the text of [datetime.utcnow().isoformat()]. *)
Definition _mock_simulation (f : FloatOps) (rng : QuantumSimulator.Random)
    (polar : Q -> Q -> complex) (now : string)
    (hamiltonian_result : QuantumSimulator.HamiltonianResult)
    (simulation_params : SimulationParams) : py SimulationResult :=
  let qubit_count := QuantumSimulator.qubit_count hamiltonian_result in
  let sim_time := Trotter.get_default (param_time simulation_params) 1%Q in
  let trotter_steps :=
    Trotter.get_default (param_trotter_steps simulation_params) 10%Z in
  let num_terms :=
    length (QuantumSimulator.pauli_decomposition hamiltonian_result) in
  let '(circuit_depth, gate_count) :=
    QuantumSimulator._mock_simulation_metrics (Z.of_nat qubit_count)
      num_terms trotter_steps in
  energy_evolution <- _simulate_energy_evolution f hamiltonian_result sim_time
                        trotter_steps ;;
  final_amplitudes <- QuantumSimulator._calculate_final_amplitudes rng polar
                        qubit_count ;;
  ret {| circuit_depth := circuit_depth;
         gate_count := gate_count;
         circuit_qasm := mock_simulation_qasm (Z.of_nat qubit_count) gate_count;
         circuit_string :=
           mock_circuit_string f (Z.of_nat qubit_count) circuit_depth
             gate_count trotter_steps sim_time num_terms;
         energy_evolution := energy_evolution;
         final_amplitudes := final_amplitudes;
         execution_time := 1%Q;
         simulation_parameters := simulation_params;
         timestamp := now;
         mock_simulation := true |}.

(** *** [run_simulation] *)

(** Binding [nargs] positional arguments to a function of [nparams]
    parameters, the last [ndefaults] of which have defaults. *)
Definition bind_positional (fname : string) (nparams ndefaults nargs : nat)
  : py unit :=
  if nparams <? nargs
  then raise (TypeError (fname ++ "() takes from "
                           ++ dec (Z.of_nat (nparams - ndefaults)) ++ " to "
                           ++ dec (Z.of_nat nparams)
                           ++ " positional arguments but "
                           ++ dec (Z.of_nat nargs) ++ " were given"))
  else if nargs <? nparams - ndefaults
  then raise (TypeError (fname ++ "() missing required positional arguments"))
  else ret tt.


(** *** [_analyze_operator_distribution] *)

(** The dictionary with the keys I, X, Y, Z. *)
Record OperatorCounts (A : Type) : Type := MkOperatorCounts {
  on_I : A;
  on_X : A;
  on_Y : A;
  on_Z : A
}.

Arguments MkOperatorCounts {A}.
Arguments on_I {A}.
Arguments on_X {A}.
Arguments on_Y {A}.
Arguments on_Z {A}.

(** [if op in operator_counts: operator_counts[op] += 1] *)
Definition count_op (counts : OperatorCounts nat) (op : ascii)
  : OperatorCounts nat :=
  if Ascii.eqb op chI
  then MkOperatorCounts (S (on_I counts)) (on_X counts) (on_Y counts)
         (on_Z counts)
  else if Ascii.eqb op chX
  then MkOperatorCounts (on_I counts) (S (on_X counts)) (on_Y counts)
         (on_Z counts)
  else if Ascii.eqb op chY
  then MkOperatorCounts (on_I counts) (on_X counts) (S (on_Y counts))
         (on_Z counts)
  else if Ascii.eqb op chZ
  then MkOperatorCounts (on_I counts) (on_X counts) (on_Y counts)
         (S (on_Z counts))
  else counts.

Definition count_operators (pauli_decomp : list (string * Q))
  : OperatorCounts nat :=
  fold_left
    (fun counts term =>
       fold_left count_op (list_ascii_of_string (fst term)) counts)
    pauli_decomp (MkOperatorCounts 0 0 0 0).

Definition counts_total (counts : OperatorCounts nat) : nat :=
  on_I counts + on_X counts + on_Y counts + on_Z counts.

Definition of_nat_Q (n : nat) : Q := inject_Z (Z.of_nat n).

(** Returns [(counts, percentages)]. *)
Definition _analyze_operator_distribution (pauli_decomp : list (string * Q))
  : OperatorCounts nat * OperatorCounts Q :=
  let operator_counts := count_operators pauli_decomp in
  let total := counts_total operator_counts in
  let percent count := (of_nat_Q count / of_nat_Q total * 100)%Q in
  let operator_percentages :=
    if 0 <? total
    then MkOperatorCounts (percent (on_I operator_counts))
           (percent (on_X operator_counts)) (percent (on_Y operator_counts))
           (percent (on_Z operator_counts))
    else MkOperatorCounts (of_nat_Q (on_I operator_counts))
           (of_nat_Q (on_X operator_counts)) (of_nat_Q (on_Y operator_counts))
           (of_nat_Q (on_Z operator_counts)) in
  (operator_counts, operator_percentages).

(** *** [estimate_classical_complexity] *)

Record Complexity : Type := MkComplexity {
  cx_qubit_count : nat;
  state_space_size : Z;
  memory_required_gb : Q;
  estimated_time_seconds : Q;
  feasible_classical : bool;
  quantum_advantage : bool
}.

(** Integers from [float_limit] on round to [2 ** 1024] and have no
    double. *)
Definition float_limit : Z := (2 ^ 1024 - 2 ^ 970)%Z.

(** [a / b] on two integers. *)
Definition true_divide (a b : Z) : py Q :=
  if (b =? 0)%Z then raise ZeroDivisionError
  else
    let q := (inject_Z a / inject_Z b)%Q in
    if Qle_bool (inject_Z float_limit) (Qabs q) then raise OverflowError
    else ret q.

(** The conversion of the integer in [z / 1e9]. *)
Definition float_of_int (z : Z) : py Q :=
  if (float_limit <=? Z.abs z)%Z then raise OverflowError
  else ret (inject_Z z).

(** The body of the [try]. *)
Definition estimate_body
    (hamiltonian_result : QuantumSimulator.HamiltonianResult)
  : py Complexity :=
  let qubit_count := QuantumSimulator.qubit_count hamiltonian_result in
  let pauli_terms :=
    length (QuantumSimulator.pauli_decomposition hamiltonian_result) in
  let state_space_size := (2 ^ Z.of_nat qubit_count)%Z in
  memory_gb <- true_divide (state_space_size * 16) (1024 ^ 3) ;;
  let operations_per_term := (state_space_size * Z.of_nat qubit_count)%Z in
  let total_operations := (operations_per_term * Z.of_nat pauli_terms)%Z in
  total <- float_of_int total_operations ;;
  let estimated_time_seconds := (total / 1000000000)%Q in
  ret {| cx_qubit_count := qubit_count;
         state_space_size := state_space_size;
         memory_required_gb := memory_gb;
         estimated_time_seconds := estimated_time_seconds;
         feasible_classical := (qubit_count <=? 30) && Qle_bool memory_gb 64;
         quantum_advantage := 50 <=? qubit_count |}.

(** What the method returns: the estimate, or [{'error': str(e)}]. *)
Inductive ComplexityReport : Type :=
| Estimate (complexity : Complexity)
| ErrorReport (e : PyError).

Definition estimate_classical_complexity
    (hamiltonian_result : QuantumSimulator.HamiltonianResult)
  : ComplexityReport :=
  match estimate_body hamiltonian_result with
  | inr complexity => Estimate complexity
  | inl e => ErrorReport e
  end.

End SimulatorService.

(* ===================================================================== *)
(** ** generate_mesh                                                      *)
(* ===================================================================== *)

Module GenerateMesh.

(** [l[i] = x] *)
Fixpoint assign {A : Type} (l : list A) (i : nat) (x : A) : py (list A) :=
  match l, i with
  | [], _ => raise IndexError
  | _ :: tl, O => ret (x :: tl)
  | y :: tl, S k => tl' <- assign tl k x ;; ret (y :: tl')
  end.

(** [K[i, j] = v] on a [lil_matrix] *)
Definition assign2 (K : matrix Q) (i j : nat) (v : Q) : py (matrix Q) :=
  match nth_error K i with
  | Some row => row' <- assign row j v ;; assign K i row'
  | None => raise IndexError
  end.

(** [lil_matrix((n, n))] *)
Definition zeros (n : nat) : matrix Q := repeat (repeat 0%Q n) n.

(** [x / y] on two floats *)
Definition divide (x y : Q) : py Q :=
  if Qeq_bool y 0 then raise ZeroDivisionError else ret (x / y)%Q.

(** A material value as Python has it: an [int] of any size (a [bool] is
    the int 0 or 1) or a [float].  A float is finite here and is the
    rational it denotes: rounding, and the silent overflow of float
    arithmetic to [inf], are left out.  The conversion of an [int] to a
    float is not: it raises when the int has no double. *)
Inductive number : Type :=
| Int (z : Z)
| Float (x : Q).

(** The operand of a float operation, or of the assignment into a
    [lil_matrix] of doubles. *)
Definition as_float (a : number) : py Q :=
  match a with
  | Int z => SimulatorService.float_of_int z
  | Float x => ret x
  end.

(** [a + b], [a - b] and [a * b]: exact on two ints; otherwise both
    operands are converted, the left one first. *)
Definition arith (on_ints : Z -> Z -> Z) (on_floats : Q -> Q -> Q)
    (a b : number) : py number :=
  match a, b with
  | Int x, Int y => ret (Int (on_ints x y))
  | _, _ => x <- as_float a ;; y <- as_float b ;; ret (Float (on_floats x y))
  end.

Definition add : number -> number -> py number := arith Z.add Qplus.
Definition sub : number -> number -> py number := arith Z.sub Qminus.
Definition mul : number -> number -> py number := arith Z.mul Qmult.

(** [-a] *)
Definition neg (a : number) : number :=
  match a with
  | Int x => Int (- x)
  | Float x => Float (- x)
  end.

(** [a / b]: the quotient of two ints is computed exactly and then
    rounded; otherwise both operands are converted before the division. *)
Definition truediv (a b : number) : py Q :=
  match a, b with
  | Int x, Int y => SimulatorService.true_divide x y
  | _, _ => x <- as_float a ;; y <- as_float b ;; divide x y
  end.

(** [range(0, stop, 3)] *)
Definition range3 (stop : Z) : list nat :=
  map (fun k => 3 * k) (seq 0 (Z.to_nat ((stop + 2) / 3))).

(** The keys of [mesh_data] the function reads; [None] is an absent key. *)
Record MeshData : Type := MkMeshData {
  num_nodes : option Z;
  num_elements : option Z
}.

Record MaterialProperties : Type := MkMaterialProperties {
  young_modulus : option number;
  poisson_ratio : option number;
  density : option number
}.

Record Matrices : Type := MkMatrices {
  K : HamiltonianPrep.array2;
  M : HamiltonianPrep.array2;
  num_dofs : Z;
  lambda : Q;
  mu : Q
}.

(** [for i in range(num_dofs): A[i, i] = value]: the expression [value] is
    evaluated, and converted to a double, at every turn of the loop. *)
Fixpoint fill_diagonal (A : matrix Q) (idxs : list nat) (value : py Q)
  : py (matrix Q) :=
  match idxs with
  | [] => ret A
  | i :: rest =>
      v <- value ;; A' <- assign2 A i i v ;; fill_diagonal A' rest value
  end.

(** The body of the loop over [j]. *)
Definition couple (A : matrix Q) (n i j : nat) (value : py Q)
  : py (matrix Q) :=
  if i + j + 3 <? n then
    v1 <- value ;;
    A1 <- assign2 A (i + j) (i + j + 3) v1 ;;
    v2 <- value ;;
    assign2 A1 (i + j + 3) (i + j) v2
  else ret A.

Fixpoint couple_inner (A : matrix Q) (n i : nat) (js : list nat)
    (value : py Q) : py (matrix Q) :=
  match js with
  | [] => ret A
  | j :: rest => A' <- couple A n i j value ;; couple_inner A' n i rest value
  end.

Fixpoint couple_outer (A : matrix Q) (n : nat) (idxs : list nat)
    (value : py Q) : py (matrix Q) :=
  match idxs with
  | [] => ret A
  | i :: rest =>
      A' <- couple_inner A n i (seq 0 3) value ;;
      couple_outer A' n rest value
  end.

(** The timing and the log lines are left out; the [except] clause
    re-raises. *)
Definition compute_stiffness_mass_matrices (mesh_data : MeshData)
    (material_properties : MaterialProperties) : py Matrices :=
  let num_nodes := Trotter.get_default (num_nodes mesh_data) 0%Z in
  let num_elements := Trotter.get_default (num_elements mesh_data) 0%Z in
  let num_dofs := (num_nodes * 3)%Z in
  E <- Trotter.subscript "young_modulus" (young_modulus material_properties) ;;
  nu <- Trotter.subscript "poisson_ratio"
          (poisson_ratio material_properties) ;;
  rho <- Trotter.subscript "density" (density material_properties) ;;
  (* (E * nu) / ((1 + nu) * (1 - 2 * nu)) *)
  e_nu <- mul E nu ;;
  one_plus_nu <- add (Int 1) nu ;;
  two_nu <- mul (Int 2) nu ;;
  one_minus_two_nu <- sub (Int 1) two_nu ;;
  denominator <- mul one_plus_nu one_minus_two_nu ;;
  lambda_lame <- truediv e_nu denominator ;;
  (* E / (2 * (1 + nu)) *)
  one_plus_nu <- add (Int 1) nu ;;
  twice <- mul (Int 2) one_plus_nu ;;
  mu <- truediv E twice ;;
  _ <- (if (num_dofs <? 0)%Z
        then raise (ValueError "'shape' elements cannot be negative")
        else ret tt) ;;
  let n := Z.to_nat num_dofs in
  K0 <- fill_diagonal (zeros n) (seq 0 n)
          (v <- mul E (Float (1 # 1000000)) ;; as_float v) ;;
  K1 <- couple_outer K0 n (range3 (num_dofs - 3))
          (v <- mul (neg E) (Float (1 # 10000000)) ;; as_float v) ;;
  avg_element_mass <-
    (if (0 <? num_elements)%Z
     then w <- truediv (Float 1) (Int num_elements) ;; mul rho (Float w)
     else ret rho) ;;
  M0 <- fill_diagonal (zeros n) (seq 0 n) (as_float avg_element_mass) ;;
  ret {| K := HamiltonianPrep.MkArray true K1;
         M := HamiltonianPrep.MkArray true M0;
         num_dofs := num_dofs;
         lambda := lambda_lame;
         mu := mu |}.

(** *** [generate_simple_mesh] *)

Record Mesh : Type := MkMesh {
  nodes : list (Q * Q * Q);
  elements : list (list Z);
  mesh_num_nodes : nat;
  mesh_num_elements : nat
}.

Definition range (z : Z) : list Z := Trotter.range z.

(** The three nested loops that append [[x, y, z]]. *)
Fixpoint node_loop (n : Z) (size : Q) (ijk : list (Z * Z * Z))
    (nodes : list (Q * Q * Q)) : py (list (Q * Q * Q)) :=
  match ijk with
  | [] => ret nodes
  | (i, j, k) :: rest =>
      xi <- divide (inject_Z i) (inject_Z n) ;;
      yj <- divide (inject_Z j) (inject_Z n) ;;
      zk <- divide (inject_Z k) (inject_Z n) ;;
      node_loop n size rest
        (nodes ++ [((xi * size)%Q, (yj * size)%Q, (zk * size)%Q)])
  end.

(** The index triples in the order the loops visit them. *)
Definition grid (m : Z) : list (Z * Z * Z) :=
  flat_map
    (fun i => flat_map (fun j => map (fun k => (i, j, k)) (range m))
                (range m))
    (range m).

Definition hexahedron (n i j k : Z) : list Z :=
  let n0 := (i * (n + 1) * (n + 1) + j * (n + 1) + k)%Z in
  let n1 := (n0 + 1)%Z in
  let n2 := (n0 + (n + 1))%Z in
  let n3 := (n2 + 1)%Z in
  let n4 := (n0 + (n + 1) * (n + 1))%Z in
  let n5 := (n4 + 1)%Z in
  let n6 := (n4 + (n + 1))%Z in
  let n7 := (n6 + 1)%Z in
  [n0; n1; n3; n2; n4; n5; n7; n6].

Definition generate_simple_mesh (mesh_type : string) (size : Q)
    (resolution : Z) : py Mesh :=
  if String.eqb mesh_type "cube" then
    let n := resolution in
    nodes <- node_loop n size (grid (n + 1)) [] ;;
    let elements :=
      map (fun ijk => let '(i, j, k) := ijk in hexahedron n i j k)
          (grid n) in
    ret {| nodes := nodes;
           elements := elements;
           mesh_num_nodes := length nodes;
           mesh_num_elements := length elements |}
  else raise (ValueError ("Unsupported mesh type: " ++ mesh_type)).

End GenerateMesh.

(* ===================================================================== *)
(** ** mesh_processor                                                     *)
(* ===================================================================== *)

Module MeshProcessor.

(** [K, M = d] on a dictionary [d] with the given keys. *)
Definition unpack_pair (keys : list string) : py (string * string) :=
  match keys with
  | [a; b] => ret (a, b)
  | _ :: _ :: _ :: _ =>
      raise (ValueError "too many values to unpack (expected 2)")
  | _ => raise (ValueError "not enough values to unpack")
  end.

(** [compute_matrices] calls [compute_stiffness_mass_matrices] with the
    path alone, one positional argument for the two required parameters
    [(mesh_data, material_properties)]; what follows the call would unpack
    the returned dictionary into two names. *)
Definition compute_matrices (file_path : string)
    (material_properties : GenerateMesh.MaterialProperties)
  : py (string * string) :=
  _ <- SimulatorService.bind_positional "compute_stiffness_mass_matrices"
         2 0 1 ;;
  unpack_pair ["K"; "M"; "num_dofs"; "computation_time";
               "material_constants"]%string.

End MeshProcessor.

(* ===================================================================== *)
(** ** api.utils: the validators                                          *)
(* ===================================================================== *)

Module ApiUtils.

(** A Python float; every finite double is a rational, and a request body
    can also carry [Infinity], [-Infinity] and [NaN]. *)
Inductive pyfloat : Type :=
| Finite (q : Q)
| PosInf
| NegInf
| NaN.

(** A value stored in a parsed JSON object; [VOther] is a list or a nested
    object. *)
Inductive pyval : Type :=
| VNone
| VBool (b : bool)
| VInt (z : Z)
| VFloat (x : pyfloat)
| VStr (s : string)
| VOther.

(** What a validator is handed: a dictionary, or anything else. *)
Inductive pyarg : Type :=
| ADict (d : list (string * pyval))
| ANotDict (v : pyval).

(** [d.get(key)] on the items of a dictionary. *)
Fixpoint lookup (key : string) (d : list (string * pyval)) : option pyval :=
  match d with
  | [] => None
  | (k, v) :: rest => if String.eqb k key then Some v else lookup key rest
  end.

(** The value behind [isinstance(v, (int, float))] as the comparisons of
    the validators see it; [bool] is a subclass of [int].  Python compares
    an int with a float exactly, whatever its size, so an int is the
    rational it denotes here; nothing is converted to a double. *)
Definition number (v : pyval) : option pyfloat :=
  match v with
  | VBool b => Some (Finite (if b then 1 else 0))
  | VInt z => Some (Finite (inject_Z z))
  | VFloat x => Some x
  | _ => None
  end.


(** [x <= q], [x < q] and [x > q]: every comparison with NaN is false. *)
Definition fle (x : pyfloat) (q : Q) : bool :=
  match x with
  | Finite p => Qle_bool p q
  | NegInf => true
  | PosInf | NaN => false
  end.

Definition flt (x : pyfloat) (q : Q) : bool :=
  match x with
  | Finite p => Qltb p q
  | NegInf => true
  | PosInf | NaN => false
  end.

Definition fgt (x : pyfloat) (q : Q) : bool :=
  match x with
  | Finite p => Qltb q p
  | PosInf => true
  | NegInf | NaN => false
  end.

(** [not isinstance(value, (int, float)) or value <= 0] *)
Definition not_positive_number (value : pyval) : bool :=
  match number value with
  | None => true
  | Some x => fle x 0
  end.

(** The loop over [required_fields]; [false] is the early [return False]. *)
Fixpoint check_fields (properties : list (string * pyval))
    (fields : list string) : bool :=
  match fields with
  | [] => true
  | field :: rest =>
      match lookup field properties with
      | None => false
      | Some value =>
          if not_positive_number value then false
          else check_fields properties rest
      end
  end.

Definition required_fields : list string :=
  ["young_modulus"; "poisson_ratio"; "density"]%string.

Definition validate_material_properties (properties : pyarg) : bool :=
  match properties with
  | ADict d =>
      if check_fields d required_fields then
        match lookup "poisson_ratio" d with
        | Some poisson =>
            match number poisson with
            | Some x => fgt x 0 && flt x (1 # 2)
            | None => false
            end
        | None => false
        end
      else false
  | _ => false
  end.


(** *** [allowed_file]

    File names are strings of code points below 256; among those only the
    letters A to Z have an ASCII lower case, which is all the membership
    test can see. *)

Definition dot : ascii := "."%char.

(** [filename.rsplit('.', 1)[1]]; [None] when there is no dot. *)
Fixpoint after_last_dot (s : string) : option string :=
  match s with
  | EmptyString => None
  | String c tl =>
      match after_last_dot tl with
      | Some ext => Some ext
      | None => if Ascii.eqb c dot then Some tl else None
      end
  end.

Definition lower_char (c : ascii) : ascii :=
  let n := nat_of_ascii c in
  if (65 <=? n) && (n <=? 90) then ascii_of_nat (n + 32) else c.

(** [s.lower()] *)
Fixpoint lower (s : string) : string :=
  match s with
  | EmptyString => EmptyString
  | String c tl => String (lower_char c) (lower tl)
  end.

(** [ALLOWED_EXTENSIONS] of the configuration. *)
Definition ALLOWED_EXTENSIONS : list string :=
  ["vtk"; "mesh"; "msh"; "obj"; "stl"; "ply"]%string.

Definition allowed_file (filename : string) : bool :=
  match filename with
  | EmptyString => false
  | _ =>
      match after_last_dot filename with
      | Some ext => existsb (String.eqb (lower ext)) ALLOWED_EXTENSIONS
      | None => false
      end
  end.

End ApiUtils.

(* ===================================================================== *)
(** ** file_handler.delete_file_data                                      *)
(* ===================================================================== *)

Module FileHandler.

(** The files that exist, by path, with their content. *)
Definition filesystem : Type := list (string * string).

(** What the methods take from [pathlib], [json] and the operating
    system: the three path formulas; the [glob] pattern test on a path of
    the exports directory; [json.load] on a text ([None] when it raises);
    truthiness of the parsed value; the evaluation of
    ['file_path' in metadata] followed by [metadata['file_path']], of
    [metadata.get('upload_time')] and of ['timestamp' in summary] followed
    by [summary['timestamp']], each of which raises on a value that is no
    object; and the paths whose [unlink] raises. *)
Record Environment : Type := MkEnvironment {
  json : Type;
  metadata_file : string -> string;
  result_file : string -> string -> string;
  summary_file : string -> string -> string;
  export_match : string -> string -> bool;
  parse : string -> option json;
  truthy : json -> bool;
  file_path_entry : json -> py (option string);
  upload_time_entry : json -> py (option string);
  timestamp_entry : json -> py (option string);
  locked : string -> bool
}.

(** [Path(p).exists()] *)
Definition exists_ (fs : filesystem) (p : string) : bool :=
  existsb (fun entry => String.eqb (fst entry) p) fs.

Definition read (fs : filesystem) (p : string) : option string :=
  match find (fun entry => String.eqb (fst entry) p) fs with
  | Some entry => Some (snd entry)
  | None => None
  end.

Definition remove (fs : filesystem) (p : string) : filesystem :=
  filter (fun entry => negb (String.eqb (fst entry) p)) fs.

(** A step of the [try] body: the file system it leaves, and [false] when
    it raised. *)
Definition action : Type := filesystem -> filesystem * bool.

Definition andThen (a b : action) : action :=
  fun fs => let '(fs1, ok) := a fs in if ok then b fs1 else (fs1, false).

Definition skip : action := fun fs => (fs, true).

(** [p.unlink()]: raises on a missing or protected file. *)
Definition unlink (env : Environment) (p : string) : action :=
  fun fs =>
    if locked env p || negb (exists_ fs p) then (fs, false)
    else (remove fs p, true).

(** [if p.exists(): p.unlink()] *)
Definition unlink_if_exists (env : Environment) (p : string) : action :=
  fun fs => if exists_ fs p then unlink env p fs else (fs, true).

Fixpoint unlink_each (env : Environment) (ps : list string) : action :=
  match ps with
  | [] => skip
  | p :: rest => andThen (unlink_if_exists env p) (unlink_each env rest)
  end.

(** [get_file_metadata]: [None] when the metadata file is missing or does
    not parse. *)
Definition get_file_metadata (env : Environment) (file_id : string)
    (fs : filesystem) : option (json env) :=
  if exists_ fs (metadata_file env file_id)
  then match read fs (metadata_file env file_id) with
       | Some text => parse env text
       | None => None
       end
  else None.

Definition computation_types : list string :=
  ["matrices"; "hamiltonian"; "simulation"]%string.

(** The result and summary paths, in the order of the loops. *)
Definition result_paths (env : Environment) (file_id : string)
  : list string :=
  flat_map (fun comp_type => [result_file env file_id comp_type;
                              summary_file env file_id comp_type])
    computation_types.

(** The block that deletes the uploaded file. *)
Definition delete_upload (env : Environment) (file_id : string) : action :=
  fun fs =>
    match get_file_metadata env file_id fs with
    | Some metadata =>
        if truthy env metadata then
          match file_path_entry env metadata with
          | inr (Some uploaded_file) => unlink_if_exists env uploaded_file fs
          | inr None => (fs, true)
          | inl _ => (fs, false)
          end
        else (fs, true)
    | None => (fs, true)
    end.

Fixpoint unlink_all (env : Environment) (ps : list string) : action :=
  match ps with
  | [] => skip
  | p :: rest => andThen (unlink env p) (unlink_all env rest)
  end.

(** [for export_file in self.exports_dir.glob(...): export_file.unlink()];
    the pattern yields each matching file once. *)
Definition delete_exports (env : Environment) (file_id : string) : action :=
  fun fs =>
    unlink_all env
      (nodup string_dec (filter (export_match env file_id) (map fst fs))) fs.

(** The file system after the call, and the returned boolean. *)
Definition delete_file_data (env : Environment) (file_id : string) : action :=
  andThen (unlink_if_exists env (metadata_file env file_id))
    (andThen (unlink_each env (result_paths env file_id))
       (andThen (delete_upload env file_id)
          (delete_exports env file_id))).

(** *** [get_processing_status] *)

Record Status : Type := MkStatus {
  uploaded : bool;
  matrices_computed : bool;
  hamiltonian_computed : bool;
  simulation_completed : bool;
  last_updated : option string
}.

(** [status[status_key] = True] for the key of [comp_type]. *)
Definition mark (comp_type : string) (status : Status) : Status :=
  if String.eqb comp_type "matrices" then
    MkStatus (uploaded status) true (hamiltonian_computed status)
      (simulation_completed status) (last_updated status)
  else if String.eqb comp_type "hamiltonian" then
    MkStatus (uploaded status) (matrices_computed status) true
      (simulation_completed status) (last_updated status)
  else
    MkStatus (uploaded status) (matrices_computed status)
      (hamiltonian_computed status) true (last_updated status).

Definition set_last_updated (t : option string) (status : Status) : Status :=
  MkStatus (uploaded status) (matrices_computed status)
    (hamiltonian_computed status) (simulation_completed status) t.

(** The loop over the computation types. *)
Fixpoint check_summaries (env : Environment) (file_id : string)
    (fs : filesystem) (comp_types : list string) (status : Status)
  : py Status :=
  match comp_types with
  | [] => ret status
  | comp_type :: rest =>
      if exists_ fs (summary_file env file_id comp_type) then
        let status := mark comp_type status in
        match read fs (summary_file env file_id comp_type) with
        | Some text =>
            match parse env text with
            | Some summary =>
                t <- timestamp_entry env summary ;;
                check_summaries env file_id fs rest
                  match t with
                  | Some _ => set_last_updated t status
                  | None => status
                  end
            | None => raise (ValueError "Expecting value")
            end
        | None => raise (ValueError "Expecting value")
        end
      else check_summaries env file_id fs rest status
  end.

(** What the method returns: the status, or [{'error': str(e)}]. *)
Inductive StatusReport : Type :=
| Reported (status : Status)
| StatusError (e : PyError).

Definition get_processing_status (env : Environment) (file_id : string)
    (fs : filesystem) : StatusReport :=
  let status := MkStatus false false false false None in
  match
    (status <-
       match get_file_metadata env file_id fs with
       | Some metadata =>
           if truthy env metadata then
             t <- upload_time_entry env metadata ;;
             ret (set_last_updated t
                    (MkStatus true false false false None))
           else ret status
       | None => ret status
       end ;;
     check_summaries env file_id fs computation_types status)
  with
  | inr status => Reported status
  | inl e => StatusError e
  end.

End FileHandler.

(* ===================================================================== *)
(** ** quantum_simulator.analyze_hamiltonian                              *)
(* ===================================================================== *)

Module HamiltonianAnalysis.

(** The numpy routines of [analyze_hamiltonian].  Those that take the
    Hamiltonian may raise: [matrix_rank] on an empty matrix, and
    [np.allclose(H, H.conj().T)] on a matrix that is not square.  [np.mean]
    and [np.std] of a list of floats do not ([nan] on an empty list). *)
Record Numpy : Type := MkNumpy {
  linalg_norm : matrix Q -> py Q;
  matrix_rank : matrix Q -> py Z;
  allclose_conj_transpose : matrix Q -> py bool;
  np_mean : list Q -> Q;
  np_std : list Q -> Q
}.

Record CoefficientStats : Type := MkCoefficientStats {
  stat_mean : Q;
  stat_std : Q;
  stat_max : Q;
  stat_min : Q
}.

Record Analysis : Type := MkAnalysis {
  spectral_norm : Q;
  spectral_trace : Q;
  rank : Z;
  is_hermitian : bool;
  total_terms : nat;
  dominant_terms : list (string * Q);
  coefficient_stats : CoefficientStats;
  operator_distribution
  : SimulatorService.OperatorCounts nat * SimulatorService.OperatorCounts Q
}.

(** [max(l)] and [min(l)]: the first largest or smallest item. *)
Definition py_max (l : list Q) : py Q :=
  match l with
  | [] => raise (ValueError "max() arg is an empty sequence")
  | x :: tl => ret (fold_left (fun m y => if Qltb m y then y else m) tl x)
  end.

Definition py_min (l : list Q) : py Q :=
  match l with
  | [] => raise (ValueError "min() arg is an empty sequence")
  | x :: tl => ret (fold_left (fun m y => if Qltb y m then y else m) tl x)
  end.

(** [abs(x['coefficient'])] *)
Definition modulus (term : string * Q) : Q := Qabs (snd term).

(** The body of the [try]; the entries of the dictionary are evaluated in
    the order they are written. *)
Definition analysis_body (np : Numpy)
    (hamiltonian_result : QuantumSimulator.HamiltonianResult) : py Analysis :=
  let H := QuantumSimulator.hamiltonian_matrix hamiltonian_result in
  let pauli_decomp :=
    QuantumSimulator.pauli_decomposition hamiltonian_result in
  let coefficients := map snd pauli_decomp in
  norm <- linalg_norm np H ;;
  let trace := re (np_trace (QuantumSimulator.as_complex H)) in
  rank <- matrix_rank np H ;;
  hermitian <- allclose_conj_transpose np H ;;
  let dominant := firstn 5 (sort_desc modulus pauli_decomp) in
  let mean := np_mean np coefficients in
  let std := np_std np coefficients in
  largest <- py_max (map modulus pauli_decomp) ;;
  smallest <- py_min (map modulus pauli_decomp) ;;
  ret {| spectral_norm := norm;
         spectral_trace := trace;
         rank := rank;
         is_hermitian := hermitian;
         total_terms := length pauli_decomp;
         dominant_terms := dominant;
         coefficient_stats :=
           {| stat_mean := mean;
              stat_std := std;
              stat_max := largest;
              stat_min := smallest |};
         operator_distribution :=
           SimulatorService._analyze_operator_distribution pauli_decomp |}.

(** What the method returns: the analysis, or [{'error': str(e)}]. *)
Inductive AnalysisReport : Type :=
| Analyzed (analysis : Analysis)
| AnalysisError (e : PyError).

Definition analyze_hamiltonian (np : Numpy)
    (hamiltonian_result : QuantumSimulator.HamiltonianResult)
  : AnalysisReport :=
  match analysis_body np hamiltonian_result with
  | inr analysis => Analyzed analysis
  | inl e => AnalysisError e
  end.

End HamiltonianAnalysis.

(* ===================================================================== *)
(** ** Vocabulary of the further properties                               *)
(* ===================================================================== *)

(** The pair the loop of [hamiltonian_to_pauli_basis] adds for index [i],
    if any. *)
Definition basis_term (H : matrix complex) (nq : Z) (i : nat)
  : list (string * complex) :=
  if cabs_gt (PauliCoeffs.entry H i i) PauliBasis.diagonal_threshold
  then [(PauliBasis.basis_string nq i, PauliCoeffs.entry H i i)]
  else [].

(** The circuit [c] after the instructions [gates]. *)
Definition with_data (c : Rotation.circuit) (gates : list Rotation.instruction)
  : Rotation.circuit :=
  {| Rotation.num_qubits := Rotation.num_qubits c;
     Rotation.global_phase := Rotation.global_phase c;
     Rotation.data := Rotation.data c ++ gates |}.

(** The multi-qubit branch as a function of the active positions alone. *)
Definition ladder (act : list nat) (coefficient : Q)
  : list Rotation.instruction :=
  map (fun q => Rotation.CX q (last act 0)) (removelast act)
  ++ [Rotation.RZ (2 * coefficient) (last act 0)]
  ++ rev (map (fun q => Rotation.CX q (last act 0)) (removelast act)).

(** The instruction of the single-qubit branch for the letter [ch]. *)
Definition single_rotation (ch : ascii) (theta : Q) (q : nat)
  : list Rotation.instruction :=
  if Ascii.eqb ch chX then [Rotation.RX theta q]
  else if Ascii.eqb ch chY then [Rotation.RY theta q]
  else if Ascii.eqb ch chZ then [Rotation.RZ theta q]
  else [].

(** Membership in the keys of [operator_counts]. *)
Definition is_pauli_char (ch : ascii) : bool :=
  Ascii.eqb ch chI || Ascii.eqb ch chX || Ascii.eqb ch chY || Ascii.eqb ch chZ.

(** [l1] is [l2] with some members left out, the order kept. *)
Inductive subseq {A : Type} : list A -> list A -> Prop :=
| subseq_nil : subseq [] []
| subseq_skip (x : A) (l1 l2 : list A) : subseq l1 l2 -> subseq l1 (x :: l2)
| subseq_keep (x : A) (l1 l2 : list A) :
    subseq l1 l2 -> subseq (x :: l1) (x :: l2).

(** What a candidate loop adds to [acc]: some of the candidates [full] of
    its range, each at most once and in their order. *)
Definition gathers (acc full result : list PauliCoeffs.candidate) : Prop :=
  exists ext, result = acc ++ ext /\ subseq ext full.

(** Every label [compute_pauli_coefficients] can produce on [nq] qubits:
    the identity, a Z on one of the first [m] qubits, XX and YY on a pair
    [i < j < m] with [i < m']. *)
Definition all_labels (nq m m' : nat) : list string :=
  str_repeat chI nq
  :: (map (PauliCoeffs.z_string nq) (seq 0 m)
      ++ flat_map
           (fun i =>
              flat_map
                (fun j => [PauliCoeffs.pair_label nq i j chX;
                           PauliCoeffs.pair_label nq i j chY])
                (seq (i + 1) (m - (i + 1))))
           (seq 0 m')).

(** The entry of a real matrix at row [a], column [b]. *)
Definition cell (A : matrix Q) (a b : nat) : Q := nth b (nth a A []) 0%Q.

(** [A] has [n] rows of [n] entries. *)
Definition shaped (n : nat) (A : matrix Q) : Prop :=
  length A = n /\ Forall (fun row => length row = n) A.

(** The two positions the coupling loop writes at [(i, j)]. *)
Definition hit (n i j a b : nat) : bool :=
  (i + j + 3 <? n)
  && (((a =? i + j) && (b =? i + j + 3))
      || ((a =? i + j + 3) && (b =? i + j))).

(** The positions the coupling loops write for the outer indices [idxs]. *)
Definition touched (n : nat) (idxs : list nat) (a b : nat) : bool :=
  existsb (fun i => existsb (fun j => hit n i j a b) (seq 0 3)) idxs.

(** The rational a material value stands for. *)
Definition value (a : GenerateMesh.number) : Q :=
  match a with
  | GenerateMesh.Int z => inject_Z z
  | GenerateMesh.Float x => x
  end.

(** The material value has a double: every float, and every int that
    [float(...)] converts. *)
Definition has_double (a : GenerateMesh.number) : Prop :=
  match a with
  | GenerateMesh.Int z => (Z.abs z < SimulatorService.float_limit)%Z
  | GenerateMesh.Float _ => True
  end.

(** A value of a request body as a material value, when it is an int, a
    bool or a finite float. *)
Definition as_number (v : ApiUtils.pyval) : option GenerateMesh.number :=
  match v with
  | ApiUtils.VBool b => Some (GenerateMesh.Int (if b then 1 else 0))
  | ApiUtils.VInt z => Some (GenerateMesh.Int z)
  | ApiUtils.VFloat (ApiUtils.Finite x) => Some (GenerateMesh.Float x)
  | _ => None
  end.

(** The stiffness approximation in closed form. *)
Definition stiffness_entry (E : Q) (a b : nat) : Q :=
  if a =? b then (E * (1 # 1000000))%Q
  else if (b =? a + 3) || (a =? b + 3) then (- E * (1 # 10000000))%Q
  else 0%Q.

(** The coordinates [generate_simple_mesh] gives the grid point
    [(i, j, k)]. *)
Definition grid_point (n : Z) (size : Q) (ijk : Z * Z * Z) : Q * Q * Q :=
  let '(i, j, k) := ijk in
  ((inject_Z i / inject_Z n * size)%Q, (inject_Z j / inject_Z n * size)%Q,
   (inject_Z k / inject_Z n * size)%Q).

(** The position of the grid point [(i, j, k)] in the node list. *)
Definition node_index (n i j k : Z) : Z :=
  (i * (n + 1) * (n + 1) + j * (n + 1) + k)%Z.

(** The action [a] creates no file and leaves every path outside [T] as
    it was. *)
Definition only_removes (T : string -> Prop) (a : FileHandler.action)
  : Prop :=
  forall fs p,
    (FileHandler.exists_ (fst (a fs)) p = true ->
     FileHandler.exists_ fs p = true)
    /\ (~ T p ->
        FileHandler.read (fst (a fs)) p = FileHandler.read fs p
        /\ FileHandler.exists_ (fst (a fs)) p = FileHandler.exists_ fs p).

(** The paths [delete_file_data] is meant to clear besides the upload. *)
Definition bookkeeping (env : FileHandler.Environment) (file_id p : string)
  : Prop :=
  p = FileHandler.metadata_file env file_id
  \/ In p (FileHandler.result_paths env file_id)
  \/ FileHandler.export_match env file_id p = true.

(** The non-identity letters of an operator string, in order. *)
Definition support (s : string) : list ascii :=
  filter (fun c => negb (Ascii.eqb c chI)) (chars s).

(** The string has no dot. *)
Definition dot_free (s : string) : Prop := ~ In ApiUtils.dot (chars s).

(* ===================================================================== *)
(** ** Further sample inputs                                              *)
(* ===================================================================== *)

(** A result of [compute_hamiltonian]'s shape on two qubits with three
    terms. *)
Definition two_qubit_result : QuantumSimulator.HamiltonianResult :=
  QuantumSimulator.MkHamiltonianResult
    [[5; 0; 0; 0]; [0; -3; 0; 0]; [0; 0; 0; 0]; [0; 0; 0; 0]]%Q
    4 4 2 [("ZI", 5); ("IZ", -3); ("XX", 1)]%string%Q 6 2.

(** Stand-ins for the float routines of the energy curves: constant
    functions, 22/7 for pi. *)
Definition plain_floats : SimulatorService.FloatOps :=
  SimulatorService.MkFloatOps (fun _ => 1%Q) (fun _ => 1%Q) (fun _ => 0%Q)
    (fun _ => 1%Q) (22 # 7) (fun _ => "1.0"%string).

(** A dense diagonal stiffness matrix with the entries 2, 4, 6, 8. *)
Definition graded4 : HamiltonianPrep.array2 :=
  HamiltonianPrep.MkArray false
    [[2; 0; 0; 0]; [0; 4; 0; 0]; [0; 0; 6; 0]; [0; 0; 0; 8]]%Q.

(** A layout with the directory names of the source, metadata texts that
    are the uploaded path itself, and no protected file. *)
Definition plain_layout : FileHandler.Environment :=
  FileHandler.MkEnvironment string
    (fun file_id => ("temp/metadata/" ++ file_id ++ ".json")%string)
    (fun file_id comp_type =>
       ("temp/results/" ++ file_id ++ "_" ++ comp_type ++ ".pkl")%string)
    (fun file_id comp_type =>
       ("temp/results/" ++ file_id ++ "_" ++ comp_type
          ++ "_summary.json")%string)
    (fun _ p => String.prefix "temp/exports/" p)
    (fun text => Some text)
    (fun _ => true)
    (fun metadata => inr (Some metadata))
    (fun _ => inr None)
    (fun _ => inr None)
    (fun _ => false).

(** An upload [a.vtk] with its metadata, one stored result and one
    export. *)
Definition uploaded_once : FileHandler.filesystem :=
  [("temp/metadata/f1.json", "uploads/a.vtk");
   ("uploads/a.vtk", "mesh");
   ("temp/results/f1_matrices.pkl", "K, M");
   ("temp/exports/qfea_results_f1.json", "{}")]%string.


(* ===================================================================== *)
(** * Part II: properties                                                 *)
(* ===================================================================== *)

(** ** The error monad *)

Lemma bind_inr {A B : Type} (x : A) (f : A -> py B) :
  bind (inr x : py A) f = f x.
Proof. reflexivity. Qed.

Lemma bind_inl {A B : Type} (e : PyError) (f : A -> py B) :
  bind (inl e : py A) f = inl e.
Proof. reflexivity. Qed.

Lemma catch_inr {A : Type} (x : A) (h : PyError -> py A) :
  catch (inr x : py A) h = inr x.
Proof. reflexivity. Qed.

Lemma catch_inl {A : Type} (e : PyError) (h : PyError -> py A) :
  catch (inl e : py A) h = h e.
Proof. reflexivity. Qed.

Lemma ret_inr {A : Type} (x : A) : (ret x : py A) = inr x.
Proof. reflexivity. Qed.

Lemma raise_inl {A : Type} (e : PyError) : (raise e : py A) = inl e.
Proof. reflexivity. Qed.

Lemma inr_eq {A : Type} (x y : A) : (inr x : py A) = inr y -> x = y.
Proof. intros Hxy. congruence. Qed.

Ltac py_simpl :=
  repeat (rewrite ?bind_inr, ?bind_inl, ?catch_inr, ?catch_inl,
            ?ret_inr, ?raise_inl).

(** ** Rational comparisons *)

Lemma Qltb_true (a b : Q) : Qltb a b = true <-> (a < b)%Q.
Proof.
  unfold Qltb. rewrite negb_true_iff. split; intros Hab.
  - apply Qnot_le_lt. intros Hle. apply Qle_bool_iff in Hle. congruence.
  - destruct (Qle_bool b a) eqn:E; [| reflexivity].
    apply Qle_bool_iff in E. exfalso. apply (Qlt_not_le _ _ Hab E).
Qed.

Lemma Qltb_false (a b : Q) : Qltb a b = false <-> (b <= a)%Q.
Proof.
  unfold Qltb. rewrite negb_false_iff. apply Qle_bool_iff.
Qed.

(** ** Python slices *)

Lemma py_take_nonneg {A : Type} (m : Z) (l : list A) :
  (0 <= m)%Z -> py_take m l = firstn (Z.to_nat m) l.
Proof.
  intros Hm. unfold py_take.
  destruct (Z.ltb_spec m 0); [lia | reflexivity].
Qed.

Lemma py_take_length {A : Type} (m : Z) (l : list A) :
  (0 <= m)%Z -> length (py_take m l) = Nat.min (Z.to_nat m) (length l).
Proof.
  intros Hm. rewrite py_take_nonneg by assumption. apply length_firstn.
Qed.

Lemma in_firstn {A : Type} (k : nat) (l : list A) (x : A) :
  In x (firstn k l) -> In x l.
Proof.
  intros Hx. rewrite <- (firstn_skipn k l). apply in_or_app. left. exact Hx.
Qed.

Lemma in_skipn {A : Type} (k : nat) (l : list A) (x : A) :
  In x (skipn k l) -> In x l.
Proof.
  intros Hx. rewrite <- (firstn_skipn k l). apply in_or_app. right. exact Hx.
Qed.

(** ** Descending insertion sort *)

Section SortDesc.

Context {A : Type} (key : A -> Q).

Lemma insert_desc_perm (x : A) (l : list A) :
  Permutation (x :: l) (insert_desc key x l).
Proof.
  induction l as [| y tl IH]; simpl; [reflexivity |].
  destruct (Qltb (key x) (key y)); [| reflexivity].
  rewrite perm_swap. constructor. exact IH.
Qed.

Lemma sort_desc_perm (l : list A) : Permutation l (sort_desc key l).
Proof.
  induction l as [| x tl IH]; simpl; [constructor |].
  rewrite <- insert_desc_perm. constructor. exact IH.
Qed.

Lemma sort_desc_length (l : list A) : length (sort_desc key l) = length l.
Proof. symmetry. apply Permutation_length, sort_desc_perm. Qed.

Lemma desc_trans (a b c : A) : desc key a b -> desc key b c -> desc key a c.
Proof. unfold desc. intros Hab Hbc. eapply Qle_trans; eassumption. Qed.

Lemma insert_desc_sorted (x : A) (l : list A) :
  StronglySorted (desc key) l ->
  StronglySorted (desc key) (insert_desc key x l).
Proof.
  induction l as [| y tl IH]; intros Hs; simpl.
  - constructor; constructor.
  - inversion Hs as [| ? ? Htl Hall]; subst.
    destruct (Qltb (key x) (key y)) eqn:E.
    + constructor; [apply IH; assumption |].
      apply (Permutation_Forall (insert_desc_perm x tl)).
      constructor; [| assumption].
      unfold desc. apply Qlt_le_weak, Qltb_true, E.
    + apply Qltb_false in E.
      constructor; [assumption |].
      constructor; [exact E |].
      eapply Forall_impl; [| exact Hall].
      intros z Hz. eapply desc_trans; [exact E | exact Hz].
Qed.

Lemma sort_desc_sorted (l : list A) :
  StronglySorted (desc key) (sort_desc key l).
Proof.
  induction l as [| x tl IH]; simpl; [constructor |].
  apply insert_desc_sorted, IH.
Qed.

Lemma firstn_sorted (k : nat) (l : list A) :
  StronglySorted (desc key) l -> StronglySorted (desc key) (firstn k l).
Proof.
  revert k. induction l as [| x tl IH]; intros k Hs.
  - rewrite firstn_nil. constructor.
  - destruct k as [| k]; simpl; [constructor |].
    inversion Hs as [| ? ? Htl Hall]; subst.
    constructor; [apply IH; assumption |].
    rewrite Forall_forall in *. intros z Hz.
    apply Hall. eapply in_firstn; eassumption.
Qed.

(** Everything cut off by [firstn] is dominated by everything kept. *)
Lemma firstn_skipn_sorted (k : nat) (l : list A) :
  StronglySorted (desc key) l ->
  forall a b, In a (firstn k l) -> In b (skipn k l) -> desc key a b.
Proof.
  revert k. induction l as [| x tl IH]; intros k Hs a b Ha Hb.
  - rewrite firstn_nil in Ha. destruct Ha.
  - destruct k as [| k]; simpl in *; [destruct Ha |].
    inversion Hs as [| ? ? Htl Hall]; subst.
    destruct Ha as [<- | Ha].
    + rewrite Forall_forall in Hall. apply Hall.
      eapply in_skipn; eassumption.
    + eapply IH; eassumption.
Qed.

End SortDesc.

(** ** Sums of rationals *)

Lemma Qsum_app (l1 l2 : list Q) : (Qsum (l1 ++ l2) == Qsum l1 + Qsum l2)%Q.
Proof.
  induction l1 as [| x tl IH]; simpl; [ring |]. rewrite IH. ring.
Qed.

Lemma Qsum_perm (l1 l2 : list Q) :
  Permutation l1 l2 -> (Qsum l1 == Qsum l2)%Q.
Proof.
  induction 1; simpl.
  - reflexivity.
  - rewrite IHPermutation. reflexivity.
  - ring.
  - etransitivity; eassumption.
Qed.

Lemma Qsum_nonneg (l : list Q) :
  Forall (fun x => 0 <= x)%Q l -> (0 <= Qsum l)%Q.
Proof.
  induction 1 as [| x tl Hx _ IH]; simpl; [apply Qle_refl |].
  replace 0%Q with (0 + 0)%Q by reflexivity. apply Qplus_le_compat; assumption.
Qed.

Lemma Qsum_scaled (s : Q) (l : list Q) :
  (Qsum (map (fun p => p / s) l) == Qsum l / s)%Q.
Proof.
  induction l as [| x tl IH]; simpl.
  - unfold Qdiv. ring.
  - rewrite IH. unfold Qdiv. ring.
Qed.

Lemma Qsum_pos (l : list Q) :
  l <> [] -> Forall (fun x => 0 < x)%Q l -> (0 < Qsum l)%Q.
Proof.
  intros Hne Hall. destruct Hall as [| x tl Hx Htl]; [congruence |].
  simpl. apply Qlt_le_trans with (x + 0)%Q.
  - rewrite Qplus_0_r. exact Hx.
  - apply Qplus_le_compat; [apply Qle_refl |].
    apply Qsum_nonneg. eapply Forall_impl; [| exact Htl].
    intros a Ha. apply Qlt_le_weak, Ha.
Qed.

Lemma Qsum_firstn_le (k : nat) (l : list Q) :
  Forall (fun x => 0 <= x)%Q l -> (Qsum (firstn k l) <= Qsum l)%Q.
Proof.
  intros Hall.
  assert (Hsk : (0 <= Qsum (skipn k l))%Q).
  { apply Qsum_nonneg. rewrite Forall_forall in *.
    intros x Hx. apply Hall. eapply in_skipn; eassumption. }
  rewrite <- (firstn_skipn k l) at 2. rewrite Qsum_app. lra.
Qed.

(* ===================================================================== *)
(** ** The amplitude estimator                                            *)
(* ===================================================================== *)

Section FinalAmplitudes.

Import QuantumSimulator.

Variable rng : Random.
Variable polar : Q -> Q -> complex.

(** The loop reads the masses in index order and never leaves the array. *)
Lemma amplitude_loop_probs (q : nat) (pre tl : list Q) :
  exists amps,
    amplitude_loop rng polar q (pre ++ tl) (seq (length pre) (length tl))
      = inr amps
    /\ map probability amps = tl.
Proof.
  revert pre. induction tl as [| p tl IH]; intros pre.
  - exists []. split; reflexivity.
  - simpl seq. simpl amplitude_loop. unfold index.
    rewrite nth_error_app2 by lia. rewrite Nat.sub_diag. simpl nth_error.
    py_simpl.
    destruct (IH (pre ++ [p])) as [amps [Hrun Hmap]].
    rewrite <- app_assoc, length_app in Hrun. simpl in Hrun.
    rewrite Nat.add_1_r in Hrun. rewrite Hrun. py_simpl.
    eexists. split; [reflexivity |]. simpl. rewrite Hmap. reflexivity.
Qed.

Lemma num_states_pos (q : nat) : 1 <= Nat.min (2 ^ q) 16.
Proof.
  assert (2 ^ q <> 0) by (apply Nat.pow_nonzero; lia). lia.
Qed.

Lemma total_mass_pos (q : nat) :
  (0 < Qsum (exponential rng (Nat.min (2 ^ q) 16)))%Q.
Proof.
  apply Qsum_pos; [| apply exponential_pos].
  intros Hnil. apply (f_equal (@length Q)) in Hnil.
  rewrite exponential_len in Hnil. simpl in Hnil.
  pose proof (num_states_pos q). lia.
Qed.

Lemma normalised_nonneg (q : nat) :
  Forall (fun x => 0 <= x)%Q (normalised rng q).
Proof.
  unfold normalised. apply Forall_map.
  eapply Forall_impl; [| apply exponential_pos].
  intros p Hp. simpl. apply Qlt_le_weak.
  apply Qlt_shift_div_l; [apply total_mass_pos |].
  rewrite Qmult_0_l. exact Hp.
Qed.

Lemma normalised_sum (q : nat) : (Qsum (normalised rng q) == 1)%Q.
Proof.
  unfold normalised. rewrite Qsum_scaled.
  pose proof (total_mass_pos q) as Hpos.
  field. intros Hz. rewrite Hz in Hpos. apply (Qlt_irrefl _ Hpos).
Qed.

Lemma final_amplitudes_run (q : nat) :
  exists amps,
    _calculate_final_amplitudes rng polar q
      = inr (firstn 10 (sort_desc probability amps))
    /\ map probability amps = normalised rng q.
Proof.
  unfold _calculate_final_amplitudes.
  destruct (amplitude_loop_probs q [] (normalised rng q)) as [amps [Hrun Hmap]].
  simpl in Hrun. unfold normalised in Hrun at 2.
  rewrite length_map, exponential_len in Hrun.
  unfold normalised in Hrun. cbv zeta in Hrun |- *.
  rewrite Hrun. py_simpl. exists amps. split; [reflexivity | exact Hmap].
Qed.

End FinalAmplitudes.

(** C9, as amended.  For every qubit count and every draw of the random
    masses, [_calculate_final_amplitudes] returns a list of
    [min(min(2^qubit_count, 16), 10)] entries, hence at most 10, sorted by
    descending probability, whose probabilities sum to at most 1; they sum
    to exactly 1 when [qubit_count <= 3], that is when no basis state is cut
    off by the final [[:10]]. *)
Theorem final_amplitudes_top10 (rng : QuantumSimulator.Random)
    (polar : Q -> Q -> complex) (qubit_count : nat) :
  exists amps,
    QuantumSimulator._calculate_final_amplitudes rng polar qubit_count
      = inr amps
    /\ length amps = Nat.min (Nat.min (2 ^ qubit_count) 16) 10
    /\ length amps <= 10
    /\ StronglySorted (desc QuantumSimulator.probability) amps
    /\ (Qsum (map QuantumSimulator.probability amps) <= 1)%Q
    /\ (qubit_count <= 3 ->
        (Qsum (map QuantumSimulator.probability amps) == 1)%Q).
Proof.
  destruct (final_amplitudes_run rng polar qubit_count)
    as [amps0 [Hrun Hmap]].
  set (sorted := sort_desc QuantumSimulator.probability amps0) in *.
  assert (Hperm : Permutation (map QuantumSimulator.probability amps0)
                    (map QuantumSimulator.probability sorted)).
  { apply Permutation_map, sort_desc_perm. }
  assert (Hlen : length sorted = Nat.min (2 ^ qubit_count) 16).
  { unfold sorted. rewrite sort_desc_length.
    rewrite <- (length_map QuantumSimulator.probability), Hmap.
    unfold normalised. rewrite length_map.
    apply QuantumSimulator.exponential_len. }
  assert (Hsum : (Qsum (map QuantumSimulator.probability sorted) == 1)%Q).
  { rewrite <- (Qsum_perm _ _ Hperm), Hmap. apply normalised_sum. }
  exists (firstn 10 sorted). split; [exact Hrun |].
  split; [rewrite length_firstn, Hlen; lia |].
  split; [rewrite length_firstn; lia |].
  split; [apply firstn_sorted, sort_desc_sorted |].
  split.
  - rewrite <- firstn_map, <- Hsum. apply Qsum_firstn_le.
    apply (Permutation_Forall Hperm). rewrite Hmap. apply normalised_nonneg.
  - intros Hq. rewrite firstn_all2; [exact Hsum |].
    rewrite Hlen.
    assert (2 ^ qubit_count <= 2 ^ 3) by (apply Nat.pow_le_mono_r; lia).
    simpl in *. lia.
Qed.

(** The amended C9 at two qubits with unit masses: four states of
    probability 1/4. *)
Lemma final_amplitudes_top10_witness :
  exists amps,
    QuantumSimulator._calculate_final_amplitudes unit_masses polar_real 2
      = inr amps
    /\ length amps = 4
    /\ (Qsum (map QuantumSimulator.probability amps) == 1)%Q.
Proof.
  destruct (final_amplitudes_top10 unit_masses polar_real 2)
    as [amps [Hrun [Hlen [_ [_ [_ Hone]]]]]].
  exists amps. split; [exact Hrun |]. split; [exact Hlen |].
  apply Hone. lia.
Defined.

(** C9 as stated fails: with four qubits and sixteen equal masses the ten
    returned probabilities sum to 10/16, not to 1 within 1e-6. *)
Lemma final_amplitudes_sum_counterexample :
  exists amps,
    QuantumSimulator._calculate_final_amplitudes unit_masses polar_real 4
      = inr amps
    /\ length amps = 10
    /\ ~ (Qabs (Qsum (map QuantumSimulator.probability amps) - 1)
          <= 1 # 1000000)%Q.
Proof.
  eexists. split; [vm_compute; reflexivity |].
  split; [reflexivity |].
  intros Hle. apply Qle_bool_iff in Hle. vm_compute in Hle. discriminate.
Qed.

(* ===================================================================== *)
(** ** The circuit synthesizer and its mock fallback                      *)
(* ===================================================================== *)

Section Synthesizer.

Import Trotter.

Lemma fallback_flagged {C : Type} (pd : PauliDict) (steps : Z) :
  mock (@fallback C pd steps) = Some true
  /\ circuit (@fallback C pd steps) = None
  /\ forall nq, num_qubits pd = Some nq ->
       info_num_qubits (circuit_info (@fallback C pd steps)) = nq.
Proof.
  repeat split. intros nq Hnq. unfold fallback. rewrite Hnq. reflexivity.
Qed.

Ltac refute_real_run :=
  let qk' := fresh "qk" in
  let c3' := fresh "c" in
  let Hb := fresh "Hb" in
  let Hr := fresh "Hr" in
  intros qk' c3' Hb Hr;
  destruct Hr as (terms' & coeffs' & nq' & c0' & c1' & dt' & d' & Hpd & Hqc
                  & Hh & Hdiv & Hm & Hd);
  try discriminate Hb; try discriminate Hpd;
  try (injection Hb as <-); try (injection Hpd as <- <- <-);
  congruence.

(** Every outcome of the call: the handler's mock, exactly when some step
    outside the evolution block fails, or a real circuit. *)
Lemma simulate_hamiltonian_cases {C : Type} (backend : option (Qiskit C))
    (pd : PauliDict) (time : Q) (steps : Z) :
  (simulate_hamiltonian backend pd time steps = inr (fallback pd steps)
   /\ no_real_run backend pd time steps)
  \/ exists qk c3 info text,
       backend = Some qk
       /\ real_run qk pd time steps c3
       /\ simulate_hamiltonian backend pd time steps
          = inr (MkSimResult (Some c3) info text true steps (Some time) None).
Proof.
  unfold simulate_hamiltonian, fallback.
  destruct pd as [[terms |] [coeffs |] [nq |]]; simpl;
    try (left; split; [reflexivity | refute_real_run]).
  destruct backend as [qk |];
    [| left; split; [reflexivity | refute_real_run]].
  py_simpl.
  destruct (QuantumCircuit qk nq) as [e | c0] eqn:Eqc; py_simpl;
    [left; split; [reflexivity | refute_real_run] |].
  destruct (hadamard_layer qk c0 (range nq)) as [e | c1] eqn:Eh; py_simpl;
    [left; split; [reflexivity | refute_real_run] |].
  destruct (py_div time steps) as [e | dt] eqn:Ediv; py_simpl;
    [left; split; [reflexivity | refute_real_run] |].
  destruct (qc_measure_all qk _) as [e | c3] eqn:Em; py_simpl;
    [left; split; [reflexivity | refute_real_run] |].
  destruct (qc_depth qk c3) as [e | d] eqn:Ed; py_simpl;
    [left; split; [reflexivity | refute_real_run] |].
  right.
  assert (Hreal : real_run qk (MkPauliDict (Some terms) (Some coeffs) (Some nq))
                    time steps c3).
  { exists terms, coeffs, nq, c0, c1, dt, d. repeat split; assumption. }
  destruct (qc_qasm qk c3) as [e | text]; py_simpl;
    do 4 eexists; (split; [reflexivity |]);
    (split; [exact Hreal |]); reflexivity.
Qed.

(** An exception while the evolution is built leaves the circuit as it
    was: no evolution gate, and nothing reported to the caller. *)
Lemma evolution_block_swallows {C : Type} (qk : Qiskit C) (c : C)
    (terms : list string) (coeffs : list Q) (nq : Z) (dt : Q) (steps : Z)
    (e : PyError) :
  SparsePauliOp qk (fst (valid_terms nq terms coeffs))
                   (snd (valid_terms nq terms coeffs)) = inl e ->
  evolution_block qk c terms coeffs nq dt steps = c.
Proof.
  intros Hop. unfold evolution_block.
  destruct (valid_terms nq terms coeffs) as [pl cl]. simpl in Hop.
  rewrite Hop.
  destruct ((0 <? length terms) && (0 <? length coeffs));
    destruct (0 <? length pl); reflexivity.
Qed.

End Synthesizer.

(** ** The two mocks *)

Lemma of_nat_Q_nonzero (m : nat) :
  m <> 0 -> ~ (SimulatorService.of_nat_Q m == 0)%Q.
Proof.
  intros Hm Hz. unfold SimulatorService.of_nat_Q, Qeq in Hz. simpl in Hz.
  lia.
Qed.

Lemma nth_map_in {A B : Type} (g : A -> B) (l : list A) (i : nat) (dA : A)
    (dB : B) :
  i < length l -> nth i (map g l) dB = g (nth i l dA).
Proof.
  revert i. induction l as [| x tl IH]; intros i Hi; simpl in *; [lia |].
  destruct i as [| i]; [reflexivity |]. apply IH. lia.
Qed.

Lemma linspace_run (stop : Q) (num : Z) :
  (0 <= num)%Z ->
  exists points,
    SimulatorService.linspace stop num = inr points
    /\ length points = Z.to_nat num
    /\ forall i, i < length points -> 2 <= length points ->
         (nth i points 0
          == SimulatorService.of_nat_Q i * stop
             / SimulatorService.of_nat_Q (length points - 1))%Q.
Proof.
  intros Hnum. unfold SimulatorService.linspace.
  destruct (Z.ltb_spec num 0) as [Hneg | _]; [lia |].
  destruct (Z.to_nat num) as [| [| m]] eqn:En.
  - exists []. split; [reflexivity |]. split; [reflexivity |].
    simpl. intros i Hi. lia.
  - exists [0%Q]. split; [reflexivity |]. split; [reflexivity |].
    simpl. intros i _ Htwo. lia.
  - eexists. split; [reflexivity |].
    assert (Hlen : length (map (fun i : nat =>
                                  (inject_Z (Z.of_nat i)
                                   * (stop / inject_Z (Z.of_nat (S m))))%Q)
                             (seq 0 (S m)) ++ [stop]) = S (S m)).
    { rewrite length_app, length_map, length_seq. simpl. lia. }
    split; [exact Hlen |]. rewrite Hlen. intros i Hi _.
    replace (S (S m) - 1) with (S m) by lia.
    pose proof (of_nat_Q_nonzero (S m) ltac:(lia)) as Hnz.
    fold (SimulatorService.of_nat_Q (S m)).
    destruct (Nat.eq_dec i (S m)) as [-> | Hne].
    + rewrite app_nth2 by (rewrite length_map, length_seq; lia).
      rewrite length_map, length_seq, Nat.sub_diag. simpl nth.
      field. exact Hnz.
    + rewrite app_nth1 by (rewrite length_map, length_seq; lia).
      rewrite (nth_map_in _ _ _ 0) by (rewrite length_seq; lia).
      rewrite seq_nth by lia. simpl Nat.add.
      fold (SimulatorService.of_nat_Q i). field. exact Hnz.
Qed.

Lemma energy_evolution_run (f : SimulatorService.FloatOps)
    (hr : QuantumSimulator.HamiltonianResult) (sim_time : Q)
    (trotter_steps : Z) :
  exists points,
    SimulatorService._simulate_energy_evolution f hr sim_time trotter_steps
      = inr points
    /\ length points = Z.to_nat (Z.min 100 (trotter_steps * 10)).
Proof.
  unfold SimulatorService._simulate_energy_evolution.
  destruct (Z.lt_ge_cases (Z.min 100 (trotter_steps * 10)) 0) as [Hneg | Hpos].
  - exists []. unfold SimulatorService.linspace.
    destruct (Z.ltb_spec (Z.min 100 (trotter_steps * 10)) 0); [| lia].
    split; [reflexivity | simpl; lia].
  - destruct (linspace_run sim_time _ Hpos) as [times [Hrun [Hlen _]]].
    rewrite Hrun. eexists. split; [reflexivity |].
    rewrite length_map. exact Hlen.
Qed.

(** C7, as amended.  The two mocks report different counts.  For every
    [num_qubits], [num_pauli_terms] and [trotter_steps] the mock circuit
    result of the synthesizer, which is what [simulate_hamiltonian] returns
    when the backend is unavailable, reports
    [num_gates = num_pauli_terms * 3 * trotter_steps + num_qubits] and
    [depth = trotter_steps * num_pauli_terms].  The mock of the simulator
    service, [_mock_simulation], always returns and reports
    [circuit_depth = trotter_steps * num_pauli_terms * 3] and
    [gate_count = circuit_depth * qubit_count]. *)
Theorem mock_circuit_counts (C : Type)
    (num_qubits num_pauli_terms trotter_steps : Z) :
  let r := @Trotter._create_mock_circuit_result C
             num_qubits num_pauli_terms trotter_steps in
  Trotter.num_gates (Trotter.circuit_info r)
    = (num_pauli_terms * 3 * trotter_steps + num_qubits)%Z
  /\ Trotter.depth (Trotter.circuit_info r)
     = (trotter_steps * num_pauli_terms)%Z
  /\ Trotter.info_num_qubits (Trotter.circuit_info r) = num_qubits
  /\ Trotter.mock r = Some true
  /\ (forall (terms : list string) (coeffs : list Q) (time : Q),
        num_pauli_terms = Z.of_nat (length terms) ->
        @Trotter.simulate_hamiltonian C None
          (Trotter.MkPauliDict (Some terms) (Some coeffs) (Some num_qubits))
          time trotter_steps = inr r)
  /\ forall (f : SimulatorService.FloatOps) (rng : QuantumSimulator.Random)
       (polar : Q -> Q -> complex) (now : string)
       (hr : QuantumSimulator.HamiltonianResult) (time : option Q),
       Z.of_nat (QuantumSimulator.qubit_count hr) = num_qubits ->
       Z.of_nat (length (QuantumSimulator.pauli_decomposition hr))
       = num_pauli_terms ->
       exists m,
         SimulatorService._mock_simulation f rng polar now hr
           (SimulatorService.MkSimulationParams time (Some trotter_steps))
         = inr m
         /\ SimulatorService.circuit_depth m
            = (trotter_steps * num_pauli_terms * 3)%Z
         /\ SimulatorService.gate_count m
            = (SimulatorService.circuit_depth m * num_qubits)%Z
         /\ SimulatorService.mock_simulation m = true.
Proof.
  cbv zeta. split; [reflexivity |]. split; [reflexivity |].
  split; [reflexivity |]. split; [reflexivity |].
  split; [intros terms coeffs time ->; reflexivity |].
  intros f rng polar now hr time <- <-.
  unfold SimulatorService._mock_simulation,
    QuantumSimulator._mock_simulation_metrics.
  cbv zeta.
  cbn [SimulatorService.param_time SimulatorService.param_trotter_steps
         Trotter.get_default].
  destruct (energy_evolution_run f hr (Trotter.get_default time 1%Q)
              trotter_steps) as [points [Hpoints _]].
  destruct (final_amplitudes_run rng polar (QuantumSimulator.qubit_count hr))
    as [amps [Hamps _]].
  rewrite Hpoints, bind_inr, Hamps, bind_inr.
  eexists. split; [reflexivity |].
  cbn [SimulatorService.circuit_depth SimulatorService.gate_count
         SimulatorService.mock_simulation].
  repeat split.
Qed.

(** C7 at two qubits, five terms and three steps, reached through
    [simulate_hamiltonian] without a backend: 47 gates, depth 15. *)
Lemma mock_circuit_counts_witness :
  exists r,
    @Trotter.simulate_hamiltonian unit None
      (Trotter.MkPauliDict
         (Some ["ZI"; "IZ"; "XX"; "YY"; "II"]%string)
         (Some [5; 4; 3; 2; 1]%Q) (Some 2%Z))
      1 3 = inr r
    /\ Trotter.num_gates (Trotter.circuit_info r) = 47%Z
    /\ Trotter.depth (Trotter.circuit_info r) = 15%Z.
Proof.
  pose proof (mock_circuit_counts unit 2 5 3) as [Hg [Hd [_ [_ [Hrun _]]]]].
  eexists. split; [apply Hrun; reflexivity |].
  split; [exact Hg | exact Hd].
Defined.

(** C7 as stated fails for the mock of the simulator service: on
    [two_qubit_result] (two qubits, three terms) with three Trotter steps it
    reports depth 27 and 54 gates, where the formulas of the claim give
    depth [3 * 3 = 9] and [3 * 3 * 3 + 2 = 29] gates. *)
Lemma mock_simulation_counts_counterexample :
  exists m,
    SimulatorService._mock_simulation plain_floats unit_masses polar_real
      "2024-01-01T00:00:00" two_qubit_result
      (SimulatorService.MkSimulationParams (Some 1%Q) (Some 3%Z)) = inr m
    /\ SimulatorService.circuit_depth m = 27%Z
    /\ SimulatorService.gate_count m = 54%Z
    /\ SimulatorService.circuit_depth m <> (3 * 3)%Z
    /\ SimulatorService.gate_count m <> (3 * 3 * 3 + 2)%Z.
Proof.
  destruct (SimulatorService._mock_simulation plain_floats unit_masses
              polar_real "2024-01-01T00:00:00" two_qubit_result
              (SimulatorService.MkSimulationParams (Some 1%Q) (Some 3%Z)))
    as [e | m] eqn:Hrun; [vm_compute in Hrun; discriminate Hrun |].
  exists m. split; [reflexivity |].
  unfold SimulatorService._mock_simulation in Hrun.
  cbv zeta in Hrun.
  destruct (SimulatorService._simulate_energy_evolution _ _ _ _)
    as [e | points]; [discriminate Hrun |].
  destruct (QuantumSimulator._calculate_final_amplitudes _ _ _)
    as [e | amps]; [discriminate Hrun |].
  apply inr_eq in Hrun. subst m.
  cbn [SimulatorService.circuit_depth SimulatorService.gate_count].
  repeat split; discriminate.
Qed.

(** The metrics lines of [_mock_simulation] on their own: depth
    [steps * terms * 3], gate count [depth * qubit_count]. *)
Lemma mock_simulation_metrics (qubit_count : Z) (num_terms : nat)
    (trotter_steps : Z) :
  QuantumSimulator._mock_simulation_metrics qubit_count num_terms trotter_steps
  = ((trotter_steps * Z.of_nat num_terms * 3)%Z,
     (trotter_steps * Z.of_nat num_terms * 3 * qubit_count)%Z).
Proof. reflexivity. Qed.

(** C6, as amended.  [simulate_hamiltonian] never raises.  It returns the
    mock built by the handler (flagged [mock = True], no circuit, and the
    qubit count of [pauli_data] when that key is present) when the backend is
    unavailable or a step outside the guarded evolution block fails (a missing
    key, creating the circuit, the Hadamard layer, the time-step division,
    the measurement, the depth query).  Otherwise it returns the real circuit
    with no mock flag, whatever happened while the Pauli evolution was
    being built: those errors are logged and swallowed. *)
Theorem simulate_hamiltonian_never_raises (C : Type)
    (backend : option (Trotter.Qiskit C)) (pauli_data : Trotter.PauliDict)
    (time : Q) (trotter_steps : Z) :
  exists r,
    Trotter.simulate_hamiltonian backend pauli_data time trotter_steps = inr r
    /\ ((r = fallback pauli_data trotter_steps
         /\ Trotter.mock r = Some true
         /\ Trotter.circuit r = None
         /\ (forall nq, Trotter.num_qubits pauli_data = Some nq ->
               Trotter.info_num_qubits (Trotter.circuit_info r) = nq)
         /\ no_real_run backend pauli_data time trotter_steps)
        \/ (exists qk c3,
              backend = Some qk
              /\ real_run qk pauli_data time trotter_steps c3
              /\ Trotter.circuit r = Some c3
              /\ Trotter.mock r = None
              /\ Trotter.success r = true)).
Proof.
  destruct (simulate_hamiltonian_cases backend pauli_data time trotter_steps)
    as [[Hmock Hno] | [qk [c [info [text [Hb [Hrun Hreal]]]]]]].
  - exists (fallback pauli_data trotter_steps).
    split; [exact Hmock |]. left.
    destruct (fallback_flagged (C := C) pauli_data trotter_steps)
      as [Hflag [Hcirc Hnq]].
    repeat split; assumption.
  - eexists. split; [exact Hreal |]. right.
    exists qk, c. repeat split; assumption.
Qed.

(** The amended C6 on a backend whose [SparsePauliOp] rejects the label: the
    call returns, and what it returns is the unflagged real circuit. *)
Lemma simulate_hamiltonian_never_raises_witness :
  exists r,
    Trotter.simulate_hamiltonian (Some (listing_backend false))
      (one_qubit_data "Q") 1 1 = inr r
    /\ (Trotter.mock r = Some true \/ Trotter.mock r = None).
Proof.
  destruct (simulate_hamiltonian_never_raises (list string)
              (Some (listing_backend false)) (one_qubit_data "Q") 1 1)
    as [r [Hrun [[_ [Hm _]] | [qk [c [_ [_ [_ [Hm _]]]]]]]]];
    exists r; (split; [exact Hrun |]); [left | right]; exact Hm.
Defined.

(** C6 as stated fails: here a synthesis step raises ([SparsePauliOp] rejects
    the label), yet the result is not the mock and carries no mock flag; it
    is the circuit with its Hadamard and measurement only. *)
Lemma swallowed_error_counterexample :
  Trotter.SparsePauliOp (listing_backend false) ["Q"%string] [1%Q]
    = inl (BackendError "invalid Pauli label")
  /\ exists r,
       Trotter.simulate_hamiltonian (Some (listing_backend false))
         (one_qubit_data "Q") 1 1 = inr r
       /\ Trotter.mock r = None
       /\ Trotter.circuit r
          = Some ["h 0"%string; "barrier"%string; "measure"%string]
       /\ r <> fallback (one_qubit_data "Q") 1.
Proof.
  split; [reflexivity |].
  eexists. split; [vm_compute; reflexivity |].
  repeat split. discriminate.
Qed.

(** C8 on the code.  With [trotter_steps = 0] the division
    [time / trotter_steps] raises, so whatever the backend, the call returns
    the handler's mock: no circuit object at all, flagged as mock, with the
    qubit count as its gate count and depth 0. *)
Theorem zero_steps_returns_mock (C : Type)
    (backend : option (Trotter.Qiskit C)) (pauli_data : Trotter.PauliDict)
    (time : Q) :
  Trotter.simulate_hamiltonian backend pauli_data time 0
    = inr (fallback pauli_data 0)
  /\ Trotter.circuit (@fallback C pauli_data 0) = None
  /\ Trotter.mock (@fallback C pauli_data 0) = Some true
  /\ Trotter.num_gates (Trotter.circuit_info (@fallback C pauli_data 0))
     = Trotter.get_default (Trotter.num_qubits pauli_data) 4%Z
  /\ Trotter.depth (Trotter.circuit_info (@fallback C pauli_data 0)) = 0%Z.
Proof.
  split; [| repeat split; unfold fallback; simpl; lia].
  destruct (simulate_hamiltonian_cases backend pauli_data time 0)
    as [[Hmock _] | [qk [c [info [text [_ [Hrun _]]]]]]]; [exact Hmock |].
  destruct Hrun as (terms & coeffs & nq & c0 & c1 & dt & d & _ & _ & _
                    & Hdiv & _).
  discriminate Hdiv.
Qed.

(** The QASM sketch of the mock at zero steps: the header, one [h] line per
    qubit, the two section comments and one [measure] line per qubit; no
    step block. *)
Lemma mock_qasm_zero_steps (num_qubits num_pauli_terms : Z) :
  Trotter.mock_qasm num_qubits num_pauli_terms 0
  = ("OPENQASM 2.0;" ++ Trotter.nl
     ++ "include " ++ Trotter.dquote ++ "qelib1.inc" ++ Trotter.dquote ++ ";"
     ++ Trotter.nl
     ++ "qreg q[" ++ dec num_qubits ++ "];" ++ Trotter.nl
     ++ "creg c[" ++ dec num_qubits ++ "];" ++ Trotter.nl
     ++ Trotter.nl
     ++ "// Mock Trotter circuit with 0 steps" ++ Trotter.nl
     ++ "// Simulating " ++ dec num_pauli_terms ++ " Pauli terms" ++ Trotter.nl
     ++ String.concat ""
          (map (fun i => "h q[" ++ dec i ++ "];" ++ Trotter.nl)
               (Trotter.range num_qubits))
     ++ Trotter.nl ++ "// Trotter evolution (mock)" ++ Trotter.nl
     ++ Trotter.nl ++ "// Measurement" ++ Trotter.nl
     ++ String.concat ""
          (map (fun i =>
                  "measure q[" ++ dec i ++ "] -> c[" ++ dec i ++ "];"
                  ++ Trotter.nl)
               (Trotter.range num_qubits)))%string.
Proof. reflexivity. Qed.

(** The same call on a working backend: one step gives the real circuit,
    zero steps gives the mock although every backend operation succeeds. *)
Lemma zero_steps_on_working_backend :
  (exists r,
     Trotter.simulate_hamiltonian (Some (listing_backend true))
       (one_qubit_data "Z") 1 1 = inr r
     /\ Trotter.circuit r
        = Some ["h 0"%string; "evolution"%string; "barrier"%string;
                "measure"%string])
  /\ exists r,
       Trotter.simulate_hamiltonian (Some (listing_backend true))
         (one_qubit_data "Z") 1 0 = inr r
       /\ Trotter.circuit r = None
       /\ Trotter.mock r = Some true.
Proof.
  split; eexists; (split; [vm_compute; reflexivity |]); repeat split.
Qed.

(* ===================================================================== *)
(** ** Matrices and the binary logarithm                                  *)
(* ===================================================================== *)

Lemma square_row_length {A : Type} (H : matrix A) (i : nat) (row : list A) :
  is_square H = true -> nth_error H i = Some row -> length row = length H.
Proof.
  intros Hsq Hrow. unfold is_square in Hsq.
  rewrite forallb_forall in Hsq.
  apply Nat.eqb_eq, Hsq. eapply nth_error_In; eassumption.
Qed.

Lemma getitem_square {A : Type} (d : A) (H : matrix A) (i j : nat) :
  is_square H = true -> i < length H -> j < length H ->
  getitem H i j = inr (nth j (nth i H []) d).
Proof.
  intros Hsq Hi Hj. unfold getitem.
  rewrite (nth_error_nth' H [] Hi).
  assert (Hlen : length (nth i H []) = length H).
  { eapply square_row_length; [exact Hsq |].
    apply nth_error_nth'. exact Hi. }
  rewrite (nth_error_nth' (nth i H []) d) by lia.
  reflexivity.
Qed.

(** [ceil_log2] is the least exponent whose power of two reaches [n]. *)
Lemma ceil_log2_spec (n : nat) :
  1 <= n ->
  exists k,
    ceil_log2 n = inr k
    /\ Z.of_nat k = Z.log2_up (Z.of_nat n)
    /\ n <= 2 ^ k
    /\ (1 < n -> 2 ^ (k - 1) < n).
Proof.
  intros Hn. exists (Z.to_nat (Z.log2_up (Z.of_nat n))).
  pose proof (Z.log2_up_nonneg (Z.of_nat n)) as Hnonneg.
  split; [destruct n; [lia | reflexivity] |].
  split; [lia |].
  destruct (Nat.eq_dec n 1) as [-> | Hne].
  - simpl. split; lia.
  - destruct (Z.log2_up_spec (Z.of_nat n)) as [Hlow Hup]; [lia |].
    set (k := Z.log2_up (Z.of_nat n)) in *.
    assert (Hk : (0 < k)%Z).
    { destruct (Z.eq_dec k 0) as [E | E]; [| lia].
      rewrite E in Hup. simpl in Hup. lia. }
    split.
    + apply Nat2Z.inj_le. rewrite Nat2Z.inj_pow, Z2Nat.id by lia. exact Hup.
    + intros _. apply Nat2Z.inj_lt. rewrite Nat2Z.inj_pow.
      replace (Z.of_nat (Z.to_nat k - 1)) with (Z.pred k) by lia.
      exact Hlow.
Qed.

(* ===================================================================== *)
(** ** Padding to a power of two                                          *)
(* ===================================================================== *)

Section Padding.

Import QuantumSimulator.

Context {A : Type} (zero : A).

Lemma zero_pad_run (n p : nat) (H : matrix A) :
  is_square H = true ->
  zero_pad zero n p H
  = inr (map (fun row => row ++ repeat zero (p - n)) H
           ++ repeat (repeat zero p) (p - n)).
Proof. intros Hsq. unfold zero_pad. rewrite Hsq. reflexivity. Qed.

Lemma padded_length (p : nat) (H : matrix A) :
  length H <= p ->
  length (map (fun row => row ++ repeat zero (p - length H)) H
            ++ repeat (repeat zero p) (p - length H)) = p.
Proof.
  intros Hle. rewrite length_app, length_map, repeat_length. lia.
Qed.

Lemma padded_square (p : nat) (H : matrix A) :
  is_square H = true -> length H <= p ->
  is_square (map (fun row => row ++ repeat zero (p - length H)) H
               ++ repeat (repeat zero p) (p - length H)) = true.
Proof.
  intros Hsq Hle. unfold is_square at 1.
  rewrite padded_length by assumption.
  apply forallb_forall. intros row Hrow. apply Nat.eqb_eq.
  apply in_app_or in Hrow. destruct Hrow as [Hrow | Hrow].
  - apply in_map_iff in Hrow. destruct Hrow as [row0 [<- Hin]].
    apply In_nth_error in Hin. destruct Hin as [i Hi].
    rewrite length_app, repeat_length.
    rewrite (square_row_length H i row0 Hsq Hi). lia.
  - apply repeat_spec in Hrow. subst row. apply repeat_length.
Qed.

Lemma padded_leading (p : nat) (H : matrix A) (i j : nat) :
  is_square H = true -> i < length H -> j < length H ->
  getitem (map (fun row => row ++ repeat zero (p - length H)) H
             ++ repeat (repeat zero p) (p - length H)) i j
  = getitem H i j.
Proof.
  intros Hsq Hi Hj. unfold getitem.
  rewrite nth_error_app1 by (rewrite length_map; exact Hi).
  rewrite nth_error_map.
  destruct (nth_error H i) as [row |] eqn:Erow; simpl; [| reflexivity].
  rewrite nth_error_app1; [reflexivity |].
  rewrite (square_row_length H i row Hsq Erow). exact Hj.
Qed.

Lemma padded_zero (p : nat) (H : matrix A) (i j : nat) :
  is_square H = true -> i < p -> j < p ->
  length H <= i \/ length H <= j ->
  getitem (map (fun row => row ++ repeat zero (p - length H)) H
             ++ repeat (repeat zero p) (p - length H)) i j
  = inr zero.
Proof.
  intros Hsq Hi Hj Hout. unfold getitem.
  destruct (Nat.lt_ge_cases i (length H)) as [Hin | Hge].
  - rewrite nth_error_app1 by (rewrite length_map; exact Hin).
    rewrite nth_error_map.
    rewrite (nth_error_nth' H [] Hin). simpl.
    assert (Hlen : length (nth i H []) = length H).
    { eapply square_row_length; [exact Hsq |].
      apply nth_error_nth'. exact Hin. }
    rewrite nth_error_app2 by lia.
    rewrite nth_error_repeat by lia. reflexivity.
  - rewrite nth_error_app2 by (rewrite length_map; exact Hge).
    rewrite length_map.
    rewrite nth_error_repeat by lia.
    rewrite nth_error_repeat by lia. reflexivity.
Qed.

End Padding.

(** C1.  For every square input of side [n >= 1], the padding block of
    [compute_hamiltonian] produces [padded_dimension = 2 ^ qubit_count] with
    [qubit_count = ceil(log2 n)] (the least exponent with [n <= 2 ^ k]), so
    [padded_dimension >= n] and [qubit_count] is the exact binary logarithm
    of [padded_dimension]; the padded matrix is square, agrees with the
    input on its leading [n x n] block and is zero everywhere else. *)
Theorem pad_hamiltonian_power_of_two (A : Type) (zero : A) (H : matrix A) :
  1 <= length H ->
  is_square H = true ->
  exists p,
    QuantumSimulator.pad_hamiltonian zero H = inr p
    /\ QuantumSimulator.pad_original_size p = length H
    /\ Z.of_nat (QuantumSimulator.pad_qubit_count p)
       = Z.log2_up (Z.of_nat (length H))
    /\ QuantumSimulator.pad_size p = 2 ^ QuantumSimulator.pad_qubit_count p
    /\ length H <= QuantumSimulator.pad_size p
    /\ (1 < length H ->
        2 ^ (QuantumSimulator.pad_qubit_count p - 1) < length H)
    /\ length (QuantumSimulator.pad_H p) = QuantumSimulator.pad_size p
    /\ is_square (QuantumSimulator.pad_H p) = true
    /\ (forall i j, i < length H -> j < length H ->
          getitem (QuantumSimulator.pad_H p) i j = getitem H i j)
    /\ (forall i j,
          i < QuantumSimulator.pad_size p ->
          j < QuantumSimulator.pad_size p ->
          length H <= i \/ length H <= j ->
          getitem (QuantumSimulator.pad_H p) i j = inr zero).
Proof.
  intros Hn Hsq.
  destruct (ceil_log2_spec (length H) Hn) as [k [Hk [Hlog [Hle Hmin]]]].
  unfold QuantumSimulator.pad_hamiltonian. rewrite Hk. py_simpl.
  destruct (Nat.eqb_spec (length H) (2 ^ k)) as [Heq | Hneq]; simpl negb;
    cbv iota.
  - assert (Hlog2 : Nat.log2 (length H) = k).
    { rewrite Heq. apply Nat.log2_pow2. lia. }
    py_simpl. eexists. split; [reflexivity |]. simpl. rewrite Hlog2.
    repeat split; auto; try lia.
  - rewrite zero_pad_run by assumption. py_simpl.
    eexists. split; [reflexivity |]. simpl.
    rewrite padded_length by assumption.
    rewrite Nat.log2_pow2 by lia.
    repeat split; auto; try lia.
    + apply padded_square; assumption.
    + intros i j Hi Hj. apply padded_leading; assumption.
    + intros i j Hi Hj Hout. apply padded_zero; assumption.
Qed.

(** C1 on a 3 x 3 matrix: padded to side 4, two qubits, and the new corner
    entry is zero. *)
Lemma pad_hamiltonian_power_of_two_witness :
  exists p,
    QuantumSimulator.pad_hamiltonian 0%Z
      [[1; 2; 3]; [4; 5; 6]; [7; 8; 9]]%Z = inr p
    /\ QuantumSimulator.pad_size p = 4
    /\ QuantumSimulator.pad_qubit_count p = 2
    /\ getitem (QuantumSimulator.pad_H p) 3 3 = inr 0%Z
    /\ getitem (QuantumSimulator.pad_H p) 1 2 = inr 6%Z.
Proof.
  destruct (pad_hamiltonian_power_of_two Z 0%Z
              [[1; 2; 3]; [4; 5; 6]; [7; 8; 9]]%Z)
    as [p [Hrun [_ [Hq [Hsize [_ [_ [_ [_ [Hlead Hzero]]]]]]]]]];
    [simpl; lia | reflexivity |].
  exists p. split; [exact Hrun |].
  assert (Hq2 : QuantumSimulator.pad_qubit_count p = 2).
  { apply Nat2Z.inj. rewrite Hq. reflexivity. }
  rewrite Hq2 in Hsize. split; [exact Hsize |]. split; [exact Hq2 |].
  split.
  - apply Hzero; [rewrite Hsize; simpl; lia .. | simpl; lia].
  - rewrite Hlead by (simpl; lia). reflexivity.
Defined.

(* ===================================================================== *)
(** ** compute_H: the clamp on the number of modes                        *)
(* ===================================================================== *)

Lemma py_take_length_le {A : Type} (k : Z) (l : list A) :
  (0 <= k)%Z -> (Z.of_nat (length (py_take k l)) <= k)%Z.
Proof.
  intros Hk. rewrite py_take_length by assumption. lia.
Qed.

Lemma py_take_negative {A : Type} (k : Z) (l : list A) :
  (k < 0)%Z -> (Z.of_nat (length l) <= - k)%Z -> py_take k l = [].
Proof.
  intros Hk Hl. unfold py_take.
  destruct (Z.ltb_spec k 0); [| lia].
  replace (length l - Z.to_nat (- k)) with 0 by lia. reflexivity.
Qed.

Section ComputeH.

Import HamiltonianPrep.

Variable la : LinAlg.

Lemma leading_block_length {A : Type} (r : nat) (a : matrix A) :
  length (leading_block r a) = Nat.min r (length a).
Proof. unfold leading_block. rewrite length_map. apply length_firstn. Qed.

(** What [keep_modes] leaves of [full] eigenvalues when at most [side] of
    them were computed and [k] is the clamped request. *)
Lemma keep_modes_bound (k : Z) (side : nat) (full : list Q) (vecs : matrix Q) :
  length full <= side ->
  (0 <= k \/ Z.of_nat side <= - k)%Z ->
  fst (keep_modes k (full, vecs)) = []
  \/ (Z.of_nat (length (fst (keep_modes k (full, vecs)))) <= k)%Z.
Proof.
  intros Hside [Hk | Hk]; simpl.
  - right. apply py_take_length_le. exact Hk.
  - destruct (Z.ltb_spec k 0) as [Hneg | Hnonneg].
    + left. apply py_take_negative; lia.
    + right. apply py_take_length_le. exact Hnonneg.
Qed.

Lemma dense_solve_bound (K M : matrix Q) (k : Z) (vals : list Q)
    (vecs : matrix Q) :
  (0 <= k \/ Z.of_nat (length M) <= - k)%Z ->
  dense_solve la K M k = inr (vals, vecs) ->
  vals = [] \/ (Z.of_nat (length vals) <= k)%Z.
Proof.
  intros Hk. unfold dense_solve.
  destruct (inv la M) as [e | Mi] eqn:Einv; py_simpl; [discriminate |].
  destruct (matmul la Mi K) as [e | A] eqn:Emul; py_simpl; [discriminate |].
  destruct (eigh la A) as [e | [full fv]] eqn:Eeig; py_simpl; [discriminate |].
  intros Hrun. injection Hrun as <- <-.
  apply (keep_modes_bound k (length M) full fv); [| exact Hk].
  rewrite (eigh_len la _ _ _ Eeig), (matmul_len la _ _ _ Emul).
  rewrite (inv_len la _ _ Einv). apply Nat.le_refl.
Qed.

Lemma reduced_solve_bound (r : nat) (K M : matrix Q) (k : Z) (vals : list Q)
    (vecs : matrix Q) :
  (0 <= k \/ Z.of_nat (length K) <= - k)%Z ->
  reduced_solve la r K M k = inr (vals, vecs) ->
  vals = [] \/ (Z.of_nat (length vals) <= k)%Z.
Proof.
  intros Hk. unfold reduced_solve.
  destruct (solve la _ _) as [e | X] eqn:Esolve; py_simpl; [discriminate |].
  destruct (eigh la X) as [e | [full fv]] eqn:Eeig; py_simpl; [discriminate |].
  intros Hrun. injection Hrun as <- <-.
  apply (keep_modes_bound k (length K) full fv); [| exact Hk].
  rewrite (eigh_len la _ _ _ Eeig), (solve_len la _ _ _ Esolve).
  rewrite leading_block_length. lia.
Qed.

(** The eigen-solve stage never hands on more than the clamped request. *)
Lemma solve_modes_bound (K M : array2) (vals : list Q) (vecs : matrix Q) :
  shape0 M = shape0 K ->
  solve_modes la K M (Z.of_nat (shape0 K) - 2) = inr (vals, vecs) ->
  vals = [] \/ (Z.of_nat (length vals) <= Z.of_nat (shape0 K) - 2)%Z.
Proof.
  intros Hshape. unfold solve_modes, shape0 in *.
  set (n := length (data K)) in *.
  destruct (issparse K && issparse M).
  - destruct (eigsh la (data K) (Z.of_nat n - 2) (data M))
      as [e | [v w]] eqn:Esh; py_simpl.
    + apply reduced_solve_bound. fold n. lia.
    + intros Hrun. injection Hrun as <- <-. right.
      rewrite (eigsh_len la _ _ _ _ _ Esh). lia.
  - destruct (Nat.leb_spec n 1000) as [Hsmall | Hlarge].
    + apply dense_solve_bound. rewrite Hshape. lia.
    + apply dense_solve_bound. left. lia.
Qed.

Lemma compute_H_clamp (K M : array2) (num_modes : Z) (method : string) :
  (Z.of_nat (shape0 K) - 2 < num_modes)%Z ->
  compute_H la K M num_modes method
  = compute_H la K M (Z.of_nat (shape0 K) - 2) method.
Proof.
  intros Hover. unfold compute_H.
  rewrite Z.min_r by lia. rewrite Z.min_id. reflexivity.
Qed.

(** A returned result carries the eigenvalues of the solve stage. *)
Lemma compute_H_returns (K M : array2) (k : Z) (method : string) (r : HResult) :
  compute_H la K M k method = inr r ->
  exists vecs,
    solve_modes la K M (Z.min k (Z.of_nat (shape0 K) - 2))
      = inr (eigenvalues r, vecs)
    /\ eigenvalues r <> []
    /\ num_modes r = length (eigenvalues r)
    /\ num_dofs r = shape0 K.
Proof.
  unfold compute_H.
  destruct (solve_modes la K M _) as [e | [vals vecs]]; py_simpl;
    [discriminate |].
  destruct vals as [| v vals]; py_simpl; [discriminate |].
  destruct (String.eqb method "standard"); py_simpl.
  - intros Hr. injection Hr as <-. exists vecs. simpl.
    repeat split. discriminate.
  - destruct (String.eqb method "normalized"); py_simpl; [| discriminate].
    destruct (Qltb _ _); py_simpl;
      intros Hr; injection Hr as <-; exists vecs; simpl;
      repeat split; discriminate.
Qed.

(** A non-empty result of the solve stage is returned under either
    method. *)
Lemma compute_H_of_modes (K M : array2) (k : Z) (method : string)
    (vals : list Q) (vecs : matrix Q) :
  solve_modes la K M (Z.min k (Z.of_nat (shape0 K) - 2)) = inr (vals, vecs) ->
  vals <> [] ->
  method = "standard"%string \/ method = "normalized"%string ->
  exists r,
    compute_H la K M k method = inr r
    /\ eigenvalues r = vals
    /\ num_modes r = length vals
    /\ num_dofs r = shape0 K.
Proof.
  intros Hsolve Hne Hmethod. unfold compute_H. rewrite Hsolve. py_simpl.
  destruct vals as [| v vals]; [contradiction |]. py_simpl.
  destruct Hmethod as [-> | ->]; simpl String.eqb; cbv iota; py_simpl.
  - eexists. split; [reflexivity |]. repeat split.
  - destruct (Qltb _ _); py_simpl; eexists; (split; [reflexivity |]);
      repeat split.
Qed.

(** The solve stage on its four paths, for the clamped request [n - 2] on a
    problem of side [n >= 3]. *)
Lemma solve_modes_dense (K M : array2) (Mi A : matrix Q) (vals : list Q)
    (vecs : matrix Q) :
  shape0 M = shape0 K ->
  3 <= shape0 K <= 1000 ->
  issparse K && issparse M = false ->
  inv la (data M) = inr Mi ->
  matmul la Mi (data K) = inr A ->
  eigh la A = inr (vals, vecs) ->
  solve_modes la K M (Z.of_nat (shape0 K) - 2)
  = inr (firstn (shape0 K - 2) vals,
         map (py_take (Z.of_nat (shape0 K) - 2)) vecs)
  /\ length (firstn (shape0 K - 2) vals) = shape0 K - 2.
Proof.
  intros Hshape [Hlo Hhi] Hdense Hinv Hmul Heig.
  assert (Hlen : length vals = shape0 K).
  { rewrite (eigh_len la _ _ _ Heig), (matmul_len la _ _ _ Hmul).
    rewrite (inv_len la _ _ Hinv). exact Hshape. }
  unfold solve_modes. rewrite Hdense.
  destruct (Nat.leb_spec (shape0 K) 1000) as [_ | Hbig]; [| lia].
  unfold dense_solve. rewrite Hinv. py_simpl. rewrite Hmul. py_simpl.
  rewrite Heig. py_simpl. unfold keep_modes. simpl fst. simpl snd.
  rewrite py_take_nonneg by lia.
  replace (Z.to_nat (Z.of_nat (shape0 K) - 2)) with (shape0 K - 2) by lia.
  split; [reflexivity |]. rewrite length_firstn. lia.
Qed.

Lemma solve_modes_dense_reduced (K M : array2) (Mi A : matrix Q)
    (vals : list Q) (vecs : matrix Q) :
  shape0 M = shape0 K ->
  1000 < shape0 K ->
  issparse K && issparse M = false ->
  inv la (leading_block 100 (data M)) = inr Mi ->
  matmul la Mi (leading_block 100 (data K)) = inr A ->
  eigh la A = inr (vals, vecs) ->
  solve_modes la K M (Z.of_nat (shape0 K) - 2)
  = inr (vals, map (py_take (Z.of_nat (shape0 K) - 2)) vecs)
  /\ length vals = 100.
Proof.
  intros Hshape Hbig Hdense Hinv Hmul Heig.
  assert (Hlen : length vals = 100).
  { rewrite (eigh_len la _ _ _ Heig), (matmul_len la _ _ _ Hmul).
    rewrite (inv_len la _ _ Hinv), leading_block_length.
    unfold shape0 in *. lia. }
  unfold solve_modes. rewrite Hdense.
  destruct (Nat.leb_spec (shape0 K) 1000) as [Hsmall | _]; [lia |].
  rewrite (Nat.min_l 100 (shape0 K)) by lia.
  unfold dense_solve. rewrite Hinv. py_simpl. rewrite Hmul. py_simpl.
  rewrite Heig. py_simpl. unfold keep_modes. simpl fst. simpl snd.
  rewrite py_take_nonneg by lia.
  rewrite firstn_all2 by lia.
  split; [reflexivity | exact Hlen].
Qed.

Lemma solve_modes_sparse (K M : array2) (vals : list Q) (vecs : matrix Q) :
  3 <= shape0 K ->
  issparse K && issparse M = true ->
  eigsh la (data K) (Z.of_nat (shape0 K) - 2) (data M) = inr (vals, vecs) ->
  solve_modes la K M (Z.of_nat (shape0 K) - 2) = inr (vals, vecs)
  /\ length vals = shape0 K - 2.
Proof.
  intros Hn Hsparse Hsh. unfold solve_modes. rewrite Hsparse, Hsh.
  py_simpl. split; [reflexivity |].
  pose proof (eigsh_len la _ _ _ _ _ Hsh). lia.
Qed.

Lemma solve_modes_sparse_fallback (K M : array2) (e : PyError)
    (X : matrix Q) (vals : list Q) (vecs : matrix Q) :
  3 <= shape0 K ->
  issparse K && issparse M = true ->
  eigsh la (data K) (Z.of_nat (shape0 K) - 2) (data M) = inl e ->
  solve la (leading_block (Nat.min 20 (shape0 K)) (data M))
    (leading_block (Nat.min 20 (shape0 K)) (data K)) = inr X ->
  eigh la X = inr (vals, vecs) ->
  solve_modes la K M (Z.of_nat (shape0 K) - 2)
  = inr (firstn (shape0 K - 2) vals,
         map (py_take (Z.of_nat (shape0 K) - 2)) vecs)
  /\ length (firstn (shape0 K - 2) vals) = Nat.min (shape0 K - 2) 20.
Proof.
  intros Hn Hsparse Hsh Hsolve Heig.
  assert (Hlen : length vals = Nat.min 20 (shape0 K)).
  { rewrite (eigh_len la _ _ _ Heig), (solve_len la _ _ _ Hsolve).
    rewrite leading_block_length. unfold shape0. lia. }
  unfold solve_modes. rewrite Hsparse, Hsh. py_simpl.
  unfold reduced_solve. rewrite Hsolve. py_simpl. rewrite Heig. py_simpl.
  unfold keep_modes. simpl fst. simpl snd.
  rewrite py_take_nonneg by lia.
  replace (Z.to_nat (Z.of_nat (shape0 K) - 2)) with (shape0 K - 2) by lia.
  split; [reflexivity |]. rewrite length_firstn. lia.
Qed.

End ComputeH.

(** C10, as amended.  For [n x n] matrices [K] and [M] with [n >= 3] and a
    request [num_modes > n - 2], [compute_H] behaves exactly as if [n - 2]
    modes had been requested, so the over-request is never by itself a
    cause of failure.  Whenever it returns, the method was ['standard'] or
    ['normalized'] and the eigenvalue array has between 1 and [n - 2]
    entries.  And it does return whenever the solver calls of its path
    succeed: with the first [n - 2] of the [n] eigenvalues on a dense problem
    of side at most 1000; with the 100 eigenvalues of the leading block on a
    larger dense problem; with the [n - 2] eigenvalues of [eigsh] on a sparse
    problem; and, when [eigsh] fails, with the first [min(n - 2, 20)]
    eigenvalues of the leading block of side [min(20, n)]. *)
Theorem compute_H_clamps_modes (la : HamiltonianPrep.LinAlg)
    (K M : HamiltonianPrep.array2) (num_modes : Z) (method : string) :
  HamiltonianPrep.shape0 M = HamiltonianPrep.shape0 K ->
  3 <= HamiltonianPrep.shape0 K ->
  (Z.of_nat (HamiltonianPrep.shape0 K) - 2 < num_modes)%Z ->
  let n := HamiltonianPrep.shape0 K in
  let both_sparse :=
    HamiltonianPrep.issparse K && HamiltonianPrep.issparse M in
  let returns (vals : list Q) :=
    exists r,
      HamiltonianPrep.compute_H la K M num_modes method = inr r
      /\ HamiltonianPrep.eigenvalues r = vals
      /\ HamiltonianPrep.num_modes r = length vals in
  HamiltonianPrep.compute_H la K M num_modes method
  = HamiltonianPrep.compute_H la K M (Z.of_nat n - 2) method
  /\ (forall r,
        HamiltonianPrep.compute_H la K M num_modes method = inr r ->
        (method = "standard"%string \/ method = "normalized"%string)
        /\ 1 <= length (HamiltonianPrep.eigenvalues r) <= n - 2
        /\ HamiltonianPrep.num_modes r
           = length (HamiltonianPrep.eigenvalues r))
  /\ (method = "standard"%string \/ method = "normalized"%string ->
      (forall Mi A vals vecs,
         both_sparse = false -> n <= 1000 ->
         HamiltonianPrep.inv la (HamiltonianPrep.data M) = inr Mi ->
         HamiltonianPrep.matmul la Mi (HamiltonianPrep.data K) = inr A ->
         HamiltonianPrep.eigh la A = inr (vals, vecs) ->
         returns (firstn (n - 2) vals)
         /\ length (firstn (n - 2) vals) = n - 2)
      /\ (forall Mi A vals vecs,
            both_sparse = false -> 1000 < n ->
            HamiltonianPrep.inv la
              (HamiltonianPrep.leading_block 100 (HamiltonianPrep.data M))
            = inr Mi ->
            HamiltonianPrep.matmul la Mi
              (HamiltonianPrep.leading_block 100 (HamiltonianPrep.data K))
            = inr A ->
            HamiltonianPrep.eigh la A = inr (vals, vecs) ->
            returns vals /\ length vals = 100)
      /\ (forall vals vecs,
            both_sparse = true ->
            HamiltonianPrep.eigsh la (HamiltonianPrep.data K)
              (Z.of_nat n - 2) (HamiltonianPrep.data M) = inr (vals, vecs) ->
            returns vals /\ length vals = n - 2)
      /\ (forall e X vals vecs,
            both_sparse = true ->
            HamiltonianPrep.eigsh la (HamiltonianPrep.data K)
              (Z.of_nat n - 2) (HamiltonianPrep.data M) = inl e ->
            HamiltonianPrep.solve la
              (HamiltonianPrep.leading_block (Nat.min 20 n)
                 (HamiltonianPrep.data M))
              (HamiltonianPrep.leading_block (Nat.min 20 n)
                 (HamiltonianPrep.data K)) = inr X ->
            HamiltonianPrep.eigh la X = inr (vals, vecs) ->
            returns (firstn (n - 2) vals)
            /\ length (firstn (n - 2) vals) = Nat.min (n - 2) 20)).
Proof.
  intros Hshape Hn Hover. cbv zeta.
  split; [apply compute_H_clamp; exact Hover |].
  split.
  - intros r Hr.
    destruct (compute_H_returns la K M num_modes method r Hr)
      as [vecs [Hsolve [Hne [Hmodes _]]]].
    rewrite Z.min_r in Hsolve by lia.
    destruct (solve_modes_bound la K M _ _ Hshape Hsolve) as [Hnil | Hle];
      [contradiction |].
    split.
    { unfold HamiltonianPrep.compute_H in Hr.
      destruct (HamiltonianPrep.solve_modes la K M _) as [e | [vals vs]];
        [discriminate Hr |].
      rewrite bind_inr in Hr.
      destruct vals as [| v vals]; [discriminate Hr |].
      rewrite ret_inr, bind_inr in Hr.
      destruct (String.eqb_spec method "standard") as [-> | _];
        [left; reflexivity |].
      destruct (String.eqb_spec method "normalized") as [-> | _];
        [right; reflexivity |].
      discriminate Hr. }
    split; [| exact Hmodes].
    destruct (HamiltonianPrep.eigenvalues r); [contradiction |].
    simpl in *. lia.
  - intros Hmethod.
    assert (Hret : forall vals vecs,
               HamiltonianPrep.solve_modes la K M
                 (Z.of_nat (HamiltonianPrep.shape0 K) - 2) = inr (vals, vecs) ->
               1 <= length vals ->
               exists r,
                 HamiltonianPrep.compute_H la K M num_modes method = inr r
                 /\ HamiltonianPrep.eigenvalues r = vals
                 /\ HamiltonianPrep.num_modes r = length vals).
    { intros vals vecs Hsolve Hlen.
      destruct (compute_H_of_modes la K M num_modes method vals vecs)
        as [r [Hr [Hev [Hnm _]]]].
      - rewrite Z.min_r by lia. exact Hsolve.
      - destruct vals; [simpl in Hlen; lia | discriminate].
      - exact Hmethod.
      - exists r. repeat split; assumption. }
    split; [| split; [| split]].
    + intros Mi A vals vecs Hdense Hsmall Hinv Hmul Heig.
      destruct (solve_modes_dense la K M Mi A vals vecs Hshape
                  (conj Hn Hsmall) Hdense Hinv Hmul Heig) as [Hsolve Hlen].
      split; [| exact Hlen]. eapply Hret; [exact Hsolve | lia].
    + intros Mi A vals vecs Hdense Hbig Hinv Hmul Heig.
      destruct (solve_modes_dense_reduced la K M Mi A vals vecs Hshape
                  Hbig Hdense Hinv Hmul Heig) as [Hsolve Hlen].
      split; [| exact Hlen]. eapply Hret; [exact Hsolve | lia].
    + intros vals vecs Hsparse Hsh.
      destruct (solve_modes_sparse la K M vals vecs Hn Hsparse Hsh)
        as [Hsolve Hlen].
      split; [| exact Hlen]. eapply Hret; [exact Hsolve | lia].
    + intros e X vals vecs Hsparse Hsh Hsolve Heig.
      destruct (solve_modes_sparse_fallback la K M e X vals vecs Hn Hsparse
                  Hsh Hsolve Heig) as [Hmodes Hlen].
      split; [| exact Hlen]. eapply Hret; [exact Hmodes | lia].
Qed.

(** C10 on the 4 x 4 identity with ten modes requested: two are returned. *)
Lemma compute_H_clamps_modes_witness :
  exists r,
    HamiltonianPrep.compute_H toy_solver identity4 identity4 10 "standard"
      = inr r
    /\ HamiltonianPrep.eigenvalues r = [1; 1]%Q
    /\ HamiltonianPrep.num_modes r = 2.
Proof.
  destruct (compute_H_clamps_modes toy_solver identity4 identity4 10
              "standard") as [_ [_ Hpaths]];
    [reflexivity | cbv; lia | simpl; lia |].
  destruct (Hpaths (or_introl eq_refl)) as [Hdense _].
  destruct (Hdense (HamiltonianPrep.data identity4)
              (HamiltonianPrep.data identity4) [1; 1; 1; 1]%Q
              (HamiltonianPrep.data identity4)
              eq_refl ltac:(cbv; lia) eq_refl eq_refl eq_refl)
    as [[r [Hr [Hev Hnm]]] _].
  exists r. split; [exact Hr |]. split; [exact Hev | exact Hnm].
Defined.

(** C10 as stated fails on a problem of side 2: a request for one mode is
    clamped to [min(1, 0) = 0], no eigenvalue is kept and the log line
    raises, although the dense solver had found both eigenvalues and the
    unclamped request would have kept one of them. *)
Lemma compute_H_small_counterexample :
  HamiltonianPrep.compute_H toy_solver identity2 identity2 1 "standard"
  = inl IndexError
  /\ (Z.of_nat (HamiltonianPrep.shape0 identity2) - 2 < 1)%Z
  /\ HamiltonianPrep.solve_modes toy_solver identity2 identity2 0
     = inr ([], [[]; []])
  /\ HamiltonianPrep.solve_modes toy_solver identity2 identity2 1
     = inr ([1%Q], [[1%Q]; [0%Q]]).
Proof. repeat split. Qed.

(** With at most two degrees of freedom the clamped request is zero or
    negative, no eigenvalue is kept, and the log line raises. *)
Lemma compute_H_small_raises (la : HamiltonianPrep.LinAlg)
    (K M : HamiltonianPrep.array2) (num_modes : Z) (method : string) :
  HamiltonianPrep.shape0 M = HamiltonianPrep.shape0 K ->
  HamiltonianPrep.shape0 K <= 2 ->
  (Z.of_nat (HamiltonianPrep.shape0 K) - 2 < num_modes)%Z ->
  exists e, HamiltonianPrep.compute_H la K M num_modes method = inl e.
Proof.
  intros Hshape Hsmall Hover.
  destruct (HamiltonianPrep.compute_H la K M num_modes method)
    as [e | r] eqn:Hr; [exists e; reflexivity |].
  destruct (compute_H_returns la K M num_modes method r Hr)
    as [vecs [Hsolve [Hne _]]].
  rewrite Z.min_r in Hsolve by lia.
  destruct (solve_modes_bound la K M _ _ Hshape Hsolve) as [Hnil | Hle];
    [contradiction |].
  destruct (HamiltonianPrep.eigenvalues r); [contradiction | simpl in Hle; lia].
Qed.

(* ===================================================================== *)
(** ** compute_hamiltonian                                                *)
(* ===================================================================== *)

(** The safety check on its own: it raises exactly above twenty qubits, and
    the message then names the qubit count. *)
Lemma capacity_check_spec (qubit_count : nat) :
  (qubit_count <= 20 -> QuantumSimulator.capacity_check qubit_count = inr tt)
  /\ (20 < qubit_count ->
      QuantumSimulator.capacity_check qubit_count
      = inl (ValueError ("System requires " ++ dec (Z.of_nat qubit_count)
                           ++ " qubits, maximum allowed is 20"))).
Proof.
  unfold QuantumSimulator.capacity_check, QuantumSimulator.max_qubits.
  split; intros Hq.
  - destruct (Z.ltb_spec 20 (Z.of_nat qubit_count)); [lia | reflexivity].
  - destruct (Z.ltb_spec 20 (Z.of_nat qubit_count)); [reflexivity | lia].
Qed.

(** The keywords [compute_hamiltonian] passes are not parameters of
    [compute_pauli_coefficients]. *)
Lemma pauli_call_rejects_keywords (H : matrix complex) (a b : Z) :
  QuantumSimulator.call_compute_pauli_coefficients H
    [("max_pauli_terms"%string, a); ("batch_size"%string, b)]
  = inl (TypeError ("compute_pauli_coefficients() got an unexpected "
                      ++ "keyword argument 'max_pauli_terms'")).
Proof. reflexivity. Qed.

(** C2 on the code.  [compute_hamiltonian] raises on every input: either
    [compute_H] raises, or it returns its dictionary and the next line asks
    that dictionary for [.shape].  No input reaches the safety check, and no
    result is ever returned. *)
Theorem compute_hamiltonian_always_raises (la : HamiltonianPrep.LinAlg)
    (matrices_result : QuantumSimulator.MatricesResult)
    (max_pauli_terms : Z) :
  exists e,
    QuantumSimulator.compute_hamiltonian la matrices_result max_pauli_terms
      = inl e
    /\ (e = AttributeError "dict" "shape"
        \/ HamiltonianPrep.compute_H la
             (QuantumSimulator.mass_matrix matrices_result)
             (QuantumSimulator.stiffness_matrix matrices_result)
             10 "standard" = inl e).
Proof.
  unfold QuantumSimulator.compute_hamiltonian.
  destruct (HamiltonianPrep.compute_H la _ _ 10 "standard") as [e | d];
    py_simpl.
  - exists e. split; [reflexivity | right; reflexivity].
  - eexists. split; [reflexivity | left; reflexivity].
Qed.

(** The failing input of C2: identity stiffness and mass of side 4.  The
    Hamiltonian has side 2 and would need one qubit, yet the call raises
    [AttributeError] and not a capacity error. *)
Lemma compute_hamiltonian_identity4 :
  QuantumSimulator.compute_hamiltonian toy_solver
    (QuantumSimulator.MkMatricesResult identity4 identity4) 100
  = inl (AttributeError "dict" "shape")
  /\ exists d p,
       HamiltonianPrep.compute_H toy_solver identity4 identity4 10 "standard"
         = inr d
       /\ QuantumSimulator.pad_hamiltonian 0%Q
            (HamiltonianPrep.data (HamiltonianPrep.H d)) = inr p
       /\ QuantumSimulator.pad_qubit_count p = 1
       /\ QuantumSimulator.capacity_check (QuantumSimulator.pad_qubit_count p)
          = inr tt.
Proof.
  split; [vm_compute; reflexivity |].
  eexists. eexists. split; [vm_compute; reflexivity |].
  split; [vm_compute; reflexivity |].
  split; reflexivity.
Qed.

(* ===================================================================== *)
(** ** Operator strings                                                   *)
(* ===================================================================== *)

Lemma chars_app (a b : string) : chars (a ++ b) = chars a ++ chars b.
Proof.
  induction a as [| c a IH]; simpl; [reflexivity |].
  unfold chars in *. simpl. rewrite IH. reflexivity.
Qed.

Lemma chars_repeat (c : ascii) (n : nat) : chars (str_repeat c n) = repeat c n.
Proof.
  induction n as [| n IH]; simpl; [reflexivity |].
  unfold chars in *. simpl. rewrite IH. reflexivity.
Qed.

Lemma chars_length (s : string) : length (chars s) = String.length s.
Proof.
  induction s as [| c s IH]; simpl; [reflexivity |].
  unfold chars in *. simpl. rewrite IH. reflexivity.
Qed.

Lemma chars_inj (a b : string) : chars a = chars b -> a = b.
Proof.
  intros E. rewrite <- (string_of_list_ascii_of_string a).
  rewrite <- (string_of_list_ascii_of_string b).
  unfold chars in E. rewrite E. reflexivity.
Qed.

Lemma repeat_I_alphabet (n : nat) : Forall pauli_char (repeat chI n).
Proof.
  apply Forall_forall. intros c Hc. apply repeat_spec in Hc. subst c.
  left. reflexivity.
Qed.

Lemma identity_string_ok (nq : nat) : operator_string nq (str_repeat chI nq).
Proof.
  split.
  - rewrite <- chars_length, chars_repeat. apply repeat_length.
  - rewrite chars_repeat. apply repeat_I_alphabet.
Qed.

Lemma z_string_chars (nq i : nat) :
  chars (PauliCoeffs.z_string nq i)
  = repeat chI i ++ chZ :: repeat chI (nq - i - 1).
Proof.
  unfold PauliCoeffs.z_string. rewrite !chars_app, !chars_repeat. reflexivity.
Qed.

Lemma z_string_ok (nq i : nat) :
  i < nq -> operator_string nq (PauliCoeffs.z_string nq i).
Proof.
  intros Hi. split.
  - rewrite <- chars_length, z_string_chars.
    rewrite length_app. simpl. rewrite !repeat_length. lia.
  - rewrite z_string_chars. apply Forall_app. split.
    + apply repeat_I_alphabet.
    + constructor; [right; right; right; reflexivity |].
      apply repeat_I_alphabet.
Qed.

Lemma pair_label_chars (nq i j : nat) (c : ascii) :
  chars (PauliCoeffs.pair_label nq i j c)
  = repeat chI i ++ c :: repeat chI (j - i - 1)
      ++ c :: repeat chI (nq - j - 1).
Proof.
  unfold PauliCoeffs.pair_label, chars. simpl.
  fold (chars (str_repeat chI i
                ++ String c (str_repeat chI (j - i - 1)
                             ++ String c (str_repeat chI (nq - j - 1))))).
  rewrite chars_app, chars_repeat. f_equal.
  unfold chars. simpl. f_equal.
  fold (chars (str_repeat chI (j - i - 1)
                ++ String c (str_repeat chI (nq - j - 1)))).
  rewrite chars_app, chars_repeat. f_equal.
  unfold chars. simpl. f_equal. apply chars_repeat.
Qed.

Lemma pair_label_ok (nq i j : nat) (c : ascii) :
  i < j -> j < nq -> pauli_char c ->
  operator_string nq (PauliCoeffs.pair_label nq i j c).
Proof.
  intros Hij Hj Hc. split.
  - rewrite <- chars_length, pair_label_chars.
    rewrite length_app. simpl. rewrite length_app. simpl.
    rewrite !repeat_length. lia.
  - rewrite pair_label_chars. apply Forall_app. split.
    + apply repeat_I_alphabet.
    + constructor; [exact Hc |]. apply Forall_app. split.
      * apply repeat_I_alphabet.
      * constructor; [exact Hc |]. apply repeat_I_alphabet.
Qed.

(** Item assignment inside a list. *)
Lemma setitem_middle (l1 l2 : list ascii) (x c : ascii) (k : nat) :
  k = length l1 -> setitem (l1 ++ x :: l2) k c = inr (l1 ++ c :: l2).
Proof.
  intros ->. induction l1 as [| y l1 IH]; simpl; [reflexivity |].
  rewrite IH. reflexivity.
Qed.

Lemma repeat_split (c : ascii) (n i : nat) :
  i < n -> repeat c n = repeat c i ++ c :: repeat c (n - i - 1).
Proof.
  intros Hi. replace n with (i + S (n - i - 1)) at 1 by lia.
  rewrite repeat_app. reflexivity.
Qed.

(** The list-and-join construction of the source produces [pair_label]. *)
Lemma pair_string_label (nq i j : nat) (c : ascii) :
  i < j -> j < nq ->
  PauliCoeffs.pair_string nq i j c = inr (PauliCoeffs.pair_label nq i j c).
Proof.
  intros Hij Hj. unfold PauliCoeffs.pair_string.
  fold (chars (str_repeat chI nq)). rewrite chars_repeat.
  rewrite (repeat_split chI nq i) by lia.
  rewrite (setitem_middle (repeat chI i) _ chI c i)
    by (symmetry; apply repeat_length).
  py_simpl.
  rewrite (repeat_split chI (nq - i - 1) (j - i - 1)) by lia.
  replace (nq - i - 1 - (j - i - 1) - 1) with (nq - j - 1) by lia.
  replace (repeat chI i ++ c :: repeat chI (j - i - 1)
             ++ chI :: repeat chI (nq - j - 1))
    with ((repeat chI i ++ c :: repeat chI (j - i - 1))
            ++ chI :: repeat chI (nq - j - 1))
    by (rewrite <- app_assoc; reflexivity).
  rewrite (setitem_middle _ _ chI c j)
    by (rewrite length_app; simpl; rewrite !repeat_length; lia).
  py_simpl. f_equal.
  apply chars_inj. unfold chars at 1.
  rewrite list_ascii_of_string_of_list_ascii, pair_label_chars.
  rewrite <- app_assoc. reflexivity.
Qed.

(* ===================================================================== *)
(** ** The candidate loops of compute_pauli_coefficients                  *)
(* ===================================================================== *)

Section PauliLoops.

Import PauliCoeffs.

Variable H : matrix complex.
Variable threshold : Q.
Variable max_terms : Z.
Variable nq : nat.
Hypothesis Hsquare : is_square H = true.

Lemma getitem_entry (i j : nat) :
  i < length H -> j < length H -> getitem H i j = inr (entry H i j).
Proof. intros Hi Hj. apply getitem_square; assumption. Qed.

Lemma length_zero_nil {A : Type} (l : list A) : length l = 0 -> l = [].
Proof. destruct l; [reflexivity | discriminate]. Qed.

Lemma extends_nil (acc : list candidate) : extends max_terms acc [] acc.
Proof.
  exists []. rewrite app_nil_r. split; [reflexivity |].
  split; [apply incl_refl | reflexivity].
Qed.

(** One iteration that appends [new], followed by the rest of the loop. *)
Lemma extends_step (acc new rest result : list candidate) :
  extends max_terms (acc ++ new) rest result ->
  extends max_terms acc (new ++ rest) result.
Proof.
  intros [ext [Hres [Hincl Hfull]]]. exists (new ++ ext).
  split; [rewrite Hres, app_assoc; reflexivity |].
  split.
  - apply incl_app; [apply incl_appl, incl_refl | apply incl_appr, Hincl].
  - intros Hfit. rewrite Hfull; [reflexivity |].
    rewrite !length_app in *. lia.
Qed.

(** One iteration that appends [new] and leaves the loop. *)
Lemma extends_break (acc new rest : list candidate) :
  reached max_terms (acc ++ new) = true ->
  extends max_terms acc (new ++ rest) (acc ++ new).
Proof.
  intros Hreached. exists new. split; [reflexivity |].
  split; [apply incl_appl, incl_refl |].
  intros Hfit. unfold reached in Hreached. apply Z.leb_le in Hreached.
  rewrite !length_app in *.
  rewrite (length_zero_nil rest) by lia. rewrite app_nil_r. reflexivity.
Qed.

Lemma z_terms_spec (idxs : list nat) (acc : list candidate) :
  exists result,
    z_terms H (length H) nq threshold max_terms idxs acc = inr result
    /\ extends max_terms acc
         (flat_map (z_candidates H (length H) nq threshold) idxs) result.
Proof.
  revert acc. induction idxs as [| i rest IH]; intros acc.
  - exists acc. split; [reflexivity | apply extends_nil].
  - simpl z_terms. simpl flat_map. unfold z_candidates at 1.
    destruct (Nat.ltb_spec i (length H)) as [Hi | Hi]; simpl andb.
    + rewrite getitem_entry by assumption. py_simpl.
      destruct (cabs_gt (entry H i i) threshold).
      * cbv zeta.
        destruct (reached max_terms _) eqn:Hreached.
        -- eexists. split; [reflexivity |].
           apply extends_break. exact Hreached.
        -- destruct (IH (acc ++ [(z_string nq i,
                                  real_coeff (re (entry H i i)))]))
             as [result [Hrun Hext]].
           exists result. split; [exact Hrun |].
           apply extends_step. exact Hext.
      * apply IH.
    + apply IH.
Qed.

Lemma pair_body_spec (i j : nat) (acc : list candidate) :
  i < j -> j < nq ->
  exists brk,
    pair_body H (length H) nq threshold max_terms i j acc
    = inr (acc ++ pair_candidates H (length H) nq threshold i j, brk)
    /\ (brk = true ->
        reached max_terms
          (acc ++ pair_candidates H (length H) nq threshold i j) = true).
Proof.
  intros Hij Hj. unfold pair_body, pair_candidates.
  destruct (Nat.ltb_spec i (length H)) as [Hi | Hi]; simpl andb;
    [| exists false; rewrite app_nil_r; split; [reflexivity | discriminate]].
  destruct (Nat.ltb_spec j (length H)) as [Hjn | Hjn]; simpl andb;
    [| exists false; rewrite app_nil_r; split; [reflexivity | discriminate]].
  rewrite getitem_entry by assumption. py_simpl.
  destruct (cabs_gt (entry H i j) threshold);
    [| exists false; rewrite app_nil_r; split; [reflexivity | discriminate]].
  rewrite !pair_string_label by assumption.
  destruct (abs_gt (re (entry H i j)) threshold);
    destruct (abs_gt (im (entry H i j)) threshold); py_simpl;
    eexists; simpl app; rewrite <- ?app_assoc, ?app_nil_r; simpl app;
    (split; [reflexivity | intros E; exact E]).
Qed.

Lemma pair_inner_spec (i : nat) (js : list nat) (acc : list candidate) :
  Forall (fun j => i < j /\ j < nq) js ->
  exists result,
    pair_inner H (length H) nq threshold max_terms i js acc = inr result
    /\ extends max_terms acc
         (flat_map (pair_candidates H (length H) nq threshold i) js) result.
Proof.
  revert acc. induction js as [| j rest IH]; intros acc Hjs.
  - exists acc. split; [reflexivity | apply extends_nil].
  - inversion Hjs as [| ? ? [Hij Hj] Hrest]; subst.
    simpl pair_inner. simpl flat_map.
    destruct (pair_body_spec i j acc Hij Hj) as [brk [Hbody Hbrk]].
    rewrite Hbody. py_simpl. cbv beta iota.
    destruct brk.
    + eexists. split; [reflexivity |].
      apply extends_break. apply Hbrk. reflexivity.
    + destruct (reached max_terms _) eqn:Hreached.
      * eexists. split; [reflexivity |].
        apply extends_break. exact Hreached.
      * destruct (IH (acc ++ pair_candidates H (length H) nq threshold i j)
                    Hrest) as [result [Hrun Hext]].
        exists result. split; [exact Hrun |].
        apply extends_step. exact Hext.
Qed.

(** Composition of two loops run one after the other. *)
Lemma extends_seq (acc full1 full2 mid result : list candidate) :
  extends max_terms acc full1 mid -> extends max_terms mid full2 result ->
  extends max_terms acc (full1 ++ full2) result.
Proof.
  intros [e1 [Hmid [Hin1 Hfull1]]] [e2 [Hres [Hin2 Hfull2]]].
  exists (e1 ++ e2). split; [rewrite Hres, Hmid, app_assoc; reflexivity |].
  split.
  - apply incl_app; [apply incl_appl, Hin1 | apply incl_appr, Hin2].
  - intros Hfit. rewrite !length_app in Hfit.
    assert (He1 : e1 = full1) by (apply Hfull1; lia).
    rewrite He1. f_equal. apply Hfull2.
    rewrite Hmid, He1, length_app. lia.
Qed.

Lemma pair_range_ok (i : nat) :
  Forall (fun j => i < j /\ j < nq)
    (seq (i + 1) (Nat.min nq (length H) - (i + 1))).
Proof.
  apply Forall_forall. intros j Hj. apply in_seq in Hj. lia.
Qed.

Lemma pair_outer_spec (idxs : list nat) (acc : list candidate) :
  exists result,
    pair_outer H (length H) nq threshold max_terms idxs acc = inr result
    /\ extends max_terms acc
         (flat_map
            (fun i =>
               flat_map (pair_candidates H (length H) nq threshold i)
                 (seq (i + 1) (Nat.min nq (length H) - (i + 1))))
            idxs)
         result.
Proof.
  revert acc. induction idxs as [| i rest IH]; intros acc.
  - exists acc. split; [reflexivity | apply extends_nil].
  - simpl pair_outer. simpl flat_map.
    destruct (pair_inner_spec i _ acc (pair_range_ok i))
      as [mid [Hinner Hext1]].
    rewrite Hinner. py_simpl.
    destruct (IH mid) as [result [Hrun Hext2]].
    exists result. split; [exact Hrun |].
    eapply extends_seq; eassumption.
Qed.

(** *** The loops in closed form *)

Lemma z_terms_exact (idxs : list nat) (acc : list candidate) :
  z_terms H (length H) nq threshold max_terms idxs acc
  = inr (acc
         ++ firstn (Z.to_nat (Z.max 1 (max_terms - Z.of_nat (length acc))))
              (flat_map (z_candidates H (length H) nq threshold) idxs)).
Proof.
  revert acc. induction idxs as [| i rest IH]; intros acc.
  - simpl. rewrite firstn_nil, app_nil_r. reflexivity.
  - simpl z_terms. simpl flat_map. unfold z_candidates at 1.
    destruct (Nat.ltb_spec i (length H)) as [Hi | Hi]; simpl andb;
      [| apply IH].
    rewrite getitem_entry by assumption. py_simpl.
    destruct (cabs_gt (entry H i i) threshold); [| apply IH].
    cbv zeta. unfold reached. rewrite length_app. simpl length.
    destruct (Z.leb_spec max_terms (Z.of_nat (length acc + 1)))
      as [Hstop | Hgo].
    + replace (Z.to_nat (Z.max 1 (max_terms - Z.of_nat (length acc))))
        with 1 by lia.
      reflexivity.
    + rewrite IH, length_app. simpl length.
      replace (Z.to_nat (Z.max 1 (max_terms - Z.of_nat (length acc))))
        with (S (Z.to_nat
                   (Z.max 1 (max_terms - Z.of_nat (length acc + 1)))))
        by lia.
      simpl. rewrite <- app_assoc. reflexivity.
Qed.

Lemma pair_inner_exact (i : nat) (js : list nat) (acc : list candidate) :
  Forall (fun j => i < j /\ j < nq) js ->
  pair_inner H (length H) nq threshold max_terms i js acc
  = inr (acc
         ++ taken max_terms (length acc)
              (map (pair_candidates H (length H) nq threshold i) js)).
Proof.
  revert acc. induction js as [| j rest IH]; intros acc Hjs.
  - simpl. rewrite app_nil_r. reflexivity.
  - inversion Hjs as [| ? ? [Hij Hj] Hrest]; subst.
    simpl pair_inner. cbn [map taken].
    destruct (pair_body_spec i j acc Hij Hj) as [brk [Hbody Hbrk]].
    rewrite Hbody. py_simpl. cbv beta iota.
    set (new := pair_candidates H (length H) nq threshold i j) in *.
    assert (Hreach : reached max_terms (acc ++ new)
                     = (max_terms <=? Z.of_nat (length acc + length new))%Z)
      by (unfold reached; rewrite length_app; reflexivity).
    rewrite <- Hreach.
    destruct brk.
    + rewrite (Hbrk eq_refl), app_nil_r. reflexivity.
    + destruct (reached max_terms (acc ++ new)).
      * rewrite app_nil_r. reflexivity.
      * rewrite IH by assumption. rewrite length_app, app_assoc.
        reflexivity.
Qed.

Lemma pair_outer_exact (idxs : list nat) (acc : list candidate) :
  pair_outer H (length H) nq threshold max_terms idxs acc
  = inr (fold_left
           (fun held i =>
              held
              ++ taken max_terms (length held)
                   (map (pair_candidates H (length H) nq threshold i)
                      (seq (i + 1) (Nat.min nq (length H) - (i + 1)))))
           idxs acc).
Proof.
  revert acc. induction idxs as [| i rest IH]; intros acc.
  - reflexivity.
  - simpl pair_outer. rewrite pair_inner_exact by apply pair_range_ok.
    py_simpl. rewrite IH. reflexivity.
Qed.

End PauliLoops.

(** ** The accumulated candidates against the full candidate set *)

Lemma ceil_log2_qubits (H : matrix complex) :
  1 <= length H -> ceil_log2 (length H) = inr (qubits_for H).
Proof.
  intros Hn. unfold ceil_log2, qubits_for.
  destruct (length H); [lia | reflexivity].
Qed.

Lemma extends_skip (max_terms : Z) (acc full : list PauliCoeffs.candidate) :
  (Z.of_nat (length acc) <? max_terms)%Z = false ->
  extends max_terms acc full acc.
Proof.
  intros Hfull. apply Z.ltb_ge in Hfull.
  exists []. rewrite app_nil_r. split; [reflexivity |].
  split; [intros x [] |].
  intros Hfit. symmetry. apply length_zero_nil. lia.
Qed.

Lemma accumulate_spec (H : matrix complex) (max_terms : Z) (threshold : Q) :
  1 <= length H ->
  is_square H = true ->
  exists cands,
    PauliCoeffs.accumulate H (length H) (qubits_for H) max_terms threshold
      = inr cands
    /\ extends max_terms [] (PauliCoeffs.full_candidates H threshold) cands
    /\ exists rest,
         cands = PauliCoeffs.identity_term H (length H) (qubits_for H)
                   threshold ++ rest.
Proof.
  intros Hn Hsq. unfold PauliCoeffs.accumulate. cbv zeta.
  set (acc0 := PauliCoeffs.identity_term H (length H) (qubits_for H)
                 threshold).
  destruct (z_terms_spec H threshold max_terms (qubits_for H) Hsq
              (seq 0 (Nat.min (qubits_for H) (length H))) acc0)
    as [acc1 [Hz Hext1]].
  rewrite Hz. py_simpl.
  assert (Hpairs : exists cands,
             (if (Z.of_nat (length acc1) <? max_terms)%Z
              then PauliCoeffs.pair_outer H (length H) (qubits_for H)
                     threshold max_terms
                     (seq 0 (Nat.min (qubits_for H) (length H - 1))) acc1
              else ret acc1) = inr cands
             /\ extends max_terms acc1
                  (flat_map
                     (fun i =>
                        flat_map
                          (PauliCoeffs.pair_candidates H (length H)
                             (qubits_for H) threshold i)
                          (seq (i + 1)
                             (Nat.min (qubits_for H) (length H) - (i + 1))))
                     (seq 0 (Nat.min (qubits_for H) (length H - 1))))
                  cands).
  { destruct (Z.of_nat (length acc1) <? max_terms)%Z eqn:Hroom.
    - apply pair_outer_spec. exact Hsq.
    - exists acc1. split; [reflexivity |]. apply extends_skip. exact Hroom. }
  destruct Hpairs as [cands [Hp Hext2]].
  exists cands. split; [exact Hp |]. split.
  - unfold PauliCoeffs.full_candidates. fold (qubits_for H). cbv zeta.
    fold acc0. apply extends_step. simpl app.
    eapply extends_seq; eassumption.
  - destruct Hext1 as [e1 [-> _]]. destruct Hext2 as [e2 [-> _]].
    exists (e1 ++ e2). rewrite app_assoc. reflexivity.
Qed.

(** The candidates held when the sort starts, in closed form. *)
Lemma accumulate_exact (H : matrix complex) (max_terms : Z) (threshold : Q) :
  is_square H = true ->
  PauliCoeffs.accumulate H (length H) (qubits_for H) max_terms threshold
  = inr (held H max_terms threshold).
Proof.
  intros Hsq. unfold PauliCoeffs.accumulate, held, held_after_z, pair_row.
  cbv zeta.
  rewrite (z_terms_exact H threshold max_terms (qubits_for H) Hsq). py_simpl.
  destruct (_ <? max_terms)%Z; [| reflexivity].
  apply (pair_outer_exact H threshold max_terms (qubits_for H) Hsq).
Qed.

(** Every candidate of the full set carries a well-formed operator string. *)
Lemma full_candidates_strings (H : matrix complex) (threshold : Q) :
  Forall (fun c => operator_string (qubits_for H) (fst c))
    (PauliCoeffs.full_candidates H threshold).
Proof.
  unfold PauliCoeffs.full_candidates. fold (qubits_for H). cbv zeta.
  apply Forall_app. split; [| apply Forall_app; split].
  - unfold PauliCoeffs.identity_term.
    destruct (cabs_gt _ _); constructor; [| constructor].
    apply identity_string_ok.
  - apply Forall_flat_map, Forall_forall. intros i Hi. apply in_seq in Hi.
    unfold PauliCoeffs.z_candidates.
    destruct (_ && _); constructor; [| constructor].
    apply z_string_ok. lia.
  - apply Forall_flat_map, Forall_forall. intros i Hi. apply in_seq in Hi.
    apply Forall_flat_map, Forall_forall. intros j Hj. apply in_seq in Hj.
    unfold PauliCoeffs.pair_candidates.
    destruct (_ && _); [| constructor].
    apply Forall_app. split.
    + destruct (abs_gt _ _); constructor; [| constructor].
      apply pair_label_ok; [lia | lia | right; left; reflexivity].
    + destruct (abs_gt _ _); constructor; [| constructor].
      apply pair_label_ok; [lia | lia | right; right; left; reflexivity].
Qed.

Lemma in_py_take {A : Type} (m : Z) (l : list A) (x : A) :
  In x (py_take m l) -> In x l.
Proof.
  unfold py_take. destruct (m <? 0)%Z; apply in_firstn.
Qed.

(** The run of [compute_pauli_coefficients] on a square input. *)
Lemma compute_pauli_coefficients_run (H : matrix complex) (max_terms : Z)
    (threshold : Q) :
  1 <= length H ->
  is_square H = true ->
  exists cands,
    PauliCoeffs.accumulate H (length H) (qubits_for H) max_terms threshold
      = inr cands
    /\ extends max_terms [] (PauliCoeffs.full_candidates H threshold) cands
    /\ PauliCoeffs.compute_pauli_coefficients H max_terms threshold
       = inr (PauliCoeffs.MkPauliData
                (map fst (py_take max_terms (PauliCoeffs.argsort_desc cands)))
                (map (fun c => re (snd c))
                   (py_take max_terms (PauliCoeffs.argsort_desc cands)))
                (qubits_for H)
                (length (py_take max_terms
                           (PauliCoeffs.argsort_desc cands)))).
Proof.
  intros Hn Hsq.
  destruct (accumulate_spec H max_terms threshold Hn Hsq)
    as [cands [Hacc [Hext _]]].
  exists cands. split; [exact Hacc |]. split; [exact Hext |].
  unfold PauliCoeffs.compute_pauli_coefficients. cbv zeta.
  rewrite ceil_log2_qubits by assumption. py_simpl.
  rewrite Hacc. py_simpl. reflexivity.
Qed.

Lemma kept_in_full (H : matrix complex) (max_terms : Z) (threshold : Q)
    (cands : list PauliCoeffs.candidate) (c : PauliCoeffs.candidate) :
  extends max_terms [] (PauliCoeffs.full_candidates H threshold) cands ->
  In c (py_take max_terms (PauliCoeffs.argsort_desc cands)) ->
  In c (PauliCoeffs.full_candidates H threshold).
Proof.
  intros [ext [Hc [Hincl _]]] Hin. simpl in Hc. subst cands.
  apply Hincl. apply in_py_take in Hin.
  eapply Permutation_in; [| exact Hin].
  symmetry. apply sort_desc_perm.
Qed.

(** C5.  On a square input of side [n >= 1], every operator string of the
    decomposition returned by [compute_pauli_coefficients] has length
    [num_qubits = ceil(log2 n)] and only letters from I, X, Y, Z; the same
    holds of every candidate: the identity term, each Z term and each
    XX / YY term. *)
Theorem operator_strings_well_formed (H : matrix complex) (max_terms : Z)
    (threshold : Q) :
  1 <= length H ->
  is_square H = true ->
  exists r,
    PauliCoeffs.compute_pauli_coefficients H max_terms threshold = inr r
    /\ Z.of_nat (PauliCoeffs.num_qubits r) = Z.log2_up (Z.of_nat (length H))
    /\ Forall (operator_string (PauliCoeffs.num_qubits r))
         (PauliCoeffs.pauli_terms r)
    /\ Forall (fun c => operator_string (PauliCoeffs.num_qubits r) (fst c))
         (PauliCoeffs.full_candidates H threshold).
Proof.
  intros Hn Hsq.
  destruct (compute_pauli_coefficients_run H max_terms threshold Hn Hsq)
    as [cands [_ [Hext Hrun]]].
  eexists. split; [exact Hrun |]. simpl.
  split.
  { unfold qubits_for.
    pose proof (Z.log2_up_nonneg (Z.of_nat (length H))). lia. }
  pose proof (full_candidates_strings H threshold) as Hfull.
  split; [| exact Hfull].
  apply Forall_map, Forall_forall. intros c Hc.
  rewrite Forall_forall in Hfull. apply Hfull.
  eapply kept_in_full; eassumption.
Qed.

(** C5 on [coupled4]: the four terms are IZ, YY, XX and ZI. *)
Lemma operator_strings_well_formed_witness :
  exists r,
    PauliCoeffs.compute_pauli_coefficients coupled4 10 (1 # 1000000) = inr r
    /\ PauliCoeffs.pauli_terms r = ["IZ"; "YY"; "XX"; "ZI"]%string
    /\ Forall (operator_string 2) (PauliCoeffs.pauli_terms r).
Proof.
  destruct (operator_strings_well_formed coupled4 10 (1 # 1000000))
    as [r [Hrun [Hq [Hterms _]]]]; [simpl; lia | reflexivity |].
  exists r. split; [exact Hrun |].
  assert (Hq2 : PauliCoeffs.num_qubits r = 2).
  { apply Nat2Z.inj. rewrite Hq. reflexivity. }
  rewrite Hq2 in Hterms. split; [| exact Hterms].
  vm_compute in Hrun. injection Hrun as <-. reflexivity.
Defined.

(* ===================================================================== *)
(** ** Hermitian inputs                                                   *)
(* ===================================================================== *)

Lemma hermitian_diagonal (H : matrix complex) (i : nat) :
  is_hermitian H = true -> i < length H ->
  (im (PauliCoeffs.entry H i i) == 0)%Q.
Proof.
  intros Hh Hi. unfold is_hermitian in Hh.
  rewrite forallb_forall in Hh.
  specialize (Hh i ltac:(apply in_seq; lia)).
  rewrite forallb_forall in Hh.
  specialize (Hh i ltac:(apply in_seq; lia)).
  apply andb_true_iff in Hh. destruct Hh as [_ Him].
  apply Qeq_bool_iff in Him. lra.
Qed.

Lemma trace_from_im (pre rest : matrix complex) :
  (forall i, i < length (pre ++ rest) ->
             (im (PauliCoeffs.entry (pre ++ rest) i i) == 0)%Q) ->
  (im (trace_from (length pre) rest) == 0)%Q.
Proof.
  revert pre. induction rest as [| row rest IH]; intros pre Hdiag.
  - reflexivity.
  - simpl.
    assert (Hrest : (im (trace_from (S (length pre)) rest) == 0)%Q).
    { replace (S (length pre)) with (length (pre ++ [row]))
        by (rewrite length_app; simpl; lia).
      apply IH. rewrite <- app_assoc. exact Hdiag. }
    rewrite Hrest, Qplus_0_r.
    specialize (Hdiag (length pre)).
    unfold PauliCoeffs.entry in Hdiag. rewrite nth_middle in Hdiag.
    apply Hdiag. rewrite length_app. simpl. lia.
Qed.

Lemma hermitian_trace_real (H : matrix complex) :
  is_hermitian H = true -> (im (np_trace H) == 0)%Q.
Proof.
  intros Hh. unfold np_trace. apply (trace_from_im [] H).
  simpl. intros i Hi. apply hermitian_diagonal; assumption.
Qed.

(** The threshold tests, read as inequalities on real numbers. *)
Lemma abs_gt_iff (x t : Q) : abs_gt x t = true <-> (t < Qabs x)%Q.
Proof. unfold abs_gt. apply Qltb_true. Qed.

Lemma cabs_gt_real (z : complex) (t : Q) :
  (im z == 0)%Q -> (cabs_gt z t = true <-> (t < Qabs (re z))%Q).
Proof.
  intros Him. unfold cabs_gt, norm2.
  rewrite orb_true_iff, !Qltb_true.
  pose proof (Qabs_nonneg (re z)) as Hnn.
  split.
  - intros [Hneg | Hsq]; [lra |].
    revert Hnn. apply Qabs_case; intros; nra.
  - intros Hlt.
    destruct (Qlt_le_dec t 0) as [Hneg | Hpos]; [left; exact Hneg |].
    right. revert Hlt. apply Qabs_case; intros; nra.
Qed.

Lemma square_le_abs (x y : Q) : (x * x <= y * y -> Qabs x <= Qabs y)%Q.
Proof.
  intros Hsq. apply Qabs_case; intros Hx; apply Qabs_case; intros Hy; nra.
Qed.

Lemma norm2_real (z : complex) : (im z == 0 -> norm2 z == re z * re z)%Q.
Proof. intros Him. unfold norm2. nra. Qed.

(** Every candidate coefficient of a Hermitian input is real. *)
Lemma full_candidates_real (H : matrix complex) (threshold : Q) :
  is_hermitian H = true ->
  Forall (fun c => im (snd c) == 0)%Q (PauliCoeffs.full_candidates H threshold).
Proof.
  intros Hh. unfold PauliCoeffs.full_candidates. cbv zeta.
  apply Forall_app. split; [| apply Forall_app; split].
  - unfold PauliCoeffs.identity_term.
    destruct (cabs_gt _ _); constructor; [| constructor].
    simpl. rewrite (hermitian_trace_real H Hh). unfold Qdiv. ring.
  - apply Forall_flat_map, Forall_forall. intros i _.
    unfold PauliCoeffs.z_candidates.
    destruct (_ && _); constructor; [reflexivity | constructor].
  - apply Forall_flat_map, Forall_forall. intros i _.
    apply Forall_flat_map, Forall_forall. intros j _.
    unfold PauliCoeffs.pair_candidates.
    destruct (_ && _); [| constructor].
    apply Forall_app. split;
      destruct (abs_gt _ _); constructor; try reflexivity; constructor.
Qed.

(** Only the identity candidate carries the all-identity label. *)
Lemma not_identity_label (nq : nat) (s : string) (ch : ascii) :
  In ch (chars s) -> ch <> chI -> s <> str_repeat chI nq.
Proof.
  intros Hin Hne Heq. subst s. rewrite chars_repeat in Hin.
  apply repeat_spec in Hin. contradiction.
Qed.

Lemma z_string_not_identity (nq i : nat) :
  PauliCoeffs.z_string nq i <> str_repeat chI nq.
Proof.
  apply (not_identity_label nq _ chZ); [| discriminate].
  rewrite z_string_chars. apply in_or_app. right. left. reflexivity.
Qed.

Lemma pair_label_not_identity (nq i j : nat) (c : ascii) :
  c <> chI -> PauliCoeffs.pair_label nq i j c <> str_repeat chI nq.
Proof.
  intros Hc. apply (not_identity_label nq _ c); [| exact Hc].
  rewrite pair_label_chars. apply in_or_app. right. left. reflexivity.
Qed.

Lemma identity_label_unique (H : matrix complex) (threshold : Q)
    (c : PauliCoeffs.candidate) :
  In c (PauliCoeffs.full_candidates H threshold) ->
  fst c = str_repeat chI (qubits_for H) ->
  In c (PauliCoeffs.identity_term H (length H) (qubits_for H) threshold).
Proof.
  unfold PauliCoeffs.full_candidates. fold (qubits_for H). cbv zeta.
  intros Hin Hlabel.
  apply in_app_or in Hin. destruct Hin as [Hin | Hin]; [exact Hin |].
  exfalso. apply in_app_or in Hin. destruct Hin as [Hin | Hin].
  - apply in_flat_map in Hin. destruct Hin as [i [_ Hin]].
    unfold PauliCoeffs.z_candidates in Hin.
    destruct (_ && _); [| destruct Hin].
    destruct Hin as [<- | []]. simpl in Hlabel.
    exact (z_string_not_identity _ _ Hlabel).
  - apply in_flat_map in Hin. destruct Hin as [i [_ Hin]].
    apply in_flat_map in Hin. destruct Hin as [j [_ Hin]].
    unfold PauliCoeffs.pair_candidates in Hin.
    destruct (_ && _); [| destruct Hin].
    apply in_app_or in Hin.
    destruct Hin as [Hin | Hin]; destruct (abs_gt _ _);
      try destruct Hin as [<- | []]; try destruct Hin; simpl in Hlabel;
      apply pair_label_not_identity in Hlabel; try assumption; discriminate.
Qed.

(* ===================================================================== *)
(** ** The identity term                                                  *)
(* ===================================================================== *)

(** C4, as amended.  On a Hermitian [n x n] input, a candidate with the
    all-identity label has coefficient [trace(H) / n], and such a candidate
    is among the accumulated candidates if and only if
    [|trace(H)| > threshold]: the test is on the trace, not on the
    coefficient. *)
Theorem identity_term_rule (H : matrix complex) (max_terms : Z)
    (threshold : Q) :
  1 <= length H ->
  is_square H = true ->
  is_hermitian H = true ->
  exists cands,
    PauliCoeffs.accumulate H (length H) (qubits_for H) max_terms threshold
      = inr cands
    /\ (forall c,
          In c cands -> fst c = str_repeat chI (qubits_for H) ->
          snd c = cdiv_nat (np_trace H) (length H)
          /\ re (snd c)
             = (re (np_trace H) / inject_Z (Z.of_nat (length H)))%Q)
    /\ ((exists c, In c cands /\ fst c = str_repeat chI (qubits_for H))
        <-> (threshold < Qabs (re (np_trace H)))%Q).
Proof.
  intros Hn Hsq Hh.
  destruct (accumulate_spec H max_terms threshold Hn Hsq)
    as [cands [Hacc [[ext [Hc [Hincl _]]] [rest Hrest]]]].
  simpl in Hc. subst ext.
  pose proof (cabs_gt_real (np_trace H) threshold (hermitian_trace_real H Hh))
    as Htest.
  assert (Hid : forall c,
             In c cands -> fst c = str_repeat chI (qubits_for H) ->
             cabs_gt (np_trace H) threshold = true
             /\ c = (str_repeat chI (qubits_for H),
                     cdiv_nat (np_trace H) (length H))).
  { intros c Hin Hlabel.
    pose proof (identity_label_unique H threshold c (Hincl c Hin) Hlabel)
      as Hterm.
    unfold PauliCoeffs.identity_term in Hterm.
    destruct (cabs_gt (np_trace H) threshold); [| destruct Hterm].
    destruct Hterm as [<- | []]. split; reflexivity. }
  exists cands. split; [exact Hacc |]. split.
  - intros c Hin Hlabel. destruct (Hid c Hin Hlabel) as [_ ->].
    split; reflexivity.
  - split.
    + intros [c [Hin Hlabel]]. apply Htest. apply (Hid c Hin Hlabel).
    + intros Hlt. apply Htest in Hlt.
      exists (str_repeat chI (qubits_for H),
              cdiv_nat (np_trace H) (length H)).
      split; [| reflexivity].
      rewrite Hrest. unfold PauliCoeffs.identity_term. rewrite Hlt.
      left. reflexivity.
Qed.

(** The amended C4 on Scenario B: trace 2, threshold 1e-6, the identity term
    is a candidate. *)
Lemma identity_term_rule_witness :
  exists cands,
    PauliCoeffs.accumulate scenario_b 4 2 10 (1 # 1000000) = inr cands
    /\ exists c, In c cands /\ fst c = "II"%string.
Proof.
  destruct (identity_term_rule scenario_b 10 (1 # 1000000))
    as [cands [Hacc [_ Hiff]]];
    [simpl; lia | reflexivity | reflexivity |].
  exists cands. split; [exact Hacc |].
  apply Hiff. vm_compute. reflexivity.
Defined.

(** C4 as stated fails: with trace 2 on a 2 x 2 input and threshold 3/2 the
    identity term is a candidate, although its coefficient 2/2 does not
    exceed the threshold. *)
Lemma identity_threshold_counterexample :
  exists cands c,
    PauliCoeffs.accumulate [[Cx 2 0; c0]; [c0; c0]] 2 1 10 (3 # 2)
      = inr cands
    /\ In c cands
    /\ fst c = "I"%string
    /\ snd c = cdiv_nat (np_trace [[Cx 2 0; c0]; [c0; c0]]) 2
    /\ ~ (3 # 2 < Qabs (re (snd c)))%Q.
Proof.
  eexists. eexists. split; [vm_compute; reflexivity |].
  split; [left; reflexivity |].
  split; [reflexivity |]. split; [reflexivity |].
  simpl. intros Hlt. vm_compute in Hlt. discriminate.
Qed.

(* ===================================================================== *)
(** ** Sorting and truncation of the decomposition                        *)
(* ===================================================================== *)

Lemma StronglySorted_map_in {A B : Type} (R : A -> A -> Prop)
    (R' : B -> B -> Prop) (f : A -> B) (l : list A) :
  (forall a b, In a l -> In b l -> R a b -> R' (f a) (f b)) ->
  StronglySorted R l -> StronglySorted R' (map f l).
Proof.
  intros Hmono Hs. induction Hs as [| x l Hs IH Hall]; simpl.
  - constructor.
  - constructor.
    + apply IH. intros a b Ha Hb. apply Hmono; right; assumption.
    + apply Forall_map. rewrite Forall_forall in *.
      intros y Hy. apply Hmono; [left; reflexivity | right; exact Hy |].
      apply Hall. exact Hy.
Qed.

(** On real coefficients, the order by modulus is the order by [|re|]. *)
Lemma desc_modulus_real (a b : PauliCoeffs.candidate) :
  (im (snd a) == 0)%Q -> (im (snd b) == 0)%Q ->
  desc (fun c => norm2 (snd c)) a b ->
  (Qabs (re (snd b)) <= Qabs (re (snd a)))%Q.
Proof.
  intros Ha Hb Hdesc. unfold desc in Hdesc.
  rewrite (norm2_real _ Ha), (norm2_real _ Hb) in Hdesc.
  apply square_le_abs. exact Hdesc.
Qed.

(** C3, as amended.  On a Hermitian input and for [max_terms >= 0], the
    decomposition is the [max_terms] largest-modulus members of the
    candidates accumulated by steps 1 to 3, in descending order of
    [|coefficient|]: it has [min(max_terms, number accumulated)] terms, and
    no accumulated candidate left out is larger in modulus than one kept.
    The accumulated candidates are exactly [held]: the identity candidate;
    the Z candidates in qubit order up to and including the first one after
    which [max_terms] are held; and, only if fewer than [max_terms] are then
    held, from each row [i] in turn the XX / YY candidates of the pairs
    [(i, j)], [j] ascending, up to and including the first pair after which
    [max_terms] are held, the loop over the rows having no [break].  They
    are members of the full candidate set, and are the whole of it when it
    has at most [max_terms] members. *)
Theorem decomposition_top_of_accumulated (H : matrix complex)
    (max_terms : Z) (threshold : Q) :
  1 <= length H ->
  is_square H = true ->
  is_hermitian H = true ->
  (0 <= max_terms)%Z ->
  exists cands kept dropped r,
    PauliCoeffs.accumulate H (length H) (qubits_for H) max_terms threshold
      = inr cands
    /\ cands = held H max_terms threshold
    /\ PauliCoeffs.compute_pauli_coefficients H max_terms threshold = inr r
    /\ PauliCoeffs.pauli_terms r = map fst kept
    /\ PauliCoeffs.pauli_coefficients r = map (fun c => re (snd c)) kept
    /\ PauliCoeffs.num_terms r = Nat.min (Z.to_nat max_terms) (length cands)
    /\ length (PauliCoeffs.pauli_terms r) = PauliCoeffs.num_terms r
    /\ StronglySorted (fun x y => Qabs y <= Qabs x)%Q
         (PauliCoeffs.pauli_coefficients r)
    /\ Permutation cands (kept ++ dropped)
    /\ (forall a b, In a kept -> In b dropped ->
          (Qabs (re (snd b)) <= Qabs (re (snd a)))%Q)
    /\ incl cands (PauliCoeffs.full_candidates H threshold)
    /\ ((Z.of_nat (length (PauliCoeffs.full_candidates H threshold))
         <= max_terms)%Z ->
        cands = PauliCoeffs.full_candidates H threshold).
Proof.
  intros Hn Hsq Hh Hmax.
  destruct (compute_pauli_coefficients_run H max_terms threshold Hn Hsq)
    as [cands [Hacc [Hext Hrun]]].
  rewrite py_take_nonneg in Hrun by assumption.
  set (sorted := PauliCoeffs.argsort_desc cands) in *.
  set (k := Z.to_nat max_terms) in *.
  assert (Hperm : Permutation cands sorted) by apply sort_desc_perm.
  assert (Hsorted : StronglySorted (desc (fun c => norm2 (snd c))) sorted)
    by apply sort_desc_sorted.
  destruct Hext as [ext [Hc [Hincl Hfull]]]. simpl in Hc. subst ext.
  assert (Hreal : forall c, In c sorted -> (im (snd c) == 0)%Q).
  { intros c Hc.
    pose proof (full_candidates_real H threshold Hh) as Hall.
    rewrite Forall_forall in Hall. apply Hall, Hincl.
    eapply Permutation_in; [symmetry; exact Hperm | exact Hc]. }
  assert (Hheld : cands = held H max_terms threshold).
  { pose proof (accumulate_exact H max_terms threshold Hsq) as Hexact.
    rewrite Hacc in Hexact. apply inr_eq in Hexact. exact Hexact. }
  exists cands, (firstn k sorted), (skipn k sorted).
  eexists. split; [exact Hacc |]. split; [exact Hheld |].
  split; [exact Hrun |]. simpl.
  split; [reflexivity |]. split; [reflexivity |].
  split; [rewrite length_firstn; unfold sorted, PauliCoeffs.argsort_desc;
          rewrite sort_desc_length; reflexivity |].
  split; [apply length_map |].
  split.
  { apply (StronglySorted_map_in (desc (fun c => norm2 (snd c)))).
    - intros a b Ha Hb. apply desc_modulus_real; apply Hreal;
        eapply in_firstn; eassumption.
    - apply firstn_sorted. exact Hsorted. }
  split; [rewrite firstn_skipn; exact Hperm |].
  split.
  { intros a b Ha Hb. apply desc_modulus_real.
    - apply Hreal. eapply in_firstn; eassumption.
    - apply Hreal. eapply in_skipn; eassumption.
    - eapply firstn_skipn_sorted; eassumption. }
  split; [exact Hincl |].
  intros Hfit. apply Hfull. simpl. exact Hfit.
Qed.

(** The amended C3 on [coupled4] with room for ten terms: all four
    candidates are kept, in the order 5, 3, 2, 1. *)
Lemma decomposition_top_of_accumulated_witness :
  exists r,
    PauliCoeffs.compute_pauli_coefficients coupled4 10 (1 # 1000000) = inr r
    /\ PauliCoeffs.num_terms r = 4
    /\ StronglySorted (fun x y => Qabs y <= Qabs x)%Q
         (PauliCoeffs.pauli_coefficients r).
Proof.
  destruct (decomposition_top_of_accumulated coupled4 10 (1 # 1000000))
    as (cands & kept & dropped & r & Hacc & _ & Hrun & _ & _ & Hnum & _
        & Hsorted & _);
    [simpl; lia | reflexivity | reflexivity | lia |].
  exists r. split; [exact Hrun |]. split; [| exact Hsorted].
  rewrite Hnum. vm_compute in Hacc. injection Hacc as <-. reflexivity.
Defined.

(** The stops at work on [chained8] with [max_terms = 1]: row 0 stops after
    its first pair, so XIX (coefficient 5) is never generated; the loop
    over the rows goes on, and row 1 still gives IXX (coefficient 3), which
    is what the sort keeps. *)
Lemma rows_after_the_stop :
  map fst (held chained8 1 (1 # 1000000)) = ["XXI"; "IXX"]%string
  /\ map fst (PauliCoeffs.full_candidates chained8 (1 # 1000000))
     = ["XXI"; "XIX"; "IXX"]%string
  /\ exists r,
       PauliCoeffs.compute_pauli_coefficients chained8 1 (1 # 1000000)
       = inr r
       /\ PauliCoeffs.pauli_terms r = ["IXX"%string]
       /\ PauliCoeffs.pauli_coefficients r = [3%Q].
Proof.
  split; [reflexivity |]. split; [reflexivity |].
  eexists. split; [vm_compute; reflexivity |]. split; reflexivity.
Qed.

(** C3 as stated fails: with [max_terms = 1] on [skewed4] the loop over the
    Z terms stops after qubit 0, so the decomposition is ZI with coefficient
    1, while the largest member of the full candidate set is IZ with
    coefficient 5, which was never generated. *)
Lemma early_stop_counterexample :
  exists r,
    PauliCoeffs.compute_pauli_coefficients skewed4 1 (1 # 1000000) = inr r
    /\ PauliCoeffs.pauli_terms r = ["ZI"%string]
    /\ PauliCoeffs.pauli_coefficients r = [1%Q]
    /\ map fst (PauliCoeffs.full_candidates skewed4 (1 # 1000000))
       = ["ZI"%string; "IZ"%string]
    /\ map fst
         (py_take 1
            (PauliCoeffs.argsort_desc
               (PauliCoeffs.full_candidates skewed4 (1 # 1000000))))
       = ["IZ"%string]
    /\ PauliCoeffs.pauli_terms r
       <> map fst
            (py_take 1
               (PauliCoeffs.argsort_desc
                  (PauliCoeffs.full_candidates skewed4 (1 # 1000000)))).
Proof.
  eexists. split; [vm_compute; reflexivity |].
  repeat split. vm_compute. discriminate.
Qed.

(* ===================================================================== *)
(** * Part III: further properties of the code                            *)
(* ===================================================================== *)

(** ** hamiltonian_to_pauli_basis *)

Lemma str_take_repeat (c : ascii) (i n : nat) :
  PauliBasis.str_take i (str_repeat c n) = str_repeat c (Nat.min i n).
Proof.
  revert n. induction i as [| i IH]; intros [| n]; simpl; try reflexivity.
  rewrite IH. reflexivity.
Qed.

Lemma str_drop_repeat (c : ascii) (i n : nat) :
  PauliBasis.str_drop i (str_repeat c n) = str_repeat c (n - i).
Proof.
  revert n. induction i as [| i IH]; intros [| n]; simpl; try reflexivity.
  apply IH.
Qed.

(** The slices of the source build the same string as the concatenation
    used by [compute_pauli_coefficients]. *)
Lemma basis_string_cases (nq : Z) (i : nat) :
  (0 <= nq)%Z ->
  PauliBasis.basis_string nq i
  = if i <? Z.to_nat nq then PauliCoeffs.z_string (Z.to_nat nq) i
    else str_repeat chI (Z.to_nat nq).
Proof.
  intros Hnq. unfold PauliBasis.basis_string. cbv zeta.
  destruct (Z.ltb_spec (Z.of_nat i) nq) as [Hlt | Hge];
    destruct (Nat.ltb_spec i (Z.to_nat nq)) as [Hlt' | Hge']; try lia;
    [| reflexivity].
  rewrite str_take_repeat, str_drop_repeat.
  unfold PauliCoeffs.z_string.
  replace (Nat.min i (Z.to_nat nq)) with i by lia.
  replace (Z.to_nat nq - (i + 1)) with (Z.to_nat nq - i - 1) by lia.
  reflexivity.
Qed.

Lemma diagonal_terms_spec (H : matrix complex) (nq : Z) (idxs : list nat)
    (acc : list (string * complex)) :
  is_square H = true ->
  Forall (fun i => i < length H) idxs ->
  PauliBasis.diagonal_terms H nq idxs acc
  = inr (acc ++ flat_map (basis_term H nq) idxs).
Proof.
  intros Hsq. revert acc. induction idxs as [| i rest IH]; intros acc Hidx.
  - simpl. rewrite app_nil_r. reflexivity.
  - inversion Hidx as [| ? ? Hi Hrest]; subst.
    simpl PauliBasis.diagonal_terms.
    rewrite (getitem_entry H Hsq i i Hi Hi). py_simpl.
    simpl flat_map. unfold basis_term at 1.
    destruct (cabs_gt (PauliCoeffs.entry H i i) PauliBasis.diagonal_threshold).
    + rewrite IH by assumption. rewrite <- app_assoc. reflexivity.
    + rewrite IH by assumption. reflexivity.
Qed.

Lemma seq_below (a len : nat) (bound : nat) :
  a + len <= bound -> Forall (fun i => i < bound) (seq a len).
Proof.
  intros Hb. apply Forall_forall. intros i Hi. apply in_seq in Hi. lia.
Qed.

(** The run on a square input with a non-negative qubit count. *)
Lemma pauli_basis_run (H : matrix complex) (num_qubits : option Z) (nq : Z) :
  is_square H = true ->
  (0 <= nq)%Z ->
  match num_qubits with
  | Some q => q = nq
  | None => 1 <= length H /\ nq = Z.of_nat (qubits_for H)
  end ->
  PauliBasis.hamiltonian_to_pauli_basis H num_qubits
  = inr (PauliBasis.MkPauliBasisData
           (map fst (flat_map (basis_term H nq)
                       (seq 0 (Nat.min (length H) (2 ^ Z.to_nat nq)))))
           (map snd (flat_map (basis_term H nq)
                       (seq 0 (Nat.min (length H) (2 ^ Z.to_nat nq)))))
           nq
           (length (flat_map (basis_term H nq)
                      (seq 0 (Nat.min (length H) (2 ^ Z.to_nat nq)))))).
Proof.
  intros Hsq Hnq Hgiven. unfold PauliBasis.hamiltonian_to_pauli_basis.
  cbv zeta.
  assert (Hq : match num_qubits with
               | Some q => ret q
               | None => k <- ceil_log2 (length H) ;; ret (Z.of_nat k)
               end = (inr nq : py Z)).
  { destruct num_qubits as [q |].
    - subst q. reflexivity.
    - destruct Hgiven as [Hn ->].
      rewrite ceil_log2_qubits by assumption. reflexivity. }
  rewrite Hq. py_simpl. unfold PauliBasis.loop_bound.
  destruct (Z.ltb_spec nq 0) as [Hneg | _]; [lia |]. py_simpl.
  rewrite diagonal_terms_spec; [| exact Hsq | apply seq_below; lia].
  py_simpl. reflexivity.
Qed.

(** The non-identity letters of the two kinds of string. *)
Lemma support_repeat_I (n : nat) (rest : list ascii) :
  filter (fun c => negb (Ascii.eqb c chI)) (repeat chI n ++ rest)
  = filter (fun c => negb (Ascii.eqb c chI)) rest.
Proof. induction n as [| n IH]; simpl; [reflexivity | exact IH]. Qed.

Lemma support_identity (nq : nat) : support (str_repeat chI nq) = [].
Proof.
  unfold support. rewrite chars_repeat, <- (app_nil_r (repeat chI nq)).
  apply support_repeat_I.
Qed.

Lemma support_z_string (nq i : nat) :
  support (PauliCoeffs.z_string nq i) = [chZ].
Proof.
  unfold support. rewrite z_string_chars, support_repeat_I. simpl.
  rewrite <- (app_nil_r (repeat chI (nq - i - 1))), support_repeat_I.
  reflexivity.
Qed.

Lemma basis_string_ok (nq : Z) (i : nat) :
  (0 <= nq)%Z ->
  String.length (PauliBasis.basis_string nq i) = Z.to_nat nq
  /\ Forall (fun c => c = chI \/ c = chZ)
       (chars (PauliBasis.basis_string nq i))
  /\ (support (PauliBasis.basis_string nq i) = []
      \/ support (PauliBasis.basis_string nq i) = [chZ])
  /\ (PauliBasis.basis_string nq i = str_repeat chI (Z.to_nat nq)
      \/ exists q,
           q < Z.to_nat nq
           /\ PauliBasis.basis_string nq i
              = PauliCoeffs.z_string (Z.to_nat nq) q).
Proof.
  intros Hnq. rewrite basis_string_cases by assumption.
  destruct (Nat.ltb_spec i (Z.to_nat nq)) as [Hi | Hi].
  - split; [apply z_string_ok; exact Hi |]. split.
    + rewrite z_string_chars. apply Forall_app. split.
      * apply Forall_forall. intros c Hc. apply repeat_spec in Hc. auto.
      * constructor; [auto |].
        apply Forall_forall. intros c Hc. apply repeat_spec in Hc. auto.
    + split; [right; apply support_z_string |].
      right. exists i. split; [exact Hi | reflexivity].
  - split; [apply identity_string_ok |]. split.
    + rewrite chars_repeat.
      apply Forall_forall. intros c Hc. apply repeat_spec in Hc. auto.
    + split; [left; apply support_identity | left; reflexivity].
Qed.

Lemma flat_map_length_le {A B : Type} (f : A -> list B) (l : list A) :
  (forall x, length (f x) <= 1) -> length (flat_map f l) <= length l.
Proof.
  intros Hf. induction l as [| x tl IH]; simpl; [lia |].
  rewrite length_app. specialize (Hf x). lia.
Qed.

(** X1.  On a square matrix, with the qubit count given (non-negative) or
    computed from the side, [hamiltonian_to_pauli_basis] returns: every
    label has exactly [num_qubits] letters and is either the all-identity
    string or the string with a single Z, on one of the [num_qubits] qubits,
    and I everywhere else, so no label carries two Z; there is one
    coefficient per label, at most [min(n, 2^num_qubits)] of them; and every
    coefficient is a diagonal entry of modulus above 1e-10. *)
Theorem pauli_basis_well_formed (H : matrix complex) (num_qubits : option Z)
    (nq : Z) :
  is_square H = true ->
  (0 <= nq)%Z ->
  match num_qubits with
  | Some q => q = nq
  | None => 1 <= length H /\ nq = Z.of_nat (qubits_for H)
  end ->
  exists r,
    PauliBasis.hamiltonian_to_pauli_basis H num_qubits = inr r
    /\ PauliBasis.num_qubits r = nq
    /\ Forall (fun s => String.length s = Z.to_nat nq
                        /\ Forall (fun c => c = chI \/ c = chZ) (chars s)
                        /\ (support s = [] \/ support s = [chZ])
                        /\ (s = str_repeat chI (Z.to_nat nq)
                            \/ exists q,
                                 q < Z.to_nat nq
                                 /\ s = PauliCoeffs.z_string (Z.to_nat nq) q))
         (PauliBasis.pauli_terms r)
    /\ length (PauliBasis.pauli_terms r) = PauliBasis.num_terms r
    /\ length (PauliBasis.pauli_coefficients r) = PauliBasis.num_terms r
    /\ PauliBasis.num_terms r <= Nat.min (length H) (2 ^ Z.to_nat nq)
    /\ Forall (fun c => exists i,
                   i < length H /\ c = PauliCoeffs.entry H i i
                   /\ cabs_gt c PauliBasis.diagonal_threshold = true)
         (PauliBasis.pauli_coefficients r).
Proof.
  intros Hsq Hnq Hgiven.
  eexists. split; [apply (pauli_basis_run H num_qubits nq); assumption |].
  simpl. split; [reflexivity |].
  set (bound := Nat.min (length H) (2 ^ Z.to_nat nq)).
  split.
  { apply Forall_map, Forall_flat_map, Forall_forall. intros i _.
    unfold basis_term. destruct (cabs_gt _ _); constructor; [| constructor].
    simpl. apply basis_string_ok. exact Hnq. }
  split; [apply length_map |]. split; [apply length_map |].
  split.
  { etransitivity; [apply flat_map_length_le | rewrite length_seq; reflexivity].
    intros i. unfold basis_term. destruct (cabs_gt _ _); simpl; lia. }
  apply Forall_map, Forall_flat_map, Forall_forall. intros i Hi.
  apply in_seq in Hi. unfold basis_term.
  destruct (cabs_gt _ _) eqn:Habove; constructor; [| constructor].
  simpl. exists i. split; [unfold bound in Hi; lia |].
  split; [reflexivity | exact Habove].
Qed.

(** X1 on [coupled4] with three qubits requested: the diagonal 1, 5, -6
    gives ZII, IZI, IIZ. *)
Lemma pauli_basis_well_formed_witness :
  exists r,
    PauliBasis.hamiltonian_to_pauli_basis coupled4 (Some 3%Z) = inr r
    /\ PauliBasis.pauli_terms r = ["ZII"; "IZI"; "IIZ"]%string
    /\ PauliBasis.num_terms r <= 4.
Proof.
  destruct (pauli_basis_well_formed coupled4 (Some 3%Z) 3)
    as (r & Hrun & _ & _ & _ & _ & Hle & _);
    [reflexivity | lia | reflexivity |].
  exists r. split; [exact Hrun |]. split; [| exact Hle].
  vm_compute in Hrun. injection Hrun as <-. reflexivity.
Defined.

Lemma qubits_le_side (H : matrix complex) :
  1 <= length H ->
  qubits_for H <= length H /\ length H <= 2 ^ qubits_for H.
Proof.
  intros Hn.
  destruct (ceil_log2_spec (length H) Hn) as [k [Hk [_ [Hup Hlow]]]].
  rewrite ceil_log2_qubits in Hk by assumption. injection Hk as <-.
  split; [| exact Hup].
  destruct (Nat.eq_dec (qubits_for H) 0) as [-> | Hpos]; [lia |].
  assert (Hlin : qubits_for H - 1 < 2 ^ (qubits_for H - 1))
    by (apply Nat.pow_gt_lin_r; lia).
  assert (1 < length H).
  { destruct (Nat.eq_dec (length H) 1) as [E | E]; [| lia].
    unfold qubits_for in Hpos. rewrite E in Hpos. simpl in Hpos. lia. }
  specialize (Hlow ltac:(assumption)). lia.
Qed.

Lemma z_term_agrees (H : matrix complex) (nq i : nat) :
  i < nq -> i < length H ->
  map fst (basis_term H (Z.of_nat nq) i)
  = map fst (PauliCoeffs.z_candidates H (length H) nq
               PauliBasis.diagonal_threshold i)
  /\ map (fun c => re (snd c)) (basis_term H (Z.of_nat nq) i)
     = map (fun c => re (snd c))
         (PauliCoeffs.z_candidates H (length H) nq
            PauliBasis.diagonal_threshold i).
Proof.
  intros Hi Hin. unfold basis_term, PauliCoeffs.z_candidates.
  destruct (Nat.ltb_spec i (length H)) as [_ | Hc]; [| lia]. simpl andb.
  rewrite basis_string_cases, Nat2Z.id by lia.
  destruct (Nat.ltb_spec i nq) as [_ | Hc]; [| lia].
  destruct (cabs_gt _ _); split; reflexivity.
Qed.

Lemma z_block_labels (H : matrix complex) (nq : nat) (idxs : list nat) :
  Forall (fun i => i < nq /\ i < length H) idxs ->
  map fst (flat_map (basis_term H (Z.of_nat nq)) idxs)
  = map fst
      (flat_map (PauliCoeffs.z_candidates H (length H) nq
                   PauliBasis.diagonal_threshold) idxs)
  /\ map (fun c => re (snd c))
       (flat_map (basis_term H (Z.of_nat nq)) idxs)
     = map (fun c => re (snd c))
         (flat_map (PauliCoeffs.z_candidates H (length H) nq
                      PauliBasis.diagonal_threshold) idxs).
Proof.
  induction 1 as [| i rest [Hi Hin] _ [IH1 IH2]]; [split; reflexivity |].
  simpl flat_map. rewrite !map_app, IH1, IH2.
  destruct (z_term_agrees H nq i Hi Hin) as [E1 E2].
  rewrite E1, E2. split; reflexivity.
Qed.

Lemma identity_block_labels (H : matrix complex) (nq : nat) (idxs : list nat) :
  Forall (fun i => nq <= i) idxs ->
  map fst (flat_map (basis_term H (Z.of_nat nq)) idxs)
  = repeat (str_repeat chI nq)
      (length (filter (fun i => cabs_gt (PauliCoeffs.entry H i i)
                                  PauliBasis.diagonal_threshold) idxs)).
Proof.
  induction 1 as [| i rest Hi _ IH]; [reflexivity |].
  simpl flat_map. simpl filter. rewrite map_app, IH.
  unfold basis_term at 1.
  rewrite basis_string_cases, Nat2Z.id by lia.
  destruct (Nat.ltb_spec i nq) as [Hc | _]; [lia |].
  destruct (cabs_gt _ _); reflexivity.
Qed.

(** X2.  With the qubit count left to the function ([nq = ceil(log2 n)]),
    the result of [hamiltonian_to_pauli_basis] on a square matrix is made of
    two blocks.  The first holds the labels and real parts of the Z
    candidates that [compute_pauli_coefficients] forms for the qubits
    [0 .. nq-1] at threshold 1e-10; the second holds one all-identity label
    for every remaining diagonal entry above the threshold, so diagonal
    entries beyond the first [nq] all share the label [I...I]. *)
Theorem pauli_basis_blocks (H : matrix complex) :
  1 <= length H ->
  is_square H = true ->
  exists r,
    PauliBasis.hamiltonian_to_pauli_basis H None = inr r
    /\ PauliBasis.pauli_terms r
       = map fst
           (flat_map (PauliCoeffs.z_candidates H (length H) (qubits_for H)
                        PauliBasis.diagonal_threshold)
              (seq 0 (qubits_for H)))
         ++ repeat (str_repeat chI (qubits_for H))
              (length
                 (filter (fun i => cabs_gt (PauliCoeffs.entry H i i)
                                     PauliBasis.diagonal_threshold)
                    (seq (qubits_for H) (length H - qubits_for H))))
    /\ firstn
         (length (flat_map (PauliCoeffs.z_candidates H (length H)
                              (qubits_for H) PauliBasis.diagonal_threshold)
                    (seq 0 (qubits_for H))))
         (map re (PauliBasis.pauli_coefficients r))
       = map (fun c => re (snd c))
           (flat_map (PauliCoeffs.z_candidates H (length H) (qubits_for H)
                        PauliBasis.diagonal_threshold)
              (seq 0 (qubits_for H))).
Proof.
  intros Hn Hsq. destruct (qubits_le_side H Hn) as [Hq Hup].
  eexists.
  split; [apply (pauli_basis_run H None (Z.of_nat (qubits_for H)));
          [exact Hsq | lia | split; [exact Hn | reflexivity]] |].
  simpl. rewrite Nat2Z.id.
  replace (Nat.min (length H) (2 ^ qubits_for H)) with (length H) by lia.
  assert (Hsplit : seq 0 (length H)
                   = seq 0 (qubits_for H)
                       ++ seq (qubits_for H) (length H - qubits_for H)).
  { rewrite <- seq_app. f_equal. lia. }
  rewrite Hsplit, !flat_map_app, !map_app.
  assert (Hz := z_block_labels H (qubits_for H) (seq 0 (qubits_for H))
                  ltac:(apply Forall_forall; intros i Hi;
                        apply in_seq in Hi; lia)).
  destruct Hz as [Hlabels Hcoeffs].
  split.
  - rewrite Hlabels. f_equal. apply identity_block_labels.
    apply Forall_forall. intros i Hi. apply in_seq in Hi. lia.
  - rewrite !map_map.
    rewrite <- (length_map (fun c : string * complex => re (snd c))
                  (flat_map (PauliCoeffs.z_candidates _ _ _ _) _)).
    rewrite <- Hcoeffs.
    rewrite firstn_app, Nat.sub_diag, firstn_all. simpl.
    apply app_nil_r.
Qed.

(** X2 on [coupled4] (two qubits): ZI and IZ for the first two diagonal
    entries, then II for the third. *)
Lemma pauli_basis_blocks_witness :
  exists r,
    PauliBasis.hamiltonian_to_pauli_basis coupled4 None = inr r
    /\ PauliBasis.pauli_terms r = ["ZI"; "IZ"; "II"]%string.
Proof.
  destruct (pauli_basis_blocks coupled4) as (r & Hrun & Hterms & _);
    [simpl; lia | reflexivity |].
  exists r. split; [exact Hrun |]. rewrite Hterms. reflexivity.
Defined.

(* ===================================================================== *)
(** ** synthesize_pauli_rotation                                          *)
(* ===================================================================== *)

Section RotationFacts.

Import Rotation.

Lemma active_from_bounds (i : nat) (s : string) (q : nat) :
  In q (active_from i s) -> i <= q < i + String.length s.
Proof.
  revert i. induction s as [| p tl IH]; intros i Hq; simpl in *.
  - destruct Hq.
  - destruct (Ascii.eqb p chI).
    + apply IH in Hq. lia.
    + destruct Hq as [<- | Hq]; [lia |]. apply IH in Hq. lia.
Qed.

Lemma active_from_nodup (i : nat) (s : string) : NoDup (active_from i s).
Proof.
  revert i. induction s as [| p tl IH]; intros i; simpl.
  - constructor.
  - destruct (Ascii.eqb p chI); [apply IH |].
    constructor; [| apply IH].
    intros Hin. apply active_from_bounds in Hin. lia.
Qed.

(** An active position holds a letter other than I. *)
Lemma active_from_letter (i : nat) (s : string) (q : nat) :
  In q (active_from i s) ->
  exists ch, String.get (q - i) s = Some ch /\ ch <> chI.
Proof.
  revert i. induction s as [| p tl IH]; intros i Hq; simpl in Hq.
  - destruct Hq.
  - destruct (Ascii.eqb_spec p chI) as [Hp | Hp].
    + pose proof (active_from_bounds _ _ _ Hq) as Hb.
      destruct (IH _ Hq) as [ch [Hget Hch]]. exists ch.
      split; [| exact Hch].
      replace (q - i) with (S (q - S i)) by lia. exact Hget.
    + destruct Hq as [<- | Hq].
      * exists p. rewrite Nat.sub_diag. split; [reflexivity | exact Hp].
      * pose proof (active_from_bounds _ _ _ Hq) as Hb.
        destruct (IH _ Hq) as [ch [Hget Hch]]. exists ch.
        split; [| exact Hch].
        replace (q - i) with (S (q - S i)) by lia. exact Hget.
Qed.

Lemma last_not_in_removelast {A : Type} (l : list A) (d : A) :
  NoDup l -> l <> [] -> ~ In (last l d) (removelast l).
Proof.
  intros Hnd Hne Hin.
  rewrite (app_removelast_last d Hne) in Hnd.
  apply NoDup_remove_2 in Hnd. apply Hnd.
  rewrite app_nil_r. exact Hin.
Qed.

Lemma in_removelast {A : Type} (l : list A) (x : A) :
  In x (removelast l) -> In x l.
Proof.
  induction l as [| y [| z tl] IH]; simpl; intros Hin; auto.
  destruct Hin as [-> | Hin]; [left; reflexivity | right; apply IH, Hin].
Qed.

Lemma cx_chain_run (c : circuit) (qs : list nat) (target : nat) :
  (Z.of_nat target < num_qubits c)%Z ->
  Forall (fun q => (Z.of_nat q < num_qubits c)%Z /\ q <> target) qs ->
  cx_chain c qs target
  = inr (with_data c (map (fun q => CX q target) qs)).
Proof.
  intros Ht Hqs. revert c Ht Hqs.
  induction qs as [| q rest IH]; intros c Ht Hqs.
  - simpl. unfold with_data. rewrite app_nil_r. destruct c; reflexivity.
  - inversion Hqs as [| ? ? [Hq Hne] Hrest]; subst.
    simpl cx_chain. unfold cx, check_qubit.
    destruct (Z.ltb_spec (Z.of_nat q) (num_qubits c)); [| lia].
    destruct (Z.ltb_spec (Z.of_nat target) (num_qubits c)); [| lia].
    py_simpl.
    destruct (Nat.eqb_spec q target); [contradiction |]. py_simpl.
    rewrite IH; [| exact Ht | exact Hrest].
    unfold with_data, append. simpl. rewrite <- app_assoc. reflexivity.
Qed.

Lemma rotate_run (gate : Q -> nat -> instruction) (c : circuit) (theta : Q)
    (q : nat) :
  (Z.of_nat q < num_qubits c)%Z ->
  rotate gate c theta q = inr (with_data c [gate theta q]).
Proof.
  intros Hq. unfold rotate, check_qubit.
  destruct (Z.ltb_spec (Z.of_nat q) (num_qubits c)); [| lia].
  reflexivity.
Qed.

Lemma multi_qubit_run (s : string) (coefficient : Q) (nq : Z) :
  (Z.of_nat (String.length s) <= nq)%Z ->
  2 <= length (active_qubits s) ->
  synthesize_pauli_rotation true s coefficient nq
  = inr (Some {| num_qubits := nq;
                 global_phase := 0;
                 data := ladder (active_qubits s) coefficient |}).
Proof.
  intros Hlen Hk. unfold synthesize_pauli_rotation. simpl negb. cbv iota.
  unfold QuantumCircuit.
  destruct (Z.ltb_spec nq 0); [lia |]. py_simpl. cbv zeta.
  pose proof (active_from_nodup 0 s) as Hnd.
  assert (Hrange : forall q, In q (active_qubits s) -> (Z.of_nat q < nq)%Z).
  { intros q Hq. apply active_from_bounds in Hq. lia. }
  fold (active_qubits s) in Hnd.
  set (act := active_qubits s) in *.
  assert (Hne : act <> []) by (destruct act; [simpl in Hk; lia | discriminate]).
  assert (Hlast : In (last act 0) act).
  { rewrite (app_removelast_last 0 Hne) at 2.
    apply in_or_app. right. left. reflexivity. }
  assert (Hchain : Forall (fun q => (Z.of_nat q < nq)%Z /\ q <> last act 0)
                     (removelast act)).
  { apply Forall_forall. intros q Hq. split.
    - apply Hrange, in_removelast, Hq.
    - intros ->. exact (last_not_in_removelast act 0 Hnd Hne Hq). }
  destruct act as [| a [| b rest]] eqn:Eact; [simpl in Hk; lia .. |].
  rewrite <- Eact in *.
  rewrite cx_chain_run; [| simpl; apply Hrange, Hlast | exact Hchain].
  py_simpl.
  rewrite rotate_run by (simpl; apply Hrange, Hlast). py_simpl.
  rewrite cx_chain_run; [| simpl; apply Hrange, Hlast |].
  - py_simpl. unfold with_data, ladder. simpl.
    rewrite map_rev, <- app_assoc. reflexivity.
  - simpl. apply Forall_forall. intros q Hq. apply in_rev in Hq.
    rewrite Forall_forall in Hchain. apply Hchain, Hq.
Qed.

End RotationFacts.

(** X3.  For a Pauli string no longer than the circuit is wide and with
    [k >= 2] non-identity positions, [synthesize_pauli_rotation] returns a
    circuit of exactly [2k - 1] instructions: a CNOT from each active qubit
    but the last onto the last, one Z rotation by [2 * coefficient] on the
    last, and the same CNOTs in reverse order.  The instruction list reads
    the same backwards, and the global phase is untouched. *)
Theorem rotation_multi_qubit_ladder (s : string) (coefficient : Q) (nq : Z) :
  (Z.of_nat (String.length s) <= nq)%Z ->
  2 <= length (Rotation.active_qubits s) ->
  exists c,
    Rotation.synthesize_pauli_rotation true s coefficient nq = inr (Some c)
    /\ Rotation.num_qubits c = nq
    /\ Rotation.global_phase c = 0%Q
    /\ Rotation.data c
       = map (fun q => Rotation.CX q (last (Rotation.active_qubits s) 0))
           (removelast (Rotation.active_qubits s))
         ++ [Rotation.RZ (2 * coefficient)
               (last (Rotation.active_qubits s) 0)]
         ++ rev (map (fun q =>
                        Rotation.CX q (last (Rotation.active_qubits s) 0))
                   (removelast (Rotation.active_qubits s)))
    /\ length (Rotation.data c) = 2 * length (Rotation.active_qubits s) - 1
    /\ rev (Rotation.data c) = Rotation.data c.
Proof.
  intros Hlen Hk. eexists.
  split; [apply multi_qubit_run; assumption |]. simpl.
  repeat split.
  - unfold ladder. rewrite !length_app, length_rev, !length_map. simpl.
    assert (Hrl : length (removelast (Rotation.active_qubits s))
                  = length (Rotation.active_qubits s) - 1).
    { destruct (Rotation.active_qubits s) as [| a l] eqn:E;
        [simpl in Hk; lia |].
      rewrite (app_removelast_last 0 (l := a :: l)) at 2 by discriminate.
      rewrite length_app. simpl. lia. }
    lia.
  - unfold ladder. rewrite !rev_app_distr, rev_involutive. simpl.
    rewrite <- app_assoc. reflexivity.
Qed.

(** X3 on XIZY over four qubits: qubits 0 and 2 onto qubit 3. *)
Lemma rotation_multi_qubit_ladder_witness :
  exists c,
    Rotation.synthesize_pauli_rotation true "XIZY" (1 # 2) 4 = inr (Some c)
    /\ Rotation.data c
       = [Rotation.CX 0 3; Rotation.CX 2 3; Rotation.RZ (2 * (1 # 2)) 3;
          Rotation.CX 2 3; Rotation.CX 0 3].
Proof.
  destruct (rotation_multi_qubit_ladder "XIZY" (1 # 2) 4)
    as (c & Hrun & _ & _ & Hdata & _); [simpl; lia | simpl; lia |].
  exists c. split; [exact Hrun | exact Hdata].
Defined.

(** X4.  In the multi-qubit branch the letters are not looked at: two
    strings with the same non-identity positions (at least two) give the
    same circuit, whatever the letters X, Y or Z at those positions. *)
Theorem rotation_ignores_letters (s1 s2 : string) (coefficient : Q) (nq : Z) :
  (Z.of_nat (String.length s1) <= nq)%Z ->
  (Z.of_nat (String.length s2) <= nq)%Z ->
  Rotation.active_qubits s1 = Rotation.active_qubits s2 ->
  2 <= length (Rotation.active_qubits s1) ->
  Rotation.synthesize_pauli_rotation true s1 coefficient nq
  = Rotation.synthesize_pauli_rotation true s2 coefficient nq.
Proof.
  intros H1 H2 Hsame Hk.
  rewrite (multi_qubit_run s1) by assumption.
  rewrite (multi_qubit_run s2) by (rewrite <- ?Hsame; assumption).
  rewrite Hsame. reflexivity.
Qed.

(** X4 on XX and ZZ: the same circuit. *)
Lemma rotation_ignores_letters_witness :
  Rotation.synthesize_pauli_rotation true "XX" 1 2
  = Rotation.synthesize_pauli_rotation true "ZZ" 1 2.
Proof.
  apply rotation_ignores_letters; [simpl; lia | simpl; lia | reflexivity |].
  simpl. lia.
Defined.

Lemma py_mod_range (x m : Q) :
  (0 < m)%Q ->
  (0 <= Rotation.py_mod x m)%Q /\ (Rotation.py_mod x m < m)%Q
  /\ (x == Rotation.py_mod x m + inject_Z (Qfloor (x / m)) * m)%Q.
Proof.
  intros Hm. unfold Rotation.py_mod.
  pose proof (Qfloor_le (x / m)) as Hlo.
  pose proof (Qlt_floor (x / m)) as Hhi.
  rewrite inject_Z_plus in Hhi.
  set (k := inject_Z (Qfloor (x / m))) in *.
  assert (Hx : (x == x / m * m)%Q) by (field; lra).
  split; [| split].
  - assert (Hk : (k * m <= x / m * m)%Q)
      by (apply Qmult_le_compat_r; [exact Hlo | lra]).
    lra.
  - assert (Hk : (x / m * m < (k + inject_Z 1) * m)%Q)
      by (apply Qmult_lt_compat_r; [exact Hm | exact Hhi]).
    change (inject_Z 1) with 1%Q in Hk. lra.
  - ring.
Qed.

Lemma py_mod_small (x m : Q) :
  (0 <= x)%Q -> (x < m)%Q -> (Rotation.py_mod x m == x)%Q.
Proof.
  intros Hlo Hhi. unfold Rotation.py_mod.
  assert (Hm : (0 < m)%Q) by lra.
  assert (Hfloor : Qfloor (x / m) = 0%Z).
  { assert (Hq0 : (0 <= x / m)%Q).
    { apply Qle_shift_div_l; [exact Hm | lra]. }
    assert (Hq1 : (x / m < 1)%Q).
    { apply Qlt_shift_div_r; [exact Hm | lra]. }
    pose proof (Qfloor_le (x / m)) as Hfl.
    pose proof (Qlt_floor (x / m)) as Hfu.
    assert (H0 : (inject_Z (Qfloor (x / m)) < inject_Z 1)%Q)
      by (change (inject_Z 1) with 1%Q; lra).
    assert (H1 : (inject_Z (-1) < inject_Z (Qfloor (x / m)))%Q).
    { rewrite inject_Z_plus in Hfu. change (inject_Z 1) with 1%Q in Hfu.
      change (inject_Z (-1)) with (-1 # 1)%Q. lra. }
    rewrite <- Zlt_Qlt in H0, H1. lia. }
  rewrite Hfloor. change (inject_Z 0) with 0%Q. ring.
Qed.

(** X5.  For a Pauli string no longer than the circuit is wide:
    with no non-identity position the circuit has no instruction and its
    global phase is the coefficient reduced modulo [2 pi] by the setter: it
    lies in [[0, 2 pi)], differs from the coefficient by a whole number of
    turns, and is the coefficient itself when that lies in [[0, 2 pi)];
    with exactly one non-identity position, at qubit [q], the global phase
    stays 0 and the circuit holds the single rotation about the axis named
    there, by [2 * coefficient], or nothing at all when the letter is none
    of X, Y, Z. *)
Theorem rotation_identity_and_single (s : string) (coefficient : Q) (nq : Z) :
  (Z.of_nat (String.length s) <= nq)%Z ->
  length (Rotation.active_qubits s) <= 1 ->
  exists c,
    Rotation.synthesize_pauli_rotation true s coefficient nq = inr (Some c)
    /\ Rotation.num_qubits c = nq
    /\ match Rotation.active_qubits s with
       | [] =>
           Rotation.data c = []
           /\ (0 <= Rotation.global_phase c)%Q
           /\ (Rotation.global_phase c < Rotation.two_pi)%Q
           /\ (exists turns : Z,
                 (coefficient
                  == Rotation.global_phase c
                     + inject_Z turns * Rotation.two_pi)%Q)
           /\ ((0 <= coefficient)%Q -> (coefficient < Rotation.two_pi)%Q ->
               (Rotation.global_phase c == coefficient)%Q)
       | q :: _ =>
           Rotation.global_phase c = 0%Q
           /\ exists ch,
                String.get q s = Some ch
                /\ ch <> chI
                /\ Rotation.data c = single_rotation ch (2 * coefficient) q
       end.
Proof.
  intros Hlen Hk. unfold Rotation.synthesize_pauli_rotation. simpl negb.
  cbv iota. unfold Rotation.QuantumCircuit.
  destruct (Z.ltb_spec nq 0); [lia |]. py_simpl. cbv zeta.
  destruct (Rotation.active_qubits s) as [| q [| q' rest]] eqn:Eact;
    [| | simpl in Hk; lia].
  - eexists. split; [reflexivity |].
    cbn [Rotation.set_global_phase Rotation.num_qubits Rotation.global_phase
           Rotation.data].
    split; [reflexivity |]. split; [reflexivity |].
    assert (Hpos : (0 < Rotation.two_pi)%Q) by reflexivity.
    destruct (Qeq_bool (0 + coefficient) 0) eqn:Ezero.
    + apply Qeq_bool_iff in Ezero.
      split; [apply Qle_refl |]. split; [exact Hpos |].
      split; [exists 0%Z; change (inject_Z 0) with 0%Q; lra |].
      intros _ _. lra.
    + destruct (py_mod_range (0 + coefficient) Rotation.two_pi Hpos)
        as [Hlo [Hhi Hturns]].
      split; [exact Hlo |]. split; [exact Hhi |].
      split.
      * exists (Qfloor ((0 + coefficient) / Rotation.two_pi)).
        rewrite <- Hturns. ring.
      * intros Hc0 Hc1. rewrite py_mod_small; lra.
  - assert (Hin : In q (Rotation.active_from 0 s)).
    { fold (Rotation.active_qubits s). rewrite Eact. left. reflexivity. }
    pose proof (active_from_bounds 0 s q Hin) as Hb.
    destruct (active_from_letter 0 s q Hin) as [ch [Hget Hch]].
    rewrite Nat.sub_0_r in Hget.
    unfold Rotation.char_at. rewrite Hget. py_simpl.
    destruct (Ascii.eqb ch chX) eqn:EX;
      [| destruct (Ascii.eqb ch chY) eqn:EY;
         [| destruct (Ascii.eqb ch chZ) eqn:EZ]];
      rewrite ?rotate_run by (simpl; lia); py_simpl;
      eexists; (split; [reflexivity |]); simpl;
      (split; [reflexivity |]); (split; [reflexivity |]);
      exists ch; (split; [reflexivity |]); (split; [exact Hch |]);
      unfold single_rotation; rewrite ?EX, ?EY, ?EZ; reflexivity.
Qed.

(** X5 on III with the coefficient 7: the stored phase is [7 - 2 pi], about
    0.7168, not 7. *)
Lemma rotation_identity_and_single_witness :
  exists c,
    Rotation.synthesize_pauli_rotation true "III" 7 3 = inr (Some c)
    /\ Rotation.data c = []
    /\ (Rotation.global_phase c == 7 - Rotation.two_pi)%Q
    /\ (Rotation.global_phase c < 1)%Q.
Proof.
  destruct (rotation_identity_and_single "III" 7 3)
    as (c & Hrun & _ & Hshape); [simpl; lia | simpl; lia |].
  exists c. split; [exact Hrun |].
  simpl in Hshape. destruct Hshape as (Hdata & _).
  split; [exact Hdata |].
  vm_compute in Hrun. apply inr_eq in Hrun. injection Hrun as <-.
  split; reflexivity.
Defined.

(* ===================================================================== *)
(** ** _analyze_operator_distribution                                     *)
(* ===================================================================== *)

Section OperatorDistribution.

Import SimulatorService.

Lemma count_op_total (counts : OperatorCounts nat) (ch : ascii) :
  counts_total (count_op counts ch)
  = counts_total counts + (if is_pauli_char ch then 1 else 0).
Proof.
  unfold count_op, is_pauli_char, counts_total.
  destruct (Ascii.eqb ch chI); [simpl; lia |].
  destruct (Ascii.eqb ch chX); [simpl; lia |].
  destruct (Ascii.eqb ch chY); [simpl; lia |].
  destruct (Ascii.eqb ch chZ); simpl; lia.
Qed.

Lemma count_string_total (l : list ascii) (counts : OperatorCounts nat) :
  counts_total (fold_left count_op l counts)
  = counts_total counts + length (filter is_pauli_char l).
Proof.
  revert counts. induction l as [| ch tl IH]; intros counts; simpl; [lia |].
  rewrite IH, count_op_total. destruct (is_pauli_char ch); simpl; lia.
Qed.

Lemma pauli_char_bool (ch : ascii) : pauli_char ch -> is_pauli_char ch = true.
Proof.
  unfold is_pauli_char.
  intros [-> | [-> | [-> | ->]]]; reflexivity.
Qed.

Lemma filter_all {A : Type} (f : A -> bool) (l : list A) :
  Forall (fun x => f x = true) l -> filter f l = l.
Proof.
  induction 1 as [| x tl Hx _ IH]; simpl; [reflexivity |].
  rewrite Hx, IH. reflexivity.
Qed.

Lemma count_operators_total (nq : nat) (d : list (string * Q))
    (counts : OperatorCounts nat) :
  Forall (fun term => operator_string nq (fst term)) d ->
  counts_total
    (fold_left
       (fun counts term =>
          fold_left count_op (list_ascii_of_string (fst term)) counts)
       d counts)
  = counts_total counts + nq * length d.
Proof.
  intros Hd. revert counts.
  induction Hd as [| term tl [Hlen Hchars] _ IH]; intros counts; simpl; [lia |].
  rewrite IH, count_string_total.
  fold (chars (fst term)).
  rewrite filter_all.
  - rewrite chars_length, Hlen. lia.
  - eapply Forall_impl; [| exact Hchars]. apply pauli_char_bool.
Qed.

End OperatorDistribution.

(** X6.  For a decomposition whose operators are well-formed strings on
    [nq] qubits, [_analyze_operator_distribution] counts [nq] letters per
    term: the four counts add up to [nq * number of terms]; when that total
    is positive the four percentages add up to 100, and when it is zero
    they are the (zero) counts themselves. *)
Theorem operator_distribution_totals (nq : nat) (d : list (string * Q)) :
  Forall (fun term => operator_string nq (fst term)) d ->
  let counts := fst (SimulatorService._analyze_operator_distribution d) in
  let pct := snd (SimulatorService._analyze_operator_distribution d) in
  SimulatorService.counts_total counts = nq * length d
  /\ (0 < nq * length d ->
      (SimulatorService.on_I pct + SimulatorService.on_X pct
       + SimulatorService.on_Y pct + SimulatorService.on_Z pct == 100)%Q)
  /\ (nq * length d = 0 ->
      pct = SimulatorService.MkOperatorCounts 0%Q 0%Q 0%Q 0%Q).
Proof.
  intros Hd. cbv zeta.
  pose proof (count_operators_total nq d
                (SimulatorService.MkOperatorCounts 0 0 0 0) Hd) as Htotal.
  fold (SimulatorService.count_operators d) in Htotal.
  unfold SimulatorService.counts_total at 2 in Htotal. simpl in Htotal.
  unfold SimulatorService._analyze_operator_distribution. cbv zeta. simpl fst.
  simpl snd. split; [exact Htotal |].
  set (counts := SimulatorService.count_operators d) in *.
  split.
  - intros Hpos.
    destruct (Nat.ltb_spec 0 (SimulatorService.counts_total counts)); [| lia].
    simpl. unfold SimulatorService.counts_total in *.
    unfold SimulatorService.of_nat_Q.
    rewrite !Nat2Z.inj_add, !inject_Z_plus.
    field.
    rewrite <- !inject_Z_plus, <- !Nat2Z.inj_add.
    intros Hz. unfold Qeq in Hz. simpl in Hz. lia.
  - intros Hzero.
    destruct (Nat.ltb_spec 0 (SimulatorService.counts_total counts)); [lia |].
    unfold SimulatorService.counts_total in *.
    replace (SimulatorService.on_I counts) with 0 by lia.
    replace (SimulatorService.on_X counts) with 0 by lia.
    replace (SimulatorService.on_Y counts) with 0 by lia.
    replace (SimulatorService.on_Z counts) with 0 by lia.
    reflexivity.
Qed.

(** X6 on the three terms ZI, IZ, XX: six letters, two of each kind but
    Y. *)
Lemma operator_distribution_totals_witness :
  let d := [("ZI", 5); ("IZ", -3); ("XX", 1)]%string%Q in
  SimulatorService.counts_total
    (fst (SimulatorService._analyze_operator_distribution d)) = 6
  /\ fst (SimulatorService._analyze_operator_distribution d)
     = SimulatorService.MkOperatorCounts 2 2 0 2.
Proof.
  assert (Hd : Forall (fun term : string * Q => operator_string 2 (fst term))
                 [("ZI", 5); ("IZ", -3); ("XX", 1)]%string%Q).
  { repeat (apply Forall_cons || apply Forall_nil || split);
      try reflexivity; unfold pauli_char;
      first [ left; reflexivity | right; left; reflexivity
            | right; right; left; reflexivity
            | right; right; right; reflexivity ]. }
  pose proof (operator_distribution_totals 2 _ Hd) as [Htotal _].
  split; [exact Htotal | reflexivity].
Defined.

(* ===================================================================== *)
(** ** estimate_classical_complexity                                      *)
(* ===================================================================== *)

Lemma float_limit_lower : (2 ^ 1023 < SimulatorService.float_limit)%Z.
Proof. reflexivity. Qed.

Lemma memory_gb_value (q : nat) :
  (inject_Z (2 ^ Z.of_nat q * 16) / inject_Z (1024 ^ 3)
   == inject_Z (2 ^ Z.of_nat q) / 67108864)%Q.
Proof.
  rewrite inject_Z_mult. change (1024 ^ 3)%Z with (16 * 67108864)%Z.
  rewrite inject_Z_mult. field.
Qed.

Lemma memory_gb_run (q : nat) :
  q < 1050 ->
  SimulatorService.true_divide (2 ^ Z.of_nat q * 16) (1024 ^ 3)
  = inr (inject_Z (2 ^ Z.of_nat q * 16) / inject_Z (1024 ^ 3))%Q.
Proof.
  intros Hq. unfold SimulatorService.true_divide.
  change ((1024 ^ 3 =? 0)%Z) with false. cbv iota zeta.
  destruct (Qle_bool _ _) eqn:Ebig; [| reflexivity].
  exfalso. apply Qle_bool_iff in Ebig.
  rewrite memory_gb_value in Ebig.
  assert (Hpow : (0 < 2 ^ Z.of_nat q <= 2 ^ 1049)%Z).
  { split; [apply Z.pow_pos_nonneg; lia |].
    apply Z.pow_le_mono_r; lia. }
  rewrite Qabs_pos in Ebig.
  - unfold Qle, Qdiv, Qmult, Qinv in Ebig. simpl in Ebig.
    pose proof float_limit_lower as Hlim.
    change (2 ^ 1049)%Z with (2 ^ 1023 * 67108864)%Z in Hpow.
    lia.
  - unfold Qle, Qdiv, Qmult, Qinv. simpl. lia.
Qed.

Lemma memory_gb_overflow (q : nat) :
  1050 <= q ->
  SimulatorService.true_divide (2 ^ Z.of_nat q * 16) (1024 ^ 3)
  = inl OverflowError.
Proof.
  intros Hq. unfold SimulatorService.true_divide.
  change ((1024 ^ 3 =? 0)%Z) with false. cbv iota zeta.
  destruct (Qle_bool _ _) eqn:Ebig; [reflexivity |].
  exfalso. apply Bool.not_true_iff_false in Ebig. apply Ebig.
  apply Qle_bool_iff. rewrite memory_gb_value.
  assert (Hpow : (2 ^ 1050 <= 2 ^ Z.of_nat q)%Z).
  { apply Z.pow_le_mono_r; lia. }
  assert (Hlim : (SimulatorService.float_limit * 67108864 <= 2 ^ 1050)%Z).
  { intros Hgt. discriminate Hgt. }
  rewrite Qabs_pos.
  - unfold Qle, Qdiv, Qmult, Qinv. simpl. lia.
  - unfold Qle, Qdiv, Qmult, Qinv. simpl. lia.
Qed.

(** X7.  [estimate_classical_complexity] reports an error exactly when a
    number leaves the range of a double: always from 1050 qubits on, and
    below that only when the operation count does.  Whenever it returns an
    estimate, [feasible_classical] is just [qubit_count <= 30] (the memory
    test never decides: 30 qubits need 16 GB), so no Hamiltonian is both
    classically feasible and of quantum advantage. *)
Theorem complexity_estimate_flags
    (hr : QuantumSimulator.HamiltonianResult) :
  let q := QuantumSimulator.qubit_count hr in
  let terms := length (QuantumSimulator.pauli_decomposition hr) in
  (1050 <= q ->
   SimulatorService.estimate_classical_complexity hr
   = SimulatorService.ErrorReport OverflowError)
  /\ (q < 1050 ->
      (SimulatorService.float_limit
       <= 2 ^ Z.of_nat q * Z.of_nat q * Z.of_nat terms)%Z ->
      SimulatorService.estimate_classical_complexity hr
      = SimulatorService.ErrorReport OverflowError)
  /\ (q < 1050 ->
      (2 ^ Z.of_nat q * Z.of_nat q * Z.of_nat terms
       < SimulatorService.float_limit)%Z ->
      exists c,
        SimulatorService.estimate_classical_complexity hr
        = SimulatorService.Estimate c
        /\ SimulatorService.feasible_classical c = (q <=? 30)
        /\ SimulatorService.feasible_classical c
           && SimulatorService.quantum_advantage c = false
        /\ (SimulatorService.memory_required_gb c * 67108864
            == inject_Z (2 ^ Z.of_nat q))%Q).
Proof.
  cbv zeta.
  unfold SimulatorService.estimate_classical_complexity,
    SimulatorService.estimate_body.
  set (q := QuantumSimulator.qubit_count hr).
  set (terms := length (QuantumSimulator.pauli_decomposition hr)).
  assert (Hnonneg : (0 <= 2 ^ Z.of_nat q * Z.of_nat q * Z.of_nat terms)%Z).
  { assert (0 < 2 ^ Z.of_nat q)%Z by (apply Z.pow_pos_nonneg; lia). nia. }
  split; [| split].
  - intros Hq. rewrite (memory_gb_overflow q Hq). reflexivity.
  - intros Hq Hbig. rewrite (memory_gb_run q Hq), bind_inr.
    unfold SimulatorService.float_of_int.
    rewrite Z.abs_eq by exact Hnonneg.
    destruct (Z.leb_spec SimulatorService.float_limit
                (2 ^ Z.of_nat q * Z.of_nat q * Z.of_nat terms)); [| lia].
    reflexivity.
  - intros Hq Hsmall. rewrite (memory_gb_run q Hq), bind_inr.
    unfold SimulatorService.float_of_int.
    rewrite Z.abs_eq by exact Hnonneg.
    destruct (Z.leb_spec SimulatorService.float_limit
                (2 ^ Z.of_nat q * Z.of_nat q * Z.of_nat terms)); [lia |].
    cbv iota. eexists. split; [reflexivity |].
    cbn [SimulatorService.feasible_classical
           SimulatorService.quantum_advantage
           SimulatorService.memory_required_gb].
    assert (Hfeasible :
              (q <=? 30)
              && Qle_bool (inject_Z (2 ^ Z.of_nat q * 16)
                           / inject_Z (1024 ^ 3)) 64
              = (q <=? 30)).
    { destruct (Nat.leb_spec q 30) as [Hle | Hgt]; [| reflexivity].
      simpl. apply Qle_bool_iff. rewrite memory_gb_value.
      assert (Hpow : (0 < 2 ^ Z.of_nat q <= 2 ^ 30)%Z).
      { split; [apply Z.pow_pos_nonneg; lia |].
        apply Z.pow_le_mono_r; lia. }
      change (2 ^ 30)%Z with 1073741824%Z in Hpow.
      unfold Qle, Qdiv, Qmult, Qinv. simpl. lia. }
    split; [exact Hfeasible |]. split.
    + rewrite Hfeasible.
      destruct (Nat.leb_spec q 30); [| reflexivity].
      destruct (Nat.leb_spec 50 q); [lia | reflexivity].
    + rewrite memory_gb_value. field.
Qed.

(** X7 on a two-qubit Hamiltonian with three terms: an estimate, feasible
    classically and of no quantum advantage. *)
Lemma complexity_estimate_flags_witness :
  exists c,
    SimulatorService.estimate_classical_complexity two_qubit_result
    = SimulatorService.Estimate c
    /\ SimulatorService.feasible_classical c = true
    /\ SimulatorService.quantum_advantage c = false.
Proof.
  destruct (complexity_estimate_flags two_qubit_result) as [_ [_ Hfits]].
  destruct Hfits as [c [Hrun [Hfeasible [Hboth _]]]];
    [simpl; lia | reflexivity |].
  exists c. split; [exact Hrun |].
  rewrite Hfeasible in Hboth |- *. simpl in Hboth |- *.
  split; [reflexivity | exact Hboth].
Defined.

(* ===================================================================== *)
(** ** _simulate_energy_evolution                                         *)
(* ===================================================================== *)


(* ===================================================================== *)
(** ** run_simulation and _mock_simulation                                *)
(* ===================================================================== *)


(* ===================================================================== *)
(** ** compute_H: the returned Hamiltonian                                *)
(* ===================================================================== *)

Lemma np_diag_length (v : list Q) :
  length (HamiltonianPrep.np_diag v) = length v.
Proof.
  unfold HamiltonianPrep.np_diag. rewrite length_map, length_seq. reflexivity.
Qed.

Lemma np_diag_square (v : list Q) :
  is_square (HamiltonianPrep.np_diag v) = true.
Proof.
  unfold is_square. rewrite np_diag_length.
  unfold HamiltonianPrep.np_diag. apply forallb_forall.
  intros row Hrow. apply in_map_iff in Hrow. destruct Hrow as [i [<- _]].
  rewrite length_map, length_seq. apply Nat.eqb_refl.
Qed.

Lemma np_diag_getitem (v : list Q) (i j : nat) :
  i < length v -> j < length v ->
  getitem (HamiltonianPrep.np_diag v) i j
  = inr (if i =? j then nth i v 0%Q else 0%Q).
Proof.
  intros Hi Hj.
  rewrite (getitem_square 0%Q) by
    (try apply np_diag_square; rewrite np_diag_length; assumption).
  unfold HamiltonianPrep.np_diag.
  rewrite (nth_map_in _ _ _ 0) by (rewrite length_seq; exact Hi).
  rewrite (nth_map_in _ _ _ 0) by (rewrite length_seq; exact Hj).
  rewrite !seq_nth by assumption. reflexivity.
Qed.

Lemma Qmin_list_le (l : list Q) (d : Q) :
  (HamiltonianPrep.Qmin_list d l <= d)%Q
  /\ forall x, In x l -> (HamiltonianPrep.Qmin_list d l <= x)%Q.
Proof.
  revert d. induction l as [| y tl IH]; intros d; simpl.
  - split; [apply Qle_refl | intros x []].
  - destruct (Qle_bool y d) eqn:Eyd.
    + apply Qle_bool_iff in Eyd. destruct (IH y) as [Hd Hin].
      split; [eapply Qle_trans; eassumption |].
      intros x [<- | Hx]; [exact Hd | apply Hin, Hx].
    + assert (Hdy : (d <= y)%Q).
      { apply Qlt_le_weak, Qnot_le_lt. intros Hle.
        apply Qle_bool_iff in Hle. congruence. }
      destruct (IH d) as [Hd Hin].
      split; [exact Hd |].
      intros x [<- | Hx]; [eapply Qle_trans; eassumption | apply Hin, Hx].
Qed.

Lemma Qmax_list_ge (l : list Q) (d : Q) :
  (d <= HamiltonianPrep.Qmax_list d l)%Q
  /\ forall x, In x l -> (x <= HamiltonianPrep.Qmax_list d l)%Q.
Proof.
  revert d. induction l as [| y tl IH]; intros d; simpl.
  - split; [apply Qle_refl | intros x []].
  - destruct (Qle_bool d y) eqn:Edy.
    + apply Qle_bool_iff in Edy. destruct (IH y) as [Hd Hin].
      split; [eapply Qle_trans; eassumption |].
      intros x [<- | Hx]; [exact Hd | apply Hin, Hx].
    + assert (Hyd : (y <= d)%Q).
      { apply Qlt_le_weak, Qnot_le_lt. intros Hle.
        apply Qle_bool_iff in Hle. congruence. }
      destruct (IH d) as [Hd Hin].
      split; [exact Hd |].
      intros x [<- | Hx]; [eapply Qle_trans; eassumption | apply Hin, Hx].
Qed.

Lemma unit_interval (e lo hi : Q) :
  (lo <= e)%Q -> (e <= hi)%Q -> (0 < hi - lo)%Q ->
  (0 <= (e - lo) / (hi - lo) <= 1)%Q.
Proof.
  intros Hlo Hhi Hspread. split.
  - apply Qle_shift_div_l; [exact Hspread | lra].
  - apply Qle_shift_div_r; [exact Hspread | lra].
Qed.

(** X10.  Whenever [compute_H] returns, the method was ['standard'] or
    ['normalized'] and the Hamiltonian is a square diagonal matrix with one
    row per kept eigenvalue, stored sparse exactly when it has more than 50
    rows.  Its diagonal holds the eigenvalues themselves under
    ['standard']; under ['normalized'] it holds values between 0 and 1 when
    the eigenvalues spread by more than 1e-10, and otherwise the
    eigenvalues unchanged, whatever their size. *)
Theorem compute_H_diagonal (la : HamiltonianPrep.LinAlg)
    (K M : HamiltonianPrep.array2) (num_modes : Z) (method : string)
    (r : HamiltonianPrep.HResult) :
  HamiltonianPrep.compute_H la K M num_modes method = inr r ->
  let h := HamiltonianPrep.data (HamiltonianPrep.H r) in
  let ev := HamiltonianPrep.eigenvalues r in
  let spread :=
    (HamiltonianPrep.Qmax_list (hd 0 ev) ev
     - HamiltonianPrep.Qmin_list (hd 0 ev) ev)%Q in
  (method = "standard"%string \/ method = "normalized"%string)
  /\ length h = length ev
  /\ is_square h = true
  /\ HamiltonianPrep.issparse (HamiltonianPrep.H r) = (50 <? length ev)
  /\ (forall i j, i < length ev -> j < length ev -> i <> j ->
        getitem h i j = inr 0%Q)
  /\ (method = "standard"%string \/ (spread <= 1 # 10000000000)%Q ->
      forall i, i < length ev -> getitem h i i = inr (nth i ev 0%Q))
  /\ (method = "normalized"%string -> (1 # 10000000000 < spread)%Q ->
      forall i, i < length ev ->
        exists x, getitem h i i = inr x /\ (0 <= x <= 1)%Q).
Proof.
  unfold HamiltonianPrep.compute_H.
  destruct (HamiltonianPrep.solve_modes la K M _) as [e | [vals vecs]];
    py_simpl; [discriminate |].
  destruct vals as [| v vals]; py_simpl; [discriminate |].
  set (ev := v :: vals).
  set (lo := HamiltonianPrep.Qmin_list (hd 0%Q ev) ev).
  set (hi := HamiltonianPrep.Qmax_list (hd 0%Q ev) ev).
  assert (Hoff : forall w i j, length w = length ev ->
                   i < length ev -> j < length ev -> i <> j ->
                   getitem (HamiltonianPrep.np_diag w) i j = inr 0%Q).
  { intros w i j Hw Hi Hj Hij.
    rewrite np_diag_getitem by (rewrite Hw; assumption).
    destruct (Nat.eqb_spec i j); [contradiction | reflexivity]. }
  assert (Hon : forall w i, length w = length ev -> i < length ev ->
                  getitem (HamiltonianPrep.np_diag w) i i
                  = inr (nth i w 0%Q)).
  { intros w i Hw Hi.
    rewrite np_diag_getitem by (rewrite Hw; assumption).
    rewrite Nat.eqb_refl. reflexivity. }
  assert (Hplain : forall r,
             inr {| HamiltonianPrep.H :=
                      HamiltonianPrep.MkArray
                        (50 <? length (HamiltonianPrep.np_diag ev))
                        (HamiltonianPrep.np_diag ev);
                    HamiltonianPrep.eigenvalues := ev;
                    HamiltonianPrep.eigenvectors := vecs;
                    HamiltonianPrep.num_dofs := HamiltonianPrep.shape0 K;
                    HamiltonianPrep.num_modes := length ev |}
             = (inr r : py HamiltonianPrep.HResult) ->
             length (HamiltonianPrep.data (HamiltonianPrep.H r))
             = length (HamiltonianPrep.eigenvalues r)
             /\ is_square (HamiltonianPrep.data (HamiltonianPrep.H r)) = true
             /\ HamiltonianPrep.issparse (HamiltonianPrep.H r)
                = (50 <? length (HamiltonianPrep.eigenvalues r))
             /\ (forall i j, i < length (HamiltonianPrep.eigenvalues r) ->
                   j < length (HamiltonianPrep.eigenvalues r) -> i <> j ->
                   getitem (HamiltonianPrep.data (HamiltonianPrep.H r)) i j
                   = inr 0%Q)
             /\ (forall i, i < length (HamiltonianPrep.eigenvalues r) ->
                   getitem (HamiltonianPrep.data (HamiltonianPrep.H r)) i i
                   = inr (nth i (HamiltonianPrep.eigenvalues r) 0%Q))).
  { intros r0 Hr. apply inr_eq in Hr. subst r0.
    cbn [HamiltonianPrep.H HamiltonianPrep.data HamiltonianPrep.issparse
           HamiltonianPrep.eigenvalues].
    split; [apply np_diag_length |]. split; [apply np_diag_square |].
    split; [rewrite np_diag_length; reflexivity |].
    split; [intros i j; apply Hoff; reflexivity |].
    intros i. apply Hon. reflexivity. }
  destruct (String.eqb_spec method "standard") as [-> | Hstd]; py_simpl.
  - intros Hr. cbv zeta.
    destruct (Hplain r Hr) as [Hlen [Hsq [Hsp [Hzero Hdiag]]]].
    split; [left; reflexivity |]. split; [exact Hlen |].
    split; [exact Hsq |]. split; [exact Hsp |]. split; [exact Hzero |].
    split; [intros _; exact Hdiag |]. intros Hab. discriminate Hab.
  - destruct (String.eqb_spec method "normalized") as [-> | Hnorm]; py_simpl;
      [| discriminate].
    fold ev. fold lo. fold hi.
    destruct (Qltb (1 # 10000000000) (hi - lo)) eqn:Espread; py_simpl.
    + apply Qltb_true in Espread. intros Hr. apply inr_eq in Hr. subst r.
      cbn [HamiltonianPrep.H HamiltonianPrep.data HamiltonianPrep.issparse
             HamiltonianPrep.eigenvalues].
      fold ev. fold lo. fold hi. cbv zeta.
      set (w := map (fun e : Q => ((e - lo) / (hi - lo))%Q) ev).
      assert (Hw : length w = length ev) by apply length_map.
      split; [right; reflexivity |].
      split; [rewrite np_diag_length; exact Hw |].
      split; [apply np_diag_square |].
      split; [rewrite np_diag_length, Hw; reflexivity |].
      split; [intros i j; apply Hoff; exact Hw |].
      split.
      * intros [Habs | Hsmall]; [discriminate Habs | lra].
      * intros _ _ i Hi. exists (nth i w 0%Q).
        split; [apply Hon; [exact Hw | exact Hi] |].
        unfold w. rewrite (nth_map_in _ _ _ 0%Q) by exact Hi.
        assert (Hin : In (nth i ev 0%Q) ev) by (apply nth_In; exact Hi).
        apply unit_interval.
        -- apply (Qmin_list_le ev (hd 0%Q ev)), Hin.
        -- apply (Qmax_list_ge ev (hd 0%Q ev)), Hin.
        -- lra.
    + apply Qltb_false in Espread. intros Hr. cbv zeta.
      destruct (Hplain r Hr) as [Hlen [Hsq [Hsp [Hzero Hdiag]]]].
      apply inr_eq in Hr. subst r.
      cbn [HamiltonianPrep.H HamiltonianPrep.data HamiltonianPrep.issparse
             HamiltonianPrep.eigenvalues] in *.
      fold ev. fold lo. fold hi.
      split; [right; reflexivity |]. split; [exact Hlen |].
      split; [exact Hsq |]. split; [exact Hsp |]. split; [exact Hzero |].
      split; [intros _; exact Hdiag |]. intros _ Hlarge. lra.
Qed.

(** X10 on a dense problem with stiffness diag(2, 4, 6, 8) and unit
    masses, normalised: the kept eigenvalues 2 and 4 become 0 and 1. *)
Lemma compute_H_diagonal_witness :
  exists r,
    HamiltonianPrep.compute_H toy_solver graded4 identity4 10 "normalized"
    = inr r
    /\ HamiltonianPrep.eigenvalues r = [2; 4]%Q
    /\ getitem (HamiltonianPrep.data (HamiltonianPrep.H r)) 0 1 = inr 0%Q
    /\ exists x,
         getitem (HamiltonianPrep.data (HamiltonianPrep.H r)) 1 1 = inr x
         /\ (0 <= x <= 1)%Q.
Proof.
  destruct (HamiltonianPrep.compute_H toy_solver graded4 identity4 10
              "normalized") as [e | r] eqn:Hrun;
    [vm_compute in Hrun; discriminate Hrun |].
  destruct (compute_H_diagonal toy_solver graded4 identity4 10 "normalized"
              r Hrun) as [_ [_ [_ [_ [Hoff [_ Hunit]]]]]].
  exists r. split; [reflexivity |].
  vm_compute in Hrun. apply inr_eq in Hrun. subst r.
  split; [reflexivity |]. split.
  - apply Hoff; simpl; lia.
  - apply Hunit; [reflexivity | reflexivity | simpl; lia].
Defined.

(* ===================================================================== *)
(** ** Padding: fixed points, and what compute_H hands to it              *)
(* ===================================================================== *)

Lemma ceil_log2_pow2 (k : nat) : ceil_log2 (2 ^ k) = inr k.
Proof.
  unfold ceil_log2.
  assert (Hpos : 2 ^ k <> 0) by (apply Nat.pow_nonzero; lia).
  destruct (2 ^ k) as [| m] eqn:Epow; [contradiction |].
  rewrite <- Epow, Nat2Z.inj_pow.
  change (Z.of_nat 2) with 2%Z.
  rewrite Z.log2_up_pow2 by lia. rewrite Nat2Z.id. reflexivity.
Qed.

(** A matrix whose side is a power of two goes through untouched. *)
Lemma pad_hamiltonian_pow2 {A : Type} (zero : A) (H : matrix A) (k : nat) :
  length H = 2 ^ k ->
  QuantumSimulator.pad_hamiltonian zero H
  = inr (QuantumSimulator.MkPadded H (2 ^ k) (2 ^ k) k).
Proof.
  intros Hlen. unfold QuantumSimulator.pad_hamiltonian.
  rewrite Hlen, ceil_log2_pow2. py_simpl.
  rewrite Nat.eqb_refl. simpl negb. cbv iota. py_simpl.
  rewrite Hlen, Nat.log2_pow2 by lia. reflexivity.
Qed.

Lemma pad_hamiltonian_qubits {A : Type} (zero : A) (H : matrix A) :
  1 <= length H ->
  is_square H = true ->
  exists p,
    QuantumSimulator.pad_hamiltonian zero H = inr p
    /\ QuantumSimulator.pad_original_size p = length H
    /\ QuantumSimulator.pad_qubit_count p
       = Z.to_nat (Z.log2_up (Z.of_nat (length H)))
    /\ length (QuantumSimulator.pad_H p)
       = 2 ^ QuantumSimulator.pad_qubit_count p
    /\ QuantumSimulator.pad_size p = 2 ^ QuantumSimulator.pad_qubit_count p
    /\ (length H = 2 ^ QuantumSimulator.pad_qubit_count p ->
        QuantumSimulator.pad_H p = H).
Proof.
  intros Hn Hsq.
  destruct (ceil_log2_spec (length H) Hn) as [k [Hk [Hlog [Hle _]]]].
  assert (Hkz : Z.to_nat (Z.log2_up (Z.of_nat (length H))) = k) by lia.
  destruct (Nat.eq_dec (length H) (2 ^ k)) as [Heq | Hneq].
  - rewrite (pad_hamiltonian_pow2 zero H k Heq).
    eexists. split; [reflexivity |]. simpl. rewrite Hkz.
    repeat split; auto.
  - unfold QuantumSimulator.pad_hamiltonian. rewrite Hk. py_simpl.
    destruct (Nat.eqb_spec (length H) (2 ^ k)) as [Heq | _];
      [contradiction |].
    simpl negb. cbv iota.
    rewrite zero_pad_run by assumption. py_simpl.
    eexists. split; [reflexivity |]. simpl.
    rewrite padded_length by assumption.
    rewrite Nat.log2_pow2 by lia. rewrite Hkz.
    repeat split; auto. intros Heq. contradiction.
Qed.

(** X11.  Padding is idempotent.  [pad_hamiltonian] raises
    [OverflowError] on an empty matrix; it hands back a matrix whose side
    is already a power of two untouched; and on any square matrix of side
    at least 1, padding the padded matrix changes nothing: the same matrix
    and the same qubit count come back. *)
Theorem pad_hamiltonian_idempotent (A : Type) (zero : A) (H : matrix A) :
  (length H = 0 ->
   QuantumSimulator.pad_hamiltonian zero H = inl OverflowError)
  /\ (forall k, length H = 2 ^ k ->
        QuantumSimulator.pad_hamiltonian zero H
        = inr (QuantumSimulator.MkPadded H (2 ^ k) (2 ^ k) k))
  /\ (1 <= length H -> is_square H = true ->
      exists p,
        QuantumSimulator.pad_hamiltonian zero H = inr p
        /\ QuantumSimulator.pad_hamiltonian zero (QuantumSimulator.pad_H p)
           = inr (QuantumSimulator.MkPadded
                    (QuantumSimulator.pad_H p)
                    (QuantumSimulator.pad_size p)
                    (QuantumSimulator.pad_size p)
                    (QuantumSimulator.pad_qubit_count p))).
Proof.
  split; [| split].
  - intros Hlen. unfold QuantumSimulator.pad_hamiltonian.
    rewrite Hlen. reflexivity.
  - intros k. apply pad_hamiltonian_pow2.
  - intros Hn Hsq.
    destruct (pad_hamiltonian_qubits zero H Hn Hsq)
      as [p [Hrun [_ [_ [Hlen [Hsize _]]]]]].
    exists p. split; [exact Hrun |].
    rewrite (pad_hamiltonian_pow2 zero _ _ Hlen), Hsize. reflexivity.
Qed.

(** X11 on a 3 x 3 matrix: the first padding gives side 4, the second
    returns the same matrix. *)
Lemma pad_hamiltonian_idempotent_witness :
  exists p,
    QuantumSimulator.pad_hamiltonian 0%Z
      [[1; 2; 3]; [4; 5; 6]; [7; 8; 9]]%Z = inr p
    /\ QuantumSimulator.pad_hamiltonian 0%Z (QuantumSimulator.pad_H p)
       = inr (QuantumSimulator.MkPadded (QuantumSimulator.pad_H p) 4 4 2).
Proof.
  destruct (pad_hamiltonian_idempotent Z 0%Z
              [[1; 2; 3]; [4; 5; 6]; [7; 8; 9]]%Z) as [_ [_ Hpad]].
  destruct Hpad as [p [Hrun Hagain]]; [simpl; lia | reflexivity |].
  exists p. split; [exact Hrun |].
  rewrite Hagain. vm_compute in Hrun. injection Hrun as <-. reflexivity.
Defined.

Lemma solve_modes_request_bound (la : HamiltonianPrep.LinAlg)
    (K M : HamiltonianPrep.array2) (k : Z) (vals : list Q)
    (vecs : matrix Q) :
  (0 <= k)%Z ->
  HamiltonianPrep.solve_modes la K M k = inr (vals, vecs) ->
  (Z.of_nat (length vals) <= k)%Z.
Proof.
  intros Hk. unfold HamiltonianPrep.solve_modes.
  assert (Hor : forall l : list Q,
             l = [] \/ (Z.of_nat (length l) <= k)%Z ->
             (Z.of_nat (length l) <= k)%Z).
  { intros l [-> | Hl]; [simpl; lia | exact Hl]. }
  destruct (HamiltonianPrep.issparse K && HamiltonianPrep.issparse M).
  - destruct (HamiltonianPrep.eigsh la (HamiltonianPrep.data K) k
                (HamiltonianPrep.data M)) as [e | [v w]] eqn:Esh; py_simpl.
    + intros Hrun. apply Hor.
      eapply reduced_solve_bound; [| exact Hrun]. left. exact Hk.
    + intros Hrun. injection Hrun as <- <-.
      rewrite (HamiltonianPrep.eigsh_len la _ _ _ _ _ Esh). lia.
  - destruct (HamiltonianPrep.shape0 K <=? 1000); intros Hrun; apply Hor;
      (eapply dense_solve_bound; [| exact Hrun]); left; exact Hk.
Qed.

Lemma compute_H_square (la : HamiltonianPrep.LinAlg)
    (K M : HamiltonianPrep.array2) (k : Z) (method : string)
    (r : HamiltonianPrep.HResult) :
  HamiltonianPrep.compute_H la K M k method = inr r ->
  length (HamiltonianPrep.data (HamiltonianPrep.H r))
  = length (HamiltonianPrep.eigenvalues r)
  /\ is_square (HamiltonianPrep.data (HamiltonianPrep.H r)) = true.
Proof.
  unfold HamiltonianPrep.compute_H.
  destruct (HamiltonianPrep.solve_modes la K M _) as [e | [vals vecs]];
    py_simpl; [discriminate |].
  destruct vals as [| v vals]; py_simpl; [discriminate |].
  set (ev := v :: vals).
  destruct (String.eqb method "standard"); py_simpl.
  - intros Hr. apply inr_eq in Hr. subst r.
    cbn [HamiltonianPrep.H HamiltonianPrep.data HamiltonianPrep.eigenvalues].
    split; [apply np_diag_length | apply np_diag_square].
  - destruct (String.eqb method "normalized"); py_simpl; [| discriminate].
    destruct (Qltb _ _); py_simpl; intros Hr; apply inr_eq in Hr; subst r;
      cbn [HamiltonianPrep.H HamiltonianPrep.data
             HamiltonianPrep.eigenvalues];
      (split; [rewrite np_diag_length | apply np_diag_square]).
    + apply length_map.
    + reflexivity.
Qed.

Lemma compute_H_sparse (la : HamiltonianPrep.LinAlg)
    (K M : HamiltonianPrep.array2) (k : Z) (method : string)
    (r : HamiltonianPrep.HResult) :
  HamiltonianPrep.compute_H la K M k method = inr r ->
  HamiltonianPrep.issparse (HamiltonianPrep.H r)
  = (50 <? length (HamiltonianPrep.data (HamiltonianPrep.H r))).
Proof.
  unfold HamiltonianPrep.compute_H.
  destruct (HamiltonianPrep.solve_modes la K M _) as [e | [vals vecs]];
    py_simpl; [discriminate |].
  destruct vals as [| v vals]; py_simpl; [discriminate |].
  destruct (String.eqb method "standard"); py_simpl.
  - intros Hr. apply inr_eq in Hr. subst r. reflexivity.
  - destruct (String.eqb method "normalized"); py_simpl; [| discriminate].
    destruct (Qltb _ _); py_simpl; intros Hr; apply inr_eq in Hr; subst r;
      reflexivity.
Qed.

(** X12.  What [compute_H] returns fits the padding stage whenever it is a
    dense array.  For a request of [k >= 0] modes on matrices of equal side
    [n], the returned Hamiltonian has between 1 and [min(k, n - 2)] rows and
    is dense exactly when it has at most 50 rows, which every request of at
    most 50 modes guarantees (the default is 10).  A dense Hamiltonian is
    accepted by [pad_hamiltonian], needs at most [ceil(log2 k)] and at most
    6 qubits, and passes the 20-qubit safety check.  Nothing is said here
    of a sparse Hamiltonian, above 50 rows. *)
Theorem compute_H_fits_capacity (la : HamiltonianPrep.LinAlg)
    (K M : HamiltonianPrep.array2) (k : Z) (method : string)
    (r : HamiltonianPrep.HResult) :
  HamiltonianPrep.shape0 M = HamiltonianPrep.shape0 K ->
  (0 <= k)%Z ->
  HamiltonianPrep.compute_H la K M k method = inr r ->
  let rows := HamiltonianPrep.shape0 (HamiltonianPrep.H r) in
  1 <= rows
  /\ (Z.of_nat rows <= k)%Z
  /\ rows + 2 <= HamiltonianPrep.shape0 K
  /\ HamiltonianPrep.issparse (HamiltonianPrep.H r) = (50 <? rows)
  /\ ((k <= 50)%Z -> HamiltonianPrep.issparse (HamiltonianPrep.H r) = false)
  /\ (HamiltonianPrep.issparse (HamiltonianPrep.H r) = false ->
      exists p,
        QuantumSimulator.pad_hamiltonian 0%Q
          (HamiltonianPrep.data (HamiltonianPrep.H r)) = inr p
        /\ QuantumSimulator.pad_original_size p = rows
        /\ (Z.of_nat (QuantumSimulator.pad_qubit_count p) <= Z.log2_up k)%Z
        /\ QuantumSimulator.pad_qubit_count p <= 6
        /\ QuantumSimulator.capacity_check (QuantumSimulator.pad_qubit_count p)
           = inr tt).
Proof.
  intros Hshape Hk Hr. cbv zeta.
  destruct (compute_H_square la K M k method r Hr) as [Hlen Hsq].
  destruct (compute_H_returns la K M k method r Hr)
    as [vecs [Hsolve [Hne _]]].
  assert (Hpos : 1 <= length (HamiltonianPrep.eigenvalues r)).
  { destruct (HamiltonianPrep.eigenvalues r); [contradiction | simpl; lia]. }
  assert (Hbound : (Z.of_nat (length (HamiltonianPrep.eigenvalues r))
                    <= Z.min k (Z.of_nat (HamiltonianPrep.shape0 K) - 2))%Z).
  { destruct (Z.le_gt_cases k (Z.of_nat (HamiltonianPrep.shape0 K) - 2))
      as [Hfit | Hover].
    - rewrite Z.min_l in Hsolve |- * by lia.
      eapply solve_modes_request_bound; [exact Hk | exact Hsolve].
    - rewrite Z.min_r in Hsolve |- * by lia.
      destruct (solve_modes_bound la K M _ _ Hshape Hsolve) as [Hnil | Hle];
        [contradiction | exact Hle]. }
  assert (Hsparse : HamiltonianPrep.issparse (HamiltonianPrep.H r)
                    = (50 <? length (HamiltonianPrep.data
                                       (HamiltonianPrep.H r)))).
  { apply compute_H_sparse with (1 := Hr). }
  unfold HamiltonianPrep.shape0 in *. rewrite Hlen in *.
  split; [exact Hpos |]. split; [lia |]. split; [lia |].
  split; [exact Hsparse |].
  split.
  { intros Hk50. rewrite Hsparse. apply Nat.ltb_ge. lia. }
  intros Hdense. rewrite Hsparse in Hdense. apply Nat.ltb_ge in Hdense.
  destruct (pad_hamiltonian_qubits 0%Q
              (HamiltonianPrep.data (HamiltonianPrep.H r)))
    as [p [Hrun [Horig [Hq _]]]]; [lia | exact Hsq |].
  exists p. split; [exact Hrun |]. rewrite Horig, Hlen.
  split; [reflexivity |].
  assert (Hlog : (Z.of_nat (QuantumSimulator.pad_qubit_count p)
                  <= Z.log2_up k)%Z).
  { rewrite Hq, Hlen.
    pose proof (Z.log2_up_nonneg
                  (Z.of_nat (length (HamiltonianPrep.eigenvalues r)))).
    rewrite Z2Nat.id by assumption.
    apply Z.log2_up_le_mono. lia. }
  assert (Hsix : QuantumSimulator.pad_qubit_count p <= 6).
  { rewrite Hq, Hlen.
    assert (Hle : (Z.log2_up
                     (Z.of_nat (length (HamiltonianPrep.eigenvalues r)))
                   <= Z.log2_up 50)%Z)
      by (apply Z.log2_up_le_mono; lia).
    change (Z.log2_up 50) with 6%Z in Hle. lia. }
  split; [exact Hlog |]. split; [exact Hsix |].
  unfold QuantumSimulator.capacity_check.
  destruct (Z.ltb_spec QuantumSimulator.max_qubits
              (Z.of_nat (QuantumSimulator.pad_qubit_count p)))
    as [Hbig | _]; [| reflexivity].
  unfold QuantumSimulator.max_qubits in Hbig. lia.
Qed.

(** X12 on the same problem with the default ten modes: two rows, dense, one
    qubit, and the safety check passes. *)
Lemma compute_H_fits_capacity_witness :
  exists r p,
    HamiltonianPrep.compute_H toy_solver graded4 identity4 10 "standard"
    = inr r
    /\ HamiltonianPrep.issparse (HamiltonianPrep.H r) = false
    /\ QuantumSimulator.pad_hamiltonian 0%Q
         (HamiltonianPrep.data (HamiltonianPrep.H r)) = inr p
    /\ QuantumSimulator.capacity_check (QuantumSimulator.pad_qubit_count p)
       = inr tt.
Proof.
  destruct (HamiltonianPrep.compute_H toy_solver graded4 identity4 10
              "standard") as [e | r] eqn:Hrun;
    [vm_compute in Hrun; discriminate Hrun |].
  destruct (compute_H_fits_capacity toy_solver graded4 identity4 10
              "standard" r) as [_ [_ [_ [_ [Hdense Hpad]]]]];
    [reflexivity | lia | exact Hrun |].
  destruct (Hpad (Hdense ltac:(lia))) as [p [Hp [_ [_ [_ Hcheck]]]]].
  exists r, p. split; [reflexivity |].
  split; [apply Hdense; lia |]. split; [exact Hp | exact Hcheck].
Defined.

(* ===================================================================== *)
(** ** compute_pauli_coefficients: which terms can appear                 *)
(* ===================================================================== *)

(** *** Sublists *)

Lemma subseq_refl {A : Type} (l : list A) : subseq l l.
Proof. induction l; constructor; assumption. Qed.

Lemma subseq_nil_l {A : Type} (l : list A) : subseq [] l.
Proof. induction l; constructor; assumption. Qed.

Lemma subseq_app {A : Type} (a b c d : list A) :
  subseq a b -> subseq c d -> subseq (a ++ c) (b ++ d).
Proof.
  intros Hab Hcd. induction Hab; simpl; [exact Hcd | |];
    constructor; assumption.
Qed.

Lemma subseq_length {A : Type} (a b : list A) :
  subseq a b -> length a <= length b.
Proof. induction 1; simpl; lia. Qed.

Lemma subseq_in {A : Type} (a b : list A) (x : A) :
  subseq a b -> In x a -> In x b.
Proof.
  induction 1 as [| y a b _ IH | y a b _ IH]; simpl; intros Hx.
  - exact Hx.
  - right. apply IH, Hx.
  - destruct Hx as [-> | Hx]; [left; reflexivity | right; apply IH, Hx].
Qed.

Lemma subseq_NoDup {A : Type} (a b : list A) :
  subseq a b -> NoDup b -> NoDup a.
Proof.
  induction 1 as [| y a b Hab IH | y a b Hab IH]; intros Hb.
  - constructor.
  - inversion Hb; subst. apply IH. assumption.
  - inversion Hb as [| ? ? Hy Hrest]; subst. constructor.
    + intros Hin. apply Hy. eapply subseq_in; eassumption.
    + apply IH, Hrest.
Qed.

Lemma subseq_map {A B : Type} (f : A -> B) (a b : list A) :
  subseq a b -> subseq (map f a) (map f b).
Proof. induction 1; simpl; constructor; assumption. Qed.

Lemma subseq_firstn {A : Type} (k : nat) (l : list A) : subseq (firstn k l) l.
Proof.
  revert k. induction l as [| x l IH]; intros [| k]; simpl.
  - constructor.
  - constructor.
  - apply subseq_nil_l.
  - apply subseq_keep, IH.
Qed.

Lemma subseq_py_take {A : Type} (m : Z) (l : list A) : subseq (py_take m l) l.
Proof. unfold py_take. destruct (m <? 0)%Z; apply subseq_firstn. Qed.

Lemma subseq_flat_map {A B : Type} (f g : A -> list B) (l : list A) :
  (forall x, subseq (f x) (g x)) -> subseq (flat_map f l) (flat_map g l).
Proof.
  intros Hfg. induction l as [| x l IH]; simpl; [constructor |].
  apply subseq_app; [apply Hfg | exact IH].
Qed.

(** *** The loops gather a sublist of their candidates *)

Section PauliGather.

Import PauliCoeffs.

Variable H : matrix complex.
Variable threshold : Q.
Variable max_terms : Z.
Variable nq : nat.
Hypothesis Hsquare : is_square H = true.

Lemma gathers_nil (acc : list candidate) : gathers acc [] acc.
Proof. exists []. rewrite app_nil_r. split; [reflexivity | constructor]. Qed.

Lemma gathers_step (acc new rest result : list candidate) :
  gathers (acc ++ new) rest result -> gathers acc (new ++ rest) result.
Proof.
  intros [ext [Hres Hsub]]. exists (new ++ ext).
  split; [rewrite Hres, app_assoc; reflexivity |].
  apply subseq_app; [apply subseq_refl | exact Hsub].
Qed.

Lemma gathers_break (acc new rest : list candidate) :
  gathers acc (new ++ rest) (acc ++ new).
Proof.
  exists new. split; [reflexivity |].
  rewrite <- (app_nil_r new) at 1.
  apply subseq_app; [apply subseq_refl | apply subseq_nil_l].
Qed.

Lemma gathers_seq (acc full1 full2 mid result : list candidate) :
  gathers acc full1 mid -> gathers mid full2 result ->
  gathers acc (full1 ++ full2) result.
Proof.
  intros [e1 [Hmid Hsub1]] [e2 [Hres Hsub2]]. exists (e1 ++ e2).
  split; [rewrite Hres, Hmid, app_assoc; reflexivity |].
  apply subseq_app; assumption.
Qed.

Lemma z_terms_gathers (idxs : list nat) (acc result : list candidate) :
  z_terms H (length H) nq threshold max_terms idxs acc = inr result ->
  gathers acc (flat_map (z_candidates H (length H) nq threshold) idxs) result.
Proof.
  revert acc. induction idxs as [| i rest IH]; intros acc.
  - simpl. intros Hrun. apply inr_eq in Hrun. subst result.
    apply gathers_nil.
  - simpl z_terms. simpl flat_map. unfold z_candidates at 1.
    destruct (Nat.ltb_spec i (length H)) as [Hi | Hi]; simpl andb.
    + rewrite (getitem_entry H Hsquare) by assumption. py_simpl.
      destruct (cabs_gt (entry H i i) threshold).
      * cbv zeta. destruct (reached max_terms _).
        -- intros Hrun. apply inr_eq in Hrun. subst result.
           apply gathers_break.
        -- intros Hrun. apply gathers_step, IH, Hrun.
      * apply IH.
    + apply IH.
Qed.

Lemma pair_inner_gathers (i : nat) (js : list nat)
    (acc result : list candidate) :
  Forall (fun j => i < j /\ j < nq) js ->
  pair_inner H (length H) nq threshold max_terms i js acc = inr result ->
  gathers acc
    (flat_map (pair_candidates H (length H) nq threshold i) js) result.
Proof.
  revert acc. induction js as [| j rest IH]; intros acc Hjs.
  - simpl. intros Hrun. apply inr_eq in Hrun. subst result.
    apply gathers_nil.
  - inversion Hjs as [| ? ? [Hij Hj] Hrest]; subst.
    simpl pair_inner. simpl flat_map.
    destruct (pair_body_spec H threshold max_terms nq Hsquare i j acc Hij Hj)
      as [brk [Hbody _]].
    rewrite Hbody. py_simpl. cbv beta iota.
    destruct brk.
    + intros Hrun. apply inr_eq in Hrun. subst result. apply gathers_break.
    + destruct (reached max_terms _).
      * intros Hrun. apply inr_eq in Hrun. subst result.
        apply gathers_break.
      * intros Hrun. apply gathers_step, (IH _ Hrest), Hrun.
Qed.

Lemma pair_outer_gathers (idxs : list nat) (acc result : list candidate) :
  pair_outer H (length H) nq threshold max_terms idxs acc = inr result ->
  gathers acc
    (flat_map
       (fun i =>
          flat_map (pair_candidates H (length H) nq threshold i)
            (seq (i + 1) (Nat.min nq (length H) - (i + 1))))
       idxs)
    result.
Proof.
  revert acc. induction idxs as [| i rest IH]; intros acc.
  - simpl. intros Hrun. apply inr_eq in Hrun. subst result.
    apply gathers_nil.
  - simpl pair_outer. simpl flat_map.
    destruct (pair_inner H (length H) nq threshold max_terms i _ acc)
      as [e | mid] eqn:Hinner; py_simpl; [discriminate |].
    intros Hrun.
    eapply gathers_seq.
    + apply (pair_inner_gathers i _ acc mid); [| exact Hinner].
      apply pair_range_ok.
    + apply IH, Hrun.
Qed.

End PauliGather.

Lemma accumulate_gathers (H : matrix complex) (max_terms : Z) (threshold : Q)
    (cands : list PauliCoeffs.candidate) :
  is_square H = true ->
  PauliCoeffs.accumulate H (length H) (qubits_for H) max_terms threshold
    = inr cands ->
  subseq cands (PauliCoeffs.full_candidates H threshold).
Proof.
  intros Hsq. unfold PauliCoeffs.accumulate, PauliCoeffs.full_candidates.
  fold (qubits_for H). cbv zeta.
  set (acc0 := PauliCoeffs.identity_term H (length H) (qubits_for H)
                 threshold).
  destruct (PauliCoeffs.z_terms H (length H) (qubits_for H) threshold
              max_terms _ acc0) as [e | acc1] eqn:Hz; py_simpl;
    [discriminate |].
  apply (z_terms_gathers H threshold max_terms (qubits_for H) Hsq) in Hz.
  destruct Hz as [e1 [-> Hsub1]].
  destruct (Z.of_nat (length (acc0 ++ e1)) <? max_terms)%Z.
  - intros Hrun.
    apply (pair_outer_gathers H threshold max_terms (qubits_for H) Hsq)
      in Hrun.
    destruct Hrun as [e2 [-> Hsub2]].
    rewrite <- app_assoc.
    apply subseq_app; [apply subseq_refl |].
    apply subseq_app; assumption.
  - intros Hrun. apply inr_eq in Hrun. subst cands.
    apply subseq_app; [apply subseq_refl |].
    rewrite <- (app_nil_r e1).
    apply subseq_app; [exact Hsub1 | apply subseq_nil_l].
Qed.

(** *** Distinct labels *)

Lemma nth_repeat_cons (d c : ascii) (a : nat) (rest : list ascii) (k : nat) :
  nth k (repeat d a ++ c :: rest) d
  = if k <? a then d else if k =? a then c else nth (k - a - 1) rest d.
Proof.
  destruct (Nat.ltb_spec k a) as [Hlt | Hge].
  - rewrite app_nth1 by (rewrite repeat_length; exact Hlt).
    apply nth_repeat.
  - rewrite app_nth2 by (rewrite repeat_length; exact Hge).
    rewrite repeat_length.
    destruct (Nat.eqb_spec k a) as [-> | Hne].
    + rewrite Nat.sub_diag. reflexivity.
    + destruct (k - a) as [| t] eqn:Et; [lia |].
      simpl. rewrite Nat.sub_0_r. reflexivity.
Qed.

Lemma z_string_nth (nq i k : nat) :
  nth k (chars (PauliCoeffs.z_string nq i)) chI
  = if k =? i then chZ else chI.
Proof.
  rewrite z_string_chars, nth_repeat_cons, nth_repeat.
  destruct (Nat.ltb_spec k i), (Nat.eqb_spec k i); try reflexivity; lia.
Qed.

Lemma pair_label_nth (nq i j k : nat) (c : ascii) :
  i < j ->
  nth k (chars (PauliCoeffs.pair_label nq i j c)) chI
  = if (k =? i) || (k =? j) then c else chI.
Proof.
  intros Hij. rewrite pair_label_chars, !nth_repeat_cons, nth_repeat.
  destruct (Nat.ltb_spec k i), (Nat.eqb_spec k i), (Nat.eqb_spec k j);
    simpl; try reflexivity; try lia.
  - destruct (Nat.ltb_spec (k - i - 1) (j - i - 1)),
      (Nat.eqb_spec (k - i - 1) (j - i - 1)); try reflexivity; lia.
  - destruct (Nat.ltb_spec (k - i - 1) (j - i - 1)),
      (Nat.eqb_spec (k - i - 1) (j - i - 1)); try reflexivity; lia.
Qed.

Lemma z_string_inj (nq i i' : nat) :
  PauliCoeffs.z_string nq i = PauliCoeffs.z_string nq i' -> i = i'.
Proof.
  intros Heq. pose proof (z_string_nth nq i i) as Hi.
  rewrite Heq, z_string_nth, Nat.eqb_refl in Hi.
  destruct (Nat.eqb_spec i i'); [assumption | discriminate].
Qed.

Lemma pair_label_inj (nq i j i' j' : nat) (c c' : ascii) :
  i < j -> i' < j' -> c <> chI -> c' <> chI ->
  PauliCoeffs.pair_label nq i j c = PauliCoeffs.pair_label nq i' j' c' ->
  i = i' /\ j = j' /\ c = c'.
Proof.
  intros Hij Hij' Hc Hc' Heq.
  assert (Hat : forall k,
             (if (k =? i) || (k =? j) then c else chI)
             = (if (k =? i') || (k =? j') then c' else chI)).
  { intros k. rewrite <- (pair_label_nth nq i j k c Hij).
    rewrite <- (pair_label_nth nq i' j' k c' Hij'). rewrite Heq.
    reflexivity. }
  pose proof (Hat i) as Hi. pose proof (Hat j) as Hj.
  pose proof (Hat i') as Hi'. pose proof (Hat j') as Hj'.
  rewrite Nat.eqb_refl in Hi, Hi'. rewrite Nat.eqb_refl, orb_true_r in Hj, Hj'.
  simpl in Hi, Hi'.
  destruct (Nat.eqb_spec i i'), (Nat.eqb_spec i j'), (Nat.eqb_spec j i'),
    (Nat.eqb_spec j j'), (Nat.eqb_spec i' i), (Nat.eqb_spec i' j),
    (Nat.eqb_spec j' i), (Nat.eqb_spec j' j);
    simpl in *; try lia; try congruence; repeat split; congruence.
Qed.

Lemma z_string_not_pair (nq i i' j' : nat) (c : ascii) :
  i' < j' -> c <> chI ->
  PauliCoeffs.z_string nq i <> PauliCoeffs.pair_label nq i' j' c.
Proof.
  intros Hij Hc Heq.
  pose proof (z_string_nth nq i i') as Hi.
  pose proof (z_string_nth nq i j') as Hj.
  rewrite Heq, (pair_label_nth nq i' j' i' c Hij) in Hi.
  rewrite Heq, (pair_label_nth nq i' j' j' c Hij) in Hj.
  rewrite Nat.eqb_refl in Hi. rewrite Nat.eqb_refl, orb_true_r in Hj.
  simpl in Hi.
  destruct (Nat.eqb_spec i' i), (Nat.eqb_spec j' i); try lia; congruence.
Qed.

Lemma NoDup_flat_map {A B : Type} (f : A -> list B) (l : list A) :
  NoDup l ->
  (forall x, In x l -> NoDup (f x)) ->
  (forall x y z, In x l -> In y l -> In z (f x) -> In z (f y) -> x = y) ->
  NoDup (flat_map f l).
Proof.
  induction 1 as [| x l Hx Hl IH]; intros Heach Hapart; simpl;
    [constructor |].
  apply NoDup_app.
  - apply Heach. left. reflexivity.
  - apply IH.
    + intros y Hy. apply Heach. right. exact Hy.
    + intros y y' z Hy Hy'. apply Hapart; right; assumption.
  - intros z Hz Hin. apply in_flat_map in Hin.
    destruct Hin as [y [Hy Hzy]]. apply Hx.
    rewrite (Hapart x y z); auto; [left; reflexivity | right; exact Hy].
Qed.

(** Membership in the XX / YY block of [all_labels]. *)
Lemma in_pair_block (nq m i : nat) (s : string) :
  In s (flat_map
          (fun j => [PauliCoeffs.pair_label nq i j chX;
                     PauliCoeffs.pair_label nq i j chY])
          (seq (i + 1) (m - (i + 1)))) ->
  exists j c,
    i < j /\ (c = chX \/ c = chY) /\ s = PauliCoeffs.pair_label nq i j c.
Proof.
  intros Hin. apply in_flat_map in Hin. destruct Hin as [j [Hj Hs]].
  apply in_seq in Hj. exists j.
  destruct Hs as [<- | [<- | []]];
    [exists chX | exists chY]; (split; [lia |]); split; auto.
Qed.

Lemma pauli_letter_not_I (c : ascii) : c = chX \/ c = chY -> c <> chI.
Proof. intros [-> | ->]; discriminate. Qed.

Lemma all_labels_NoDup (nq m m' : nat) : NoDup (all_labels nq m m').
Proof.
  unfold all_labels. constructor.
  - intros Hin. apply in_app_or in Hin. destruct Hin as [Hin | Hin].
    + apply in_map_iff in Hin. destruct Hin as [i [Hi _]].
      exact (z_string_not_identity nq i Hi).
    + apply in_flat_map in Hin. destruct Hin as [i [_ Hin]].
      apply in_pair_block in Hin. destruct Hin as [j [c [_ [Hc Hs]]]].
      symmetry in Hs.
      exact (pair_label_not_identity nq i j c (pauli_letter_not_I c Hc) Hs).
  - apply NoDup_app.
    + apply Finite.Injective_map_NoDup_in; [| apply seq_NoDup].
      intros i i' _ _. apply z_string_inj.
    + apply NoDup_flat_map; [apply seq_NoDup | |].
      * intros i _. apply NoDup_flat_map; [apply seq_NoDup | |].
        -- intros j _. constructor; [| constructor; [intros [] | constructor]].
           intros [Heq | []].
           assert (Hlen : forall a b : string,
                      a = b -> chars a = chars b) by (intros; subst; auto).
           apply Hlen in Heq. rewrite !pair_label_chars in Heq.
           apply app_inv_head in Heq. discriminate Heq.
        -- intros j j' s Hj Hj' Hs Hs'.
           apply in_seq in Hj. apply in_seq in Hj'.
           destruct Hs as [<- | [<- | []]];
             destruct Hs' as [Hs' | [Hs' | []]];
             apply pair_label_inj in Hs'; try lia; try discriminate.
      * intros i i' s _ _ Hs Hs'.
        apply in_pair_block in Hs. destruct Hs as [j [c [Hij [Hc ->]]]].
        apply in_pair_block in Hs'. destruct Hs' as [j' [c' [Hij' [Hc' Hs']]]].
        apply pair_label_inj in Hs'; auto using pauli_letter_not_I. lia.
    + intros s Hz Hp.
      apply in_map_iff in Hz. destruct Hz as [i [<- _]].
      apply in_flat_map in Hp. destruct Hp as [i' [_ Hp]].
      apply in_pair_block in Hp. destruct Hp as [j [c [Hij [Hc Hs]]]].
      exact (z_string_not_pair nq i i' j c Hij (pauli_letter_not_I c Hc) Hs).
Qed.

Lemma length_flat_map_two {A B : Type} (g h : A -> B) (l : list A) :
  length (flat_map (fun j => [g j; h j]) l) = 2 * length l.
Proof. induction l as [| j l IH]; simpl; [reflexivity | lia]. Qed.

Lemma pair_block_length (nq m : nat) (len a : nat) :
  length
    (flat_map
       (fun i =>
          flat_map
            (fun j => [PauliCoeffs.pair_label nq i j chX;
                       PauliCoeffs.pair_label nq i j chY])
            (seq (i + 1) (m - (i + 1))))
       (seq a len))
  <= (m - a) * (m - a - 1).
Proof.
  revert a. induction len as [| len IH]; intros a; simpl;
    [apply Nat.le_0_l |].
  rewrite length_app. specialize (IH (S a)).
  assert (Hrow : length
                   (flat_map
                      (fun j => [PauliCoeffs.pair_label nq a j chX;
                                 PauliCoeffs.pair_label nq a j chY])
                      (seq (a + 1) (m - (a + 1))))
                 = 2 * (m - (a + 1))).
  { rewrite length_flat_map_two, length_seq. reflexivity. }
  rewrite Hrow.
  destruct (Nat.le_gt_cases m (a + 1)) as [Hsmall | Hlarge].
  - replace (m - (a + 1)) with 0 by lia.
    replace (m - S a) with 0 in IH by lia. simpl in *. lia.
  - replace (m - a) with (S (m - S a)) by lia.
    replace (m - (a + 1)) with (m - S a) by lia.
    replace (S (m - S a) - 1) with (m - S a) by lia.
    destruct (m - S a) as [| t]; [simpl in *; lia |].
    replace (S t - 1) with t in IH by lia. nia.
Qed.

Lemma all_labels_length (nq m m' : nat) :
  m <= nq -> length (all_labels nq m m') <= nq * nq + 1.
Proof.
  intros Hm. unfold all_labels. simpl.
  rewrite length_app, length_map, length_seq.
  pose proof (pair_block_length nq m m' 0) as Hpairs.
  rewrite Nat.sub_0_r in Hpairs.
  assert (Hsq : m + m * (m - 1) <= nq * nq).
  { destruct m as [| t]; [lia |].
    replace (S t - 1) with t by lia. nia. }
  lia.
Qed.

Lemma full_candidates_labels (H : matrix complex) (threshold : Q) :
  subseq (map fst (PauliCoeffs.full_candidates H threshold))
    (all_labels (qubits_for H) (Nat.min (qubits_for H) (length H))
       (Nat.min (qubits_for H) (length H - 1))).
Proof.
  unfold PauliCoeffs.full_candidates, all_labels. fold (qubits_for H).
  cbv zeta. rewrite !map_app.
  change (str_repeat chI (qubits_for H) :: ?l)
    with ([str_repeat chI (qubits_for H)] ++ l).
  apply subseq_app; [| apply subseq_app].
  - unfold PauliCoeffs.identity_term.
    destruct (cabs_gt _ _); simpl; [apply subseq_refl | apply subseq_nil_l].
  - generalize (seq 0 (Nat.min (qubits_for H) (length H))).
    intros idxs. induction idxs as [| i idxs IH]; simpl; [constructor |].
    rewrite map_app. unfold PauliCoeffs.z_candidates at 1.
    destruct (_ && _); simpl; [apply subseq_keep | apply subseq_skip];
      exact IH.
  - generalize (seq 0 (Nat.min (qubits_for H) (length H - 1))).
    intros idxs. induction idxs as [| i idxs IH]; simpl; [constructor |].
    rewrite map_app. apply subseq_app; [| exact IH].
    generalize (seq (i + 1) (Nat.min (qubits_for H) (length H) - (i + 1))).
    intros js. induction js as [| j js IHj]; simpl; [constructor |].
    rewrite map_app.
    change (?a :: ?b :: ?l) with ([a; b] ++ l).
    apply subseq_app; [| exact IHj].
    unfold PauliCoeffs.pair_candidates.
    destruct (_ && _); [| apply subseq_nil_l].
    destruct (abs_gt (re _) _), (abs_gt (im _) _); simpl.
    + apply subseq_refl.
    + apply subseq_keep, subseq_nil_l.
    + apply subseq_skip, subseq_refl.
    + apply subseq_nil_l.
Qed.

(** X13.  On a square input of side [n >= 1], whatever [max_terms] and
    [threshold], [compute_pauli_coefficients] returns a decomposition whose
    operator strings are pairwise distinct, so a dictionary keyed by
    operator loses no term; it never has more than [num_qubits ** 2 + 1]
    terms (the identity, at most [num_qubits] Z terms and at most two terms
    per pair of qubits), and it has as many coefficients as operators. *)
Theorem decomposition_terms_distinct (H : matrix complex) (max_terms : Z)
    (threshold : Q) :
  1 <= length H ->
  is_square H = true ->
  exists d,
    PauliCoeffs.compute_pauli_coefficients H max_terms threshold = inr d
    /\ NoDup (PauliCoeffs.pauli_terms d)
    /\ PauliCoeffs.num_terms d <= qubits_for H * qubits_for H + 1
    /\ length (PauliCoeffs.pauli_terms d) = PauliCoeffs.num_terms d
    /\ length (PauliCoeffs.pauli_coefficients d) = PauliCoeffs.num_terms d.
Proof.
  intros Hn Hsq.
  destruct (compute_pauli_coefficients_run H max_terms threshold Hn Hsq)
    as [cands [Hacc [_ Hrun]]].
  pose proof (accumulate_gathers H max_terms threshold cands Hsq Hacc)
    as Hsub.
  set (sorted := PauliCoeffs.argsort_desc cands) in *.
  set (kept := py_take max_terms sorted) in *.
  eexists. split; [exact Hrun |].
  cbn [PauliCoeffs.pauli_terms PauliCoeffs.pauli_coefficients
         PauliCoeffs.num_terms].
  assert (Hlabels : subseq (map fst cands)
                      (all_labels (qubits_for H)
                         (Nat.min (qubits_for H) (length H))
                         (Nat.min (qubits_for H) (length H - 1)))).
  { clear -Hsub.
    pose proof (full_candidates_labels H threshold) as Hfull.
    apply (subseq_map fst) in Hsub.
    revert Hfull. generalize (all_labels (qubits_for H)
                                (Nat.min (qubits_for H) (length H))
                                (Nat.min (qubits_for H) (length H - 1))).
    revert Hsub.
    generalize (map fst (PauliCoeffs.full_candidates H threshold)).
    generalize (map fst cands). clear.
    intros a b Hab c Hbc. revert a Hab.
    induction Hbc as [| x b c Hbc IH | x b c Hbc IH]; intros a Hab.
    - exact Hab.
    - apply subseq_skip, IH, Hab.
    - inversion Hab; subst.
      + apply subseq_skip, IH. assumption.
      + apply subseq_keep, IH. assumption. }
  assert (Hperm : Permutation cands sorted) by apply sort_desc_perm.
  split; [| split; [| split]].
  - apply (subseq_NoDup _ (map fst sorted)).
    + apply subseq_map, subseq_py_take.
    + apply (Permutation_NoDup (Permutation_map fst Hperm)).
      apply (subseq_NoDup _ _ Hlabels), all_labels_NoDup.
  - pose proof (subseq_length _ _ (subseq_py_take max_terms sorted)) as Hk.
    fold kept in Hk.
    pose proof (subseq_length _ _ Hlabels) as Hc.
    rewrite length_map in Hc.
    pose proof (all_labels_length (qubits_for H)
                  (Nat.min (qubits_for H) (length H))
                  (Nat.min (qubits_for H) (length H - 1))
                  (Nat.le_min_l _ _)) as Hall.
    unfold sorted, PauliCoeffs.argsort_desc in Hk.
    rewrite sort_desc_length in Hk.
    exact (Nat.le_trans _ _ _ Hk (Nat.le_trans _ _ _ Hc Hall)).
  - apply length_map.
  - apply length_map.
Qed.

(** X13 on [coupled4] (two qubits): at most five terms, all distinct. *)
Lemma decomposition_terms_distinct_witness :
  exists d,
    PauliCoeffs.compute_pauli_coefficients coupled4 10 (1 # 1000000) = inr d
    /\ NoDup (PauliCoeffs.pauli_terms d)
    /\ PauliCoeffs.num_terms d <= 5.
Proof.
  destruct (decomposition_terms_distinct coupled4 10 (1 # 1000000))
    as [d [Hrun [Hdistinct [Hcount _]]]]; [simpl; lia | reflexivity |].
  exists d. split; [exact Hrun |]. split; [exact Hdistinct |].
  exact Hcount.
Defined.

Lemma combine_map_same {A B C : Type} (f : A -> B) (g : A -> C) (l : list A) :
  combine (map f l) (map g l) = map (fun x => (f x, g x)) l.
Proof. induction l as [| x l IH]; simpl; [| rewrite IH]; reflexivity. Qed.

Lemma full_candidates_above (H : matrix complex) (threshold : Q)
    (c : PauliCoeffs.candidate) :
  is_hermitian H = true ->
  In c (PauliCoeffs.full_candidates H threshold) ->
  fst c = str_repeat chI (qubits_for H)
  \/ (threshold < Qabs (re (snd c)))%Q.
Proof.
  intros Hh. unfold PauliCoeffs.full_candidates. fold (qubits_for H).
  cbv zeta. intros Hin.
  apply in_app_or in Hin. destruct Hin as [Hin | Hin].
  - left. unfold PauliCoeffs.identity_term in Hin.
    destruct (cabs_gt _ _); [| destruct Hin].
    destruct Hin as [<- | []]. reflexivity.
  - right. apply in_app_or in Hin. destruct Hin as [Hin | Hin].
    + apply in_flat_map in Hin. destruct Hin as [i [_ Hin]].
      unfold PauliCoeffs.z_candidates in Hin.
      destruct (Nat.ltb_spec i (length H)) as [Hi | Hi]; simpl in Hin;
        [| destruct Hin].
      destruct (cabs_gt (PauliCoeffs.entry H i i) threshold) eqn:Etest;
        [| destruct Hin].
      destruct Hin as [<- | []]. simpl.
      apply (cabs_gt_real _ _ (hermitian_diagonal H i Hh Hi)). exact Etest.
    + apply in_flat_map in Hin. destruct Hin as [i [_ Hin]].
      apply in_flat_map in Hin. destruct Hin as [j [_ Hin]].
      unfold PauliCoeffs.pair_candidates in Hin.
      destruct (_ && _); [| destruct Hin].
      apply in_app_or in Hin. destruct Hin as [Hin | Hin].
      * destruct (abs_gt (re (PauliCoeffs.entry H i j)) threshold) eqn:Etest;
          [| destruct Hin].
        destruct Hin as [<- | []]. simpl. apply abs_gt_iff. exact Etest.
      * destruct (abs_gt (im (PauliCoeffs.entry H i j)) threshold) eqn:Etest;
          [| destruct Hin].
        destruct Hin as [<- | []]. simpl. apply abs_gt_iff. exact Etest.
Qed.

(** X14.  On a Hermitian input, every term of the decomposition other
    than the identity has a coefficient of modulus above [threshold]:
    nothing below the threshold is ever reported, whatever [max_terms].
    (The identity term is the exception: its test is on the trace.) *)
Theorem decomposition_above_threshold (H : matrix complex) (max_terms : Z)
    (threshold : Q) :
  1 <= length H ->
  is_square H = true ->
  is_hermitian H = true ->
  exists d,
    PauliCoeffs.compute_pauli_coefficients H max_terms threshold = inr d
    /\ forall label coefficient,
         In (label, coefficient)
            (combine (PauliCoeffs.pauli_terms d)
                     (PauliCoeffs.pauli_coefficients d)) ->
         label <> str_repeat chI (PauliCoeffs.num_qubits d) ->
         (threshold < Qabs coefficient)%Q.
Proof.
  intros Hn Hsq Hh.
  destruct (compute_pauli_coefficients_run H max_terms threshold Hn Hsq)
    as [cands [_ [Hext Hrun]]].
  eexists. split; [exact Hrun |].
  cbn [PauliCoeffs.pauli_terms PauliCoeffs.pauli_coefficients
         PauliCoeffs.num_qubits].
  intros label coefficient Hin Hlabel.
  rewrite combine_map_same in Hin. apply in_map_iff in Hin.
  destruct Hin as [c [Hc Hkept]].
  injection Hc as <- <-.
  apply (kept_in_full H max_terms threshold cands c Hext) in Hkept.
  destruct (full_candidates_above H threshold c Hh Hkept) as [Hid | Habove];
    [contradiction | exact Habove].
Qed.

(** X14 on [coupled4]: the term ZI with coefficient 1 is listed, and 1 is
    above 1e-6. *)
Lemma decomposition_above_threshold_witness :
  exists d,
    PauliCoeffs.compute_pauli_coefficients coupled4 10 (1 # 1000000) = inr d
    /\ In ("ZI"%string, 1%Q)
         (combine (PauliCoeffs.pauli_terms d)
                  (PauliCoeffs.pauli_coefficients d))
    /\ (1 # 1000000 < Qabs 1)%Q.
Proof.
  destruct (decomposition_above_threshold coupled4 10 (1 # 1000000))
    as [d [Hrun Habove]]; [simpl; lia | reflexivity | reflexivity |].
  exists d. split; [exact Hrun |].
  assert (Hin : In ("ZI"%string, 1%Q)
                  (combine (PauliCoeffs.pauli_terms d)
                           (PauliCoeffs.pauli_coefficients d))).
  { vm_compute in Hrun. injection Hrun as <-.
    right. right. right. left. reflexivity. }
  split; [exact Hin |]. apply (Habove _ _ Hin).
  vm_compute in Hrun. injection Hrun as <-. discriminate.
Defined.

(* ===================================================================== *)
(** ** The decomposition as input of the synthesizer                      *)
(* ===================================================================== *)

Lemma valid_terms_all (nq : nat) (terms : list string) (coeffs : list Q) :
  Forall (fun term => String.length term = nq) terms ->
  length terms = length coeffs ->
  Trotter.valid_terms (Z.of_nat nq) terms coeffs = (terms, coeffs).
Proof.
  intros Hterms. revert coeffs.
  induction Hterms as [| term ts Hterm _ IH]; intros [| coeff cs] Hlen;
    simpl in *; try discriminate; [reflexivity |].
  rewrite (IH cs) by lia. rewrite Hterm, Z.eqb_refl. reflexivity.
Qed.

Lemma valid_terms_sound (nq : Z) (terms : list string) (coeffs : list Q) :
  let '(pl, cl) := Trotter.valid_terms nq terms coeffs in
  length pl = length cl
  /\ length pl <= Nat.min (length terms) (length coeffs)
  /\ Forall (fun term => Z.of_nat (String.length term) = nq) pl.
Proof.
  revert coeffs. induction terms as [| term ts IH]; intros [| coeff cs];
    simpl; try (repeat split; [lia | constructor]).
  specialize (IH cs). destruct (Trotter.valid_terms nq ts cs) as [pl cl].
  destruct IH as [Hlen [Hle Hall]].
  destruct (Z.eqb_spec (Z.of_nat (String.length term)) nq) as [Heq | Hne];
    simpl; repeat split; try lia; try assumption.
  constructor; assumption.
Qed.

(** X15.  The length filter of [simulate_hamiltonian] keeps as many
    coefficients as operators, all of the requested width, and it is the
    identity on what [compute_pauli_coefficients] returns: every term of a
    decomposition reaches [SparsePauliOp], none is dropped as invalid. *)
Theorem synthesizer_keeps_decomposition (H : matrix complex) (max_terms : Z)
    (threshold : Q) :
  1 <= length H ->
  is_square H = true ->
  exists d,
    PauliCoeffs.compute_pauli_coefficients H max_terms threshold = inr d
    /\ Trotter.valid_terms (Z.of_nat (PauliCoeffs.num_qubits d))
         (PauliCoeffs.pauli_terms d) (PauliCoeffs.pauli_coefficients d)
       = (PauliCoeffs.pauli_terms d, PauliCoeffs.pauli_coefficients d)
    /\ forall nq terms coeffs,
         length (fst (Trotter.valid_terms nq terms coeffs))
         = length (snd (Trotter.valid_terms nq terms coeffs))
         /\ Forall (fun term => Z.of_nat (String.length term) = nq)
              (fst (Trotter.valid_terms nq terms coeffs)).
Proof.
  intros Hn Hsq.
  destruct (compute_pauli_coefficients_run H max_terms threshold Hn Hsq)
    as [cands [_ [Hext Hrun]]].
  eexists. split; [exact Hrun |].
  cbn [PauliCoeffs.pauli_terms PauliCoeffs.pauli_coefficients
         PauliCoeffs.num_qubits].
  split.
  - apply valid_terms_all; [| rewrite !length_map; reflexivity].
    apply Forall_forall. intros term Hterm.
    apply in_map_iff in Hterm. destruct Hterm as [c [<- Hc]].
    apply (kept_in_full H max_terms threshold cands c Hext) in Hc.
    pose proof (full_candidates_strings H threshold) as Hall.
    rewrite Forall_forall in Hall. apply (Hall c Hc).
  - intros nq terms coeffs.
    pose proof (valid_terms_sound nq terms coeffs) as Hsound.
    destruct (Trotter.valid_terms nq terms coeffs) as [pl cl].
    destruct Hsound as [Hlen [_ Hall]]. split; assumption.
Qed.

(** X15 on [coupled4]: the four terms of its decomposition all pass the
    filter. *)
Lemma synthesizer_keeps_decomposition_witness :
  exists d,
    PauliCoeffs.compute_pauli_coefficients coupled4 10 (1 # 1000000) = inr d
    /\ fst (Trotter.valid_terms 2 (PauliCoeffs.pauli_terms d)
              (PauliCoeffs.pauli_coefficients d))
       = ["IZ"; "YY"; "XX"; "ZI"]%string.
Proof.
  destruct (synthesizer_keeps_decomposition coupled4 10 (1 # 1000000))
    as [d [Hrun [Hkeep _]]]; [simpl; lia | reflexivity |].
  exists d. split; [exact Hrun |].
  vm_compute in Hrun. injection Hrun as <-.
  cbn [PauliCoeffs.num_qubits] in Hkeep.
  change (Z.of_nat 2) with 2%Z in Hkeep. rewrite Hkeep. reflexivity.
Defined.

(* ===================================================================== *)
(** ** generate_mesh: the assembled matrices                              *)
(* ===================================================================== *)

Section Assembly.

Import GenerateMesh.

Lemma assign_spec {A : Type} (l : list A) (i : nat) (x : A) :
  i < length l ->
  exists l',
    assign l i x = inr l'
    /\ length l' = length l
    /\ forall k d, nth k l' d = if k =? i then x else nth k l d.
Proof.
  revert i. induction l as [| y tl IH]; intros i Hi; simpl in Hi; [lia |].
  destruct i as [| i].
  - exists (x :: tl). split; [reflexivity |]. split; [reflexivity |].
    intros [| k] d; reflexivity.
  - assert (Hi' : i < length tl) by lia.
    destruct (IH i Hi') as [tl' [Hrun [Hlen Hnth]]].
    exists (y :: tl'). simpl. rewrite Hrun. py_simpl.
    split; [reflexivity |]. split; [simpl; rewrite Hlen; reflexivity |].
    intros [| k] d; [reflexivity |]. simpl. apply Hnth.
Qed.

Lemma shaped_row (n : nat) (A : matrix Q) (a : nat) :
  shaped n A -> a < n -> length (nth a A []) = n.
Proof.
  intros [Hlen Hrows] Ha. rewrite Forall_forall in Hrows.
  apply Hrows, nth_In. lia.
Qed.

Lemma assign2_spec (n : nat) (A : matrix Q) (i j : nat) (v : Q) :
  shaped n A -> i < n -> j < n ->
  exists A',
    assign2 A i j v = inr A'
    /\ shaped n A'
    /\ forall a b,
         cell A' a b = if (a =? i) && (b =? j) then v else cell A a b.
Proof.
  intros Hshape Hi Hj. pose proof Hshape as [Hlen Hrows].
  unfold assign2.
  assert (HiA : i < length A) by lia.
  rewrite (nth_error_nth' A [] HiA).
  pose proof (shaped_row n A i Hshape Hi) as Hrow.
  assert (Hjrow : j < length (nth i A [])) by lia.
  destruct (assign_spec (nth i A []) j v Hjrow)
    as [row' [Hrun [Hlen' Hnth]]].
  rewrite Hrun. py_simpl.
  destruct (assign_spec A i row' HiA) as [A' [Hrun' [HlenA HnthA]]].
  exists A'. split; [exact Hrun' |]. split.
  - split; [lia |]. apply Forall_forall. intros row Hin.
    apply (In_nth _ _ []) in Hin. destruct Hin as [a [Ha <-]].
    rewrite HnthA. destruct (Nat.eqb_spec a i); [lia |].
    apply (shaped_row n A a Hshape). lia.
  - intros a b. unfold cell. rewrite HnthA.
    destruct (Nat.eqb_spec a i) as [-> | Hne]; simpl; [| reflexivity].
    apply Hnth.
Qed.

Lemma zeros_shaped (n : nat) : shaped n (zeros n).
Proof.
  unfold zeros. split; [apply repeat_length |].
  apply Forall_forall. intros row Hrow. apply repeat_spec in Hrow.
  subst row. apply repeat_length.
Qed.

Lemma zeros_cell (n a b : nat) : cell (zeros n) a b = 0%Q.
Proof.
  unfold cell, zeros.
  destruct (Nat.lt_ge_cases a n) as [Ha | Ha].
  - rewrite (nth_repeat_lt _ _ Ha).
    destruct (Nat.lt_ge_cases b n) as [Hb | Hb].
    + apply nth_repeat.
    + apply nth_overflow. rewrite repeat_length. exact Hb.
  - rewrite (nth_overflow _ _ (n:=a)) by (rewrite repeat_length; exact Ha).
    destruct b; reflexivity.
Qed.

Lemma fill_diagonal_spec (n : nat) (value : py Q) (v : Q) (idxs : list nat)
    (A : matrix Q) :
  value = inr v ->
  shaped n A -> Forall (fun i => i < n) idxs ->
  exists A',
    fill_diagonal A idxs value = inr A'
    /\ shaped n A'
    /\ forall a b,
         cell A' a b
         = if (a =? b) && existsb (Nat.eqb a) idxs then v else cell A a b.
Proof.
  intros Hvalue. revert A.
  induction idxs as [| i rest IH]; intros A Hshape Hidx.
  - exists A. split; [reflexivity |]. split; [exact Hshape |].
    intros a b. simpl. rewrite andb_false_r. reflexivity.
  - inversion Hidx as [| ? ? Hi Hrest]; subst.
    destruct (assign2_spec n A i i v Hshape Hi Hi) as [A1 [Hrun [Hs1 Hc1]]].
    destruct (IH A1 Hs1 Hrest) as [A' [Hrun' [Hs' Hc']]].
    exists A'. simpl. py_simpl. rewrite Hrun. py_simpl.
    split; [exact Hrun' |]. split; [exact Hs' |].
    intros a b. rewrite Hc', Hc1.
    destruct (Nat.eqb_spec a b) as [-> | Hab]; simpl.
    + destruct (existsb (Nat.eqb b) rest); simpl.
      * rewrite orb_true_r. reflexivity.
      * rewrite orb_false_r, andb_diag. reflexivity.
    + destruct (Nat.eqb_spec a i), (Nat.eqb_spec b i); simpl;
        try reflexivity; lia.
Qed.

(** The loop body never runs on an empty range, and a value that cannot be
    computed stops the loop at its first turn. *)
Lemma fill_diagonal_raises (A : matrix Q) (i : nat) (rest : list nat)
    (e : PyError) :
  fill_diagonal A (i :: rest) (inl e) = inl e.
Proof. reflexivity. Qed.

Lemma couple_spec (n i j : nat) (value : py Q) (v : Q) (A : matrix Q) :
  value = inr v ->
  shaped n A ->
  exists A',
    couple A n i j value = inr A'
    /\ shaped n A'
    /\ forall a b, cell A' a b = if hit n i j a b then v else cell A a b.
Proof.
  intros Hvalue Hshape. subst value. unfold couple, hit.
  destruct (Nat.ltb_spec (i + j + 3) n) as [Hin | Hout]; simpl andb.
  - destruct (assign2_spec n A (i + j) (i + j + 3) v Hshape)
      as [A1 [Hrun1 [Hs1 Hc1]]]; [lia | lia |].
    destruct (assign2_spec n A1 (i + j + 3) (i + j) v Hs1)
      as [A2 [Hrun2 [Hs2 Hc2]]]; [lia | lia |].
    exists A2. py_simpl. rewrite Hrun1. py_simpl.
    split; [exact Hrun2 |]. split; [exact Hs2 |].
    intros a b. rewrite Hc2, Hc1.
    destruct ((a =? i + j + 3) && (b =? i + j));
      destruct ((a =? i + j) && (b =? i + j + 3)); reflexivity.
  - exists A. split; [reflexivity |]. split; [exact Hshape |].
    reflexivity.
Qed.

Lemma couple_inner_spec (n i : nat) (value : py Q) (v : Q) (js : list nat)
    (A : matrix Q) :
  value = inr v ->
  shaped n A ->
  exists A',
    couple_inner A n i js value = inr A'
    /\ shaped n A'
    /\ forall a b,
         cell A' a b
         = if existsb (fun j => hit n i j a b) js then v else cell A a b.
Proof.
  intros Hvalue. revert A. induction js as [| j rest IH]; intros A Hshape.
  - exists A. split; [reflexivity |]. split; [exact Hshape | reflexivity].
  - destruct (couple_spec n i j value v A Hvalue Hshape)
      as [A1 [Hrun [Hs1 Hc1]]].
    destruct (IH A1 Hs1) as [A' [Hrun' [Hs' Hc']]].
    exists A'. simpl. rewrite Hrun. py_simpl.
    split; [exact Hrun' |]. split; [exact Hs' |].
    intros a b. rewrite Hc', Hc1.
    destruct (hit n i j a b), (existsb _ rest); reflexivity.
Qed.

Lemma couple_outer_spec (n : nat) (value : py Q) (v : Q) (idxs : list nat)
    (A : matrix Q) :
  value = inr v ->
  shaped n A ->
  exists A',
    couple_outer A n idxs value = inr A'
    /\ shaped n A'
    /\ forall a b,
         cell A' a b = if touched n idxs a b then v else cell A a b.
Proof.
  intros Hvalue. revert A. induction idxs as [| i rest IH]; intros A Hshape.
  - exists A. split; [reflexivity |]. split; [exact Hshape | reflexivity].
  - destruct (couple_inner_spec n i value v (seq 0 3) A Hvalue Hshape)
      as [A1 [Hrun [Hs1 Hc1]]].
    destruct (IH A1 Hs1) as [A' [Hrun' [Hs' Hc']]].
    exists A'. cbn [couple_outer]. rewrite Hrun. py_simpl.
    split; [exact Hrun' |]. split; [exact Hs' |].
    intros a b. rewrite Hc', Hc1. unfold touched. simpl existsb.
    destruct (hit n i 0 a b || (hit n i 1 a b || (hit n i 2 a b || false)));
      destruct (existsb _ rest); reflexivity.
Qed.

(** With three degrees of freedom per node, the loops couple every degree
    of freedom with the same one of the next node, and nothing else. *)
Lemma touched_band (N a b : nat) :
  a < 3 * N -> b < 3 * N ->
  touched (3 * N) (range3 (Z.of_nat (3 * N) - 3)) a b
  = (b =? a + 3) || (a =? b + 3).
Proof.
  intros Ha Hb. unfold touched, range3.
  assert (Hcount : Z.to_nat ((Z.of_nat (3 * N) - 3 + 2) / 3) = N - 1).
  { destruct N as [| N']; [reflexivity |].
    rewrite <- (Z.div_unique (Z.of_nat (3 * S N') - 3 + 2) 3
                  (Z.of_nat N') 2) by lia.
    lia. }
  rewrite Hcount.
  destruct ((b =? a + 3) || (a =? b + 3)) eqn:Eband.
  - apply existsb_exists.
    exists (3 * (Nat.min a b / 3)). split.
    + apply in_map, in_seq.
      apply orb_true_iff in Eband. rewrite !Nat.eqb_eq in Eband.
      pose proof (Nat.div_mod_eq (Nat.min a b) 3).
      pose proof (Nat.mod_upper_bound (Nat.min a b) 3). lia.
    + apply existsb_exists. exists (Nat.min a b mod 3).
      split; [apply in_seq; pose proof (Nat.mod_upper_bound (Nat.min a b) 3);
              lia |].
      unfold hit.
      apply orb_true_iff in Eband. rewrite !Nat.eqb_eq in Eband.
      pose proof (Nat.div_mod_eq (Nat.min a b) 3) as Hdm.
      apply andb_true_iff. split; [apply Nat.ltb_lt; lia |].
      apply orb_true_iff.
      destruct Eband as [-> | ->]; [left | right];
        apply andb_true_iff; rewrite !Nat.eqb_eq; lia.
  - apply Bool.not_true_iff_false. intros Htouched.
    apply existsb_exists in Htouched. destruct Htouched as [i [_ Hj]].
    apply existsb_exists in Hj. destruct Hj as [j [_ Hhit]].
    unfold hit in Hhit. apply andb_true_iff in Hhit.
    destruct Hhit as [_ Hhit].
    apply orb_false_iff in Eband. rewrite !Nat.eqb_neq in Eband.
    apply orb_true_iff in Hhit.
    destruct Hhit as [Hhit | Hhit]; apply andb_true_iff in Hhit;
      rewrite !Nat.eqb_eq in Hhit; lia.
Qed.

End Assembly.

Lemma divide_run (x y : Q) :
  ~ (y == 0)%Q -> GenerateMesh.divide x y = inr (x / y)%Q.
Proof.
  intros Hy. unfold GenerateMesh.divide.
  destruct (Qeq_bool y 0) eqn:Ey; [| reflexivity].
  apply Qeq_bool_iff in Ey. contradiction.
Qed.

Lemma divide_zero (x y : Q) :
  (y == 0)%Q -> GenerateMesh.divide x y = inl ZeroDivisionError.
Proof.
  intros Hy. unfold GenerateMesh.divide.
  apply Qeq_bool_iff in Hy. rewrite Hy. reflexivity.
Qed.

Lemma seq_below_all (n : nat) : Forall (fun i => i < n) (seq 0 n).
Proof. apply Forall_forall. intros i Hi. apply in_seq in Hi. lia. Qed.

Lemma existsb_seq (n a : nat) : existsb (Nat.eqb a) (seq 0 n) = (a <? n).
Proof.
  destruct (Nat.ltb_spec a n) as [Ha | Ha].
  - apply existsb_exists. exists a.
    split; [apply in_seq; lia | apply Nat.eqb_refl].
  - apply Bool.not_true_iff_false. intros Hex.
    apply existsb_exists in Hex. destruct Hex as [i [Hi Hai]].
    apply in_seq in Hi. apply Nat.eqb_eq in Hai. lia.
Qed.

(** *** Python numbers *)

Lemma as_float_run (a : GenerateMesh.number) :
  has_double a -> GenerateMesh.as_float a = inr (value a).
Proof.
  destruct a as [z | x]; simpl; [| reflexivity].
  intros Hz. unfold SimulatorService.float_of_int.
  destruct (Z.leb_spec SimulatorService.float_limit (Z.abs z)); [lia |].
  reflexivity.
Qed.

Lemma as_float_overflow (a : GenerateMesh.number) :
  ~ has_double a -> GenerateMesh.as_float a = inl OverflowError.
Proof.
  destruct a as [z | x]; simpl; [| intros Hx; exfalso; apply Hx; exact I].
  intros Hz. unfold SimulatorService.float_of_int.
  destruct (Z.leb_spec SimulatorService.float_limit (Z.abs z)); [| lia].
  reflexivity.
Qed.

Lemma int_has_double (z : Z) :
  (Z.abs z <= 2)%Z -> has_double (GenerateMesh.Int z).
Proof.
  intros Hz. simpl.
  apply Z.le_lt_trans with 2%Z; [exact Hz | reflexivity].
Qed.

Lemma arith_float_r (on_ints : Z -> Z -> Z) (on_floats : Q -> Q -> Q)
    (a : GenerateMesh.number) (x : Q) :
  has_double a ->
  GenerateMesh.arith on_ints on_floats a (GenerateMesh.Float x)
  = inr (GenerateMesh.Float (on_floats (value a) x)).
Proof.
  intros Ha. pose proof (as_float_run a Ha) as Hrun.
  destruct a as [z | y]; unfold GenerateMesh.arith.
  - rewrite Hrun. reflexivity.
  - reflexivity.
Qed.

Lemma arith_overflow (on_ints : Z -> Z -> Z) (on_floats : Q -> Q -> Q)
    (a : GenerateMesh.number) (x : Q) :
  ~ has_double a ->
  GenerateMesh.arith on_ints on_floats a (GenerateMesh.Float x)
  = inl OverflowError.
Proof.
  intros Ha. pose proof (as_float_overflow a Ha) as Hrun.
  destruct a as [z | y]; unfold GenerateMesh.arith.
  - rewrite Hrun. reflexivity.
  - exfalso. apply Ha. exact I.
Qed.

Lemma truediv_float_r (a : GenerateMesh.number) (y : Q) :
  has_double a ->
  GenerateMesh.truediv a (GenerateMesh.Float y)
  = GenerateMesh.divide (value a) y.
Proof.
  intros Ha. pose proof (as_float_run a Ha) as Hrun.
  destruct a as [z | x]; unfold GenerateMesh.truediv.
  - rewrite Hrun. reflexivity.
  - reflexivity.
Qed.

Lemma value_neg (a : GenerateMesh.number) :
  value (GenerateMesh.neg a) = (- value a)%Q.
Proof. destruct a; reflexivity. Qed.

Lemma has_double_neg (a : GenerateMesh.number) :
  has_double a -> has_double (GenerateMesh.neg a).
Proof. destruct a as [z | x]; simpl; [rewrite Z.abs_opp |]; auto. Qed.

(** The value written on the diagonal of the mass matrix. *)
Lemma element_mass_run (rho : GenerateMesh.number) (Ne : Z) :
  has_double rho ->
  (Ne < SimulatorService.float_limit)%Z ->
  exists avg,
    (if (0 <? Ne)%Z
     then w <- GenerateMesh.truediv (GenerateMesh.Float 1)
                 (GenerateMesh.Int Ne) ;;
          GenerateMesh.mul rho (GenerateMesh.Float w)
     else inr rho) = inr avg
    /\ GenerateMesh.as_float avg
       = inr (if (0 <? Ne)%Z then (value rho * (1 / inject_Z Ne))%Q
              else value rho).
Proof.
  intros Hrho HNe. destruct (Z.ltb_spec 0 Ne) as [Hpos | Hnone].
  - unfold GenerateMesh.truediv. cbn [GenerateMesh.as_float].
    unfold SimulatorService.float_of_int.
    destruct (Z.leb_spec SimulatorService.float_limit (Z.abs Ne)); [lia |].
    py_simpl. rewrite divide_run
      by (intros Hz; unfold Qeq in Hz; simpl in Hz; lia).
    py_simpl. unfold GenerateMesh.mul.
    rewrite arith_float_r by exact Hrho.
    eexists. split; reflexivity.
  - exists rho. split; [reflexivity | apply as_float_run; exact Hrho].
Qed.

(** The two Lame constants for a float Poisson ratio: what the nine
    arithmetic steps come to. *)
Lemma lame_constants_run (E : GenerateMesh.number) (nu : Q) {A : Type}
    (k : Q -> Q -> py A) :
  has_double E ->
  (e_nu <- GenerateMesh.mul E (GenerateMesh.Float nu) ;;
   one_plus_nu <- GenerateMesh.add (GenerateMesh.Int 1)
                    (GenerateMesh.Float nu) ;;
   two_nu <- GenerateMesh.mul (GenerateMesh.Int 2) (GenerateMesh.Float nu) ;;
   one_minus_two_nu <- GenerateMesh.sub (GenerateMesh.Int 1) two_nu ;;
   denominator <- GenerateMesh.mul one_plus_nu one_minus_two_nu ;;
   lambda_lame <- GenerateMesh.truediv e_nu denominator ;;
   one_plus_nu <- GenerateMesh.add (GenerateMesh.Int 1)
                    (GenerateMesh.Float nu) ;;
   twice <- GenerateMesh.mul (GenerateMesh.Int 2) one_plus_nu ;;
   mu <- GenerateMesh.truediv E twice ;;
   k lambda_lame mu)
  = (lambda_lame <- GenerateMesh.divide (value E * nu)
                      ((1 + nu) * (1 - 2 * nu)) ;;
     mu <- GenerateMesh.divide (value E) (2 * (1 + nu)) ;;
     k lambda_lame mu).
Proof.
  intros HE. unfold GenerateMesh.mul, GenerateMesh.add, GenerateMesh.sub.
  rewrite (arith_float_r Z.mul Qmult E nu HE). py_simpl.
  rewrite (arith_float_r Z.add Qplus (GenerateMesh.Int 1) nu)
    by (apply int_has_double; simpl; lia).
  py_simpl.
  rewrite (arith_float_r Z.mul Qmult (GenerateMesh.Int 2) nu)
    by (apply int_has_double; simpl; lia).
  py_simpl.
  rewrite (arith_float_r Z.sub Qminus (GenerateMesh.Int 1))
    by (apply int_has_double; simpl; lia).
  py_simpl.
  rewrite (arith_float_r Z.mul Qmult (GenerateMesh.Float _)) by exact I.
  py_simpl.
  rewrite (truediv_float_r (GenerateMesh.Float _)) by exact I.
  cbn [value].
  destruct (GenerateMesh.divide _ _) as [e | lambda_lame]; py_simpl;
    [reflexivity |].
  rewrite (arith_float_r Z.mul Qmult (GenerateMesh.Int 2))
    by (apply int_has_double; simpl; lia).
  py_simpl.
  rewrite (truediv_float_r E) by exact HE. reflexivity.
Qed.

(** The run of [compute_stiffness_mass_matrices] on material values that
    have a double, a float Poisson ratio other than -1 and 1/2, and a
    non-negative node count. *)
Lemma stiffness_mass_run (mesh : GenerateMesh.MeshData)
    (E rho : GenerateMesh.number) (nu : Q) :
  let N := Trotter.get_default (GenerateMesh.num_nodes mesh) 0%Z in
  let Ne := Trotter.get_default (GenerateMesh.num_elements mesh) 0%Z in
  let n := Z.to_nat (N * 3) in
  let mass := if (0 <? Ne)%Z then (value rho * (1 / inject_Z Ne))%Q
              else value rho in
  (0 <= N)%Z ->
  has_double E -> has_double rho ->
  (Ne < SimulatorService.float_limit)%Z ->
  ~ (nu == -1)%Q -> ~ (nu == 1 # 2)%Q ->
  exists K1 M0,
    GenerateMesh.compute_stiffness_mass_matrices mesh
      (GenerateMesh.MkMaterialProperties (Some E)
         (Some (GenerateMesh.Float nu)) (Some rho))
    = inr (GenerateMesh.MkMatrices
             (HamiltonianPrep.MkArray true K1)
             (HamiltonianPrep.MkArray true M0)
             (N * 3)%Z
             (value E * nu / ((1 + nu) * (1 - 2 * nu)))%Q
             (value E / (2 * (1 + nu)))%Q)
    /\ shaped n K1 /\ shaped n M0
    /\ (forall a b,
          cell K1 a b
          = if touched n (GenerateMesh.range3 (N * 3 - 3)) a b
            then (- value E * (1 # 10000000))%Q
            else if (a =? b) && (a <? n) then (value E * (1 # 1000000))%Q
                 else 0%Q)
    /\ (forall a b,
          cell M0 a b = if (a =? b) && (a <? n) then mass else 0%Q).
Proof.
  cbv zeta. intros HN HE Hrho HNe Hnu1 Hnu2.
  unfold GenerateMesh.compute_stiffness_mass_matrices. cbv zeta.
  set (N := Trotter.get_default (GenerateMesh.num_nodes mesh) 0%Z) in *.
  set (Ne := Trotter.get_default (GenerateMesh.num_elements mesh) 0%Z) in *.
  cbn [GenerateMesh.young_modulus GenerateMesh.poisson_ratio
         GenerateMesh.density Trotter.subscript].
  py_simpl.
  rewrite (lame_constants_run E nu _ HE).
  rewrite divide_run
    by (intros Hz; apply Qmult_integral in Hz;
        destruct Hz as [Hz | Hz]; [apply Hnu1 | apply Hnu2]; lra).
  py_simpl.
  rewrite divide_run by (intros Hz; apply Hnu1; lra).
  py_simpl.
  destruct (Z.ltb_spec (N * 3) 0) as [Hneg | _]; [lia |]. py_simpl.
  set (n := Z.to_nat (N * 3)).
  assert (Hdiag : (v <- GenerateMesh.mul E
                          (GenerateMesh.Float (1 # 1000000)) ;;
                   GenerateMesh.as_float v)
                  = (inr (value E * (1 # 1000000))%Q : py Q)).
  { unfold GenerateMesh.mul. rewrite arith_float_r by exact HE.
    reflexivity. }
  assert (Hband : (v <- GenerateMesh.mul (GenerateMesh.neg E)
                          (GenerateMesh.Float (1 # 10000000)) ;;
                   GenerateMesh.as_float v)
                  = (inr (- value E * (1 # 10000000))%Q : py Q)).
  { unfold GenerateMesh.mul.
    rewrite arith_float_r by (apply has_double_neg; exact HE).
    rewrite value_neg. reflexivity. }
  destruct (fill_diagonal_spec n _ _ (seq 0 n) (GenerateMesh.zeros n)
              Hdiag (zeros_shaped n) (seq_below_all n))
    as [K0 [HK0 [HsK0 HcK0]]].
  rewrite HK0. py_simpl.
  destruct (couple_outer_spec n _ _ (GenerateMesh.range3 (N * 3 - 3)) K0
              Hband HsK0) as [K1 [HK1 [HsK1 HcK1]]].
  rewrite HK1. py_simpl.
  destruct (element_mass_run rho Ne Hrho HNe) as [avg [Havg Hmass]].
  rewrite Havg. py_simpl.
  destruct (fill_diagonal_spec n _ _ (seq 0 n) (GenerateMesh.zeros n)
              Hmass (zeros_shaped n) (seq_below_all n))
    as [M0 [HM0 [HsM0 HcM0]]].
  rewrite HM0. py_simpl.
  exists K1, M0. split; [reflexivity |].
  split; [exact HsK1 |]. split; [exact HsM0 |]. split.
  - intros a b. rewrite HcK1, HcK0, zeros_cell, existsb_seq. reflexivity.
  - intros a b. rewrite HcM0, zeros_cell, existsb_seq. reflexivity.
Qed.

(** X16.  For [N >= 0] nodes, a Young modulus and a density that have a
    double (any float, any int that converts), an element count that has
    one, and a float Poisson ratio other than -1 and 1/2,
    [compute_stiffness_mass_matrices] returns sparse square matrices of
    side [3 N].  The stiffness matrix has [E * 1e-6] on its diagonal,
    [-E * 1e-7] exactly where row and column differ by 3 (the same degree of
    freedom of the next node) and 0 elsewhere, so it is symmetric; the mass
    matrix is diagonal with [density / num_elements] (or [density] when
    there is no element); the Lame constants are the textbook ones. *)
Theorem stiffness_mass_structure (mesh : GenerateMesh.MeshData)
    (E rho : GenerateMesh.number) (nu : Q) :
  let N := Trotter.get_default (GenerateMesh.num_nodes mesh) 0%Z in
  let Ne := Trotter.get_default (GenerateMesh.num_elements mesh) 0%Z in
  let n := 3 * Z.to_nat N in
  let mass := if (0 <? Ne)%Z then (value rho * (1 / inject_Z Ne))%Q
              else value rho in
  (0 <= N)%Z ->
  has_double E -> has_double rho ->
  (Ne < SimulatorService.float_limit)%Z ->
  ~ (1 + nu == 0)%Q ->
  ~ (1 - 2 * nu == 0)%Q ->
  exists r,
    GenerateMesh.compute_stiffness_mass_matrices mesh
      (GenerateMesh.MkMaterialProperties (Some E)
         (Some (GenerateMesh.Float nu)) (Some rho))
    = inr r
    /\ GenerateMesh.num_dofs r = (N * 3)%Z
    /\ HamiltonianPrep.issparse (GenerateMesh.K r) = true
    /\ HamiltonianPrep.issparse (GenerateMesh.M r) = true
    /\ shaped n (HamiltonianPrep.data (GenerateMesh.K r))
    /\ shaped n (HamiltonianPrep.data (GenerateMesh.M r))
    /\ (forall a b, a < n -> b < n ->
          cell (HamiltonianPrep.data (GenerateMesh.K r)) a b
          = stiffness_entry (value E) a b)
    /\ (forall a b, a < n -> b < n ->
          cell (HamiltonianPrep.data (GenerateMesh.K r)) a b
          = cell (HamiltonianPrep.data (GenerateMesh.K r)) b a)
    /\ (forall a b, a < n -> b < n ->
          cell (HamiltonianPrep.data (GenerateMesh.M r)) a b
          = if a =? b then mass else 0%Q)
    /\ (GenerateMesh.lambda r
        == value E * nu / ((1 + nu) * (1 - 2 * nu)))%Q
    /\ (GenerateMesh.mu r == value E / (2 * (1 + nu)))%Q.
Proof.
  cbv zeta. intros HN HE Hrho HNe Hnu1 Hnu2.
  destruct (stiffness_mass_run mesh E rho nu HN HE Hrho HNe)
    as [K1 [M0 [Hrun [HsK [HsM [HcK HcM]]]]]];
    [intros Hz; apply Hnu1; rewrite Hz; reflexivity
    | intros Hz; apply Hnu2; rewrite Hz; reflexivity |].
  set (N := Trotter.get_default (GenerateMesh.num_nodes mesh) 0%Z) in *.
  assert (Hn : Z.to_nat (N * 3) = 3 * Z.to_nat N) by lia.
  rewrite Hn in HsK, HsM, HcK, HcM. set (n := 3 * Z.to_nat N) in *.
  eexists. split; [exact Hrun |].
  cbn [GenerateMesh.num_dofs GenerateMesh.K GenerateMesh.M
         GenerateMesh.lambda GenerateMesh.mu HamiltonianPrep.issparse
         HamiltonianPrep.data].
  assert (HK : forall a b, a < n -> b < n ->
                 cell K1 a b = stiffness_entry (value E) a b).
  { intros a b Ha Hb. rewrite HcK.
    pose proof (touched_band (Z.to_nat N) a b Ha Hb) as Hband.
    replace (Z.of_nat (3 * Z.to_nat N) - 3)%Z with (N * 3 - 3)%Z in Hband
      by lia.
    fold n in Hband. rewrite Hband.
    unfold stiffness_entry.
    destruct (Nat.eqb_spec a b) as [-> | Hab].
    - destruct (Nat.eqb_spec b (b + 3)); [lia |].
      destruct (Nat.ltb_spec b n); [reflexivity | lia].
    - simpl. destruct ((b =? a + 3) || (a =? b + 3)); reflexivity. }
  split; [reflexivity |]. split; [reflexivity |]. split; [reflexivity |].
  split; [exact HsK |]. split; [exact HsM |]. split; [exact HK |].
  split.
  - intros a b Ha Hb. rewrite !HK by assumption. unfold stiffness_entry.
    rewrite (Nat.eqb_sym b a), (orb_comm (a =? b + 3)). reflexivity.
  - split; [| split; reflexivity].
    intros a b Ha Hb. rewrite HcM.
    destruct (Nat.eqb_spec a b); simpl; [| reflexivity].
    destruct (Nat.ltb_spec a n); [reflexivity | lia].
Qed.

(** X16 on two nodes of steel-like material (E the int 10, nu = 3/10): six
    degrees of freedom, and the entry coupling the x displacements of the
    two nodes is [-E * 1e-7]. *)
Lemma stiffness_mass_structure_witness :
  exists r,
    GenerateMesh.compute_stiffness_mass_matrices
      (GenerateMesh.MkMeshData (Some 2%Z) (Some 1%Z))
      (GenerateMesh.MkMaterialProperties (Some (GenerateMesh.Int 10))
         (Some (GenerateMesh.Float (3 # 10)))
         (Some (GenerateMesh.Float 7)))
    = inr r
    /\ GenerateMesh.num_dofs r = 6%Z
    /\ cell (HamiltonianPrep.data (GenerateMesh.K r)) 0 3
       = (- (10) * (1 # 10000000))%Q
    /\ cell (HamiltonianPrep.data (GenerateMesh.K r)) 0 1 = 0%Q.
Proof.
  destruct (stiffness_mass_structure
              (GenerateMesh.MkMeshData (Some 2%Z) (Some 1%Z))
              (GenerateMesh.Int 10) (GenerateMesh.Float 7) (3 # 10))
    as [r [Hrun [Hdofs [_ [_ [_ [_ [HK _]]]]]]]];
    [simpl; lia | reflexivity | exact I | reflexivity | discriminate
    | discriminate |].
  exists r. split; [exact Hrun |]. split; [exact Hdofs |].
  split; apply HK; simpl; lia.
Defined.

(** X17.  When and how [compute_stiffness_mass_matrices] fails.  It
    returns only when the three material keys are present, and a missing
    Young modulus raises [KeyError] before anything else is looked at.  For
    a float Poisson ratio: a Young modulus that is an int without a double
    raises [OverflowError] at the first product, whatever else; when the
    Young modulus, the density and the element count all have a double, the
    call returns exactly when the Poisson ratio is neither -1 nor 1/2 and
    the node count is not negative (the mesh keys may be absent: zero
    nodes, empty matrices), and an incompressible material, [nu = 0.5],
    ends in [ZeroDivisionError]. *)
Theorem stiffness_mass_returns (mesh : GenerateMesh.MeshData)
    (props : GenerateMesh.MaterialProperties) :
  let N := Trotter.get_default (GenerateMesh.num_nodes mesh) 0%Z in
  let Ne := Trotter.get_default (GenerateMesh.num_elements mesh) 0%Z in
  let result := GenerateMesh.compute_stiffness_mass_matrices mesh props in
  ((exists r, result = inr r) ->
   exists E nu rho,
     props = GenerateMesh.MkMaterialProperties (Some E) (Some nu) (Some rho))
  /\ (GenerateMesh.young_modulus props = None ->
      result = inl (KeyError "young_modulus"))
  /\ forall E nu rho,
       props = GenerateMesh.MkMaterialProperties (Some E)
                 (Some (GenerateMesh.Float nu)) (Some rho) ->
       (~ has_double E -> result = inl OverflowError)
       /\ (has_double E -> (nu == 1 # 2)%Q ->
           result = inl ZeroDivisionError)
       /\ (has_double E -> has_double rho ->
           (Ne < SimulatorService.float_limit)%Z ->
           ((exists r, result = inr r)
            <-> (~ (nu == -1)%Q /\ ~ (nu == 1 # 2)%Q /\ (0 <= N)%Z))).
Proof.
  cbv zeta. split; [| split].
  { intros [r Hr]. destruct props as [[E |] [nu |] [rho |]];
      try discriminate Hr.
    exists E, nu, rho. reflexivity. }
  { intros Hnone. unfold GenerateMesh.compute_stiffness_mass_matrices.
    rewrite Hnone. reflexivity. }
  intros E nu rho ->. split; [| split].
  - intros HE. unfold GenerateMesh.compute_stiffness_mass_matrices.
    cbv zeta.
    cbn [GenerateMesh.young_modulus GenerateMesh.poisson_ratio
           GenerateMesh.density Trotter.subscript].
    py_simpl. unfold GenerateMesh.mul at 1.
    rewrite arith_overflow by exact HE. reflexivity.
  - intros HE Hnu. unfold GenerateMesh.compute_stiffness_mass_matrices.
    cbv zeta.
    cbn [GenerateMesh.young_modulus GenerateMesh.poisson_ratio
           GenerateMesh.density Trotter.subscript].
    py_simpl. rewrite (lame_constants_run E nu _ HE).
    rewrite divide_zero; [reflexivity |]. rewrite Hnu. reflexivity.
  - intros HE Hrho HNe. split.
    + intros [r Hr].
      unfold GenerateMesh.compute_stiffness_mass_matrices in Hr.
      cbv zeta in Hr.
      cbn [GenerateMesh.young_modulus GenerateMesh.poisson_ratio
             GenerateMesh.density Trotter.subscript] in Hr.
      rewrite !ret_inr, !bind_inr in Hr.
      rewrite (lame_constants_run E nu _ HE) in Hr.
      destruct (Qeq_dec ((1 + nu) * (1 - 2 * nu)) 0) as [Hz | Hnz].
      { rewrite (divide_zero _ _ Hz) in Hr. discriminate Hr. }
      rewrite (divide_run _ _ Hnz), bind_inr in Hr.
      assert (Hnu1 : ~ (nu == -1)%Q).
      { intros Hnu. apply Hnz. rewrite Hnu. reflexivity. }
      assert (Hnu2 : ~ (nu == 1 # 2)%Q).
      { intros Hnu. apply Hnz. rewrite Hnu. reflexivity. }
      split; [exact Hnu1 |]. split; [exact Hnu2 |].
      rewrite divide_run in Hr by (intros Hz; apply Hnu1; lra).
      rewrite bind_inr in Hr.
      destruct (Z.ltb_spec
                  (Trotter.get_default (GenerateMesh.num_nodes mesh) 0 * 3)%Z
                  0%Z) as [Hneg | Hpos]; [| lia].
      cbv iota in Hr. rewrite raise_inl, bind_inl in Hr. discriminate Hr.
    + intros [Hnu1 [Hnu2 HN]].
      destruct (stiffness_mass_run mesh E rho nu HN HE Hrho HNe Hnu1 Hnu2)
        as [K1 [M0 [Hr _]]].
      eexists. exact Hr.
Qed.

(* ===================================================================== *)
(** ** mesh_processor.compute_matrices                                    *)
(* ===================================================================== *)

(** X18.  [MeshProcessor.compute_matrices] never returns: whatever the file
    and the material, its call of [compute_stiffness_mass_matrices] with one
    argument for two required parameters raises [TypeError]. *)
Theorem compute_matrices_always_raises (file_path : string)
    (material_properties : GenerateMesh.MaterialProperties) :
  exists message,
    MeshProcessor.compute_matrices file_path material_properties
    = inl (TypeError message).
Proof. eexists. reflexivity. Qed.

(* ===================================================================== *)
(** ** api.utils: what the validators let through                         *)
(* ===================================================================== *)

Lemma not_positive_false (v : ApiUtils.pyval) :
  ApiUtils.not_positive_number v = false ->
  exists x, ApiUtils.number v = Some x /\ ApiUtils.fle x 0 = false.
Proof.
  unfold ApiUtils.not_positive_number.
  destruct (ApiUtils.number v) as [x |]; [| discriminate].
  intros Hx. exists x. split; [reflexivity | exact Hx].
Qed.

Lemma fle_finite (q : Q) :
  ApiUtils.fle (ApiUtils.Finite q) 0 = false -> (0 < q)%Q.
Proof.
  simpl. intros Hq. apply Qnot_le_lt. intros Hle.
  apply Qle_bool_iff in Hle. congruence.
Qed.

(** A number strictly between 0 and 1/2 is a float: no int, and no bool,
    lies there. *)
Lemma open_unit_half_float (v : ApiUtils.pyval) (x : ApiUtils.pyfloat) :
  ApiUtils.number v = Some x ->
  ApiUtils.fgt x 0 && ApiUtils.flt x (1 # 2) = true ->
  exists nu,
    v = ApiUtils.VFloat (ApiUtils.Finite nu) /\ (0 < nu)%Q /\ (nu < 1 # 2)%Q.
Proof.
  intros Hv Hrange. apply andb_true_iff in Hrange.
  destruct Hrange as [Hlow Hhigh].
  destruct v as [| b | z | y | |]; simpl in Hv; try discriminate Hv;
    injection Hv as <-.
  - destruct b; simpl in Hlow, Hhigh; discriminate.
  - simpl in Hlow, Hhigh. apply Qltb_true in Hlow. apply Qltb_true in Hhigh.
    unfold Qlt in Hlow, Hhigh. simpl in Hlow, Hhigh. lia.
  - destruct y as [nu | | |]; simpl in Hlow, Hhigh; try discriminate.
    apply Qltb_true in Hlow. apply Qltb_true in Hhigh.
    exists nu. repeat split; assumption.
Qed.

(** A positive number of a request body is a positive material value. *)
Lemma as_number_positive (v : ApiUtils.pyval) (x : ApiUtils.pyfloat)
    (a : GenerateMesh.number) :
  ApiUtils.number v = Some x -> ApiUtils.fle x 0 = false ->
  as_number v = Some a -> (0 < value a)%Q.
Proof.
  intros Hv Hpos Ha.
  destruct v as [| b | z | y | |]; simpl in Hv, Ha; try discriminate Hv;
    injection Hv as <-.
  - injection Ha as <-. apply fle_finite in Hpos.
    destruct b; exact Hpos.
  - injection Ha as <-. apply fle_finite in Hpos. exact Hpos.
  - destruct y as [q | | |]; try discriminate Ha.
    injection Ha as <-. apply fle_finite in Hpos. exact Hpos.
Qed.

(** X19.  A dictionary accepted by [validate_material_properties] has the
    three keys bound to numbers (booleans count), none of them [<= 0], and
    its Poisson ratio is a finite float strictly between 0 and 1/2; NaN and
    [Infinity] pass as Young modulus or density, and so does an int of any
    size.  When those two are ints or finite floats they are positive, and
    [compute_stiffness_mass_matrices] then returns on every mesh with a
    non-negative node count, with positive Lame constants, provided the
    ints among them and the element count have a double; an accepted int
    Young modulus without one, such as [10 ** 400], makes the call raise
    [OverflowError]. *)
Theorem validated_material_properties (d : list (string * ApiUtils.pyval)) :
  ApiUtils.validate_material_properties (ApiUtils.ADict d) = true ->
  exists vE vrho xE nu xrho,
    ApiUtils.lookup "young_modulus" d = Some vE
    /\ ApiUtils.number vE = Some xE /\ ApiUtils.fle xE 0 = false
    /\ ApiUtils.lookup "poisson_ratio" d
       = Some (ApiUtils.VFloat (ApiUtils.Finite nu))
    /\ (0 < nu)%Q /\ (nu < 1 # 2)%Q
    /\ ApiUtils.lookup "density" d = Some vrho
    /\ ApiUtils.number vrho = Some xrho /\ ApiUtils.fle xrho 0 = false
    /\ forall E rho mesh,
         as_number vE = Some E -> as_number vrho = Some rho ->
         (0 <= Trotter.get_default (GenerateMesh.num_nodes mesh) 0)%Z ->
         let result :=
           GenerateMesh.compute_stiffness_mass_matrices mesh
             (GenerateMesh.MkMaterialProperties (Some E)
                (Some (GenerateMesh.Float nu)) (Some rho)) in
         (0 < value E)%Q /\ (0 < value rho)%Q
         /\ (has_double E -> has_double rho ->
             (Trotter.get_default (GenerateMesh.num_elements mesh) 0
              < SimulatorService.float_limit)%Z ->
             exists r,
               result = inr r
               /\ (0 < GenerateMesh.lambda r)%Q
               /\ (0 < GenerateMesh.mu r)%Q)
         /\ (~ has_double E -> result = inl OverflowError).
Proof.
  unfold ApiUtils.validate_material_properties, ApiUtils.required_fields.
  cbn [ApiUtils.check_fields].
  destruct (ApiUtils.lookup "young_modulus" d) as [vE |]; [| discriminate].
  destruct (ApiUtils.not_positive_number vE) eqn:HE; [discriminate |].
  destruct (ApiUtils.lookup "poisson_ratio" d) as [vnu |]; [| discriminate].
  destruct (ApiUtils.not_positive_number vnu) eqn:Hnu; [discriminate |].
  destruct (ApiUtils.lookup "density" d) as [vrho |]; [| discriminate].
  destruct (ApiUtils.not_positive_number vrho) eqn:Hrho; [discriminate |].
  destruct (not_positive_false vE HE) as [xE [HxE HposE]].
  destruct (not_positive_false vrho Hrho) as [xrho [Hxrho Hposrho]].
  destruct (ApiUtils.number vnu) as [x |] eqn:Hxnu; [| discriminate].
  intros Hrange.
  destruct (open_unit_half_float vnu x Hxnu Hrange) as [nu [-> [Hlow Hhigh]]].
  exists vE, vrho, xE, nu, xrho.
  repeat (split; [first [reflexivity | assumption] |]).
  intros E rho mesh HvE Hvrho HN. cbv zeta.
  pose proof (as_number_positive vE xE E HxE HposE HvE) as HEpos.
  pose proof (as_number_positive vrho xrho rho Hxrho Hposrho Hvrho)
    as Hrhopos.
  split; [exact HEpos |]. split; [exact Hrhopos |]. split.
  - intros HdE Hdrho HNe.
    destruct (stiffness_mass_run mesh E rho nu HN HdE Hdrho HNe)
      as [K1 [M0 [Hr _]]]; [lra | lra |].
    eexists. split; [exact Hr |].
    cbn [GenerateMesh.lambda GenerateMesh.mu]. split.
    + apply Qlt_shift_div_l; [nra | nra].
    + apply Qlt_shift_div_l; [lra | nra].
  - intros HdE. unfold GenerateMesh.compute_stiffness_mass_matrices.
    cbv zeta.
    cbn [GenerateMesh.young_modulus GenerateMesh.poisson_ratio
           GenerateMesh.density Trotter.subscript].
    py_simpl. unfold GenerateMesh.mul at 1.
    rewrite arith_overflow by exact HdE. reflexivity.
Qed.

(** X19 on the steel preset of the configuration, with its description
    key and an int density, and a mesh of two nodes. *)
Lemma validated_material_properties_witness :
  exists r,
    GenerateMesh.compute_stiffness_mass_matrices
      (GenerateMesh.MkMeshData (Some 2%Z) (Some 1%Z))
      (GenerateMesh.MkMaterialProperties
         (Some (GenerateMesh.Float 200000000000))
         (Some (GenerateMesh.Float (3 # 10)))
         (Some (GenerateMesh.Int 7850))) = inr r
    /\ (0 < GenerateMesh.lambda r)%Q.
Proof.
  destruct (validated_material_properties
              [("young_modulus"%string,
                ApiUtils.VFloat (ApiUtils.Finite 200000000000));
               ("poisson_ratio"%string,
                ApiUtils.VFloat (ApiUtils.Finite (3 # 10)));
               ("density"%string, ApiUtils.VInt 7850);
               ("description"%string, ApiUtils.VStr "Structural steel")]
              eq_refl)
    as (vE & vrho & xE & nu & xrho & HvE & _ & _ & Hvnu & _ & _ & Hvrho
        & _ & _ & Hrun).
  simpl in HvE, Hvnu, Hvrho.
  injection HvE as <-. injection Hvnu as <-. injection Hvrho as <-.
  destruct (Hrun (GenerateMesh.Float 200000000000) (GenerateMesh.Int 7850)
              (GenerateMesh.MkMeshData (Some 2%Z) (Some 1%Z))
              eq_refl eq_refl ltac:(simpl; lia))
    as [_ [_ [Hreturns _]]].
  destruct Hreturns as [r [Hr [Hlambda _]]];
    [exact I | reflexivity | reflexivity |].
  exists r. split; [exact Hr | exact Hlambda].
Defined.

(** The finding behind X19 on [10 ** 400] as Young modulus: accepted by the
    validator, refused by the arithmetic. *)
Lemma huge_modulus_accepted_then_raises :
  ApiUtils.validate_material_properties
    (ApiUtils.ADict
       [("young_modulus"%string, ApiUtils.VInt (10 ^ 400));
        ("poisson_ratio"%string, ApiUtils.VFloat (ApiUtils.Finite (3 # 10)));
        ("density"%string, ApiUtils.VInt 7850)]) = true
  /\ GenerateMesh.compute_stiffness_mass_matrices
       (GenerateMesh.MkMeshData (Some 2%Z) (Some 1%Z))
       (GenerateMesh.MkMaterialProperties
          (Some (GenerateMesh.Int (10 ^ 400)))
          (Some (GenerateMesh.Float (3 # 10)))
          (Some (GenerateMesh.Int 7850))) = inl OverflowError.
Proof. split; vm_compute; reflexivity. Qed.



(* ===================================================================== *)
(** ** generate_simple_mesh                                               *)
(* ===================================================================== *)

Lemma range_length (m : Z) : length (Trotter.range m) = Z.to_nat m.
Proof. unfold Trotter.range. rewrite length_map. apply length_seq. Qed.

Lemma range_in (m x : Z) : In x (Trotter.range m) <-> (0 <= x < m)%Z.
Proof.
  unfold Trotter.range. rewrite in_map_iff. split.
  - intros [i [<- Hi]]. apply in_seq in Hi. lia.
  - intros Hx. exists (Z.to_nat x). split; [lia | apply in_seq; lia].
Qed.

Lemma range_nth (m : Z) (i : nat) (d : Z) :
  i < Z.to_nat m -> nth i (Trotter.range m) d = Z.of_nat i.
Proof.
  intros Hi. unfold Trotter.range.
  rewrite (nth_map_in _ _ _ 0) by (rewrite length_seq; exact Hi).
  rewrite seq_nth by exact Hi. reflexivity.
Qed.

Lemma flat_map_const_length {A B : Type} (f : A -> list B) (c : nat)
    (l : list A) :
  (forall x, length (f x) = c) -> length (flat_map f l) = length l * c.
Proof.
  intros Hf. induction l as [| x l IH]; simpl; [reflexivity |].
  rewrite length_app, Hf, IH. reflexivity.
Qed.

Lemma flat_map_const_nth {A B : Type} (f : A -> list B) (c : nat)
    (l : list A) (a b : nat) (dA : A) (dB : B) :
  (forall x, length (f x) = c) -> a < length l -> b < c ->
  nth (a * c + b) (flat_map f l) dB = nth b (f (nth a l dA)) dB.
Proof.
  intros Hf. revert a. induction l as [| x l IH]; intros a Ha Hb;
    simpl in Ha; [lia |].
  simpl flat_map. destruct a as [| a].
  - simpl. apply app_nth1. rewrite Hf. exact Hb.
  - rewrite app_nth2 by (rewrite Hf; simpl; lia).
    rewrite Hf. replace (S a * c + b - c) with (a * c + b) by (simpl; lia).
    simpl nth. apply IH; [lia | exact Hb].
Qed.

Lemma grid_length (m : Z) :
  length (GenerateMesh.grid m) = Z.to_nat m * (Z.to_nat m * Z.to_nat m).
Proof.
  unfold GenerateMesh.grid, GenerateMesh.range.
  rewrite (flat_map_const_length _ (Z.to_nat m * Z.to_nat m)).
  - rewrite range_length. reflexivity.
  - intros i. rewrite (flat_map_const_length _ (Z.to_nat m)).
    + rewrite range_length. reflexivity.
    + intros j. rewrite length_map. apply range_length.
Qed.

Lemma grid_in (m i j k : Z) :
  In (i, j, k) (GenerateMesh.grid m)
  -> (0 <= i < m)%Z /\ (0 <= j < m)%Z /\ (0 <= k < m)%Z.
Proof.
  unfold GenerateMesh.grid, GenerateMesh.range. intros Hin.
  apply in_flat_map in Hin. destruct Hin as [i' [Hi Hin]].
  apply in_flat_map in Hin. destruct Hin as [j' [Hj Hin]].
  apply in_map_iff in Hin. destruct Hin as [k' [Heq Hk]].
  injection Heq as <- <- <-.
  apply range_in in Hi. apply range_in in Hj. apply range_in in Hk.
  repeat split; lia.
Qed.

Lemma grid_nth (m : Z) (i j k : nat) (d : Z * Z * Z) :
  i < Z.to_nat m -> j < Z.to_nat m -> k < Z.to_nat m ->
  nth (i * (Z.to_nat m * Z.to_nat m) + (j * Z.to_nat m + k))
    (GenerateMesh.grid m) d
  = (Z.of_nat i, Z.of_nat j, Z.of_nat k).
Proof.
  intros Hi Hj Hk. unfold GenerateMesh.grid, GenerateMesh.range.
  rewrite (flat_map_const_nth _ (Z.to_nat m * Z.to_nat m) _ _ _ 0%Z).
  - rewrite (flat_map_const_nth _ (Z.to_nat m) _ _ _ 0%Z).
    + rewrite (nth_map_in _ _ _ 0%Z) by (rewrite range_length; exact Hk).
      rewrite !range_nth by assumption. reflexivity.
    + intros y. rewrite length_map. apply range_length.
    + rewrite range_length. exact Hj.
    + exact Hk.
  - intros x. rewrite (flat_map_const_length _ (Z.to_nat m)).
    + rewrite range_length. reflexivity.
    + intros y. rewrite length_map. apply range_length.
  - rewrite range_length. exact Hi.
  - nia.
Qed.

Lemma node_loop_run (n : Z) (size : Q) (ijk : list (Z * Z * Z))
    (acc : list (Q * Q * Q)) :
  n <> 0%Z ->
  GenerateMesh.node_loop n size ijk acc
  = inr (acc ++ map (grid_point n size) ijk).
Proof.
  intros Hn. revert acc.
  assert (Hnz : ~ (inject_Z n == 0)%Q).
  { intros Hz. unfold Qeq in Hz. simpl in Hz. lia. }
  induction ijk as [| [[i j] k] rest IH]; intros acc; simpl.
  - rewrite app_nil_r. reflexivity.
  - rewrite !divide_run by exact Hnz. py_simpl.
    rewrite IH, <- app_assoc. reflexivity.
Qed.

Lemma hexahedron_ok (n i j k : Z) :
  (1 <= n)%Z -> (0 <= i < n)%Z -> (0 <= j < n)%Z -> (0 <= k < n)%Z ->
  length (GenerateMesh.hexahedron n i j k) = 8
  /\ NoDup (GenerateMesh.hexahedron n i j k)
  /\ Forall (fun v => 0 <= v < (n + 1) * ((n + 1) * (n + 1)))%Z
       (GenerateMesh.hexahedron n i j k).
Proof.
  intros Hn Hi Hj Hk. unfold GenerateMesh.hexahedron. cbv zeta.
  set (m := (n + 1)%Z).
  assert (Hm : (2 <= m)%Z) by (unfold m; lia).
  set (q := (m * m)%Z).
  assert (Hq : (2 * m <= q)%Z) by (unfold q; nia).
  replace (i * m * m)%Z with (i * q)%Z by (unfold q; ring).
  assert (Hiq : (0 <= i * q <= (n - 1) * q)%Z) by nia.
  assert (Hjm : (0 <= j * m <= (n - 1) * m)%Z) by nia.
  assert (Hcube : (m * q = (n - 1) * q + (n - 1) * m + q + m + n + 1)%Z).
  { unfold q, m. ring. }
  set (n0 := (i * q + j * m + k)%Z).
  assert (Hn0 : (0 <= n0 <= (n - 1) * q + (n - 1) * m + (n - 1))%Z)
    by (unfold n0; lia).
  split; [reflexivity |]. split.
  - repeat (constructor; [simpl; lia |]). constructor.
  - fold q. rewrite Hcube. repeat (constructor; [lia |]). constructor.
Qed.

(** X21.  [generate_simple_mesh('cube', size, n)] with [n >= 1] returns
    [(n + 1) ** 3] nodes and [n ** 3] hexahedra.  The node of grid point
    [(i, j, k)] sits at index [i (n+1)^2 + j (n+1) + k] with coordinates
    [(i/n, j/n, k/n) * size], and every element lists eight distinct
    indices of existing nodes.  With [n = 0] the call raises
    [ZeroDivisionError], with [n < 0] it returns the empty mesh, and any
    other mesh type raises [ValueError]. *)
Theorem simple_mesh_structure (size : Q) (n : Z) (mesh_type : string) :
  ((1 <= n)%Z ->
   exists mesh,
     GenerateMesh.generate_simple_mesh "cube" size n = inr mesh
     /\ Z.of_nat (GenerateMesh.mesh_num_nodes mesh)
        = ((n + 1) * ((n + 1) * (n + 1)))%Z
     /\ Z.of_nat (GenerateMesh.mesh_num_elements mesh) = (n * (n * n))%Z
     /\ length (GenerateMesh.nodes mesh) = GenerateMesh.mesh_num_nodes mesh
     /\ length (GenerateMesh.elements mesh)
        = GenerateMesh.mesh_num_elements mesh
     /\ (forall i j k d,
           (0 <= i <= n)%Z -> (0 <= j <= n)%Z -> (0 <= k <= n)%Z ->
           nth (Z.to_nat (node_index n i j k)) (GenerateMesh.nodes mesh) d
           = grid_point n size (i, j, k))
     /\ Forall
          (fun e =>
             length e = 8 /\ NoDup e
             /\ Forall
                  (fun v =>
                     0 <= v < Z.of_nat (GenerateMesh.mesh_num_nodes mesh))%Z
                  e)
          (GenerateMesh.elements mesh))
  /\ GenerateMesh.generate_simple_mesh "cube" size 0 = inl ZeroDivisionError
  /\ ((n < 0)%Z ->
      GenerateMesh.generate_simple_mesh "cube" size n
      = inr (GenerateMesh.MkMesh [] [] 0 0))
  /\ (mesh_type <> "cube"%string ->
      GenerateMesh.generate_simple_mesh mesh_type size n
      = inl (ValueError ("Unsupported mesh type: " ++ mesh_type))).
Proof.
  split; [| split; [| split]].
  - intros Hn. unfold GenerateMesh.generate_simple_mesh.
    change (String.eqb "cube" "cube") with true. cbv iota zeta.
    rewrite node_loop_run by lia. py_simpl.
    eexists. split; [reflexivity |].
    cbn [GenerateMesh.mesh_num_nodes GenerateMesh.mesh_num_elements
           GenerateMesh.nodes GenerateMesh.elements].
    simpl app. rewrite !length_map, !grid_length.
    assert (Hnodes : Z.of_nat
                       (Z.to_nat (n + 1)
                        * (Z.to_nat (n + 1) * Z.to_nat (n + 1)))
                     = ((n + 1) * ((n + 1) * (n + 1)))%Z).
    { rewrite !Nat2Z.inj_mul, !Z2Nat.id by lia. reflexivity. }
    split; [exact Hnodes |].
    split; [rewrite !Nat2Z.inj_mul, !Z2Nat.id by lia; reflexivity |].
    split; [reflexivity |]. split; [reflexivity |]. split.
    + intros i j k d Hi Hj Hk.
      rewrite (nth_map_in _ _ _ (0%Z, 0%Z, 0%Z))
        by (rewrite grid_length; unfold node_index; nia).
      f_equal.
      replace (Z.to_nat (node_index n i j k))
        with (Z.to_nat i * (Z.to_nat (n + 1) * Z.to_nat (n + 1))
              + (Z.to_nat j * Z.to_nat (n + 1) + Z.to_nat k))
        by (unfold node_index; nia).
      rewrite grid_nth by lia. rewrite !Z2Nat.id by lia. reflexivity.
    + apply Forall_forall. intros e He.
      apply in_map_iff in He. destruct He as [[[i j] k] [<- Hin]].
      apply grid_in in Hin. destruct Hin as [Hi [Hj Hk]].
      rewrite Hnodes. apply hexahedron_ok; assumption.
  - reflexivity.
  - intros Hneg. unfold GenerateMesh.generate_simple_mesh.
    change (String.eqb "cube" "cube") with true. cbv iota zeta.
    assert (Hempty : forall m, (m <= 0)%Z -> GenerateMesh.grid m = []).
    { intros m Hm. unfold GenerateMesh.grid, GenerateMesh.range,
        Trotter.range.
      replace (Z.to_nat m) with 0 by lia. reflexivity. }
    rewrite !Hempty by lia. reflexivity.
  - intros Hother. unfold GenerateMesh.generate_simple_mesh.
    destruct (String.eqb_spec mesh_type "cube"); [contradiction |].
    reflexivity.
Qed.

(** X21 at resolution 1: eight nodes, one element listing all of them. *)
Lemma simple_mesh_structure_witness :
  exists mesh,
    GenerateMesh.generate_simple_mesh "cube" 2 1 = inr mesh
    /\ GenerateMesh.mesh_num_nodes mesh = 8
    /\ GenerateMesh.elements mesh = [[0; 1; 3; 2; 4; 5; 7; 6]%Z]
    /\ nth 7 (GenerateMesh.nodes mesh) (0, 0, 0)%Q
       = grid_point 1 2 (1, 1, 1)%Z.
Proof.
  destruct (simple_mesh_structure 2 1 "cube") as [Hmesh _].
  destruct Hmesh as [mesh [Hrun [Hnodes [_ [_ [_ [Hat _]]]]]]]; [lia |].
  exists mesh. split; [exact Hrun |]. split; [lia |].
  split; [vm_compute in Hrun; injection Hrun as <-; reflexivity |].
  apply (Hat 1%Z 1%Z 1%Z); lia.
Defined.

(* ===================================================================== *)
(** ** file_handler.delete_file_data                                      *)
(* ===================================================================== *)

Section DeleteFileData.

Import FileHandler.

Variable env : Environment.

Lemma exists_remove_self (fs : filesystem) (q : string) :
  exists_ (remove fs q) q = false.
Proof.
  unfold exists_, remove. induction fs as [| [k v] fs IH]; simpl;
    [reflexivity |].
  destruct (String.eqb_spec k q) as [-> | Hne]; simpl; [exact IH |].
  destruct (String.eqb_spec k q); [contradiction | exact IH].
Qed.

Lemma exists_remove_other (fs : filesystem) (q p : string) :
  p <> q -> exists_ (remove fs q) p = exists_ fs p.
Proof.
  intros Hpq. unfold exists_, remove.
  induction fs as [| [k v] fs IH]; simpl; [reflexivity |].
  destruct (String.eqb_spec k q) as [-> | Hne]; simpl.
  - destruct (String.eqb_spec q p); [congruence | exact IH].
  - rewrite IH. reflexivity.
Qed.

Lemma read_remove_other (fs : filesystem) (q p : string) :
  p <> q -> read (remove fs q) p = read fs p.
Proof.
  intros Hpq. unfold read, remove.
  induction fs as [| [k v] fs IH]; simpl; [reflexivity |].
  destruct (String.eqb_spec k q) as [-> | Hne]; simpl.
  - destruct (String.eqb_spec q p); [congruence | exact IH].
  - destruct (String.eqb_spec k p); [reflexivity | exact IH].
Qed.

Lemma exists_remove_le (fs : filesystem) (q p : string) :
  exists_ (remove fs q) p = true -> exists_ fs p = true.
Proof.
  destruct (string_dec p q) as [-> | Hne].
  - rewrite exists_remove_self. discriminate.
  - rewrite exists_remove_other by exact Hne. auto.
Qed.

Lemma only_removes_weaken (T T' : string -> Prop) (a : action) :
  (forall p, T p -> T' p) -> only_removes T a -> only_removes T' a.
Proof.
  intros Hsub Ha fs p. destruct (Ha fs p) as [Hle Hkeep].
  split; [exact Hle |]. intros Hp. apply Hkeep. intros HT.
  apply Hp, Hsub, HT.
Qed.

Lemma only_removes_skip (T : string -> Prop) : only_removes T skip.
Proof. intros fs p. simpl. split; [auto | intros _; split; reflexivity]. Qed.

Lemma only_removes_unlink (q : string) : only_removes (eq q) (unlink env q).
Proof.
  intros fs p. unfold unlink.
  destruct (locked env q || negb (exists_ fs q)); simpl.
  - split; [auto | intros _; split; reflexivity].
  - split; [apply exists_remove_le |].
    intros Hp. assert (Hne : p <> q) by congruence.
    split; [apply read_remove_other | apply exists_remove_other]; exact Hne.
Qed.

Lemma only_removes_unlink_if_exists (q : string) :
  only_removes (eq q) (unlink_if_exists env q).
Proof.
  intros fs p. unfold unlink_if_exists.
  destruct (exists_ fs q); [apply only_removes_unlink |].
  simpl. split; [auto | intros _; split; reflexivity].
Qed.

Lemma only_removes_andThen (T : string -> Prop) (a b : action) :
  only_removes T a -> only_removes T b -> only_removes T (andThen a b).
Proof.
  intros Ha Hb fs p. unfold andThen.
  destruct (a fs) as [fs1 ok] eqn:Ea.
  pose proof (Ha fs p) as [Hle1 Hkeep1]. rewrite Ea in Hle1, Hkeep1.
  simpl in Hle1, Hkeep1.
  destruct ok; [| simpl; split; assumption].
  destruct (Hb fs1 p) as [Hle2 Hkeep2]. split.
  - intros Hex. apply Hle1, Hle2, Hex.
  - intros Hp. destruct (Hkeep1 Hp) as [Hr1 He1].
    destruct (Hkeep2 Hp) as [Hr2 He2].
    split; congruence.
Qed.

Lemma only_removes_unlink_each (ps : list string) :
  only_removes (fun p => In p ps) (unlink_each env ps).
Proof.
  induction ps as [| q rest IH]; simpl.
  - apply only_removes_skip.
  - apply only_removes_andThen.
    + eapply only_removes_weaken; [| apply only_removes_unlink_if_exists].
      intros p <-. left. reflexivity.
    + eapply only_removes_weaken; [| exact IH].
      intros p Hp. right. exact Hp.
Qed.

Lemma only_removes_unlink_all (ps : list string) :
  only_removes (fun p => In p ps) (unlink_all env ps).
Proof.
  induction ps as [| q rest IH]; simpl.
  - apply only_removes_skip.
  - apply only_removes_andThen.
    + eapply only_removes_weaken; [| apply only_removes_unlink].
      intros p <-. left. reflexivity.
    + eapply only_removes_weaken; [| exact IH].
      intros p Hp. right. exact Hp.
Qed.

Lemma only_removes_exports (file_id : string) :
  only_removes (fun p => export_match env file_id p = true)
    (delete_exports env file_id).
Proof.
  intros fs p. unfold delete_exports.
  destruct (only_removes_unlink_all
              (nodup string_dec (filter (export_match env file_id)
                                   (map fst fs))) fs p) as [Hle Hkeep].
  split; [exact Hle |]. intros Hp. apply Hkeep. intros Hin.
  apply nodup_In, filter_In in Hin. apply Hp, Hin.
Qed.

(** A step that succeeded on a file that existed has removed it. *)
Lemma unlink_if_exists_gone (q : string) (fs : filesystem) :
  snd (unlink_if_exists env q fs) = true ->
  exists_ (fst (unlink_if_exists env q fs)) q = false.
Proof.
  unfold unlink_if_exists, unlink.
  destruct (exists_ fs q) eqn:Eq; [| intros _; exact Eq].
  destruct (locked env q || negb true); simpl; [discriminate |].
  intros _. apply exists_remove_self.
Qed.

Lemma unlink_each_gone (ps : list string) (fs : filesystem) (p : string) :
  snd (unlink_each env ps fs) = true -> In p ps ->
  exists_ (fst (unlink_each env ps fs)) p = false.
Proof.
  revert fs. induction ps as [| q rest IH]; intros fs Hok Hin;
    [destruct Hin |].
  simpl in *. unfold andThen in *.
  pose proof (unlink_if_exists_gone q fs) as Hgone.
  destruct (unlink_if_exists env q fs) as [fs1 ok]. simpl in Hgone.
  destruct ok; [| discriminate Hok].
  destruct (in_dec string_dec p rest) as [Hrest | Hnot].
  - apply IH; assumption.
  - destruct Hin as [<- | Hin]; [| contradiction].
    destruct (only_removes_unlink_each rest fs1 q) as [_ Hkeep].
    destruct (Hkeep Hnot) as [_ Hsame]. rewrite Hsame. apply Hgone.
    reflexivity.
Qed.

Lemma unlink_all_gone (ps : list string) (fs : filesystem) (p : string) :
  snd (unlink_all env ps fs) = true -> In p ps ->
  exists_ (fst (unlink_all env ps fs)) p = false.
Proof.
  revert fs. induction ps as [| q rest IH]; intros fs Hok Hin;
    [destruct Hin |].
  simpl in *. unfold andThen in *.
  assert (Hgone : snd (unlink env q fs) = true ->
                  exists_ (fst (unlink env q fs)) q = false).
  { unfold unlink. destruct (locked env q || negb (exists_ fs q)); simpl;
      [discriminate | intros _; apply exists_remove_self]. }
  destruct (unlink env q fs) as [fs1 ok]. simpl in Hgone.
  destruct ok; [| discriminate Hok].
  destruct (in_dec string_dec p rest) as [Hrest | Hnot].
  - apply IH; assumption.
  - destruct Hin as [<- | Hin]; [| contradiction].
    destruct (only_removes_unlink_all rest fs1 q) as [_ Hkeep].
    destruct (Hkeep Hnot) as [_ Hsame]. rewrite Hsame. apply Hgone.
    reflexivity.
Qed.

Lemma exists_in_keys (fs : filesystem) (p : string) :
  exists_ fs p = true -> In p (map fst fs).
Proof.
  unfold exists_. intros Hex. apply existsb_exists in Hex.
  destruct Hex as [entry [Hin Heq]]. apply String.eqb_eq in Heq.
  subst p. apply in_map. exact Hin.
Qed.

(** Once the metadata file is gone, the block that should delete the
    upload finds no metadata and does nothing. *)
Lemma delete_upload_idle (file_id : string) (fs : filesystem) :
  exists_ fs (metadata_file env file_id) = false ->
  delete_upload env file_id fs = (fs, true).
Proof.
  intros Hgone. unfold delete_upload, get_file_metadata.
  rewrite Hgone. reflexivity.
Qed.

Lemma delete_file_data_cases (file_id : string) (fs : filesystem) :
  delete_file_data env file_id fs
  = andThen (unlink_if_exists env (metadata_file env file_id))
      (andThen (unlink_each env (result_paths env file_id))
         (delete_exports env file_id)) fs.
Proof.
  unfold delete_file_data, andThen.
  pose proof (unlink_if_exists_gone (metadata_file env file_id) fs) as Hgone.
  destruct (unlink_if_exists env (metadata_file env file_id) fs)
    as [fs1 ok1]. simpl in Hgone.
  destruct ok1; [| reflexivity]. specialize (Hgone eq_refl).
  destruct (only_removes_unlink_each (result_paths env file_id) fs1
              (metadata_file env file_id)) as [Hle _].
  destruct (unlink_each env (result_paths env file_id) fs1) as [fs2 ok2].
  simpl in Hle. destruct ok2; [| reflexivity].
  rewrite delete_upload_idle; [reflexivity |].
  destruct (exists_ fs2 (metadata_file env file_id)); [| reflexivity].
  rewrite Hle in Hgone by reflexivity. discriminate Hgone.
Qed.

End DeleteFileData.

Lemma delete_file_data_clears (env : FileHandler.Environment)
    (file_id : string) (fs : FileHandler.filesystem) :
  snd (FileHandler.delete_file_data env file_id fs) = true ->
  forall p, bookkeeping env file_id p ->
    FileHandler.exists_
      (fst (FileHandler.delete_file_data env file_id fs)) p = false.
Proof.
  rewrite delete_file_data_cases. unfold FileHandler.andThen.
  pose proof (unlink_if_exists_gone env
                (FileHandler.metadata_file env file_id) fs) as Hmeta.
  destruct (FileHandler.unlink_if_exists env
              (FileHandler.metadata_file env file_id) fs) as [fs1 ok1].
  simpl in Hmeta. destruct ok1; [| discriminate].
  specialize (Hmeta eq_refl).
  pose proof (unlink_each_gone env
                (FileHandler.result_paths env file_id) fs1) as Hres.
  pose proof (only_removes_unlink_each env
                (FileHandler.result_paths env file_id) fs1) as Hkeep1.
  destruct (FileHandler.unlink_each env
              (FileHandler.result_paths env file_id) fs1) as [fs2 ok2].
  simpl in Hres, Hkeep1. destruct ok2; [| discriminate].
  intros Hok p Hp.
  pose proof (only_removes_exports env file_id fs2 p) as [Hle _].
  destruct (FileHandler.exists_
              (fst (FileHandler.delete_exports env file_id fs2)) p)
    eqn:Hafter; [| reflexivity].
  exfalso. specialize (Hle eq_refl).
  destruct (FileHandler.export_match env file_id p) eqn:Hmatch.
  - unfold FileHandler.delete_exports in Hafter, Hok.
    rewrite (unlink_all_gone env _ fs2 p Hok) in Hafter;
      [discriminate |].
    apply nodup_In, filter_In. split; [| exact Hmatch].
    apply exists_in_keys. exact Hle.
  - destruct Hp as [-> | [Hp | Hp]]; [| | congruence].
    + destruct (Hkeep1 (FileHandler.metadata_file env file_id))
        as [Hle1 _].
      rewrite Hle1 in Hmeta by exact Hle. discriminate.
    + rewrite (Hres p eq_refl Hp) in Hle. discriminate.
Qed.

(** X22.  [delete_file_data] never deletes the uploaded mesh.  Whatever
    the metadata says, the call equals the same sequence without the
    upload block (the metadata file is unlinked first, so the later
    [get_file_metadata] returns [None]); hence every file that is neither
    the metadata file, a result or summary file, nor an export matching
    the identifier keeps its content, no file is created, and when [True]
    is returned all those bookkeeping files are gone. *)
Theorem delete_file_data_keeps_upload (env : FileHandler.Environment)
    (file_id : string) (fs : FileHandler.filesystem) :
  FileHandler.delete_file_data env file_id fs
  = FileHandler.andThen
      (FileHandler.unlink_if_exists env
         (FileHandler.metadata_file env file_id))
      (FileHandler.andThen
         (FileHandler.unlink_each env (FileHandler.result_paths env file_id))
         (FileHandler.delete_exports env file_id)) fs
  /\ only_removes (bookkeeping env file_id)
       (FileHandler.delete_file_data env file_id)
  /\ (snd (FileHandler.delete_file_data env file_id fs) = true ->
      forall p, bookkeeping env file_id p ->
        FileHandler.exists_
          (fst (FileHandler.delete_file_data env file_id fs)) p = false).
Proof.
  split; [apply delete_file_data_cases |].
  assert (Hsteps : only_removes (bookkeeping env file_id)
                     (FileHandler.andThen
                        (FileHandler.unlink_if_exists env
                           (FileHandler.metadata_file env file_id))
                        (FileHandler.andThen
                           (FileHandler.unlink_each env
                              (FileHandler.result_paths env file_id))
                           (FileHandler.delete_exports env file_id)))).
  { apply only_removes_andThen; [| apply only_removes_andThen].
    - eapply only_removes_weaken;
        [| apply only_removes_unlink_if_exists].
      intros p <-. left. reflexivity.
    - eapply only_removes_weaken; [| apply only_removes_unlink_each].
      intros p Hp. right. left. exact Hp.
    - eapply only_removes_weaken; [| apply only_removes_exports].
      intros p Hp. right. right. exact Hp. }
  split.
  - intros fs0 p. rewrite delete_file_data_cases. apply Hsteps.
  - apply delete_file_data_clears.
Qed.

(** X22 on a store holding one upload with its metadata, a result and an
    export: the call returns [True], the bookkeeping files are gone and the
    uploaded mesh is still there. *)
Lemma delete_file_data_keeps_upload_witness :
  snd (FileHandler.delete_file_data plain_layout "f1" uploaded_once) = true
  /\ FileHandler.read
       (fst (FileHandler.delete_file_data plain_layout "f1" uploaded_once))
       "uploads/a.vtk" = Some "mesh"%string
  /\ FileHandler.exists_
       (fst (FileHandler.delete_file_data plain_layout "f1" uploaded_once))
       "temp/metadata/f1.json" = false.
Proof.
  destruct (delete_file_data_keeps_upload plain_layout "f1" uploaded_once)
    as [_ [Honly Hgone]].
  split; [reflexivity |]. split.
  - destruct (Honly uploaded_once "uploads/a.vtk"%string) as [_ Hkeep].
    destruct Hkeep as [Hread _]; [| rewrite Hread; reflexivity].
    intros [Hp | [Hp | Hp]]; [discriminate Hp | | discriminate Hp].
    simpl in Hp. intuition discriminate.
  - apply Hgone; [reflexivity |]. left. reflexivity.
Defined.

(* ===================================================================== *)
(** ** analyze_hamiltonian                                                *)
(* ===================================================================== *)

Lemma fold_max_spec (tl : list Q) (x : Q) :
  let r := fold_left (fun m y => if Qltb m y then y else m) tl x in
  In r (x :: tl) /\ forall y, In y (x :: tl) -> (y <= r)%Q.
Proof.
  revert x. induction tl as [| z tl IH]; intros x; simpl.
  - split; [left; reflexivity |].
    intros y [<- | []]. apply Qle_refl.
  - destruct (Qltb x z) eqn:Exz.
    + apply Qltb_true in Exz. destruct (IH z) as [Hin Hmax]. split.
      * right. exact Hin.
      * intros y [<- | Hy]; [| apply Hmax, Hy].
        apply Qle_trans with z; [apply Qlt_le_weak, Exz |].
        apply Hmax. left. reflexivity.
    + apply Qltb_false in Exz. destruct (IH x) as [Hin Hmax]. split.
      * destruct Hin as [<- | Hin]; [left; reflexivity | right; right].
        exact Hin.
      * intros y [<- | [<- | Hy]].
        -- apply Hmax. left. reflexivity.
        -- apply Qle_trans with x; [exact Exz |].
           apply Hmax. left. reflexivity.
        -- apply Hmax. right. exact Hy.
Qed.

Lemma fold_min_spec (tl : list Q) (x : Q) :
  let r := fold_left (fun m y => if Qltb y m then y else m) tl x in
  In r (x :: tl) /\ forall y, In y (x :: tl) -> (r <= y)%Q.
Proof.
  revert x. induction tl as [| z tl IH]; intros x; simpl.
  - split; [left; reflexivity |].
    intros y [<- | []]. apply Qle_refl.
  - destruct (Qltb z x) eqn:Ezx.
    + apply Qltb_true in Ezx. destruct (IH z) as [Hin Hmin]. split.
      * right. exact Hin.
      * intros y [<- | Hy]; [| apply Hmin, Hy].
        apply Qle_trans with z; [| apply Qlt_le_weak, Ezx].
        apply Hmin. left. reflexivity.
    + apply Qltb_false in Ezx. destruct (IH x) as [Hin Hmin]. split.
      * destruct Hin as [<- | Hin]; [left; reflexivity | right; right].
        exact Hin.
      * intros y [<- | [<- | Hy]].
        -- apply Hmin. left. reflexivity.
        -- apply Qle_trans with x; [| exact Ezx].
           apply Hmin. left. reflexivity.
        -- apply Hmin. right. exact Hy.
Qed.

(** X23.  [analyze_hamiltonian] never raises.  It returns the error
    dictionary exactly when one of the numpy calls on the Hamiltonian
    ([norm], [matrix_rank], [allclose]) raises or the decomposition is empty
    (the [max] of an empty list); the error reported is that of the first
    call to fail.  Otherwise it returns an analysis that carries the results
    of those calls, whose [dominant_terms] are [min(5, n)] terms of the
    decomposition in descending order of modulus, whose [max] is the modulus
    of the first dominant term, whose [min] and [max] bound every modulus,
    and whose operator distribution is that of
    [_analyze_operator_distribution]. *)
Theorem analyze_hamiltonian_report (np : HamiltonianAnalysis.Numpy)
    (hr : QuantumSimulator.HamiltonianResult) :
  let H := QuantumSimulator.hamiltonian_matrix hr in
  let d := QuantumSimulator.pauli_decomposition hr in
  let report := HamiltonianAnalysis.analyze_hamiltonian np hr in
  (forall e, HamiltonianAnalysis.linalg_norm np H = inl e ->
             report = HamiltonianAnalysis.AnalysisError e)
  /\ (forall x e,
        HamiltonianAnalysis.linalg_norm np H = inr x ->
        HamiltonianAnalysis.matrix_rank np H = inl e ->
        report = HamiltonianAnalysis.AnalysisError e)
  /\ (forall x k e,
        HamiltonianAnalysis.linalg_norm np H = inr x ->
        HamiltonianAnalysis.matrix_rank np H = inr k ->
        HamiltonianAnalysis.allclose_conj_transpose np H = inl e ->
        report = HamiltonianAnalysis.AnalysisError e)
  /\ (forall x k h,
        HamiltonianAnalysis.linalg_norm np H = inr x ->
        HamiltonianAnalysis.matrix_rank np H = inr k ->
        HamiltonianAnalysis.allclose_conj_transpose np H = inr h ->
        (d = [] ->
         report = HamiltonianAnalysis.AnalysisError
                    (ValueError "max() arg is an empty sequence"))
        /\ (d <> [] ->
            exists a,
              report = HamiltonianAnalysis.Analyzed a
              /\ HamiltonianAnalysis.spectral_norm a = x
              /\ HamiltonianAnalysis.rank a = k
              /\ HamiltonianAnalysis.is_hermitian a = h
              /\ HamiltonianAnalysis.total_terms a = length d
              /\ length (HamiltonianAnalysis.dominant_terms a)
                 = Nat.min 5 (length d)
              /\ StronglySorted (desc HamiltonianAnalysis.modulus)
                   (HamiltonianAnalysis.dominant_terms a)
              /\ incl (HamiltonianAnalysis.dominant_terms a) d
              /\ (forall term, In term d ->
                    (HamiltonianAnalysis.stat_min
                       (HamiltonianAnalysis.coefficient_stats a)
                     <= HamiltonianAnalysis.modulus term
                     <= HamiltonianAnalysis.stat_max
                          (HamiltonianAnalysis.coefficient_stats a))%Q)
              /\ (forall first rest,
                    HamiltonianAnalysis.dominant_terms a = first :: rest ->
                    (HamiltonianAnalysis.modulus first
                     == HamiltonianAnalysis.stat_max
                          (HamiltonianAnalysis.coefficient_stats a))%Q)
              /\ HamiltonianAnalysis.operator_distribution a
                 = SimulatorService._analyze_operator_distribution d))
  /\ ((exists e, report = HamiltonianAnalysis.AnalysisError e)
      <-> ((exists e, HamiltonianAnalysis.linalg_norm np H = inl e)
           \/ (exists e, HamiltonianAnalysis.matrix_rank np H = inl e)
           \/ (exists e,
                 HamiltonianAnalysis.allclose_conj_transpose np H = inl e)
           \/ d = [])).
Proof.
  cbv zeta.
  assert (Hok : forall x k h,
             HamiltonianAnalysis.linalg_norm np
               (QuantumSimulator.hamiltonian_matrix hr) = inr x ->
             HamiltonianAnalysis.matrix_rank np
               (QuantumSimulator.hamiltonian_matrix hr) = inr k ->
             HamiltonianAnalysis.allclose_conj_transpose np
               (QuantumSimulator.hamiltonian_matrix hr) = inr h ->
             (QuantumSimulator.pauli_decomposition hr = [] ->
              HamiltonianAnalysis.analyze_hamiltonian np hr
              = HamiltonianAnalysis.AnalysisError
                  (ValueError "max() arg is an empty sequence"))
             /\ (QuantumSimulator.pauli_decomposition hr <> [] ->
                 exists a,
                   HamiltonianAnalysis.analyze_hamiltonian np hr
                   = HamiltonianAnalysis.Analyzed a
                   /\ HamiltonianAnalysis.spectral_norm a = x
                   /\ HamiltonianAnalysis.rank a = k
                   /\ HamiltonianAnalysis.is_hermitian a = h
                   /\ HamiltonianAnalysis.total_terms a
                      = length (QuantumSimulator.pauli_decomposition hr)
                   /\ length (HamiltonianAnalysis.dominant_terms a)
                      = Nat.min 5
                          (length (QuantumSimulator.pauli_decomposition hr))
                   /\ StronglySorted (desc HamiltonianAnalysis.modulus)
                        (HamiltonianAnalysis.dominant_terms a)
                   /\ incl (HamiltonianAnalysis.dominant_terms a)
                        (QuantumSimulator.pauli_decomposition hr)
                   /\ (forall term,
                         In term (QuantumSimulator.pauli_decomposition hr) ->
                         (HamiltonianAnalysis.stat_min
                            (HamiltonianAnalysis.coefficient_stats a)
                          <= HamiltonianAnalysis.modulus term
                          <= HamiltonianAnalysis.stat_max
                               (HamiltonianAnalysis.coefficient_stats a))%Q)
                   /\ (forall first rest,
                         HamiltonianAnalysis.dominant_terms a
                         = first :: rest ->
                         (HamiltonianAnalysis.modulus first
                          == HamiltonianAnalysis.stat_max
                               (HamiltonianAnalysis.coefficient_stats a))%Q)
                   /\ HamiltonianAnalysis.operator_distribution a
                      = SimulatorService._analyze_operator_distribution
                          (QuantumSimulator.pauli_decomposition hr))).
  { intros x k h Hx Hk Hh.
    unfold HamiltonianAnalysis.analyze_hamiltonian,
      HamiltonianAnalysis.analysis_body.
    cbv zeta. rewrite Hx, bind_inr, Hk, bind_inr, Hh, bind_inr.
    destruct (QuantumSimulator.pauli_decomposition hr) as [| t0 d] eqn:Ed.
    - split; [intros _; reflexivity | intros Hne; contradiction].
    - split; [discriminate |]. intros _.
      set (full := t0 :: d) in *.
      assert (Hfull : map HamiltonianAnalysis.modulus full
                      = HamiltonianAnalysis.modulus t0
                        :: map HamiltonianAnalysis.modulus d) by reflexivity.
      rewrite Hfull. unfold HamiltonianAnalysis.py_max,
        HamiltonianAnalysis.py_min.
      py_simpl.
      destruct (fold_max_spec (map HamiltonianAnalysis.modulus d)
                  (HamiltonianAnalysis.modulus t0)) as [Hmaxin Hmax].
      destruct (fold_min_spec (map HamiltonianAnalysis.modulus d)
                  (HamiltonianAnalysis.modulus t0)) as [_ Hmin].
      rewrite <- Hfull in Hmaxin, Hmax, Hmin.
      set (largest := fold_left (fun m y => if Qltb m y then y else m)
                        (map HamiltonianAnalysis.modulus d)
                        (HamiltonianAnalysis.modulus t0)) in *.
      set (smallest := fold_left (fun m y => if Qltb y m then y else m)
                         (map HamiltonianAnalysis.modulus d)
                         (HamiltonianAnalysis.modulus t0)) in *.
      set (sorted := sort_desc HamiltonianAnalysis.modulus full).
      assert (Hperm : Permutation full sorted) by apply sort_desc_perm.
      assert (Hsorted : StronglySorted (desc HamiltonianAnalysis.modulus)
                          sorted) by apply sort_desc_sorted.
      eexists. split; [reflexivity |].
      cbn [HamiltonianAnalysis.total_terms HamiltonianAnalysis.dominant_terms
             HamiltonianAnalysis.coefficient_stats
             HamiltonianAnalysis.operator_distribution
             HamiltonianAnalysis.stat_max HamiltonianAnalysis.stat_min
             HamiltonianAnalysis.spectral_norm HamiltonianAnalysis.rank
             HamiltonianAnalysis.is_hermitian].
      fold sorted.
      split; [reflexivity |]. split; [reflexivity |].
      split; [reflexivity |]. split; [reflexivity |].
      split; [rewrite length_firstn; unfold sorted;
              rewrite sort_desc_length; reflexivity |].
      split; [apply firstn_sorted; exact Hsorted |].
      split.
      { intros term Hterm. apply in_firstn in Hterm.
        eapply Permutation_in; [symmetry; exact Hperm | exact Hterm]. }
      split.
      { intros term Hterm. split.
        - apply Hmin, in_map, Hterm.
        - apply Hmax, in_map, Hterm. }
      split; [| reflexivity].
      intros first rest Hdom.
      assert (Hhead : exists tail, sorted = first :: tail).
      { destruct sorted as [| s0 tail]; [discriminate Hdom |].
        simpl in Hdom. injection Hdom as -> _. exists tail. reflexivity. }
      destruct Hhead as [tail Hhead].
      apply Qle_antisym.
      + apply Hmax, in_map.
        eapply Permutation_in; [symmetry; exact Hperm |].
        rewrite Hhead. left. reflexivity.
      + apply in_map_iff in Hmaxin. destruct Hmaxin as [t [<- Ht]].
        apply (Permutation_in _ Hperm) in Ht. rewrite Hhead in Ht, Hsorted.
        destruct Ht as [<- | Ht]; [apply Qle_refl |].
        inversion Hsorted as [| ? ? _ Hall]; subst.
        rewrite Forall_forall in Hall. apply (Hall t Ht). }
  assert (Hnorm : forall e,
             HamiltonianAnalysis.linalg_norm np
               (QuantumSimulator.hamiltonian_matrix hr) = inl e ->
             HamiltonianAnalysis.analyze_hamiltonian np hr
             = HamiltonianAnalysis.AnalysisError e).
  { intros e He.
    unfold HamiltonianAnalysis.analyze_hamiltonian,
      HamiltonianAnalysis.analysis_body.
    cbv zeta. rewrite He, bind_inl. reflexivity. }
  assert (Hrank : forall x e,
             HamiltonianAnalysis.linalg_norm np
               (QuantumSimulator.hamiltonian_matrix hr) = inr x ->
             HamiltonianAnalysis.matrix_rank np
               (QuantumSimulator.hamiltonian_matrix hr) = inl e ->
             HamiltonianAnalysis.analyze_hamiltonian np hr
             = HamiltonianAnalysis.AnalysisError e).
  { intros x e Hx He.
    unfold HamiltonianAnalysis.analyze_hamiltonian,
      HamiltonianAnalysis.analysis_body.
    cbv zeta. rewrite Hx, bind_inr, He, bind_inl. reflexivity. }
  assert (Hclose : forall x k e,
             HamiltonianAnalysis.linalg_norm np
               (QuantumSimulator.hamiltonian_matrix hr) = inr x ->
             HamiltonianAnalysis.matrix_rank np
               (QuantumSimulator.hamiltonian_matrix hr) = inr k ->
             HamiltonianAnalysis.allclose_conj_transpose np
               (QuantumSimulator.hamiltonian_matrix hr) = inl e ->
             HamiltonianAnalysis.analyze_hamiltonian np hr
             = HamiltonianAnalysis.AnalysisError e).
  { intros x k e Hx Hk He.
    unfold HamiltonianAnalysis.analyze_hamiltonian,
      HamiltonianAnalysis.analysis_body.
    cbv zeta. rewrite Hx, bind_inr, Hk, bind_inr, He, bind_inl.
    reflexivity. }
  split; [exact Hnorm |]. split; [exact Hrank |]. split; [exact Hclose |].
  split; [exact Hok |].
  destruct (HamiltonianAnalysis.linalg_norm np
              (QuantumSimulator.hamiltonian_matrix hr)) as [e1 | x] eqn:E1.
  { split; [intros _; left; exists e1; reflexivity |].
    intros _. exists e1. apply Hnorm. reflexivity. }
  destruct (HamiltonianAnalysis.matrix_rank np
              (QuantumSimulator.hamiltonian_matrix hr)) as [e2 | k] eqn:E2.
  { split; [intros _; right; left; exists e2; reflexivity |].
    intros _. exists e2. apply (Hrank x); reflexivity. }
  destruct (HamiltonianAnalysis.allclose_conj_transpose np
              (QuantumSimulator.hamiltonian_matrix hr)) as [e3 | h] eqn:E3.
  { split; [intros _; right; right; left; exists e3; reflexivity |].
    intros _. exists e3. apply (Hclose x k); reflexivity. }
  destruct (Hok x k h eq_refl eq_refl eq_refl) as [Hempty Hfull].
  destruct (QuantumSimulator.pauli_decomposition hr) as [| t0 d] eqn:Ed.
  - split; [intros _; right; right; right; reflexivity |].
    intros _. eexists. apply Hempty. reflexivity.
  - split.
    + intros [e He].
      destruct Hfull as [a [Ha _]]; [discriminate |].
      rewrite Ha in He. discriminate He.
    + intros [[e He] | [[e He] | [[e He] | Hd]]]; discriminate.
Qed.

(* ===================================================================== *)
(** ** compute_pauli_coefficients: the shape of the terms                 *)
(* ===================================================================== *)

Lemma support_pair_label (nq i j : nat) (c : ascii) :
  c <> chI -> support (PauliCoeffs.pair_label nq i j c) = [c; c].
Proof.
  intros Hc. unfold support. rewrite pair_label_chars, support_repeat_I.
  assert (Hkeep : negb (Ascii.eqb c chI) = true).
  { destruct (Ascii.eqb_spec c chI); [contradiction | reflexivity]. }
  simpl. rewrite Hkeep, support_repeat_I. simpl. rewrite Hkeep.
  rewrite <- (app_nil_r (repeat chI (nq - j - 1))), support_repeat_I.
  reflexivity.
Qed.

Lemma all_labels_support (nq m m' : nat) (s : string) :
  In s (all_labels nq m m') ->
  support s = [] \/ support s = [chZ]
  \/ (2 <= m /\ (support s = [chX; chX] \/ support s = [chY; chY])).
Proof.
  unfold all_labels. intros [<- | Hin].
  - left. apply support_identity.
  - apply in_app_or in Hin. destruct Hin as [Hin | Hin].
    + apply in_map_iff in Hin. destruct Hin as [i [<- _]].
      right. left. apply support_z_string.
    + apply in_flat_map in Hin. destruct Hin as [i [_ Hin]].
      apply in_flat_map in Hin. destruct Hin as [j [Hj Hin]].
      apply in_seq in Hj. right. right. split; [lia |].
      destruct Hin as [<- | [<- | []]]; [left | right];
        apply support_pair_label; discriminate.
Qed.

(** X24.  Every operator of a decomposition has Pauli weight at most two:
    it is the identity, a single Z, or a pair XX or a pair YY.  No term
    with a single X or Y, no term mixing letters and no term on three or
    more qubits is ever produced; on one qubit (a 2 x 2 input) the
    off-diagonal entries are never represented at all. *)
Theorem decomposition_weight_two (H : matrix complex) (max_terms : Z)
    (threshold : Q) :
  1 <= length H ->
  is_square H = true ->
  exists d,
    PauliCoeffs.compute_pauli_coefficients H max_terms threshold = inr d
    /\ Forall
         (fun term =>
            support term = [] \/ support term = [chZ]
            \/ support term = [chX; chX] \/ support term = [chY; chY])
         (PauliCoeffs.pauli_terms d)
    /\ (length H <= 2 ->
        Forall (fun term => support term = [] \/ support term = [chZ])
          (PauliCoeffs.pauli_terms d)).
Proof.
  intros Hn Hsq.
  destruct (compute_pauli_coefficients_run H max_terms threshold Hn Hsq)
    as [cands [_ [Hext Hrun]]].
  eexists. split; [exact Hrun |].
  cbn [PauliCoeffs.pauli_terms].
  assert (Hlabel : forall term,
             In term (map fst (py_take max_terms
                                 (PauliCoeffs.argsort_desc cands))) ->
             In term (all_labels (qubits_for H)
                        (Nat.min (qubits_for H) (length H))
                        (Nat.min (qubits_for H) (length H - 1)))).
  { intros term Hterm. apply in_map_iff in Hterm.
    destruct Hterm as [c [<- Hc]].
    apply (kept_in_full H max_terms threshold cands c Hext) in Hc.
    apply (subseq_in _ _ _ (full_candidates_labels H threshold)).
    apply in_map. exact Hc. }
  split.
  - apply Forall_forall. intros term Hterm.
    destruct (all_labels_support _ _ _ _ (Hlabel term Hterm))
      as [Hs | [Hs | [_ [Hs | Hs]]]]; auto.
  - intros Hsmall. apply Forall_forall. intros term Hterm.
    destruct (all_labels_support _ _ _ _ (Hlabel term Hterm))
      as [Hs | [Hs | [Hm _]]]; auto.
    exfalso.
    assert (Hq : qubits_for H <= 1).
    { unfold qubits_for.
      assert (Hcases : length H = 1 \/ length H = 2) by lia.
      destruct Hcases as [-> | ->]; vm_compute; lia. }
    lia.
Qed.

(** X24 on [coupled4]: its four operators are IZ, YY, XX and ZI. *)
Lemma decomposition_weight_two_witness :
  exists d,
    PauliCoeffs.compute_pauli_coefficients coupled4 10 (1 # 1000000) = inr d
    /\ map support (PauliCoeffs.pauli_terms d)
       = [[chZ]; [chY; chY]; [chX; chX]; [chZ]].
Proof.
  destruct (decomposition_weight_two coupled4 10 (1 # 1000000))
    as [d [Hrun _]]; [simpl; lia | reflexivity |].
  exists d. split; [exact Hrun |].
  vm_compute in Hrun. injection Hrun as <-. reflexivity.
Defined.

(* ===================================================================== *)
(** ** compute_pauli_coefficients: what of the matrix is read             *)
(* ===================================================================== *)

Section LeadingBlock.

Import PauliCoeffs.

Variables H H' : matrix complex.
Variable threshold : Q.
Variable max_terms : Z.
Variable n nq : nat.
Hypothesis Hblock :
  forall i j, i < nq -> j < nq -> getitem H i j = getitem H' i j.

Lemma z_terms_agree (idxs : list nat) (acc : list candidate) :
  Forall (fun i => i < nq) idxs ->
  z_terms H n nq threshold max_terms idxs acc
  = z_terms H' n nq threshold max_terms idxs acc.
Proof.
  intros Hidx. revert acc.
  induction Hidx as [| i rest Hi _ IH]; intros acc; simpl; [reflexivity |].
  rewrite (Hblock i i Hi Hi).
  destruct (i <? n); [| apply IH].
  destruct (getitem H' i i) as [e | dgl]; [reflexivity |]. py_simpl.
  destruct (cabs_gt dgl threshold); [| apply IH].
  cbv zeta. destruct (reached max_terms _); [reflexivity | apply IH].
Qed.

Lemma pair_body_agree (i j : nat) (acc : list candidate) :
  i < nq -> j < nq ->
  pair_body H n nq threshold max_terms i j acc
  = pair_body H' n nq threshold max_terms i j acc.
Proof.
  intros Hi Hj. unfold pair_body. rewrite (Hblock i j Hi Hj). reflexivity.
Qed.

Lemma pair_inner_agree (i : nat) (js : list nat) (acc : list candidate) :
  i < nq -> Forall (fun j => j < nq) js ->
  pair_inner H n nq threshold max_terms i js acc
  = pair_inner H' n nq threshold max_terms i js acc.
Proof.
  intros Hi Hjs. revert acc.
  induction Hjs as [| j rest Hj _ IH]; intros acc; simpl; [reflexivity |].
  rewrite (pair_body_agree i j acc Hi Hj).
  destruct (pair_body H' n nq threshold max_terms i j acc)
    as [e | [acc' brk]]; [reflexivity |]. py_simpl. cbv beta iota.
  destruct brk; [reflexivity |].
  destruct (reached max_terms acc'); [reflexivity | apply IH].
Qed.

Lemma pair_outer_agree (idxs : list nat) (acc : list candidate) :
  Forall (fun i => i < nq) idxs ->
  pair_outer H n nq threshold max_terms idxs acc
  = pair_outer H' n nq threshold max_terms idxs acc.
Proof.
  intros Hidx. revert acc.
  induction Hidx as [| i rest Hi _ IH]; intros acc; simpl; [reflexivity |].
  rewrite (pair_inner_agree i _ acc Hi)
    by (apply Forall_forall; intros j Hj; apply in_seq in Hj; lia).
  destruct (pair_inner H' n nq threshold max_terms i _ acc)
    as [e | acc']; [reflexivity |]. py_simpl. apply IH.
Qed.

End LeadingBlock.

(** X25.  [compute_pauli_coefficients] reads only the trace and the
    leading [num_qubits x num_qubits] block of its input: two matrices of
    the same side with the same trace and the same leading block get the
    same result, whatever their other entries (the remaining
    [n - num_qubits] diagonal entries count only through the trace). *)
Theorem decomposition_reads_leading_block (H H' : matrix complex)
    (max_terms : Z) (threshold : Q) :
  length H = length H' ->
  np_trace H = np_trace H' ->
  (forall i j, i < qubits_for H -> j < qubits_for H ->
     getitem H i j = getitem H' i j) ->
  PauliCoeffs.compute_pauli_coefficients H max_terms threshold
  = PauliCoeffs.compute_pauli_coefficients H' max_terms threshold.
Proof.
  intros Hlen Htrace Hblock.
  unfold PauliCoeffs.compute_pauli_coefficients. cbv zeta.
  rewrite <- Hlen.
  destruct (ceil_log2 (length H)) as [e | nq] eqn:Elog; [reflexivity |].
  py_simpl.
  assert (Hnq : nq = qubits_for H).
  { unfold ceil_log2 in Elog. unfold qubits_for.
    destruct (length H); [discriminate Elog |].
    apply inr_eq in Elog. symmetry. exact Elog. }
  subst nq.
  assert (Hacc : PauliCoeffs.accumulate H (length H) (qubits_for H)
                   max_terms threshold
                 = PauliCoeffs.accumulate H' (length H) (qubits_for H)
                     max_terms threshold).
  { unfold PauliCoeffs.accumulate, PauliCoeffs.identity_term. cbv zeta.
    rewrite <- Htrace.
    rewrite (z_terms_agree H H' threshold max_terms (length H)
               (qubits_for H) Hblock)
      by (apply Forall_forall; intros i Hi; apply in_seq in Hi; lia).
    destruct (PauliCoeffs.z_terms H' _ _ _ _ _ _) as [e | acc1];
      [reflexivity |]. py_simpl.
    destruct (Z.of_nat (length acc1) <? max_terms)%Z; [| reflexivity].
    apply (pair_outer_agree H H' threshold max_terms (length H)
             (qubits_for H) Hblock).
    apply Forall_forall. intros i Hi. apply in_seq in Hi. lia. }
  rewrite Hacc. reflexivity.
Qed.

(** X25 on [scenario_b] and the same matrix with another corner: equal
    traces and leading blocks, equal decompositions. *)
Lemma decomposition_reads_leading_block_witness :
  PauliCoeffs.compute_pauli_coefficients scenario_b 10 (1 # 1000000)
  = PauliCoeffs.compute_pauli_coefficients
      [[Cx 5 0; c0; c0; c0];
       [c0; Cx (-3) 0; c0; Cx 9 9];
       [c0; c0; Cx 7 0; c0];
       [c0; Cx 4 0; c0; Cx (-7) 0]] 10 (1 # 1000000).
Proof.
  apply decomposition_reads_leading_block.
  - reflexivity.
  - vm_compute. reflexivity.
  - intros [| [| i]] [| [| j]] Hi Hj; try reflexivity;
      vm_compute in Hi, Hj; lia.
Defined.

(* ===================================================================== *)
(** ** allowed_file                                                       *)
(* ===================================================================== *)

Lemma after_last_dot_none (s : string) :
  dot_free s -> ApiUtils.after_last_dot s = None.
Proof.
  unfold dot_free, chars. induction s as [| c tl IH]; simpl;
    [reflexivity |].
  intros Hfree. rewrite IH by (intros Hin; apply Hfree; right; exact Hin).
  destruct (Ascii.eqb_spec c ApiUtils.dot) as [-> | _]; [| reflexivity].
  exfalso. apply Hfree. left. reflexivity.
Qed.

Lemma after_last_dot_app (stem ext : string) :
  dot_free ext ->
  ApiUtils.after_last_dot (stem ++ String ApiUtils.dot ext) = Some ext.
Proof.
  intros Hfree. induction stem as [| c tl IH]; simpl.
  - rewrite (after_last_dot_none ext Hfree). reflexivity.
  - rewrite IH. reflexivity.
Qed.

Lemma after_last_dot_shape (s ext : string) :
  ApiUtils.after_last_dot s = Some ext ->
  dot_free ext /\ exists stem, s = (stem ++ String ApiUtils.dot ext)%string.
Proof.
  revert ext. induction s as [| c tl IH]; intros ext; simpl;
    [discriminate |].
  destruct (ApiUtils.after_last_dot tl) as [ext' |] eqn:Etl.
  - intros Hext. injection Hext as <-.
    destruct (IH ext' eq_refl) as [Hfree [stem ->]].
    split; [exact Hfree |]. exists (String c stem). reflexivity.
  - destruct (Ascii.eqb_spec c ApiUtils.dot) as [-> | _]; [| discriminate].
    intros Hext. injection Hext as <-. split.
    + unfold dot_free, chars. clear IH.
      induction tl as [| d tl IHtl]; simpl; [intros [] |].
      simpl in Etl.
      destruct (ApiUtils.after_last_dot tl) as [x |]; [discriminate |].
      destruct (Ascii.eqb_spec d ApiUtils.dot) as [-> | Hd];
        [discriminate |].
      intros [Heq | Hin]; [congruence | exact (IHtl eq_refl Hin)].
    + exists EmptyString. reflexivity.
Qed.

(** X26.  [allowed_file] looks only at what follows the last dot, and
    case-insensitively: a name [stem.ext] is accepted exactly when the
    lower-cased [ext] is one of the six extensions, whatever the stem (an
    empty stem included); a name without a dot is rejected; and every
    accepted name has that form. *)
Theorem allowed_file_extension (stem ext filename : string) :
  (dot_free ext ->
   ApiUtils.allowed_file (stem ++ String ApiUtils.dot ext)
   = existsb (String.eqb (ApiUtils.lower ext)) ApiUtils.ALLOWED_EXTENSIONS)
  /\ (dot_free filename -> ApiUtils.allowed_file filename = false)
  /\ (ApiUtils.allowed_file filename = true ->
      exists stem' ext',
        filename = (stem' ++ String ApiUtils.dot ext')%string
        /\ dot_free ext'
        /\ In (ApiUtils.lower ext') ApiUtils.ALLOWED_EXTENSIONS).
Proof.
  split; [| split].
  - intros Hfree. unfold ApiUtils.allowed_file.
    rewrite (after_last_dot_app stem ext Hfree).
    destruct stem; reflexivity.
  - intros Hfree. unfold ApiUtils.allowed_file.
    rewrite (after_last_dot_none filename Hfree).
    destruct filename; reflexivity.
  - unfold ApiUtils.allowed_file.
    destruct filename as [| c tl]; [discriminate |].
    destruct (ApiUtils.after_last_dot (String c tl)) as [ext' |] eqn:Eext;
      [| discriminate].
    intros Hin. apply existsb_exists in Hin.
    destruct Hin as [x [Hx Heq]]. apply String.eqb_eq in Heq. subst x.
    destruct (after_last_dot_shape _ _ Eext) as [Hfree [stem' Hshape]].
    exists stem', ext'. split; [exact Hshape |].
    split; [exact Hfree | exact Hx].
Qed.

(** X26 on an archive-like name in capitals. *)
Lemma allowed_file_extension_witness :
  ApiUtils.allowed_file "wing.v2.VTK" = true
  /\ ApiUtils.allowed_file "vtk" = false.
Proof.
  destruct (allowed_file_extension "wing.v2" "VTK" "vtk")
    as [Hext [Hnone _]].
  split.
  - change "wing.v2.VTK"%string
      with ("wing.v2" ++ String ApiUtils.dot "VTK")%string.
    rewrite Hext; [reflexivity |].
    unfold dot_free. simpl. intuition discriminate.
  - apply Hnone. unfold dot_free. simpl. intuition discriminate.
Defined.

(* ===================================================================== *)
(** ** file_handler: status after deletion                                *)
(* ===================================================================== *)

Lemma check_summaries_absent (env : FileHandler.Environment)
    (file_id : string) (fs : FileHandler.filesystem)
    (comp_types : list string) (status : FileHandler.Status) :
  (forall comp_type, In comp_type comp_types ->
     FileHandler.exists_ fs
       (FileHandler.summary_file env file_id comp_type) = false) ->
  FileHandler.check_summaries env file_id fs comp_types status = inr status.
Proof.
  induction comp_types as [| comp_type rest IH]; intros Habsent; simpl;
    [reflexivity |].
  rewrite (Habsent comp_type) by (left; reflexivity).
  apply IH. intros c Hc. apply Habsent. right. exact Hc.
Qed.

(** X27.  Deleting and then asking for the status is a round trip to the
    blank state: after a [delete_file_data] that returned [True],
    [get_processing_status] reports the file as not uploaded, with no
    matrices, Hamiltonian or simulation, and no update time, whatever was
    stored before. *)
Theorem status_after_delete (env : FileHandler.Environment)
    (file_id : string) (fs : FileHandler.filesystem) :
  snd (FileHandler.delete_file_data env file_id fs) = true ->
  FileHandler.get_processing_status env file_id
    (fst (FileHandler.delete_file_data env file_id fs))
  = FileHandler.Reported (FileHandler.MkStatus false false false false None).
Proof.
  intros Hok.
  pose proof (delete_file_data_clears env file_id fs Hok) as Hgone.
  unfold FileHandler.get_processing_status, FileHandler.get_file_metadata.
  cbv zeta.
  rewrite (Hgone (FileHandler.metadata_file env file_id))
    by (left; reflexivity).
  py_simpl. rewrite check_summaries_absent; [reflexivity |].
  intros comp_type Hin. apply Hgone. right. left.
  unfold FileHandler.result_paths. apply in_flat_map.
  exists comp_type. split; [exact Hin |]. right. left. reflexivity.
Qed.

(** X27 on the sample store: reported as uploaded before, blank after. *)
Lemma status_after_delete_witness :
  FileHandler.get_processing_status plain_layout "f1" uploaded_once
  = FileHandler.Reported (FileHandler.MkStatus true false false false None)
  /\ FileHandler.get_processing_status plain_layout "f1"
       (fst (FileHandler.delete_file_data plain_layout "f1" uploaded_once))
     = FileHandler.Reported
         (FileHandler.MkStatus false false false false None).
Proof.
  split; [reflexivity |].
  apply (status_after_delete plain_layout "f1" uploaded_once). reflexivity.
Defined.
